(** * AIRBot: the diff parser and the sandboxed repository tools

    A shallow embedding of the path codec ([src/parsing/gitPath.ts]), of
    the diff parser ([parseUnifiedDiff]) and of the repository tools
    (Read, Glob and Grep of [createToolRegistry]), with the properties
    stated about them.

    JavaScript strings are sequences of UTF-16 code units: a string is a
    list of code units, each an [N].  Array and string indices are [nat];
    [slice] takes [Z] arguments because the source passes negative ones.
    The line numbers of the parser are JavaScript numbers, that is
    doubles: see [number] below. *)

From Stdlib Require Import NArith ZArith String Ascii List Lia Bool Sorted Permutation.
From stdpp Require Import base tactics option list.
From Equations Require Import Equations.
Import ListNotations.

Local Open Scope N_scope.

(** ** JavaScript strings *)

Abbreviation jstring := (list N) (only parsing).

Module JS.

(** A string literal of the source, as code units (ASCII literals only). *)
Definition str (s : string) : jstring :=
  map N_of_ascii (list_ascii_of_string s).

Definition chr (a : ascii) : N := N_of_ascii a.

Definition LF : N := 10.
Definition CR : N := 13.

(** [s.length > 0] *)
Definition nonEmpty (s : jstring) : bool := (0 <? length s)%nat.

(** [s.startsWith(p)] *)
Fixpoint startsWith (s p : jstring) {struct p} : bool :=
  match p, s with
  | [], _ => true
  | _ :: _, [] => false
  | a :: p', b :: s' => (a =? b) && startsWith s' p'
  end.

(** [s.endsWith(p)] *)
Definition endsWith (s p : jstring) : bool :=
  startsWith (rev s) (rev p).

(** [s === t] on strings *)
Fixpoint eqs (s t : jstring) : bool :=
  match s, t with
  | [], [] => true
  | a :: s', b :: t' => (a =? b) && eqs s' t'
  | _, _ => false
  end.

(** The index conversion of [String.prototype.slice]: a negative index
    counts from the end, and the result is clamped to [0, len]. *)
Definition clampIndex (len : nat) (k : Z) : nat :=
  if (k <? 0)%Z then Z.to_nat (Z.max 0 (Z.of_nat len + k))
  else Nat.min (Z.to_nat k) len.

(** [s.slice(b, e)] *)
Definition slice (s : jstring) (b e : Z) : jstring :=
  let from := clampIndex (length s) b in
  let to := clampIndex (length s) e in
  take (to - from)%nat (drop from s).

(** [s.slice(b)] *)
Definition sliceFrom (s : jstring) (b : Z) : jstring :=
  drop (clampIndex (length s) b) s.

(** The white space and line terminators that [trim] removes. *)
Definition isWhiteSpace (c : N) : bool :=
  ((9 <=? c) && (c <=? 13)) || (c =? 32) || (c =? 160) || (c =? 5760)
  || ((8192 <=? c) && (c <=? 8202)) || (c =? 8232) || (c =? 8233)
  || (c =? 8239) || (c =? 8287) || (c =? 12288) || (c =? 65279).

Fixpoint trimStart (s : jstring) : jstring :=
  match s with
  | c :: r => if isWhiteSpace c then trimStart r else s
  | [] => []
  end.

Definition trimEnd (s : jstring) : jstring := rev (trimStart (rev s)).

(** [s.trim()] *)
Definition trim (s : jstring) : jstring := trimEnd (trimStart s).

(** [s.replace(/\r\n/g, "\n")] *)
Fixpoint replaceCRLF (s : jstring) : jstring :=
  match s with
  | [] => []
  | c :: r =>
    match r with
    | d :: r' =>
      if (c =? 13) && (d =? 10) then 10 :: replaceCRLF r'
      else c :: replaceCRLF r
    | [] => [c]
    end
  end.

(** [s.split(sep)] for a one-character separator: the fields between the
    separators, at least one. *)
Fixpoint split (sep : N) (s : jstring) : list jstring :=
  match s with
  | [] => [[]]
  | c :: r =>
    if c =? sep then [] :: split sep r
    else match split sep r with
         | l :: ls => (c :: l) :: ls
         | [] => [[c]]
         end
  end.

(** [s.indexOf(c)] for a one-character string; [None] is [-1]. *)
Fixpoint indexOf (s : jstring) (c : N) : option nat :=
  match s with
  | [] => None
  | x :: r => if x =? c then Some 0%nat else S <$> indexOf r c
  end.

(** [s.indexOf(c, from)] *)
Definition indexOfFrom (s : jstring) (c : N) (from : nat) : option nat :=
  (fun i => (from + i)%nat) <$> indexOf (drop from s) c.

(** [s.includes(sub)] *)
Fixpoint includes (s sub : jstring) : bool :=
  startsWith s sub ||
  match s with
  | [] => false
  | _ :: r => includes r sub
  end.

(** A value with the proof that it is the value of [x]. *)
Definition inspect {A : Type} (x : A) : { y : A | x = y } := exist _ x eq_refl.

(** *** JavaScript numbers

    A JavaScript number is a double.  The numbers that the parser makes
    are the results of [Number] on a string of decimal digits and of
    [+= 1] on these: they are non-negative integers that a double holds,
    or [Infinity]. *)
Inductive number :=
| Finite (n : N)
| Infinity.

(** The double nearest to the natural [n], ties to the even significand
    (the rounding of [Number] and of the addition): [n] itself below
    [2^53]; from there on [n] keeps its 53 leading binary digits [q],
    its unit in the last place being [2^e], and is rounded by the rest
    [r]; what would reach [2^1024] is [Infinity]. *)
Definition roundToDouble (n : N) : number :=
  if n <? 2 ^ 53 then Finite n
  else
    let e := N.log2 n - 52 in
    let q := N.shiftr n e in
    let r := n - N.shiftl q e in
    let half := 2 ^ (e - 1) in
    let q' :=
      if r <? half then q
      else if half <? r then q + 1
      else if N.even q then q else q + 1 in
    let v := N.shiftl q' e in
    if v <? 2 ^ 1024 then Finite v else Infinity.

(** [x + 1], as in [x += 1] *)
Definition addOne (x : number) : number :=
  match x with
  | Finite n => roundToDouble (n + 1)
  | Infinity => Infinity
  end.

End JS.

(** ** The path codec: [src/parsing/gitPath.ts] *)

Module GitPath.
Import JS.

Definition BACKSLASH : N := 92.
Definition DQUOTE : N := 34.
Definition SQUOTE : N := 39.
Definition SPACE : N := 32.

Definition DEV_NULL : jstring := str "/dev/null".

(** [GIT_ESCAPE_SEQUENCES[next]]: the table of one-character escapes;
    [None] is JavaScript's [undefined]. *)
Definition GIT_ESCAPE_SEQUENCES (next : N) : option N :=
  if next =? DQUOTE then Some DQUOTE
  else if next =? SQUOTE then Some SQUOTE
  else if next =? SPACE then Some SPACE
  else if next =? chr "t" then Some 9
  else if next =? chr "n" then Some 10
  else if next =? chr "r" then Some 13
  else if next =? BACKSLASH then Some BACKSLASH
  else None.

Definition stripEnclosingQuotes (value : jstring) : jstring :=
  if (2 <=? length value)%nat then
    let startsWithDouble := startsWith value [DQUOTE] && endsWith value [DQUOTE] in
    let startsWithSingle := startsWith value [SQUOTE] && endsWith value [SQUOTE] in
    if startsWithDouble || startsWithSingle then slice value 1 (-1)
    else value
  else value.

(** [/[0-7]/.test(c)] on a one-character string *)
Definition isOctalDigit (c : N) : bool := (48 <=? c) && (c <=? 55).

(** [parseInt(octal, 8)] on a non-empty string of octal digits *)
Definition parseOctal (digits : jstring) : N :=
  fold_left (fun acc d => 8 * acc + (d - 48)) digits 0.

(** The loop of [unescapeGitPath]; each call is one iteration, on the
    part of [value] from index [i] on.  An escape consumes its whole
    width before the scan goes on. *)
Fixpoint unescapeGitPath (value : jstring) : jstring :=
  match value with
  | [] => []
  | char :: rest =>
    if char =? BACKSLASH then
      match rest with
      | [] => char :: unescapeGitPath rest
      | next :: rest1 =>
        match GIT_ESCAPE_SEQUENCES next with
        | Some mapped => mapped :: unescapeGitPath rest1
        | None =>
          if isOctalDigit next then
            match rest1 with
            | d2 :: rest2 =>
              if isOctalDigit d2 then
                match rest2 with
                | d3 :: rest3 =>
                  if isOctalDigit d3
                  then parseOctal [next; d2; d3] :: unescapeGitPath rest3
                  else parseOctal [next; d2] :: unescapeGitPath rest2
                | [] => parseOctal [next; d2] :: unescapeGitPath rest2
                end
              else parseOctal [next] :: unescapeGitPath rest1
            | [] => parseOctal [next] :: unescapeGitPath rest1
            end
          else char :: unescapeGitPath rest
        end
      end
    else char :: unescapeGitPath rest
  end.

Definition normalizeGitPath (rawPath : jstring) : jstring :=
  let withoutQuotes := stripEnclosingQuotes rawPath in
  let unescaped := unescapeGitPath withoutQuotes in
  if eqs unescaped DEV_NULL then unescaped
  else if startsWith unescaped (str "a/") then sliceFrom unescaped 2
  else if startsWith unescaped (str "b/") then sliceFrom unescaped 2
  else unescaped.

(** [tokens.push(current)] when [current.length > 0] *)
Definition pushCurrent (tokens : list jstring) (current : jstring) : list jstring :=
  if (0 <? length current)%nat then tokens ++ [current] else tokens.

(** The loop of [tokenizeDiffGitPaths] on the rest of the input, with
    the state of the scan; the inner [while] that skips the spaces after
    a separator is the local [skip]. *)
Fixpoint tokenizeLoop (input : jstring) (tokens : list jstring)
    (current : jstring) (inQuotes escaped : bool) : list jstring :=
  match input with
  | [] => pushCurrent tokens current
  | char :: rest =>
    if escaped then tokenizeLoop rest tokens (current ++ [char]) inQuotes false
    else if char =? BACKSLASH then
      tokenizeLoop rest tokens (current ++ [char]) inQuotes true
    else if char =? DQUOTE then
      tokenizeLoop rest tokens (current ++ [char]) (negb inQuotes) false
    else if (char =? SPACE) && negb inQuotes then
      let tokens' := pushCurrent tokens current in
      (fix skip (r : jstring) : list jstring :=
         match r with
         | c :: r' =>
           if c =? SPACE then skip r'
           else tokenizeLoop r tokens' [] inQuotes false
         | [] => tokenizeLoop r tokens' [] inQuotes false
         end) rest
    else tokenizeLoop rest tokens (current ++ [char]) inQuotes false
  end.

Definition tokenizeDiffGitPaths (input : jstring) : list jstring :=
  tokenizeLoop input [] [] false false.

Definition isValidOld (raw : jstring) : bool :=
  let unquoted := stripEnclosingQuotes raw in
  eqs unquoted DEV_NULL || startsWith unquoted (str "a/").

Definition isValidNew (raw : jstring) : bool :=
  let unquoted := stripEnclosingQuotes raw in
  eqs unquoted DEV_NULL || startsWith unquoted (str "b/").

(** The result is the pair (rawOldPath, rawNewPath); [None] is [null]. *)
Definition splitDiffGitHeaderPaths (headerRemainder : jstring)
    : option (jstring * jstring) :=
  match headerRemainder with
  | [] => None
  | _ =>
    match tokenizeDiffGitPaths headerRemainder with
    | [rawOldPath; rawNewPath] =>
      if negb (isValidOld rawOldPath) || negb (isValidNew rawNewPath)
      then None
      else Some (rawOldPath, rawNewPath)
    | _ => None
    end
  end.

End GitPath.

(** ** The header tokens, as the specification words them

    A space separates two tokens when it is neither escaped (preceded by
    an unescaped backslash) nor inside a double-quoted region; the tokens
    are the non-empty fields between the separating spaces. *)

Module GitPathSpec.
Import JS GitPath.

(** One mark per code unit: [true] on a separating space. *)
Fixpoint separators (inQuotes escaped : bool) (s : jstring) : list bool :=
  match s with
  | [] => []
  | c :: r =>
    if escaped then false :: separators inQuotes false r
    else if c =? BACKSLASH then false :: separators inQuotes true r
    else if c =? DQUOTE then false :: separators (negb inQuotes) false r
    else ((c =? SPACE) && negb inQuotes) :: separators inQuotes false r
  end.

(** The fields of [s] between the marked code units (marks dropped). *)
Fixpoint fields (s : jstring) (marks : list bool) : list jstring :=
  match s, marks with
  | c :: r, m :: ms =>
    if m then [] :: fields r ms
    else match fields r ms with
         | p :: ps => (c :: p) :: ps
         | [] => [[c]]
         end
  | _, _ => [[]]
  end.

Definition spec_tokens (s : jstring) : list jstring :=
  List.filter nonEmpty (fields s (separators false false s)).

(** A token is well prefixed on the old side ([a/] or [/dev/null]) once
    its enclosing quotes are stripped; likewise [b/] on the new side. *)
Definition validPrefix (prefix raw : jstring) : Prop :=
  stripEnclosingQuotes raw = DEV_NULL \/
  exists r, stripEnclosingQuotes raw = prefix ++ r.

End GitPathSpec.

(** ** The diff parser: [src/parsing/unifiedDiff.ts] *)

Module UnifiedDiff.
Import JS GitPath.

Inductive DiffLineType := context | add | remove.

(** An optional field that is absent is [None]. *)
Record DiffLine := {
  type : DiffLineType;
  content : jstring;
  oldLineNumber : option number;
  newLineNumber : option number;
  noNewlineAtEndOfFile : option bool
}.

Record DiffHunk := {
  header : jstring;
  oldStart : number;
  oldLines : number;
  newStart : number;
  newLines : number;
  sectionHeading : option jstring;
  lines : list DiffLine
}.

Record Rename := {
  from : option jstring;
  to : option jstring;
  rawFrom : option jstring;
  rawTo : option jstring
}.

Record ModeChange := {
  oldMode : option jstring;
  newMode : option jstring
}.

Record DiffFile := {
  oldPath : jstring;
  newPath : jstring;
  rawOldPath : jstring;
  rawNewPath : jstring;
  hunks : list DiffHunk;
  isBinary : bool;
  isNewFile : bool;
  isDeletedFile : bool;
  rename : option Rename;
  modeChange : option ModeChange;
  index : option jstring
}.

Abbreviation ParsedDiff := (list DiffFile) (only parsing).

Definition DIFF_GIT_PREFIX : jstring := str "diff --git ".

(** *** Assignments to the fields of a record *)

Definition set_noNewlineAtEndOfFile (v : option bool) (l : DiffLine) : DiffLine :=
  {| type := type l; content := content l; oldLineNumber := oldLineNumber l;
     newLineNumber := newLineNumber l; noNewlineAtEndOfFile := v |}.

Definition set_lines (v : list DiffLine) (h : DiffHunk) : DiffHunk :=
  {| header := header h; oldStart := oldStart h; oldLines := oldLines h;
     newStart := newStart h; newLines := newLines h;
     sectionHeading := sectionHeading h; lines := v |}.

Definition set_oldPath (v : jstring) (f : DiffFile) : DiffFile :=
  {| oldPath := v; newPath := newPath f; rawOldPath := rawOldPath f;
     rawNewPath := rawNewPath f; hunks := hunks f; isBinary := isBinary f;
     isNewFile := isNewFile f; isDeletedFile := isDeletedFile f;
     rename := rename f; modeChange := modeChange f; index := index f |}.

Definition set_newPath (v : jstring) (f : DiffFile) : DiffFile :=
  {| oldPath := oldPath f; newPath := v; rawOldPath := rawOldPath f;
     rawNewPath := rawNewPath f; hunks := hunks f; isBinary := isBinary f;
     isNewFile := isNewFile f; isDeletedFile := isDeletedFile f;
     rename := rename f; modeChange := modeChange f; index := index f |}.

Definition set_hunks (v : list DiffHunk) (f : DiffFile) : DiffFile :=
  {| oldPath := oldPath f; newPath := newPath f; rawOldPath := rawOldPath f;
     rawNewPath := rawNewPath f; hunks := v; isBinary := isBinary f;
     isNewFile := isNewFile f; isDeletedFile := isDeletedFile f;
     rename := rename f; modeChange := modeChange f; index := index f |}.

Definition set_isBinary (v : bool) (f : DiffFile) : DiffFile :=
  {| oldPath := oldPath f; newPath := newPath f; rawOldPath := rawOldPath f;
     rawNewPath := rawNewPath f; hunks := hunks f; isBinary := v;
     isNewFile := isNewFile f; isDeletedFile := isDeletedFile f;
     rename := rename f; modeChange := modeChange f; index := index f |}.

Definition set_isNewFile (v : bool) (f : DiffFile) : DiffFile :=
  {| oldPath := oldPath f; newPath := newPath f; rawOldPath := rawOldPath f;
     rawNewPath := rawNewPath f; hunks := hunks f; isBinary := isBinary f;
     isNewFile := v; isDeletedFile := isDeletedFile f;
     rename := rename f; modeChange := modeChange f; index := index f |}.

Definition set_isDeletedFile (v : bool) (f : DiffFile) : DiffFile :=
  {| oldPath := oldPath f; newPath := newPath f; rawOldPath := rawOldPath f;
     rawNewPath := rawNewPath f; hunks := hunks f; isBinary := isBinary f;
     isNewFile := isNewFile f; isDeletedFile := v;
     rename := rename f; modeChange := modeChange f; index := index f |}.

Definition set_rename (v : option Rename) (f : DiffFile) : DiffFile :=
  {| oldPath := oldPath f; newPath := newPath f; rawOldPath := rawOldPath f;
     rawNewPath := rawNewPath f; hunks := hunks f; isBinary := isBinary f;
     isNewFile := isNewFile f; isDeletedFile := isDeletedFile f;
     rename := v; modeChange := modeChange f; index := index f |}.

Definition set_modeChange (v : option ModeChange) (f : DiffFile) : DiffFile :=
  {| oldPath := oldPath f; newPath := newPath f; rawOldPath := rawOldPath f;
     rawNewPath := rawNewPath f; hunks := hunks f; isBinary := isBinary f;
     isNewFile := isNewFile f; isDeletedFile := isDeletedFile f;
     rename := rename f; modeChange := v; index := index f |}.

Definition set_index (v : option jstring) (f : DiffFile) : DiffFile :=
  {| oldPath := oldPath f; newPath := newPath f; rawOldPath := rawOldPath f;
     rawNewPath := rawNewPath f; hunks := hunks f; isBinary := isBinary f;
     isNewFile := isNewFile f; isDeletedFile := isDeletedFile f;
     rename := rename f; modeChange := modeChange f; index := v |}.

(** *** The hunk header

    [HUNK_HEADER_REGEX] is anchored at both ends and reads: the literal
    [@@ -], one or more digits (capture 1), optionally a comma and one or
    more digits (capture 2), the literal [ +], one or more digits
    (capture 3), optionally a comma and one or more digits (capture 4),
    the literal [ @@], an optional space, and any characters other than
    line terminators up to the end (capture 5).  The matcher below
    follows it from left to right.  Each quantifier is greedy and is
    followed by a character it cannot match, so the first way to match is
    the only one and nothing is found by backtracking. *)

Definition isDigit (c : N) : bool := (48 <=? c) && (c <=? 57).

(** The longest run of digits, and what follows it. *)
Fixpoint spanDigits (s : jstring) : jstring * jstring :=
  match s with
  | c :: r =>
    if isDigit c then let '(ds, r') := spanDigits r in (c :: ds, r')
    else ([], s)
  | [] => ([], [])
  end.

(** One or more digits. *)
Definition digits1 (s : jstring) : option (jstring * jstring) :=
  match spanDigits s with
  | ([], _) => None
  | (ds, r) => Some (ds, r)
  end.

(** The optional comma and digits: the capture is [None] when the group
    does not take part in the match. *)
Definition optLength (s : jstring) : option jstring * jstring :=
  match s with
  | c :: r =>
    if c =? chr "," then
      match digits1 r with
      | Some (ds, r') => (Some ds, r')
      | None => (None, s)
      end
    else (None, s)
  | [] => (None, s)
  end.

(** A literal piece of the pattern. *)
Definition literal (p s : jstring) : option jstring :=
  if startsWith s p then Some (drop (length p) s) else None.

(** The characters [.] does not match (no [s] flag). *)
Definition isLineTerminator (c : N) : bool :=
  (c =? 10) || (c =? 13) || (c =? 8232) || (c =? 8233).

(** [line.match(HUNK_HEADER_REGEX)]: the five captures. *)
Definition matchHunkHeader (line : jstring)
    : option (jstring * option jstring * jstring * option jstring * jstring) :=
  match literal (str "@@ -") line with
  | None => None
  | Some r0 =>
    match digits1 r0 with
    | None => None
    | Some (oldStart, r1) =>
      let '(oldLength, r2) := optLength r1 in
      match literal (str " +") r2 with
      | None => None
      | Some r3 =>
        match digits1 r3 with
        | None => None
        | Some (newStart, r4) =>
          let '(newLength, r5) := optLength r4 in
          match literal (str " @@") r5 with
          | None => None
          | Some r6 =>
            let heading :=
              match r6 with
              | c :: r7 => if c =? SPACE then r7 else r6
              | [] => r6
              end in
            if forallb (fun c => negb (isLineTerminator c)) heading
            then Some (oldStart, oldLength, newStart, newLength, heading)
            else None
          end
        end
      end
    end
  end.

(** The natural that a string of decimal digits writes. *)
Definition decimalValue (digits : jstring) : N :=
  fold_left (fun acc d => 10 * acc + (d - 48)) digits 0.

(** [Number(digits)] on a non-empty string of decimal digits: the double
    nearest to the natural that the digits write (ties to even, as Node
    rounds a literal of any length), hence this natural when it is below
    [2^53], and [Infinity] for the largest ones. *)
Definition Number (digits : jstring) : number :=
  roundToDouble (decimalValue digits).

(** *** The state of the parse

    [currentFile] and [currentHunk] are references to objects that also
    sit in [files]: a reference to a file is its index in [files], a
    reference to a hunk is the index of its file and its index in the
    [hunks] of that file.  An assignment through a reference updates the
    object in [files]. *)

Record State := {
  files : list DiffFile;
  currentFile : option nat;
  currentHunk : option (nat * nat);
  curOldLineNumber : number;
  curNewLineNumber : number
}.

(** What a call comes to: it returns, or it throws (the only exception
    the parser could meet is the [TypeError] of a property access on
    [undefined]). *)
Inductive JSError := TypeError.

Inductive outcome (A : Type) :=
| Returned (a : A)
| Thrown (e : JSError).
Arguments Returned {A} a.
Arguments Thrown {A} e.

#[export] Instance outcome_ret : MRet outcome := fun A a => Returned a.

#[export] Instance outcome_bind : MBind outcome := fun A B k o =>
  match o with
  | Returned a => k a
  | Thrown e => Thrown e
  end.

(** The state once objects of [files] have been updated. *)
Definition withFiles (st : State) (fs : list DiffFile) : State :=
  {| files := fs; currentFile := currentFile st; currentHunk := currentHunk st;
     curOldLineNumber := curOldLineNumber st;
     curNewLineNumber := curNewLineNumber st |}.

(** [currentFile.f = ...]: an update of the object [currentFile] refers to. *)
Definition updateCurrentFile (st : State) (upd : DiffFile -> DiffFile)
    : outcome State :=
  match currentFile st with
  | None => Thrown TypeError
  | Some i =>
    match files st !! i with
    | None => Thrown TypeError
    | Some file =>
      Returned (withFiles st (<[i := upd file]> (files st)))
    end
  end.

(** The object [currentFile] refers to. *)
Definition readCurrentFile (st : State) : outcome DiffFile :=
  match currentFile st with
  | None => Thrown TypeError
  | Some i =>
    match files st !! i with
    | None => Thrown TypeError
    | Some file => Returned file
    end
  end.

(** An update of the object [currentHunk] refers to. *)
Definition updateCurrentHunk (st : State) (upd : DiffHunk -> DiffHunk)
    : outcome (list DiffFile) :=
  match currentHunk st with
  | None => Thrown TypeError
  | Some (fi, hi) =>
    match files st !! fi with
    | None => Thrown TypeError
    | Some file =>
      match hunks file !! hi with
      | None => Thrown TypeError
      | Some hunk =>
        Returned (<[fi := set_hunks (<[hi := upd hunk]> (hunks file)) file]> (files st))
      end
    end
  end.

Definition clearHunk (st : State) : State :=
  {| files := files st; currentFile := currentFile st; currentHunk := None;
     curOldLineNumber := curOldLineNumber st;
     curNewLineNumber := curNewLineNumber st |}.

(** [{...(currentFile.modeChange ?? {}), oldMode: mode}] and its twin *)
Definition withOldMode (m : option ModeChange) (mode : jstring) : ModeChange :=
  {| oldMode := Some mode; newMode := m ≫= newMode |}.

Definition withNewMode (m : option ModeChange) (mode : jstring) : ModeChange :=
  {| oldMode := m ≫= oldMode; newMode := Some mode |}.

(** [lastLine.noNewlineAtEndOfFile = true] on the last element, if any *)
Definition markLastLine (ls : list DiffLine) : list DiffLine :=
  match ls !! (length ls - 1)%nat with
  | Some lastLine =>
    <[(length ls - 1)%nat := set_noNewlineAtEndOfFile (Some true) lastLine]> ls
  | None => ls
  end.

(** *** The loop of [parseUnifiedDiff] *)

Definition truthy (s : option jstring) : bool :=
  match s with
  | Some (_ :: _) => true
  | _ => false
  end.

(** [optional ? Number(optional) : 1] *)
Definition lengthOrOne (optional : option jstring) : number :=
  match optional with
  | Some ds => if truthy optional then Number ds else Finite 1
  | None => Finite 1
  end.

(** [currentHunk.lines.push(diffLine)], then the counters as given *)
Definition pushLine (st : State) (diffLine : DiffLine) (oldNext newNext : number)
    : outcome State :=
  fs ← updateCurrentHunk st (fun h => set_lines (lines h ++ [diffLine]) h);
  mret {| files := fs; currentFile := currentFile st;
          currentHunk := currentHunk st;
          curOldLineNumber := oldNext; curNewLineNumber := newNext |}.

(** One iteration of the [for] loop, on the line [line]. *)
Definition step (st : State) (line : jstring) : outcome State :=
  if startsWith line DIFF_GIT_PREFIX then
    match splitDiffGitHeaderPaths
            (sliceFrom line (Z.of_nat (length DIFF_GIT_PREFIX))) with
    | None =>
      mret {| files := files st; currentFile := None; currentHunk := None;
              curOldLineNumber := curOldLineNumber st;
              curNewLineNumber := curNewLineNumber st |}
    | Some (rawOldPath, rawNewPath) =>
      let oldPath := normalizeGitPath rawOldPath in
      let newPath := normalizeGitPath rawNewPath in
      let newFile :=
        {| oldPath := oldPath; newPath := newPath;
           rawOldPath := rawOldPath; rawNewPath := rawNewPath;
           hunks := []; isBinary := false; isNewFile := false;
           isDeletedFile := false;
           rename := None; modeChange := None; index := None |} in
      mret {| files := files st ++ [newFile];
              currentFile := Some (length (files st));
              currentHunk := None;
              curOldLineNumber := curOldLineNumber st;
              curNewLineNumber := curNewLineNumber st |}
    end
  else
  match currentFile st with
  | None => mret st
  | Some fileRef =>
    if startsWith line (str "index ") then
      updateCurrentFile st (set_index (Some (trim (sliceFrom line 6))))
    else if startsWith line (str "new file mode ") then
      let mode := trim (sliceFrom line 14) in
      updateCurrentFile st (fun f =>
        set_modeChange (Some (withNewMode (modeChange f) mode))
          (set_isNewFile true f))
    else if startsWith line (str "deleted file mode ") then
      let mode := trim (sliceFrom line 18) in
      updateCurrentFile st (fun f =>
        set_modeChange (Some (withOldMode (modeChange f) mode))
          (set_isDeletedFile true f))
    else if startsWith line (str "old mode ") then
      let mode := trim (sliceFrom line 9) in
      updateCurrentFile st (fun f =>
        set_modeChange (Some (withOldMode (modeChange f) mode)) f)
    else if startsWith line (str "new mode ") then
      let mode := trim (sliceFrom line 9) in
      updateCurrentFile st (fun f =>
        set_modeChange (Some (withNewMode (modeChange f) mode)) f)
    else if startsWith line (str "rename from ") then
      let rawFrom := sliceFrom line 12 in
      let from := normalizeGitPath rawFrom in
      updateCurrentFile st (fun f =>
        set_oldPath from
          (set_rename (Some {| from := Some from; to := rename f ≫= to;
                               rawFrom := Some rawFrom;
                               rawTo := rename f ≫= rawTo |}) f))
    else if startsWith line (str "rename to ") then
      let rawTo := sliceFrom line 10 in
      let to := normalizeGitPath rawTo in
      updateCurrentFile st (fun f =>
        set_newPath to
          (set_rename (Some {| from := rename f ≫= from; to := Some to;
                               rawFrom := rename f ≫= rawFrom;
                               rawTo := Some rawTo |}) f))
    else if startsWith line (str "--- ") then
      let normalized := normalizeGitPath (sliceFrom line 4) in
      updateCurrentFile st (fun f =>
        let f' := set_oldPath normalized f in
        if eqs normalized DEV_NULL then set_isNewFile true f' else f')
    else if startsWith line (str "+++ ") then
      let normalized := normalizeGitPath (sliceFrom line 4) in
      updateCurrentFile st (fun f =>
        let f' := set_newPath normalized f in
        if eqs normalized DEV_NULL then set_isDeletedFile true f' else f')
    else if startsWith line (str "Binary files ") then
      st' ← updateCurrentFile st (set_isBinary true);
      mret (clearHunk st')
    else
    match matchHunkHeader line with
    | Some (oldStart, oldLength, newStart, newLength, heading) =>
      let oldLineNumber := Number oldStart in
      let newLineNumber := Number newStart in
      let newHunk :=
        {| header := line;
           oldStart := oldLineNumber;
           oldLines := lengthOrOne oldLength;
           newStart := newLineNumber;
           newLines := lengthOrOne newLength;
           sectionHeading :=
             (if (0 <? length (trim heading))%nat
              then Some (trim heading) else None);
           lines := [] |} in
      file ← readCurrentFile st;
      st' ← updateCurrentFile st (fun f => set_hunks (hunks f ++ [newHunk]) f);
      mret {| files := files st'; currentFile := currentFile st;
              currentHunk := Some (fileRef, length (hunks file));
              curOldLineNumber := oldLineNumber;
              curNewLineNumber := newLineNumber |}
    | None =>
      match currentHunk st with
      | None => mret st
      | Some _ =>
        if eqs line (str "\ No newline at end of file") then
          fs ← updateCurrentHunk st (fun h => set_lines (markLastLine (lines h)) h);
          mret (withFiles st fs)
        else
          let marker := head line in
          let content := sliceFrom line 1 in
          let oldLineNumber := curOldLineNumber st in
          let newLineNumber := curNewLineNumber st in
          match marker with
          | Some m =>
            if m =? SPACE then
              pushLine st
                {| type := context; content := content;
                   oldLineNumber := Some oldLineNumber;
                   newLineNumber := Some newLineNumber;
                   noNewlineAtEndOfFile := None |}
                (addOne oldLineNumber) (addOne newLineNumber)
            else if m =? chr "+" then
              pushLine st
                {| type := add; content := content;
                   oldLineNumber := None;
                   newLineNumber := Some newLineNumber;
                   noNewlineAtEndOfFile := None |}
                oldLineNumber (addOne newLineNumber)
            else if m =? chr "-" then
              pushLine st
                {| type := remove; content := content;
                   oldLineNumber := Some oldLineNumber;
                   newLineNumber := None;
                   noNewlineAtEndOfFile := None |}
                (addOne oldLineNumber) newLineNumber
            else mret st
          | None => mret st
          end
      end
    end
  end.

Fixpoint run (st : State) (diffLines : list jstring) : outcome State :=
  match diffLines with
  | [] => mret st
  | line :: rest => st' ← step st line; run st' rest
  end.

Definition initialState : State :=
  {| files := []; currentFile := None; currentHunk := None;
     curOldLineNumber := Finite 0; curNewLineNumber := Finite 0 |}.

Definition parseLines (diffLines : list jstring) : outcome ParsedDiff :=
  st ← run initialState diffLines; mret (files st).

Definition parseUnifiedDiff (diff : jstring) : outcome ParsedDiff :=
  parseLines (split 10 (replaceCRLF diff)).

End UnifiedDiff.

(** ** The parser's invariants, as the specification words them *)

Module UnifiedDiffSpec.
Import JS GitPath UnifiedDiff.

(** A [diff --git ] line whose remainder does not split into two valid
    path tokens. *)
Definition malformedHeader (line : jstring) : bool :=
  startsWith line DIFF_GIT_PREFIX &&
  match splitDiffGitHeaderPaths
          (sliceFrom line (Z.of_nat (length DIFF_GIT_PREFIX))) with
  | None => true
  | Some _ => false
  end.

(** A [diff --git ] line that opens a file. *)
Definition recognizableHeader (line : jstring) : bool :=
  startsWith line DIFF_GIT_PREFIX &&
  match splitDiffGitHeaderPaths
          (sliceFrom line (Z.of_nat (length DIFF_GIT_PREFIX))) with
  | None => false
  | Some _ => true
  end.

(** A number and one more, exactly. *)
Definition oneMore (x : number) : number :=
  match x with
  | Finite n => Finite (n + 1)
  | Infinity => Infinity
  end.

(** The pair of running counters (old, new) after one more line, when
    [next] is what one step of a counter gives: a context line advances
    both, an added line the new one only, a removed line the old one
    only. *)
Definition advanceBy (next : number -> number) (c : number * number)
    (l : DiffLine) : number * number :=
  match type l with
  | context => (next c.1, next c.2)
  | add => (c.1, next c.2)
  | remove => (next c.1, c.2)
  end.

(** The numbers a line carries when the counters are [c]: both on a
    context line, the new one alone on an added line, the old one alone
    on a removed line. *)
Definition carries (c : number * number) (l : DiffLine) : Prop :=
  match type l with
  | context => oldLineNumber l = Some c.1 /\ newLineNumber l = Some c.2
  | add => oldLineNumber l = None /\ newLineNumber l = Some c.2
  | remove => oldLineNumber l = Some c.1 /\ newLineNumber l = None
  end.

(** The lines are numbered by counters that start at [c] and step by
    [next]. *)
Fixpoint numberedBy (next : number -> number) (c : number * number)
    (ls : list DiffLine) : Prop :=
  match ls with
  | [] => True
  | l :: rest => carries c l /\ numberedBy next (advanceBy next c l) rest
  end.

(** The counters after the lines [ls], from [c]. *)
Definition countersAfterBy (next : number -> number) (c : number * number)
    (ls : list DiffLine) : number * number :=
  fold_left (advanceBy next) ls c.

(** The invariant as the specification words it: the counters advance
    by exactly one. *)
Abbreviation advance := (advanceBy oneMore).
Abbreviation numbered := (numberedBy oneMore).
Abbreviation countersAfter := (countersAfterBy oneMore).

(** The counters of the code: they advance by [+= 1] on doubles. *)
Abbreviation jsAdvance := (advanceBy addOne).
Abbreviation jsNumbered := (numberedBy addOne).
Abbreviation jsCountersAfter := (countersAfterBy addOne).

(** The numbers of a hunk are those of its header, a missing length
    being 1. *)
Definition headerOK (h : DiffHunk) : Prop :=
  exists os ol ns nl hd,
    matchHunkHeader (header h) = Some (os, ol, ns, nl, hd) /\
    oldStart h = Number os /\ newStart h = Number ns /\
    oldLines h = match ol with Some d => Number d | None => Finite 1 end /\
    newLines h = match nl with Some d => Number d | None => Finite 1 end.

Definition hunkOK (h : DiffHunk) : Prop :=
  headerOK h /\ jsNumbered (oldStart h, newStart h) (lines h).

(** The counters stay where doubles are exact: the start numbers of the
    hunk are naturals, and with the number of its lines they do not
    exceed [2^53]. *)
Definition countersExact (h : DiffHunk) : Prop :=
  exists a c,
    oldStart h = Finite a /\ newStart h = Finite c /\
    a + N.of_nat (length (lines h)) <= 2 ^ 53 /\
    c + N.of_nat (length (lines h)) <= 2 ^ 53.

(** The three implications stated of a file. *)
Definition fileOK (f : DiffFile) : Prop :=
  (oldPath f = DEV_NULL -> isNewFile f = true) /\
  (newPath f = DEV_NULL -> isDeletedFile f = true) /\
  (isBinary f = true -> hunks f = []).

(** A line names [/dev/null] outside of [---] and [+++]: in a token of a
    [diff --git ] header or in a [rename from ] or [rename to ] line. *)
Definition namesDevNull (line : jstring) : bool :=
  if startsWith line DIFF_GIT_PREFIX then
    match splitDiffGitHeaderPaths
          (sliceFrom line (Z.of_nat (length DIFF_GIT_PREFIX))) with
    | Some (rawOld, rawNew) =>
      eqs (normalizeGitPath rawOld) DEV_NULL
      || eqs (normalizeGitPath rawNew) DEV_NULL
    | None => false
    end
  else if startsWith line (str "rename from ") then
    eqs (normalizeGitPath (sliceFrom line 12)) DEV_NULL
  else if startsWith line (str "rename to ") then
    eqs (normalizeGitPath (sliceFrom line 10)) DEV_NULL
  else false.

Definition isHunkHeader (line : jstring) : bool :=
  match matchHunkHeader line with
  | Some _ => true
  | None => false
  end.

(** No section (the lines from one [diff --git ] line to the next) holds
    both a hunk header and a [Binary files ] line; [seenHunk] and
    [seenBinary] tell what the section has held so far. *)
Fixpoint sectionsUnmixed (seenHunk seenBinary : bool) (diffLines : list jstring)
    : bool :=
  match diffLines with
  | [] => true
  | line :: rest =>
    if startsWith line DIFF_GIT_PREFIX then sectionsUnmixed false false rest
    else
      let h := seenHunk || isHunkHeader line in
      let b := seenBinary || startsWith line (str "Binary files ") in
      negb (h && b) && sectionsUnmixed h b rest
  end.

End UnifiedDiffSpec.

(** ** Paths: the POSIX functions of [node:path] that the tools call

    [path.resolve], [path.relative] and [path.isAbsolute] belong to the
    platform, not to the repository; they are modelled here after their
    documented POSIX behaviour, on path segments.  [cwd] is the working
    directory of the process, an absolute path. *)

Module NodePath.
Import JS.

Definition SLASH : N := 47.

(** The segments of a path: its non-empty fields between slashes. *)
Definition segments (p : jstring) : list jstring :=
  List.filter nonEmpty (split SLASH p).

(** [segs.join("/")] *)
Fixpoint join (segs : list jstring) : jstring :=
  match segs with
  | [] => []
  | [s] => s
  | s :: rest => s ++ SLASH :: join rest
  end.

(** The absolute path made of the segments [segs]. *)
Definition absolutePath (segs : list jstring) : jstring := SLASH :: join segs.

(** [path.isAbsolute(p)] *)
Definition isAbsolute (p : jstring) : bool := startsWith p [SLASH].

(** The segments of an absolute path once [.] and [..] are resolved;
    [stack] holds the segments kept so far, the last one first.  At the
    root, [..] stays at the root. *)
Fixpoint normalizeSegments (stack segs : list jstring) : list jstring :=
  match segs with
  | [] => rev stack
  | s :: rest =>
    if eqs s (str ".") then normalizeSegments stack rest
    else if eqs s (str "..") then normalizeSegments (tail stack) rest
    else normalizeSegments (s :: stack) rest
  end.

(** The segments that the arguments of [path.resolve] add up to: an
    absolute argument starts again from the root, a relative one goes on
    from what precedes, and the working directory precedes them all. *)
Definition joinedSegments (cwd : jstring) (paths : list jstring) : list jstring :=
  fold_left (fun acc p => if isAbsolute p then segments p else acc ++ segments p)
    paths (segments cwd).

(** [path.resolve(...paths)] *)
Definition resolve (cwd : jstring) (paths : list jstring) : jstring :=
  absolutePath (normalizeSegments [] (joinedSegments cwd paths)).

(** What is left of two lists of segments after their longest common
    prefix. *)
Fixpoint dropCommonPrefix (a b : list jstring) : list jstring * list jstring :=
  match a, b with
  | x :: a', y :: b' => if eqs x y then dropCommonPrefix a' b' else (a, b)
  | _, _ => (a, b)
  end.

(** [path.relative(from, to)]: one [..] for each segment of [from] below
    the common prefix, then the segments of [to] below it. *)
Definition relative (cwd from to : jstring) : jstring :=
  let '(up, down) :=
    dropCommonPrefix (segments (resolve cwd [from])) (segments (resolve cwd [to])) in
  join (map (fun _ => str "..") up ++ down).

End NodePath.

(** ** The repository tools: [createToolRegistry] and its helpers

    What the tools get from the platform is gathered in one record: the
    working directory of the process, the collation key that
    [localeCompare] with [sensitivity: "base"] compares strings by, the
    byte length of a string in an encoding, the matcher that
    [new RegExp(pattern, flags)] compiles, and the file system. *)

Module Tools.
Import JS NodePath.

Inductive SupportedEncoding := utf8 | utf16le | latin1.

(** The result of [lstat]. *)
Record Stats := {
  isSymbolicLink : bool;
  isDirectory : bool;
  isFile : bool
}.

(** A compiled regular expression, as a function: from the input and
    [lastIndex], the index and the length of the match that [exec]
    finds, if any. *)
Definition Matcher : Type := jstring -> nat -> option (nat * nat).

Record Platform := {
  processCwd : jstring;
  collationKey : jstring -> list N;
  byteLength : jstring -> SupportedEncoding -> nat;
  newRegExp : jstring -> jstring -> option Matcher;
  lstat : jstring -> option Stats;
  scanSync : jstring -> jstring -> list jstring;
  readChunks : jstring -> SupportedEncoding -> list jstring;
  walk : list jstring -> list jstring
}.

(** What a tool throws. *)
Inductive ToolError :=
| PathEmpty       (* "Path cannot be empty" *)
| PathEscape      (* "Path ... escapes the repository root" *)
| NotADirectory   (* "cwd ... is not a directory" *)
| NoSuchFile      (* [lstat] fails *)
| SyntaxError.    (* [new RegExp] fails *)

Inductive result (A : Type) :=
| Ok (a : A)
| Failed (e : ToolError).
Arguments Ok {A} a.
Arguments Failed {A} e.

#[export] Instance result_ret : MRet result := fun A a => Ok a.

#[export] Instance result_bind : MBind result := fun A B k r =>
  match r with
  | Ok a => k a
  | Failed e => Failed e
  end.

Definition DEFAULT_MAX_GLOB_RESULTS : nat := 250.
Definition DEFAULT_MAX_GREP_RESULTS : nat := 200.
Definition DEFAULT_CONTEXT_CHARS : nat := 200.

Definition IGNORED_DIRECTORY_NAMES : list jstring :=
  [str ".git"; str "node_modules"; str "dist"; str ".beads"; str ".claude";
   str ".turbo"].

(** [IGNORED_DIRECTORY_NAMES.has(segment)] *)
Definition isIgnoredName (segment : jstring) : bool :=
  existsb (eqs segment) IGNORED_DIRECTORY_NAMES.

(** The fields of [s] between the code units that [sep] holds of. *)
Fixpoint splitOn (sep : N -> bool) (s : jstring) : list jstring :=
  match s with
  | [] => [[]]
  | c :: r =>
    if sep c then [] :: splitOn sep r
    else match splitOn sep r with
         | l :: ls => (c :: l) :: ls
         | [] => [[c]]
         end
  end.

(** The source splits on runs of slashes and backslashes; the empty
    fields that splitting on each of them adds are removed by the filter. *)
Definition splitPathSegments (relativePath : jstring) : list jstring :=
  List.filter nonEmpty
    (map trim (splitOn (fun c => (c =? 47) || (c =? 92)) relativePath)).

Definition includesIgnoredDirectory (relativePath : jstring) : bool :=
  if (length relativePath =? 0)%nat || eqs relativePath (str ".") then false
  else existsb isIgnoredName (splitPathSegments relativePath).

(** A match of Grep; the field [match] of the source is [matchText]. *)
Module GrepMatch.
Record t := {
  path : jstring;
  line : nat;
  column : nat;
  matchText : jstring;
  context : jstring;
  offset : nat;
  byteOffset : nat
}.
End GrepMatch.

Section WithPlatform.
Context (P : Platform).

Definition resolveWithinRepo (repoRoot relativePath : jstring) : result jstring :=
  let trimmed := trim relativePath in
  if (length trimmed =? 0)%nat then Failed PathEmpty
  else
    let absolute := resolve (processCwd P) [repoRoot; trimmed] in
    let normalizedRoot := resolve (processCwd P) [repoRoot] in
    let relative := relative (processCwd P) normalizedRoot absolute in
    if startsWith relative (str "..") || isAbsolute relative
    then Failed PathEscape
    else Ok absolute.

Definition toRepoRelative (repoRoot absolutePath : jstring) : jstring :=
  let normalizedRoot := resolve (processCwd P) [repoRoot] in
  let relative := relative (processCwd P) normalizedRoot absolutePath in
  if eqs relative [] then str "." else relative.

(** *** Sorting *)

(** The order of two collation keys. *)
Fixpoint compareKeys (a b : list N) : comparison :=
  match a, b with
  | [], [] => Eq
  | [], _ :: _ => Lt
  | _ :: _, [] => Gt
  | x :: a', y :: b' =>
    match N.compare x y with
    | Eq => compareKeys a' b'
    | c => c
    end
  end.

(** [a.localeCompare(b, undefined, { sensitivity: "base" })] *)
Definition localeCompare (a b : jstring) : Z :=
  match compareKeys (collationKey P a) (collationKey P b) with
  | Lt => (-1)%Z
  | Eq => 0%Z
  | Gt => 1%Z
  end.

(** [Array.from(new Set(values))]: the first occurrence of each value,
    in the order of insertion. *)
Fixpoint distinct (seen values : list jstring) : list jstring :=
  match values with
  | [] => []
  | v :: rest =>
    if existsb (eqs v) seen then distinct seen rest
    else v :: distinct (v :: seen) rest
  end.

(** [Array.prototype.sort] is stable; with a comparator that is an order
    its result is the one of a stable insertion sort. *)
Fixpoint insertSorted (cmp : jstring -> jstring -> Z) (x : jstring)
    (sorted : list jstring) : list jstring :=
  match sorted with
  | [] => [x]
  | y :: rest =>
    if (cmp x y <=? 0)%Z then x :: sorted else y :: insertSorted cmp x rest
  end.

Definition sortWith (cmp : jstring -> jstring -> Z) (values : list jstring)
    : list jstring :=
  foldr (insertSorted cmp) [] values.

Definition sortDistinct (values : list jstring) : list jstring :=
  sortWith localeCompare (distinct [] values).

(** *** Glob *)

Record GlobResult := {
  globMatches : list jstring;
  globTruncated : bool
}.

(** The body of the [for] loop of the Glob tool up to [matches.push]:
    the root-relative path to push, or [None] on [continue]. *)
Definition globCandidate (repoRoot baseDir found : jstring) : option jstring :=
  let candidate := resolve (processCwd P) [baseDir; found] in
  match resolveWithinRepo repoRoot candidate with
  | Failed _ => None
  | Ok absolute =>
    let relative := toRepoRelative repoRoot absolute in
    if includesIgnoredDirectory relative then None else Some relative
  end.

(** The [for] loop of the Glob tool over what the scan yields. *)
Fixpoint globLoop (repoRoot baseDir : jstring) (limit : nat)
    (scanned : list jstring) (matches : list jstring) : list jstring * bool :=
  match scanned with
  | [] => (matches, false)
  | found :: rest =>
    match globCandidate repoRoot baseDir found with
    | None => globLoop repoRoot baseDir limit rest matches
    | Some relative =>
      let matches' := matches ++ [relative] in
      if (limit <=? length matches')%nat then (matches', true)
      else globLoop repoRoot baseDir limit rest matches'
    end
  end.

(** The executor of the Glob tool. *)
Definition globTool (repoRoot pattern : jstring) (cwd : option jstring)
    (maxResults : option nat) : result GlobResult :=
  baseDir ← match cwd with
            | Some dir =>
              if nonEmpty dir then resolveWithinRepo repoRoot dir
              else Ok repoRoot
            | None => Ok repoRoot
            end;
  match lstat P baseDir with
  | None => Failed NoSuchFile
  | Some baseStats =>
    if isSymbolicLink baseStats || negb (isDirectory baseStats)
    then Failed NotADirectory
    else
      let limit := default DEFAULT_MAX_GLOB_RESULTS maxResults in
      let '(matches, truncated) :=
        globLoop repoRoot baseDir limit (scanSync P pattern baseDir) [] in
      Ok {| globMatches := sortDistinct matches; globTruncated := truncated |}
  end.

(** *** Grep *)

Record LineYield := {
  line : jstring;
  lineEndingChars : nat;
  lineBytes : nat;
  lineEndingBytes : nat
}.

(** One turn of the inner [while (true)] of [streamFileLines] per unit of
    [fuel]: the lines that the buffer holds in full, and the rest of the
    buffer.  Each turn shortens the buffer, so its length is fuel enough. *)
Fixpoint drainBuffer (encoding : SupportedEncoding) (fuel : nat)
    (buffer : jstring) : list LineYield * jstring :=
  match fuel with
  | O => ([], buffer)
  | S fuel' =>
    match indexOf buffer LF with
    | None => ([], buffer)
    | Some newlineIndex =>
      let line0 := slice buffer 0 (Z.of_nat newlineIndex) in
      let '(line, lineEndingChars, lineEndingBytes) :=
        if endsWith line0 [CR]
        then (slice line0 0 (-1), 2%nat,
              (byteLength P [LF] encoding + byteLength P [CR] encoding)%nat)
        else (line0, 1%nat, byteLength P [LF] encoding) in
      let buffer' := sliceFrom buffer (Z.of_nat (newlineIndex + 1)) in
      let '(yields, rest) := drainBuffer encoding fuel' buffer' in
      ({| line := line; lineEndingChars := lineEndingChars;
          lineBytes := byteLength P line encoding;
          lineEndingBytes := lineEndingBytes |} :: yields, rest)
    end
  end.

(** The [for await] over the chunks of the stream, then the last line. *)
Fixpoint streamLoop (encoding : SupportedEncoding) (chunks : list jstring)
    (buffer : jstring) : list LineYield :=
  match chunks with
  | [] =>
    if (0 <? length buffer)%nat
    then [{| line := buffer; lineEndingChars := 0;
             lineBytes := byteLength P buffer encoding;
             lineEndingBytes := 0 |}]
    else []
  | chunk :: rest =>
    let buffer1 := buffer ++ chunk in
    let '(yields, buffer2) := drainBuffer encoding (length buffer1) buffer1 in
    yields ++ streamLoop encoding rest buffer2
  end.

(** What the generator [streamFileLines] yields, in order. *)
Definition streamFileLines (filePath : jstring) (encoding : SupportedEncoding)
    : list LineYield :=
  streamLoop encoding (readChunks P filePath encoding) [].

(** [readFile(filePath, { encoding })]: the whole of what the stream
    yields in chunks. *)
Definition readFile (filePath : jstring) (encoding : SupportedEncoding) : jstring :=
  concat (readChunks P filePath encoding).

Definition shouldUseFullScan (pattern : jstring) (flags : option jstring) : bool :=
  if match flags with Some fl => includes fl (str "s") | None => false end
  then true
  else if includes pattern [LF] then true
  else if includes pattern (str "\n") || includes pattern (str "\r") then true
  else false.

Definition ELLIPSIS : jstring := [8230].

Definition buildContextSnippet (line : jstring) (start length : nat) : jstring :=
  if (List.length line <=? DEFAULT_CONTEXT_CHARS)%nat then line
  else
    let safeLength := Z.max (Z.of_nat length) 1 in
    let available := (Z.of_nat DEFAULT_CONTEXT_CHARS - safeLength)%Z in
    let half := (available / 2)%Z in
    let prefixStart := Z.max (Z.of_nat start - half) 0 in
    let suffixEnd :=
      Z.min (Z.of_nat start + safeLength + half) (Z.of_nat (List.length line)) in
    let prefixEllipsis := if (0 <? prefixStart)%Z then ELLIPSIS else [] in
    let suffixEllipsis :=
      if (suffixEnd <? Z.of_nat (List.length line))%Z then ELLIPSIS else [] in
    prefixEllipsis ++ slice line prefixStart suffixEnd ++ suffixEllipsis.

Record LineIndex := {
  charOffsets : list nat;
  byteOffsets : list nat
}.

(** The loop of [buildLineIndex] from index [i] on, with the running
    byte offset; the offsets pushed, in order. *)
Fixpoint lineStarts (encoding : SupportedEncoding) (content : jstring)
    (i byteOffset : nat) : list (nat * nat) :=
  match content with
  | [] => []
  | char :: rest =>
    let byteOffset' := (byteOffset + byteLength P [char] encoding)%nat in
    if char =? LF
    then (i + 1, byteOffset')%nat :: lineStarts encoding rest (i + 1) byteOffset'
    else lineStarts encoding rest (i + 1) byteOffset'
  end.

Definition buildLineIndex (content : jstring) (encoding : SupportedEncoding)
    : LineIndex :=
  let starts := lineStarts encoding content 0 0 in
  {| charOffsets := 0%nat :: map fst starts;
     byteOffsets := 0%nat :: map snd starts |}.

(** [array[i]] for a number [i]; [None] is [undefined]. *)
Definition at_ (array : list nat) (i : Z) : option nat :=
  if (i <? 0)%Z then None else array !! Z.to_nat i.

(** The [while (low <= high)] of [findLineStartIndex]: the line (from 1),
    the character offset and the byte offset of its start. *)
Equations? findLineLoop (lineIndex : LineIndex) (matchOffset : nat)
    (low high : Z) : nat * nat * nat
  by wf (Z.to_nat (high - low + 1)) lt :=
  findLineLoop lineIndex matchOffset low high
    with inspect (low <=? high)%Z => {
    | exist _ false _ => (1%nat, 0%nat, 0%nat)
    | exist _ true Hle =>
      let mid := ((low + high) / 2)%Z in
      let offset := default 0%nat (at_ (charOffsets lineIndex) mid) in
      if (offset <=? matchOffset)%nat then
        if (mid =? Z.of_nat (length (charOffsets lineIndex)) - 1)%Z
           || match at_ (charOffsets lineIndex) (mid + 1) with
              | Some next => (matchOffset <? next)%nat
              | None => false
              end
        then (Z.to_nat (mid + 1), offset,
              default 0%nat (at_ (byteOffsets lineIndex) mid))
        else findLineLoop lineIndex matchOffset (mid + 1) high
      else findLineLoop lineIndex matchOffset low (mid - 1) }.
Proof.
  all: apply Z.leb_le in Hle;
    assert (low <= (low + high) / 2 <= high)%Z
      by (split; [apply Z.div_le_lower_bound|apply Z.div_le_upper_bound]; lia);
    lia.
Qed.

Definition findLineStartIndex (lineIndex : LineIndex) (matchOffset : nat)
    : nat * nat * nat :=
  findLineLoop lineIndex matchOffset 0
    (Z.of_nat (length (charOffsets lineIndex)) - 1).

(** [regex.exec(input)] on a regular expression with the [g] flag whose
    [lastIndex] is [lastIndex]: the index and the text of the match, if
    any, and the new [lastIndex]. *)
Definition exec (regex : Matcher) (input : jstring) (lastIndex : nat)
    : option (nat * jstring) * nat :=
  if (length input <? lastIndex)%nat then (None, 0%nat)
  else
    match regex input lastIndex with
    | None => (None, 0%nat)
    | Some (index, len) =>
      (Some (index, take len (drop index input)), (index + len)%nat)
    end.

(** The [while ((result = regex.exec(input)) !== null)] of both scans;
    [record] builds the match to push from [result.index] and
    [result[0]].  The result is the array [matches] and whether the loop
    was left by [return true].  A turn is taken only with fewer than
    [limit] matches, and adds one. *)
Equations? execLoop (record : nat -> jstring -> GrepMatch.t) (regex : Matcher)
    (input : jstring) (limit : nat) (lastIndex : nat)
    (matches : list GrepMatch.t) : list GrepMatch.t * bool
  by wf (limit - length matches)%nat lt :=
  execLoop record regex input limit lastIndex matches
    with exec regex input lastIndex => {
    | (None, _) => (matches, false)
    | (Some (index, matchText), lastIndex')
        with inspect (limit <=? length (matches ++ [record index matchText]))%nat => {
      | exist _ true _ => (matches ++ [record index matchText], true)
      | exist _ false Hlt =>
        execLoop record regex input limit lastIndex'
          (matches ++ [record index matchText]) } }.
Proof.
  apply Nat.leb_gt in Hlt. rewrite length_app in *. simpl in *. lia.
Qed.

(** The arguments of a scan that do not change from file to file. *)
Record FindMatchOptions := {
  repoRoot : jstring;
  pattern : jstring;
  flags : jstring;
  encoding : SupportedEncoding;
  limit : nat
}.

(** The match that the streaming scan pushes. *)
Definition streamingMatch (options : FindMatchOptions) (filePath : jstring)
    (line : jstring) (lineNumber charOffset byteOffset : nat)
    (index : nat) (matchText : jstring) : GrepMatch.t :=
  let column := (index + 1)%nat in
  let byteOffsetForMatch :=
    (byteOffset
     + byteLength P (slice line 0 (Z.of_nat index)) (encoding options))%nat in
  let charOffsetForMatch := (charOffset + index)%nat in
  {| GrepMatch.path := toRepoRelative (repoRoot options) filePath;
     GrepMatch.line := lineNumber;
     GrepMatch.column := column;
     GrepMatch.matchText := matchText;
     GrepMatch.context := buildContextSnippet line index (length matchText);
     GrepMatch.offset := charOffsetForMatch;
     GrepMatch.byteOffset := byteOffsetForMatch |}.

(** The [for await] of [findMatchesStreaming] over the lines. *)
Fixpoint streamingLoop (options : FindMatchOptions) (filePath : jstring)
    (regex : Matcher) (yields : list LineYield)
    (lineNumber charOffset byteOffset : nat) (matches : list GrepMatch.t)
    : list GrepMatch.t * bool :=
  match yields with
  | [] => (matches, false)
  | y :: rest =>
    if (limit options <=? length matches)%nat then (matches, true)
    else
      let lineNumber' := (lineNumber + 1)%nat in
      let '(matches', hit) :=
        execLoop
          (streamingMatch options filePath (line y) lineNumber' charOffset byteOffset)
          regex (line y) (limit options) 0 matches in
      if hit then (matches', true)
      else
        streamingLoop options filePath regex rest lineNumber'
          (charOffset + (length (line y) + lineEndingChars y))%nat
          (byteOffset + (lineBytes y + lineEndingBytes y))%nat
          matches'
  end.

Definition findMatchesStreaming (options : FindMatchOptions) (filePath : jstring)
    (matches : list GrepMatch.t) : result (list GrepMatch.t * bool) :=
  match newRegExp P (pattern options) (flags options) with
  | None => Failed SyntaxError
  | Some regex =>
    Ok (streamingLoop options filePath regex
          (streamFileLines filePath (encoding options)) 0 0 0 matches)
  end.

(** The match that the full scan pushes. *)
Definition fullScanMatch (options : FindMatchOptions) (filePath : jstring)
    (content : jstring) (lineIndex : LineIndex)
    (matchOffset : nat) (matchText : jstring) : GrepMatch.t :=
  let '(line, startCharOffset, startByteOffset) :=
    findLineStartIndex lineIndex matchOffset in
  let lineEndIndex :=
    match indexOfFrom content LF matchOffset with
    | Some i => i
    | None => length content
    end in
  let lineText0 :=
    slice content (Z.of_nat startCharOffset) (Z.of_nat lineEndIndex) in
  let lineText :=
    if endsWith lineText0 [CR] then slice lineText0 0 (-1) else lineText0 in
  let precedingSlice :=
    slice content (Z.of_nat startCharOffset) (Z.of_nat matchOffset) in
  let byteOffsetForMatch :=
    (startByteOffset + byteLength P precedingSlice (encoding options))%nat in
  {| GrepMatch.path := toRepoRelative (repoRoot options) filePath;
     GrepMatch.line := line;
     GrepMatch.column := (matchOffset - startCharOffset + 1)%nat;
     GrepMatch.matchText := matchText;
     GrepMatch.context :=
       buildContextSnippet lineText (matchOffset - startCharOffset)
         (length matchText);
     GrepMatch.offset := matchOffset;
     GrepMatch.byteOffset := byteOffsetForMatch |}.

Definition findMatchesFullScan (options : FindMatchOptions) (filePath : jstring)
    (matches : list GrepMatch.t) : result (list GrepMatch.t * bool) :=
  let content := readFile filePath (encoding options) in
  match newRegExp P (pattern options) (flags options) with
  | None => Failed SyntaxError
  | Some regex =>
    let lineIndex := buildLineIndex content (encoding options) in
    Ok (execLoop (fullScanMatch options filePath content lineIndex)
          regex content (limit options) 0 matches)
  end.

Record GrepResult := {
  grepMatches : list GrepMatch.t;
  grepTruncated : bool
}.

(** The [path] argument of Grep: a string or an array of strings. *)
Inductive PathArgument :=
| OnePath (p : jstring)
| ManyPaths (ps : list jstring).

(** The flags of the caller, each once, with [g] added. *)
Fixpoint distinctFlags (seen flags : jstring) : jstring :=
  match flags with
  | [] => []
  | f :: rest =>
    if existsb (N.eqb f) seen then distinctFlags seen rest
    else f :: distinctFlags (f :: seen) rest
  end.

Definition finalFlagsOf (baseFlags : jstring) : jstring :=
  let set := distinctFlags [] baseFlags in
  if existsb (N.eqb (chr "g")) set then set else set ++ [chr "g"].

(** The [for] loop of the Grep tool over the files to search. *)
Fixpoint grepLoop (options : FindMatchOptions) (useFullScan : bool)
    (filesToSearch : list jstring) (matches : list GrepMatch.t)
    : result (list GrepMatch.t * bool) :=
  match filesToSearch with
  | [] => Ok (matches, false)
  | filePath :: rest =>
    if (limit options <=? length matches)%nat then Ok (matches, true)
    else
      '(matches', hitLimit) ←
        (if useFullScan
         then findMatchesFullScan options filePath matches
         else findMatchesStreaming options filePath matches);
      if (hitLimit : bool) then Ok (matches', true)
      else grepLoop options useFullScan rest matches'
  end.

Fixpoint resolveAll (repoRoot : jstring) (candidates : list jstring)
    : result (list jstring) :=
  match candidates with
  | [] => Ok []
  | candidate :: rest =>
    absolute ← resolveWithinRepo repoRoot candidate;
    others ← resolveAll repoRoot rest;
    Ok (absolute :: others)
  end.

(** The executor of the Grep tool; [walk] stands for [collectFiles], the
    walk of the directories, which is left to the platform here:
    [Files.grepToolWalking] is the executor with [collectFiles] itself. *)
Definition grepTool (root pattern : jstring) (flags : option jstring)
    (providedPath : option PathArgument) (maxResults : option nat)
    (encoding : SupportedEncoding) : result GrepResult :=
  let requestedPaths :=
    match providedPath with
    | Some (ManyPaths ps) => ps
    | Some (OnePath p) => if (0 <? length p)%nat then [p] else [str "."]
    | None => [str "."]
    end in
  resolvedPaths ← resolveAll root requestedPaths;
  let filesToSearch := walk P resolvedPaths in
  let limit := default DEFAULT_MAX_GREP_RESULTS maxResults in
  let baseFlags := default [] flags in
  let finalFlags := finalFlagsOf baseFlags in
  let useFullScan := shouldUseFullScan pattern (Some baseFlags) in
  let options :=
    {| repoRoot := root; pattern := pattern; flags := finalFlags;
       encoding := encoding; limit := limit |} in
  r ← grepLoop options useFullScan filesToSearch [];
  Ok {| grepMatches := r.1; grepTruncated := r.2 |}.

End WithPlatform.

End Tools.

(** ** The Read tool, the walk of Grep and the check of the flags

    The file system gives two more things to these: the size that [stat]
    reports and the names that [readdir] lists. *)

Module Files.
Import JS NodePath Tools.

Definition DEFAULT_MAX_READ_BYTES : nat := 200 * 1000.

Definition validRegexFlags : jstring := str "gimsuyd".

(** The check of [flags] in [grepInputSchema]: [flags] is [undefined],
    or every character of it is one of [validRegexFlags]. *)
Definition flagsAreValid (flags : option jstring) : bool :=
  match flags with
  | None => true
  | Some fl => forallb (fun flag => existsb (N.eqb flag) validRegexFlags) fl
  end.

Record Storage := {
  statSize : jstring -> option nat;
  readdir : jstring -> option (list jstring)
}.

(** What these throw. *)
Inductive FileError :=
| InvalidPath (e : ToolError)       (* thrown by [resolveWithinRepo] *)
| LstatFailed (path : jstring)
| StatFailed (path : jstring)
| ReaddirFailed (path : jstring)
| IsSymbolicLink (path : jstring)   (* "... is a symbolic link and is not readable" *)
| NotAFile (path : jstring)         (* "... is not a file" *)
| TooLarge (maxBytes size : nat)    (* "File exceeds maximum allowed size ..." *)
| InvalidPattern (e : ToolError).   (* thrown by [new RegExp] in a scan *)

Inductive attempt (A : Type) :=
| Done (a : A)
| Raised (e : FileError).
Arguments Done {A} a.
Arguments Raised {A} e.

#[export] Instance attempt_ret : MRet attempt := fun A a => Done a.

#[export] Instance attempt_bind : MBind attempt := fun A B k r =>
  match r with
  | Done a => k a
  | Raised e => Raised e
  end.

Record ReadResult := {
  readPath : jstring;
  readContent : jstring
}.

(** [path.normalize] on an absolute path: the segments are resolved, and
    a trailing slash is kept when segments are left. *)
Definition normalizeAbsolute (p : jstring) : jstring :=
  let segs := normalizeSegments [] (segments p) in
  absolutePath segs
  ++ (if (0 <? length segs)%nat && endsWith p [SLASH] then [SLASH] else []).

(** [path.join(resolved, name)] for an absolute [resolved]: an empty
    [name] is left out. *)
Definition pathJoin (resolved name : jstring) : jstring :=
  normalizeAbsolute
    (if nonEmpty name then resolved ++ SLASH :: name else resolved).

Section WithPlatform.
Context (P : Platform) (storage : Storage).

Definition assertIsReadableFile (absolutePath : jstring) : attempt unit :=
  match lstat P absolutePath with
  | None => Raised (LstatFailed absolutePath)
  | Some fileInfo =>
    if isSymbolicLink fileInfo then Raised (IsSymbolicLink absolutePath)
    else if negb (isFile fileInfo) then Raised (NotAFile absolutePath)
    else Done tt
  end.

Definition readFileWithLimit (absolutePath : jstring)
    (encoding : SupportedEncoding) (maxBytes : nat) : attempt jstring :=
  match statSize storage absolutePath with
  | None => Raised (StatFailed absolutePath)
  | Some size =>
    if (maxBytes <? size)%nat then Raised (TooLarge maxBytes size)
    else Done (readFile P absolutePath encoding)
  end.

(** The executor of the Read tool. *)
Definition readTool (repoRoot relativePath : jstring)
    (encoding : SupportedEncoding) (maxBytes : option nat) : attempt ReadResult :=
  match resolveWithinRepo P repoRoot relativePath with
  | Failed e => Raised (InvalidPath e)
  | Ok absolutePath =>
    _ ← assertIsReadableFile absolutePath;
    content ← readFileWithLimit absolutePath encoding
                (default DEFAULT_MAX_READ_BYTES maxBytes);
    mret {| readPath := toRepoRelative P repoRoot absolutePath;
            readContent := content |}
  end.

(** The [while (queue.length > 0)] of [collectFiles], one turn per unit
    of [fuel]; [None] when the fuel runs out before the queue is empty.
    The array [queue] is used as a stack: [pop] takes its last element
    and [push] adds after it; here the top of the stack is the head of
    the list.  [visited] holds the elements of the set. *)
Fixpoint collectLoop (fuel : nat) (repoRoot : jstring)
    (queue files visited : list jstring) : option (attempt (list jstring)) :=
  match queue with
  | [] => Some (Done files)
  | candidate :: queue' =>
    match fuel with
    | O => None
    | S fuel' =>
      if negb (nonEmpty candidate)
      then collectLoop fuel' repoRoot queue' files visited
      else
        let resolved := resolve (processCwd P) [candidate] in
        if existsb (eqs resolved) visited
        then collectLoop fuel' repoRoot queue' files visited
        else
          let visited' := resolved :: visited in
          match lstat P resolved with
          | None => Some (Raised (LstatFailed resolved))
          | Some stats =>
            if isSymbolicLink stats
            then collectLoop fuel' repoRoot queue' files visited'
            else if isDirectory stats then
              let relative := toRepoRelative P repoRoot resolved in
              if includesIgnoredDirectory relative
              then collectLoop fuel' repoRoot queue' files visited'
              else
                match readdir storage resolved with
                | None => Some (Raised (ReaddirFailed resolved))
                | Some contents =>
                  let queue'' :=
                    fold_left (fun q name => pathJoin resolved name :: q)
                      contents queue' in
                  collectLoop fuel' repoRoot queue'' files visited'
                end
            else if isFile stats then
              let relative := toRepoRelative P repoRoot resolved in
              if includesIgnoredDirectory relative
              then collectLoop fuel' repoRoot queue' files visited'
              else collectLoop fuel' repoRoot queue' (files ++ [resolved]) visited'
            else collectLoop fuel' repoRoot queue' files visited'
          end
    end
  end.

(** [collectFiles(repoRoot, inputPaths)] *)
Definition collectFiles (fuel : nat) (repoRoot : jstring)
    (inputPaths : list jstring) : option (attempt (list jstring)) :=
  match collectLoop fuel repoRoot (rev inputPaths) [] [] with
  | Some (Done files) => Some (Done (sortDistinct P files))
  | other => other
  end.

(** The [requestedPaths] of Grep: the [path] argument as an array, or
    [.] when there is none. *)
Definition requestedPathsOf (providedPath : option PathArgument) : list jstring :=
  match providedPath with
  | Some (ManyPaths ps) => ps
  | Some (OnePath p) => if (0 <? length p)%nat then [p] else [str "."]
  | None => [str "."]
  end.

(** The executor of the Grep tool, its walk included: the requested
    paths are resolved, [collectFiles] gives the files to search from
    the resolved paths, and the loop searches them in this order.
    [None] when the fuel of the walk runs out. *)
Definition grepToolWalking (fuel : nat) (root pattern : jstring)
    (flags : option jstring) (providedPath : option PathArgument)
    (maxResults : option nat) (encoding : SupportedEncoding)
    : option (attempt GrepResult) :=
  let requestedPaths := requestedPathsOf providedPath in
  match resolveAll P root requestedPaths with
  | Failed e => Some (Raised (InvalidPath e))
  | Ok resolvedPaths =>
    match collectFiles fuel root resolvedPaths with
    | None => None
    | Some (Raised e) => Some (Raised e)
    | Some (Done filesToSearch) =>
      let limit := default DEFAULT_MAX_GREP_RESULTS maxResults in
      let baseFlags := default [] flags in
      let finalFlags := finalFlagsOf baseFlags in
      let useFullScan := shouldUseFullScan pattern (Some baseFlags) in
      let options :=
        {| repoRoot := root; pattern := pattern; flags := finalFlags;
           encoding := encoding; limit := limit |} in
      match grepLoop P options useFullScan filesToSearch [] with
      | Failed e => Some (Raised (InvalidPattern e))
      | Ok r => Some (Done {| grepMatches := r.1; grepTruncated := r.2 |})
      end
    end
  end.

End WithPlatform.

End Files.

(** ** The two scans of Grep, as the specification words them *)

Module GrepSpec.
Import JS Tools.

(** What of a match the two scans are to agree on. *)
Definition project (m : GrepMatch.t) : nat * nat * jstring :=
  (GrepMatch.line m, GrepMatch.column m, GrepMatch.matchText m).

(** A line that a line feed ends, without its line ending, and the
    length of the ending: 2 with a carriage return, else 1. *)
Definition terminated (piece : jstring) : jstring * nat :=
  if endsWith piece [CR] then (take (length piece - 1) piece, 2%nat)
  else (piece, 1%nat).

(** The lines of a text read line by line, each with the length of its
    line ending; [current] is the part of the current line already read.
    A last line without line feed counts when it is not empty. *)
Fixpoint scanLines (text current : jstring) : list (jstring * nat) :=
  match text with
  | [] => if (0 <? length current)%nat then [(current, 0%nat)] else []
  | c :: rest =>
    if c =? LF then terminated current :: scanLines rest []
    else scanLines rest (current ++ [c])
  end.

Definition textLines (content : jstring) : list (jstring * nat) :=
  scanLines content [].

Definition sameMatch (a b : option (nat * nat)) : bool :=
  match a, b with
  | Some (i, n), Some (j, m) => (i =? j)%nat && (n =? m)%nat
  | None, None => true
  | _, _ => false
  end.

(** The matcher is line-local on the lines [ls] of [content], the first
    of which starts at the offset [start]: from every position of a
    line, a match that the search in the line alone finds lies in the
    line and is the one that the search in the whole content finds; and
    when the line alone has no match from there, the search in the whole
    content finds what it finds from the start of the next line, and
    nothing after the last line. *)
Fixpoint lineLocalFrom (regex : Matcher) (content : jstring) (start : nat)
    (ls : list (jstring * nat)) : bool :=
  match ls with
  | [] => true
  | (l, ending) :: rest =>
    forallb
      (fun p =>
         match regex l p with
         | Some (j, len) =>
           (p <=? j)%nat && (j + len <=? length l)%nat
           && sameMatch (regex content (start + p)%nat) (Some ((start + j)%nat, len))
         | None =>
           sameMatch (regex content (start + p)%nat)
             match rest with
             | [] => None
             | _ :: _ => regex content (start + length l + ending)%nat
             end
         end)
      (seq 0 (length l + 1))
    && lineLocalFrom regex content (start + length l + ending) rest
  end.

Definition lineLocal (regex : Matcher) (content : jstring) : bool :=
  match textLines content with
  | [] => sameMatch (regex content 0%nat) None
  | ls => lineLocalFrom regex content 0 ls
  end.

End GrepSpec.

(** ** A sample platform

    Its collation key is the string with the ASCII letters in lower
    case, with which [localeCompare] with [sensitivity: "base"] agrees
    on strings of ASCII letters and digits.  Its [RegExp] compiles the
    patterns made of an optional [^] and of literal characters, with the
    flag [g] alone, as JavaScript does; other patterns are not modelled
    and are refused. *)

Module SamplePlatform.
Import JS Tools.

Definition toLowerAscii (c : N) : N :=
  if (65 <=? c) && (c <=? 90) then c + 32 else c.

(** The characters with a meaning of their own in a pattern. *)
Definition isMetaCharacter (c : N) : bool :=
  existsb (N.eqb c) (str "\^$.|?*+()[]{}/").

(** The first index from [from] on at which [literal] occurs in [s];
    [i] is the index of the head of [s]. *)
Fixpoint findLiteral (literal s : jstring) (from i : nat) : option nat :=
  if (from <=? i)%nat && startsWith s literal then Some i
  else match s with
       | [] => None
       | _ :: r => findLiteral literal r from (S i)
       end.

Definition literalMatcher (literal : jstring) : Matcher :=
  fun input lastIndex =>
    (fun i => (i, length literal)) <$> findLiteral literal input lastIndex 0.

(** [^] matches at the start of the input only (no [m] flag). *)
Definition anchoredMatcher (literal : jstring) : Matcher :=
  fun input lastIndex =>
    if (lastIndex =? 0)%nat && startsWith input literal
    then Some (0%nat, length literal) else None.

Definition sampleRegExp (pattern flags : jstring) : option Matcher :=
  if negb (eqs flags (str "g")) then None
  else
    match pattern with
    | c :: literal =>
      if c =? chr "^" then
        if existsb isMetaCharacter literal then None
        else Some (anchoredMatcher literal)
      else if existsb isMetaCharacter pattern then None
      else Some (literalMatcher pattern)
    | [] => Some (literalMatcher [])
    end.

Definition directory : Stats :=
  {| isSymbolicLink := false; isDirectory := true; isFile := false |}.

(** A platform whose working directory is [/work], where every path is
    a directory for [lstat], where a scan yields [scanned], where the
    stream of the file [p] yields the chunks [chunksOf p], and where the
    walk collects the paths it is given. *)
Definition platform (scanned : list jstring) (chunksOf : jstring -> list jstring)
    : Platform :=
  {| processCwd := str "/work";
     collationKey := map toLowerAscii;
     byteLength := fun s enc =>
       match enc with
       | utf16le => (2 * length s)%nat
       | _ => length s
       end;
     newRegExp := sampleRegExp;
     lstat := fun _ => Some directory;
     scanSync := fun _ _ => scanned;
     readChunks := fun p _ => chunksOf p;
     walk := fun paths => paths |}.

End SamplePlatform.

(** ** Sample patches *)

Module Fixtures.
Import JS UnifiedDiff.

(** The lines of a text, each ended by a line feed. *)
Definition text (ls : list string) : jstring :=
  concat (map (fun l => str l ++ [10]) ls).

Definition basicDiff : jstring := text [
  "diff --git a/src/app.ts b/src/app.ts";
  "index 1111111..2222222 100644";
  "--- a/src/app.ts";
  "+++ b/src/app.ts";
  "@@ -1,3 +1,4 @@";
  " import { hello } from ./hello;";
  "-const message = hello();";
  "-console.log(message);";
  "+const message = hello(world);";
  "+console.log(message);";
  "+done();";
  "\ No newline at end of file" ]%string.

Definition newBinaryDiff : jstring := text [
  "diff --git a/assets/logo.png b/assets/logo.png";
  "new file mode 100644";
  "index 0000000..1111111";
  "--- /dev/null";
  "+++ b/assets/logo.png";
  "Binary files /dev/null and b/assets/logo.png differ" ]%string.

Definition returnedFiles (o : outcome (list DiffFile)) : list DiffFile :=
  match o with
  | Returned fs => fs
  | Thrown _ => []
  end.

Definition parsedBasic : list DiffFile :=
  Eval vm_compute in returnedFiles (parseUnifiedDiff basicDiff).

Definition parsedNewBinary : list DiffFile :=
  Eval vm_compute in returnedFiles (parseUnifiedDiff newBinaryDiff).

End Fixtures.

(** ** A sample tree

    The working directory [/work] holds a directory [src] with two
    files, the directory [.git] with one, a symbolic link and a file. *)

Module SampleTree.
Import JS Tools Files.

Inductive Kind :=
| directoryOf (names : list string)
| regularFile (size : nat)
| symbolicLink.

Definition entries : list (string * Kind) := [
  ("/work", directoryOf ["src"; ".git"; "link"; "README.md"]);
  ("/work/src", directoryOf ["b.ts"; "a.ts"]);
  ("/work/src/a.ts", regularFile 12);
  ("/work/src/b.ts", regularFile (300 * 1000));
  ("/work/.git", directoryOf ["config"]);
  ("/work/.git/config", regularFile 5);
  ("/work/link", symbolicLink);
  ("/work/README.md", regularFile 7) ]%string.

Definition kindOf (p : jstring) : option Kind :=
  snd <$> List.find (fun e => eqs (str e.1) p) entries.

Definition platform : Platform :=
  let base := SamplePlatform.platform [] (fun _ => [str "hello"]) in
  {| processCwd := processCwd base;
     collationKey := collationKey base;
     byteLength := byteLength base;
     newRegExp := newRegExp base;
     lstat := fun p =>
       match kindOf p with
       | Some (directoryOf _) =>
         Some {| isSymbolicLink := false; isDirectory := true; isFile := false |}
       | Some (regularFile _) =>
         Some {| isSymbolicLink := false; isDirectory := false; isFile := true |}
       | Some symbolicLink =>
         Some {| isSymbolicLink := true; isDirectory := false; isFile := false |}
       | None => None
       end;
     scanSync := scanSync base;
     readChunks := readChunks base;
     walk := walk base |}.

Definition storage : Storage :=
  {| statSize := fun p =>
       match kindOf p with
       | Some (regularFile size) => Some size
       | Some (directoryOf _) => Some 0%nat
       | _ => None
       end;
     readdir := fun p =>
       match kindOf p with
       | Some (directoryOf names) => Some (map str names)
       | _ => None
       end |}.

End SampleTree.

(* ================================================================== *)
(** * Properties *)
(* ================================================================== *)

Module JSFacts.
Import JS.

Lemma eqs_eq s t : eqs s t = true <-> s = t.
Proof.
  revert t; induction s as [|a s IH]; intros [|b t]; simpl; try (split; congruence).
  rewrite andb_true_iff, N.eqb_eq, IH. split.
  - intros [-> ->]; reflexivity.
  - intros [= -> ->]; auto.
Qed.

Lemma eqs_refl s : eqs s s = true.
Proof. apply eqs_eq; reflexivity. Qed.

Lemma startsWith_app s p : startsWith (p ++ s) p = true.
Proof. induction p as [|a p IH]; simpl; [reflexivity|]. now rewrite N.eqb_refl. Qed.

Lemma startsWith_spec s p : startsWith s p = true <-> exists r, s = p ++ r.
Proof.
  split.
  - revert s; induction p as [|a p IH]; intros s H.
    + exists s; reflexivity.
    + destruct s as [|b s]; [discriminate|]. simpl in H.
      apply andb_true_iff in H as [Hab Hr]. apply N.eqb_eq in Hab as ->.
      destruct (IH _ Hr) as [r ->]. exists r; reflexivity.
  - intros [r ->]. apply startsWith_app.
Qed.

End JSFacts.

(** ** The path codec *)

Module GitPathFacts.
Import JS JSFacts GitPath GitPathSpec.

Lemma startsWith_one (s : jstring) (q : N) :
  startsWith s [q] = true <-> exists r, s = q :: r.
Proof. apply (startsWith_spec s [q]). Qed.

Lemma endsWith_one (s : jstring) (q : N) :
  endsWith s [q] = true <-> exists r, s = r ++ [q].
Proof.
  unfold endsWith. change (rev [q]) with [q]. rewrite startsWith_one. split.
  - intros [r Hr]. exists (rev r).
    rewrite <- (rev_involutive s), Hr. reflexivity.
  - intros [r ->]. exists (rev r). now rewrite rev_app_distr.
Qed.

Lemma slice_inner (q1 q2 : N) (body : jstring) :
  slice (q1 :: body ++ [q2]) 1 (-1) = body.
Proof.
  unfold slice, clampIndex.
  change (1 <? 0)%Z with false. change (-1 <? 0)%Z with true. cbv iota zeta.
  assert (Hl : length (q1 :: body ++ [q2]) = S (S (length body)))
    by (simpl; rewrite length_app; simpl; lia).
  rewrite Hl.
  replace (Z.to_nat (Z.max 0 (Z.of_nat (S (S (length body))) + -1)))
    with (S (length body)) by lia.
  replace (Nat.min (Z.to_nat 1) (S (S (length body)))) with 1%nat by lia.
  replace (S (length body) - 1)%nat with (length body) by lia.
  cbn [drop]. rewrite drop_0. apply take_app_length.
Qed.

(** The shape on which [stripEnclosingQuotes] removes two code units. *)
Definition quoted (value : jstring) : Prop :=
  exists q body, (q = DQUOTE \/ q = SQUOTE) /\ value = q :: body ++ [q].

Lemma stripEnclosingQuotes_quoted (q : N) (body : jstring) :
  q = DQUOTE \/ q = SQUOTE ->
  stripEnclosingQuotes (q :: body ++ [q]) = body.
Proof.
  intros Hq. unfold stripEnclosingQuotes.
  assert (Hlen : (2 <=? length (q :: body ++ [q]))%nat = true).
  { apply Nat.leb_le. simpl. rewrite length_app. simpl. lia. }
  rewrite Hlen.
  assert (Hs : startsWith (q :: body ++ [q]) [q] = true)
    by (apply startsWith_one; eauto).
  assert (He : endsWith (q :: body ++ [q]) [q] = true)
    by (apply endsWith_one; exists (q :: body); reflexivity).
  destruct Hq as [-> | ->]; rewrite Hs, He.
  - apply slice_inner.
  - destruct (startsWith _ [DQUOTE] && endsWith _ [DQUOTE]); apply slice_inner.
Qed.

Lemma stripEnclosingQuotes_other (value : jstring) :
  ~ quoted value -> stripEnclosingQuotes value = value.
Proof.
  intros Hn. unfold stripEnclosingQuotes.
  destruct (2 <=? length value)%nat eqn:Hlen; [|reflexivity].
  apply Nat.leb_le in Hlen.
  destruct (startsWith value [DQUOTE] && endsWith value [DQUOTE]
            || startsWith value [SQUOTE] && endsWith value [SQUOTE]) eqn:Hc;
    [|reflexivity].
  exfalso. apply Hn.
  assert (Hq : exists q, (q = DQUOTE \/ q = SQUOTE) /\
             startsWith value [q] = true /\ endsWith value [q] = true).
  { apply orb_true_iff in Hc as [Hc | Hc];
      apply andb_true_iff in Hc as [H1 H2]; eauto 6. }
  destruct Hq as (q & Hq & H1 & H2).
  apply startsWith_one in H1 as [r ->].
  apply endsWith_one in H2 as [r' Hr'].
  destruct r as [|a r] using rev_ind; [simpl in Hlen; lia|].
  clear IHr. exists q, r. split; [exact Hq|].
  change (q :: r ++ [a]) with ((q :: r) ++ [a]) in Hr'.
  apply app_inj_tail in Hr' as [_ ->]. reflexivity.
Qed.

(** C9.  [stripEnclosingQuotes] drops the first and the last code unit
    of every string of length at least two that starts and ends with the
    same quote character (double or single), whatever lies between them:
    the string quote-a-quote-b-quote becomes a-quote-b.  Every other
    string, the one-character strings made of a lone quote included, is
    returned unchanged. *)
Theorem stripEnclosingQuotes_spec :
  (forall q body, q = DQUOTE \/ q = SQUOTE ->
     stripEnclosingQuotes (q :: body ++ [q]) = body) /\
  (forall value,
     ~ (exists q body, (q = DQUOTE \/ q = SQUOTE) /\ value = q :: body ++ [q]) ->
     stripEnclosingQuotes value = value) /\
  stripEnclosingQuotes ([DQUOTE] ++ str "a" ++ [DQUOTE] ++ str "b" ++ [DQUOTE])
    = str "a" ++ [DQUOTE] ++ str "b" /\
  stripEnclosingQuotes [DQUOTE] = [DQUOTE] /\
  stripEnclosingQuotes [SQUOTE] = [SQUOTE].
Proof.
  split; [exact stripEnclosingQuotes_quoted|].
  split; [exact stripEnclosingQuotes_other|].
  repeat split; reflexivity.
Qed.

(** The theorem at the quoted path of the tests and at a bare path. *)
Lemma stripEnclosingQuotes_spec_witness :
  stripEnclosingQuotes (DQUOTE :: str "a/docs/file with spaces.md" ++ [DQUOTE])
    = str "a/docs/file with spaces.md" /\
  stripEnclosingQuotes (str "a/src/app.ts") = str "a/src/app.ts".
Proof.
  destruct stripEnclosingQuotes_spec as (Hq & Ho & _).
  split.
  - apply Hq. left; reflexivity.
  - apply Ho. intros (q & body & Hq' & Heq).
    injection Heq as Hh _. destruct Hq' as [-> | ->]; discriminate Hh.
Defined.

(** *** [normalizeGitPath] *)

(** C6, as stated, fails: a quoted path does not itself start with [a/],
    but its unquoted form does, and the prefix is stripped. *)
Lemma normalizeGitPath_not_unescape_strip :
  let p := [DQUOTE] ++ str "a/x" ++ [DQUOTE] in
  startsWith p (str "a/") = false /\
  startsWith p (str "b/") = false /\
  p <> DEV_NULL /\
  normalizeGitPath p = str "x" /\
  unescapeGitPath (stripEnclosingQuotes p) = str "a/x" /\
  normalizeGitPath p <> unescapeGitPath (stripEnclosingQuotes p).
Proof. cbv zeta. repeat split; try reflexivity; discriminate. Qed.

(** C6, amended.  For every string [p] whose unquoted and unescaped form
    [unescapeGitPath (stripEnclosingQuotes p)] starts neither with [a/]
    nor with [b/], [normalizeGitPath p] is that form. *)
Theorem normalizeGitPath_unprefixed (p : jstring) :
  startsWith (unescapeGitPath (stripEnclosingQuotes p)) (str "a/") = false ->
  startsWith (unescapeGitPath (stripEnclosingQuotes p)) (str "b/") = false ->
  normalizeGitPath p = unescapeGitPath (stripEnclosingQuotes p).
Proof.
  intros Ha Hb. unfold normalizeGitPath. cbv zeta.
  rewrite Ha, Hb. now destruct (eqs _ DEV_NULL).
Qed.

Lemma normalizeGitPath_unprefixed_witness :
  normalizeGitPath (str "src/dir\040name.ts")
    = unescapeGitPath (stripEnclosingQuotes (str "src/dir\040name.ts")).
Proof. apply normalizeGitPath_unprefixed; reflexivity. Defined.

(** *** The header tokens *)

(** [current] glued in front of the first field. *)
Definition glue (current : jstring) (fs : list jstring) : list jstring :=
  match fs with
  | p :: ps => (current ++ p) :: ps
  | [] => [current]
  end.

Lemma fields_cons (s : jstring) (marks : list bool) :
  exists p ps, fields s marks = p :: ps.
Proof.
  revert marks; induction s as [|c r IH]; intros marks; [simpl; eauto|].
  destruct marks as [|m ms]; [simpl; eauto|]. simpl.
  destruct m; [eauto|]. destruct (IH ms) as (p & ps & ->). eauto.
Qed.

Lemma pushCurrent_filter (tokens : list jstring) (current : jstring) :
  pushCurrent tokens current = tokens ++ List.filter nonEmpty [current].
Proof.
  unfold pushCurrent, nonEmpty. simpl.
  destruct (0 <? length current)%nat; [reflexivity|now rewrite app_nil_r].
Qed.

(** One iteration on a character that is kept in the current token. *)
Lemma glue_keep (current : jstring) (c : N) (r : jstring) (ms : list bool) :
  glue current (fields (c :: r) (false :: ms)) = glue (current ++ [c]) (fields r ms).
Proof.
  simpl. destruct (fields_cons r ms) as (p & ps & ->). simpl.
  now rewrite <- app_assoc.
Qed.

(** The inner loop skips what the outer loop would skip one by one. *)
Lemma tokenizeLoop_skip (rest : jstring) (tokens : list jstring) :
  (fix skip (r : jstring) : list jstring :=
     match r with
     | c :: r' =>
       if c =? SPACE then skip r' else tokenizeLoop r tokens [] false false
     | [] => tokenizeLoop r tokens [] false false
     end) rest
  = tokenizeLoop rest tokens [] false false.
Proof.
  induction rest as [|c r IH]; [reflexivity|].
  destruct (c =? SPACE) eqn:Hc; [|reflexivity].
  apply N.eqb_eq in Hc as ->. reflexivity.
Qed.

Lemma tokenizeLoop_space (rest : jstring) (tokens : list jstring)
    (current : jstring) :
  tokenizeLoop (SPACE :: rest) tokens current false false
  = tokenizeLoop rest (pushCurrent tokens current) [] false false.
Proof. simpl. apply tokenizeLoop_skip. Qed.

Lemma tokenizeLoop_fields (input : jstring) :
  forall tokens current inQuotes escaped,
    tokenizeLoop input tokens current inQuotes escaped
    = tokens ++ List.filter nonEmpty
        (glue current (fields input (separators inQuotes escaped input))).
Proof.
  induction input as [|c r IH]; intros tokens current inQuotes escaped.
  - simpl. rewrite app_nil_r. apply pushCurrent_filter.
  - destruct escaped.
    { cbn [separators]. rewrite glue_keep, <- IH. reflexivity. }
    destruct (c =? BACKSLASH) eqn:Hb.
    { cbn [separators]. rewrite Hb, glue_keep, <- IH. simpl. now rewrite Hb. }
    destruct (c =? DQUOTE) eqn:Hq.
    { cbn [separators]. rewrite Hb, Hq, glue_keep, <- IH. simpl.
      now rewrite Hb, Hq. }
    destruct ((c =? SPACE) && negb inQuotes) eqn:Hs.
    + apply andb_true_iff in Hs as [Hc Hi]. apply N.eqb_eq in Hc as ->.
      destruct inQuotes; [discriminate|].
      rewrite tokenizeLoop_space, IH, pushCurrent_filter.
      cbn [separators]. change (SPACE =? BACKSLASH) with false.
      change (SPACE =? DQUOTE) with false. cbv iota.
      change ((SPACE =? SPACE) && negb false) with true.
      cbn [fields glue]. rewrite app_nil_r.
      destruct (fields_cons r (separators false false r)) as (p & ps & ->).
      cbn [glue app]. cbn [List.filter]. rewrite <- app_assoc. f_equal.
      destruct (nonEmpty current); reflexivity.
    + cbn [separators]. rewrite Hb, Hq, Hs, glue_keep, <- IH. simpl.
      now rewrite Hb, Hq, Hs.
Qed.

Lemma tokenizeDiffGitPaths_spec_tokens (input : jstring) :
  tokenizeDiffGitPaths input = spec_tokens input.
Proof.
  unfold tokenizeDiffGitPaths, spec_tokens. rewrite tokenizeLoop_fields.
  destruct (fields_cons input (separators false false input)) as (p & ps & ->).
  reflexivity.
Qed.

Lemma isValidOld_spec (raw : jstring) :
  isValidOld raw = true <-> validPrefix (str "a/") raw.
Proof.
  unfold isValidOld, validPrefix. cbv zeta.
  now rewrite orb_true_iff, eqs_eq, startsWith_spec.
Qed.

Lemma isValidNew_spec (raw : jstring) :
  isValidNew raw = true <-> validPrefix (str "b/") raw.
Proof.
  unfold isValidNew, validPrefix. cbv zeta.
  now rewrite orb_true_iff, eqs_eq, startsWith_spec.
Qed.

(** C5.  [splitDiffGitHeaderPaths] splits the header remainder at the
    spaces that are neither escaped nor inside double quotes: a backslash
    escapes the next code unit whatever it is, also inside quotes, a
    quoted region hides its spaces, and runs of separating spaces yield
    no empty token.  The tokens are fields of the input, escapes kept.
    The result is the pair of tokens exactly when there are two of them,
    the first being [/dev/null] or starting with [a/] once its quotes are
    stripped and the second being [/dev/null] or starting with [b/];
    otherwise it is [null]. *)
Theorem splitDiffGitHeaderPaths_spec (remainder : jstring) :
  tokenizeDiffGitPaths remainder = spec_tokens remainder /\
  (forall o n,
     splitDiffGitHeaderPaths remainder = Some (o, n) <->
     spec_tokens remainder = [o; n] /\
     validPrefix (str "a/") o /\ validPrefix (str "b/") n) /\
  (splitDiffGitHeaderPaths remainder = None <->
   ~ exists o n, spec_tokens remainder = [o; n] /\
       validPrefix (str "a/") o /\ validPrefix (str "b/") n) /\
  splitDiffGitHeaderPaths
    (str "a/docs/file\ with\ spaces.md b/docs/file\ with\ spaces.md")
  = Some (str "a/docs/file\ with\ spaces.md", str "b/docs/file\ with\ spaces.md").
Proof.
  assert (Hsome : forall o n,
     splitDiffGitHeaderPaths remainder = Some (o, n) <->
     spec_tokens remainder = [o; n] /\
     validPrefix (str "a/") o /\ validPrefix (str "b/") n).
  { intros o n. rewrite <- isValidOld_spec, <- isValidNew_spec.
    rewrite <- tokenizeDiffGitPaths_spec_tokens.
    unfold splitDiffGitHeaderPaths.
    destruct remainder as [|c r]; [split; [discriminate|intros [H _]; discriminate H]|].
    destruct (tokenizeDiffGitPaths (c :: r)) as [|t1 [|t2 [|t3 ts]]];
      try (split; [discriminate|intros [H _]; discriminate H]).
    destruct (isValidOld t1) eqn:H1, (isValidNew t2) eqn:H2; simpl; split;
      try discriminate.
    - intros [= -> ->]. now rewrite H1, H2.
    - intros ([= -> ->] & _). reflexivity.
    - intros ([= -> ->] & Ho & Hn); congruence.
    - intros ([= -> ->] & Ho & Hn); congruence.
    - intros ([= -> ->] & Ho & Hn); congruence. }
  split; [apply tokenizeDiffGitPaths_spec_tokens|].
  split; [exact Hsome|]. split; [|reflexivity].
  split.
  - intros Hn (o & n & H). apply Hsome in H. congruence.
  - intros Hn. destruct (splitDiffGitHeaderPaths remainder) as [[o n]|] eqn:E;
      [|reflexivity].
    exfalso. apply Hn. exists o, n. now apply Hsome.
Qed.

(** The theorem on the header with a trailing escaped space of the tests. *)
Lemma splitDiffGitHeaderPaths_spec_witness :
  splitDiffGitHeaderPaths (str "a/docs/foo\  b/docs/foo\ ")
  = Some (str "a/docs/foo\ ", str "b/docs/foo\ ").
Proof.
  apply (proj1 (proj2 (splitDiffGitHeaderPaths_spec
                         (str "a/docs/foo\  b/docs/foo\ ")))).
  split; [reflexivity|].
  split; right; eexists; reflexivity.
Defined.

End GitPathFacts.

(** ** The diff parser *)

Module UnifiedDiffFacts.
Import JS JSFacts GitPath UnifiedDiff UnifiedDiffSpec.

(** *** The references of a state are valid *)

Definition validRefs (st : State) : Prop :=
  (forall i, currentFile st = Some i -> (i < length (files st))%nat) /\
  (forall fi hi, currentHunk st = Some (fi, hi) ->
     exists file, files st !! fi = Some file /\ (hi < length (hunks file))%nat).

Lemma validRefs_initial : validRefs initialState.
Proof. split; intros; discriminate. Qed.

Lemma updateCurrentFile_inv (st st' : State) (upd : DiffFile -> DiffFile) :
  updateCurrentFile st upd = Returned st' ->
  exists i file, currentFile st = Some i /\ files st !! i = Some file /\
    st' = withFiles st (<[i := upd file]> (files st)).
Proof.
  unfold updateCurrentFile. intros H.
  destruct (currentFile st) as [i|]; [|discriminate].
  destruct (files st !! i) as [file|] eqn:E; [|discriminate].
  injection H as <-. eauto.
Qed.

Lemma updateCurrentHunk_inv (st : State) (fs : list DiffFile)
    (upd : DiffHunk -> DiffHunk) :
  updateCurrentHunk st upd = Returned fs ->
  exists fi hi file hunk, currentHunk st = Some (fi, hi) /\
    files st !! fi = Some file /\ hunks file !! hi = Some hunk /\
    fs = <[fi := set_hunks (<[hi := upd hunk]> (hunks file)) file]> (files st).
Proof.
  unfold updateCurrentHunk. intros H.
  destruct (currentHunk st) as [[fi hi]|]; [|discriminate].
  destruct (files st !! fi) as [file|] eqn:E; [|discriminate].
  destruct (hunks file !! hi) as [hunk|] eqn:E'; [|discriminate].
  injection H as <-. eauto 10.
Qed.

Lemma updateCurrentFile_returns (st : State) (upd : DiffFile -> DiffFile) (i : nat) :
  validRefs st -> currentFile st = Some i ->
  exists file, files st !! i = Some file /\
    updateCurrentFile st upd = Returned (withFiles st (<[i := upd file]> (files st))).
Proof.
  intros [Hf _] Hi. unfold updateCurrentFile. rewrite Hi.
  destruct (lookup_lt_is_Some_2 (files st) i (Hf i Hi)) as [file E].
  rewrite E. eauto.
Qed.

Lemma updateCurrentHunk_returns (st : State) (upd : DiffHunk -> DiffHunk)
    (r : nat * nat) :
  validRefs st -> currentHunk st = Some r ->
  exists fs, updateCurrentHunk st upd = Returned fs /\
    validRefs (withFiles st fs).
Proof.
  intros [Hf Hh] Hr. destruct r as [fi hi]. unfold updateCurrentHunk. rewrite Hr.
  destruct (Hh fi hi Hr) as (file & E & Hlt). rewrite E.
  destruct (lookup_lt_is_Some_2 (hunks file) hi Hlt) as [hunk E'].
  rewrite E'. eexists; split; [reflexivity|].
  split; simpl.
  - intros i Hi. rewrite length_insert. auto.
  - intros fi' hi' Hr'. rewrite Hr in Hr'. injection Hr' as <- <-.
    eexists. split.
    + apply list_lookup_insert_eq. eapply lookup_lt_Some; eauto.
    + simpl. now rewrite length_insert.
Qed.

(** An update of the current file that keeps the hunks it has. *)
Definition keepsHunks (upd : DiffFile -> DiffFile) : Prop :=
  forall f, (length (hunks f) <= length (hunks (upd f)))%nat.

Lemma validRefs_withFiles_insert (st : State) (i : nat) (file : DiffFile)
    (upd : DiffFile -> DiffFile) :
  validRefs st -> files st !! i = Some file -> keepsHunks upd ->
  validRefs (withFiles st (<[i := upd file]> (files st))).
Proof.
  intros [Hf Hh] E Hk. split; simpl.
  - intros j Hj. rewrite length_insert. auto.
  - intros fi hi Hr. destruct (Hh fi hi Hr) as (file' & E' & Hlt).
    destruct (decide (i = fi)) as [->|Hne].
    + exists (upd file). split.
      * apply list_lookup_insert_eq. eapply lookup_lt_Some; eauto.
      * rewrite E in E'. injection E' as <-. specialize (Hk file). lia.
    + exists file'. split; [|exact Hlt].
      rewrite list_lookup_insert_ne; auto.
Qed.

Lemma updateCurrentFile_total (st : State) (upd : DiffFile -> DiffFile) (i : nat) :
  validRefs st -> currentFile st = Some i -> keepsHunks upd ->
  exists st', updateCurrentFile st upd = Returned st' /\ validRefs st' /\
    currentFile st' = Some i /\ currentHunk st' = currentHunk st.
Proof.
  intros Hv Hi Hk.
  destruct (updateCurrentFile_returns st upd i Hv Hi) as (file & E & ->).
  eexists; split; [reflexivity|]. split; [|auto].
  now apply validRefs_withFiles_insert.
Qed.

Lemma updateCurrentFile_total' (st : State) (upd : DiffFile -> DiffFile) (i : nat) :
  validRefs st -> currentFile st = Some i -> keepsHunks upd ->
  exists st', updateCurrentFile st upd = Returned st' /\ validRefs st'.
Proof.
  intros Hv Hi Hk.
  destruct (updateCurrentFile_total st upd i Hv Hi Hk) as (st' & E & Hv' & _).
  eauto.
Qed.

Ltac keeps := intros f; simpl; try destruct (eqs _ _); simpl;
  try rewrite length_app; lia.

Lemma validRefs_clearHunk (st : State) : validRefs st -> validRefs (clearHunk st).
Proof. intros [Hf _]. split; simpl; [exact Hf|discriminate]. Qed.

Lemma pushLine_total (st : State) (l : DiffLine) (o n : number) (r : nat * nat) :
  validRefs st -> currentHunk st = Some r ->
  exists st', pushLine st l o n = Returned st' /\ validRefs st'.
Proof.
  intros Hv Hr. unfold pushLine.
  destruct (updateCurrentHunk_returns st
              (fun h => set_lines (lines h ++ [l]) h) r Hv Hr) as (fs & -> & Hv').
  eexists; split; [reflexivity|]. exact Hv'.
Qed.

(** Every iteration returns, and keeps the references valid. *)
Lemma step_total (st : State) (line : jstring) :
  validRefs st -> exists st', step st line = Returned st' /\ validRefs st'.
Proof.
  intros Hv. unfold step.
  destruct (startsWith line DIFF_GIT_PREFIX).
  { destruct (splitDiffGitHeaderPaths _) as [[rawOld rawNew]|].
    - eexists; split; [reflexivity|]. split; simpl.
      + intros i [= <-]. rewrite length_app. simpl. lia.
      + discriminate.
    - eexists; split; [reflexivity|]. split; simpl; discriminate. }
  destruct (currentFile st) as [fileRef|] eqn:Hc; [|eauto].
  repeat match goal with
  | |- context [if startsWith line ?p then _ else _] =>
      destruct (startsWith line p);
      [ try solve [eapply updateCurrentFile_total'; [exact Hv|exact Hc|keeps]] |]
  end.
  - destruct (updateCurrentFile_total st (set_isBinary true) fileRef Hv Hc
                ltac:(keeps)) as (st' & -> & Hv' & _).
    eexists; split; [reflexivity|]. now apply validRefs_clearHunk.
  - destruct (matchHunkHeader line) as [[[[[os ol] ns] nl] hd]|].
    + destruct (updateCurrentFile_returns st
        (fun f => set_hunks (hunks f ++ [
           {| header := line; oldStart := Number os;
              oldLines := lengthOrOne ol; newStart := Number ns;
              newLines := lengthOrOne nl;
              sectionHeading := (if (0 <? length (trim hd))%nat
                                 then Some (trim hd) else None);
              lines := [] |}]) f) fileRef Hv Hc) as (file & E & Hu).
      unfold readCurrentFile. rewrite Hc, E. simpl. cbv zeta.
      rewrite Hu. simpl.
      eexists; split; [reflexivity|]. split; simpl.
      * intros i Hi. rewrite length_insert. destruct Hv as [Hf _].
        apply Hf. congruence.
      * intros fi hi [= <- <-]. eexists. split.
        -- apply list_lookup_insert_eq. eapply lookup_lt_Some; eauto.
        -- simpl. rewrite length_app. simpl. lia.
    + destruct (currentHunk st) as [r|] eqn:Hh; [|eauto].
      destruct (eqs line _).
      * destruct (updateCurrentHunk_returns st
          (fun h => set_lines (markLastLine (lines h)) h) r Hv Hh)
          as (fs & -> & Hv').
        eexists; split; [reflexivity|]. exact Hv'.
      * destruct (head line) as [m|]; [|eauto].
        destruct (m =? SPACE); [eapply pushLine_total; eauto|].
        destruct (m =? chr "+"); [eapply pushLine_total; eauto|].
        destruct (m =? chr "-"); [eapply pushLine_total; eauto|eauto].
Qed.

Lemma run_total (diffLines : list jstring) (st : State) :
  validRefs st -> exists st', run st diffLines = Returned st' /\ validRefs st'.
Proof.
  revert st; induction diffLines as [|line rest IH]; intros st Hv.
  - simpl. eauto.
  - simpl. destruct (step_total st line Hv) as (st1 & -> & Hv1).
    apply (IH st1 Hv1).
Qed.

Lemma run_app (l1 l2 : list jstring) (st : State) :
  run st (l1 ++ l2) = st1 ← run st l1; run st1 l2.
Proof.
  revert st; induction l1 as [|line rest IH]; intros st; [reflexivity|].
  simpl. destruct (step st line) as [st1|e]; simpl; [apply IH|reflexivity].
Qed.

(** *** Malformed headers *)

(** The state once a malformed header has been met. *)
Definition closed (st : State) : State :=
  {| files := files st; currentFile := None; currentHunk := None;
     curOldLineNumber := curOldLineNumber st;
     curNewLineNumber := curNewLineNumber st |}.

Lemma step_malformed (st : State) (line : jstring) :
  malformedHeader line = true -> step st line = Returned (closed st).
Proof.
  unfold malformedHeader, step. intros H.
  apply andb_true_iff in H as [-> H].
  destruct (splitDiffGitHeaderPaths _); [discriminate|reflexivity].
Qed.

Lemma step_no_file (st : State) (line : jstring) :
  currentFile st = None -> currentHunk st = None ->
  recognizableHeader line = false -> step st line = Returned st.
Proof.
  unfold recognizableHeader, step. intros Hf Hh H.
  destruct (startsWith line DIFF_GIT_PREFIX).
  - destruct (splitDiffGitHeaderPaths _); [discriminate|].
    destruct st; simpl in *; subst; reflexivity.
  - rewrite Hf. reflexivity.
Qed.

Lemma run_no_file (diffLines : list jstring) (st : State) :
  currentFile st = None -> currentHunk st = None ->
  Forall (fun line => recognizableHeader line = false) diffLines ->
  run st diffLines = Returned st.
Proof.
  intros Hf Hh Hall. induction Hall as [|line rest Hl _ IH]; [reflexivity|].
  simpl. rewrite (step_no_file st line Hf Hh Hl). exact IH.
Qed.

(** C2.  [parseUnifiedDiff] returns on every input: no iteration throws.
    On a [diff --git ] line whose remainder does not split into two valid
    path tokens, no file is opened and the references to the current file
    and to the current hunk are cleared; the lines that follow are then
    skipped, the files collected so far staying as they are, up to the
    next [diff --git ] line that does split. *)
Theorem parseUnifiedDiff_total_and_skips (diff : jstring)
    (before skipped : list jstring) (bad : jstring) :
  malformedHeader bad = true ->
  Forall (fun line => recognizableHeader line = false) skipped ->
  (exists fs, parseUnifiedDiff diff = Returned fs) /\
  (exists st0,
     run initialState before = Returned st0 /\
     step st0 bad = Returned (closed st0) /\
     run initialState (before ++ bad :: skipped) = Returned (closed st0) /\
     files (closed st0) = files st0 /\
     currentFile (closed st0) = None /\ currentHunk (closed st0) = None) /\
  (forall rest,
     parseLines (before ++ bad :: skipped ++ rest)
     = st0 ← run initialState before; st ← run (closed st0) rest; mret (files st)).
Proof.
  intros Hbad Hskip.
  destruct (run_total before initialState validRefs_initial) as (st0 & E0 & _).
  assert (Hrun : run (closed st0) skipped = Returned (closed st0))
    by (apply run_no_file; auto).
  split; [|split].
  - unfold parseUnifiedDiff, parseLines.
    destruct (run_total (split 10 (replaceCRLF diff)) initialState
                validRefs_initial) as (st & -> & _).
    eexists; reflexivity.
  - exists st0. split; [exact E0|]. split; [now apply step_malformed|].
    split; [|auto].
    rewrite run_app, E0. simpl. rewrite (step_malformed st0 bad Hbad). exact Hrun.
  - intros rest. unfold parseLines.
    change (bad :: skipped ++ rest) with ((bad :: skipped) ++ rest).
    rewrite app_assoc, run_app, run_app, E0. simpl.
    rewrite (step_malformed st0 bad Hbad). simpl. rewrite Hrun. reflexivity.
Qed.

(** *** Hunks and their line numbers *)

Lemma countersAfter_snoc (c : number * number) (ls : list DiffLine) (l : DiffLine) :
  jsCountersAfter c (ls ++ [l]) = jsAdvance (jsCountersAfter c ls) l.
Proof. unfold countersAfterBy. now rewrite fold_left_app. Qed.

Lemma numbered_snoc (c : number * number) (ls : list DiffLine) (l : DiffLine) :
  jsNumbered c (ls ++ [l]) <-> jsNumbered c ls /\ carries (jsCountersAfter c ls) l.
Proof.
  revert c; induction ls as [|x ls IH]; intros c; simpl.
  - tauto.
  - rewrite IH. unfold countersAfterBy. simpl. tauto.
Qed.

Lemma markLastLine_cases (ls : list DiffLine) :
  markLastLine ls = ls \/
  exists ls' l, ls = ls' ++ [l] /\
    markLastLine ls = ls' ++ [set_noNewlineAtEndOfFile (Some true) l].
Proof.
  destruct ls as [|x ls] using rev_ind; [left; reflexivity|]. clear IHls.
  right. exists ls, x. split; [reflexivity|].
  unfold markLastLine. rewrite length_app. simpl.
  replace (length ls + 1 - 1)%nat with (length ls + 0)%nat by lia.
  rewrite lookup_app_r by lia.
  replace (length ls + 0 - length ls)%nat with 0%nat by lia. simpl.
  rewrite insert_app_r. reflexivity.
Qed.

Lemma markLastLine_numbered (c : number * number) (ls : list DiffLine) :
  jsNumbered c ls -> jsNumbered c (markLastLine ls).
Proof.
  destruct (markLastLine_cases ls) as [-> | (ls' & l & -> & ->)]; [auto|].
  rewrite !numbered_snoc. intros [H1 H2]. split; [exact H1|].
  unfold carries in *. simpl. exact H2.
Qed.

Lemma markLastLine_countersAfter (c : number * number) (ls : list DiffLine) :
  jsCountersAfter c (markLastLine ls) = jsCountersAfter c ls.
Proof.
  destruct (markLastLine_cases ls) as [-> | (ls' & l & -> & ->)]; [auto|].
  now rewrite !countersAfter_snoc.
Qed.

Lemma digits1_nonempty (s ds r : jstring) : digits1 s = Some (ds, r) -> ds <> [].
Proof.
  unfold digits1. destruct (spanDigits s) as [[|d ds'] r']; [discriminate|].
  intros [= <- <-]. discriminate.
Qed.

Lemma optLength_nonempty (s r : jstring) (d : jstring) :
  optLength s = (Some d, r) -> d <> [].
Proof.
  unfold optLength. destruct s as [|c s']; [discriminate|].
  destruct (c =? chr ","); [|discriminate].
  destruct (digits1 s') as [[ds r']|] eqn:E; [|discriminate].
  intros [= <- <-]. eapply digits1_nonempty; eauto.
Qed.

Lemma lengthOrOne_spec (s r : jstring) (ol : option jstring) :
  optLength s = (ol, r) ->
  lengthOrOne ol = match ol with Some d => Number d | None => Finite 1 end.
Proof.
  destruct ol as [d|]; [|reflexivity]. intros H.
  apply optLength_nonempty in H. destruct d; [congruence|reflexivity].
Qed.

Lemma matchHunkHeader_lengths (line os ns hd : jstring) (ol nl : option jstring) :
  matchHunkHeader line = Some (os, ol, ns, nl, hd) ->
  lengthOrOne ol = match ol with Some d => Number d | None => Finite 1 end /\
  lengthOrOne nl = match nl with Some d => Number d | None => Finite 1 end.
Proof.
  unfold matchHunkHeader.
  destruct (literal _ line) as [r0|]; [|discriminate].
  destruct (digits1 r0) as [[os' r1]|]; [|discriminate].
  destruct (optLength r1) as [ol' r2] eqn:E1.
  destruct (literal _ r2) as [r3|]; [|discriminate].
  destruct (digits1 r3) as [[ns' r4]|]; [|discriminate].
  destruct (optLength r4) as [nl' r5] eqn:E2.
  destruct (literal _ r5) as [r6|]; [|discriminate].
  destruct (forallb _ _); [|discriminate].
  intros [= <- <- <- <- <-]. split; eapply lengthOrOne_spec; eauto.
Qed.

(** What holds of the hunks while the lines are consumed: every hunk
    collected is well numbered, and the counters are those reached at
    the end of the current hunk. *)
Definition hunksInv (st : State) : Prop :=
  Forall (fun f => Forall hunkOK (hunks f)) (files st) /\
  (forall fi hi, currentHunk st = Some (fi, hi) ->
     exists file h, files st !! fi = Some file /\ hunks file !! hi = Some h /\
       jsCountersAfter (oldStart h, newStart h) (lines h)
       = (curOldLineNumber st, curNewLineNumber st)).

Lemma hunksInv_updateCurrentFile (st st' : State) (upd : DiffFile -> DiffFile) :
  hunksInv st -> (forall f, hunks (upd f) = hunks f) ->
  updateCurrentFile st upd = Returned st' -> hunksInv st'.
Proof.
  intros [Hall Hcur] Hk Hu.
  apply updateCurrentFile_inv in Hu as (i & file & Hi & E & ->).
  split; simpl.
  - apply Forall_insert; [exact Hall|]. rewrite Hk.
    eapply (Forall_lookup_1 _ _ _ _ Hall E).
  - intros fi hi Hr. destruct (Hcur fi hi Hr) as (file' & h & E' & Eh & Hc).
    destruct (decide (i = fi)) as [->|Hne].
    + exists (upd file), h. rewrite E in E'. injection E' as <-.
      split; [apply list_lookup_insert_eq; eapply lookup_lt_Some; eauto|].
      rewrite Hk. auto.
    + exists file', h. rewrite list_lookup_insert_ne by auto. auto.
Qed.

Lemma hunksInv_updateCurrentHunk (st : State) (fs : list DiffFile)
    (upd : DiffHunk -> DiffHunk) (o n : number) :
  hunksInv st -> updateCurrentHunk st upd = Returned fs ->
  (forall h, hunkOK h ->
     jsCountersAfter (oldStart h, newStart h) (lines h)
     = (curOldLineNumber st, curNewLineNumber st) ->
     hunkOK (upd h) /\
     jsCountersAfter (oldStart (upd h), newStart (upd h)) (lines (upd h)) = (o, n)) ->
  hunksInv {| files := fs; currentFile := currentFile st;
              currentHunk := currentHunk st;
              curOldLineNumber := o; curNewLineNumber := n |}.
Proof.
  intros [Hall Hcur] Hu Hupd.
  apply updateCurrentHunk_inv in Hu as (fi & hi & file & hunk & Hr & E & Eh & ->).
  destruct (Hcur fi hi Hr) as (file' & h' & E' & Eh' & Hc).
  rewrite E in E'. injection E' as <-. rewrite Eh in Eh'. injection Eh' as <-.
  pose proof (Forall_lookup_1 _ _ _ _ Hall E) as Hfile.
  pose proof (Forall_lookup_1 _ _ _ _ Hfile Eh) as Hok.
  destruct (Hupd hunk Hok Hc) as [Hok' Hc'].
  split; simpl.
  - apply Forall_insert; [exact Hall|]. simpl.
    apply Forall_insert; auto.
  - intros fi' hi' Hr'. rewrite Hr in Hr'. injection Hr' as <- <-.
    exists (set_hunks (<[hi := upd hunk]> (hunks file)) file), (upd hunk).
    split; [apply list_lookup_insert_eq; eapply lookup_lt_Some; eauto|].
    split; [|exact Hc'].
    simpl. apply list_lookup_insert_eq. eapply lookup_lt_Some; eauto.
Qed.

Lemma hunksInv_pushLine (st st' : State) (l : DiffLine) (o n : number) :
  hunksInv st -> pushLine st l o n = Returned st' ->
  carries (curOldLineNumber st, curNewLineNumber st) l ->
  jsAdvance (curOldLineNumber st, curNewLineNumber st) l = (o, n) ->
  hunksInv st'.
Proof.
  intros Hinv Hp Hcar Hadv. unfold pushLine in Hp.
  destruct (updateCurrentHunk st _) as [fs|] eqn:Hu; [|discriminate].
  injection Hp as <-.
  eapply hunksInv_updateCurrentHunk; eauto.
  intros h [Hh Hnum] Hc. simpl. split.
  - split; [exact Hh|]. simpl. apply numbered_snoc. rewrite Hc. auto.
  - rewrite countersAfter_snoc, Hc. exact Hadv.
Qed.

Ltac same_hunks := intros f; simpl; try destruct (eqs _ _); reflexivity.

Lemma hunksInv_step (st st' : State) (line : jstring) :
  hunksInv st -> step st line = Returned st' -> hunksInv st'.
Proof.
  intros Hinv. unfold step.
  destruct (startsWith line DIFF_GIT_PREFIX).
  { destruct Hinv as [Hall Hcur].
    destruct (splitDiffGitHeaderPaths _) as [[rawOld rawNew]|];
      intros [= <-]; (split; simpl; [|discriminate]); [|exact Hall].
    apply Forall_app; split; [exact Hall|]. repeat constructor. }
  destruct (currentFile st) as [fileRef|] eqn:Hc; [|now intros [= <-]].
  repeat match goal with
  | |- context [if startsWith line ?p then _ else _] =>
      destruct (startsWith line p);
      [ try solve [apply hunksInv_updateCurrentFile; [exact Hinv|same_hunks]] |]
  end.
  - destruct (updateCurrentFile st (set_isBinary true)) as [st1|] eqn:Hu;
      [|discriminate].
    intros [= <-].
    apply hunksInv_updateCurrentFile in Hu as [Hall _]; [|exact Hinv|same_hunks].
    split; simpl; [exact Hall|discriminate].
  - destruct (matchHunkHeader line) as [[[[[os ol] ns] nl] hd]|] eqn:Hm.
    + unfold readCurrentFile. rewrite Hc.
      destruct (files st !! fileRef) as [file|] eqn:E; [|discriminate].
      simpl. cbv zeta.
      destruct (updateCurrentFile st _) as [st1|] eqn:Hu; [|discriminate].
      simpl. intros [= <-].
      apply updateCurrentFile_inv in Hu as (i & file' & Hi & E' & ->).
      rewrite Hc in Hi. injection Hi as <-. rewrite E in E'. injection E' as <-.
      destruct Hinv as [Hall Hcur].
      destruct (matchHunkHeader_lengths _ _ _ _ _ _ Hm) as [Hol Hnl].
      split; simpl.
      * apply Forall_insert; [exact Hall|]. simpl.
        apply Forall_app; split; [exact (Forall_lookup_1 _ _ _ _ Hall E)|].
        constructor; [|constructor].
        split; [|exact I]. exists os, ol, ns, nl, hd. simpl. auto.
      * intros fi hi [= <- <-]. eexists _, _.
        split; [apply list_lookup_insert_eq; eapply lookup_lt_Some; eauto|].
        simpl. split; [apply list_lookup_middle; reflexivity|reflexivity].
    + destruct (currentHunk st) as [r|] eqn:Hh; [|now intros [= <-]].
      destruct (eqs line _).
      * destruct (updateCurrentHunk st _) as [fs|] eqn:Hu; [|discriminate].
        simpl. intros [= <-]. unfold withFiles.
        eapply hunksInv_updateCurrentHunk; eauto.
        intros h [Hhd Hnum] Hcnt. simpl. split.
        -- split; [exact Hhd|]. simpl. now apply markLastLine_numbered.
        -- now rewrite markLastLine_countersAfter.
      * destruct (head line) as [m|]; [|now intros [= <-]].
        destruct (m =? SPACE).
        { intros Hp. eapply hunksInv_pushLine; eauto. split; reflexivity. }
        destruct (m =? chr "+").
        { intros Hp. eapply hunksInv_pushLine; eauto. split; reflexivity. }
        destruct (m =? chr "-").
        { intros Hp. eapply hunksInv_pushLine; eauto. split; reflexivity. }
        now intros [= <-].
Qed.

Lemma hunksInv_run (diffLines : list jstring) (st st' : State) :
  hunksInv st -> run st diffLines = Returned st' -> hunksInv st'.
Proof.
  revert st; induction diffLines as [|line rest IH]; intros st Hinv; simpl.
  - now intros [= <-].
  - destruct (step st line) as [st1|] eqn:Hs; [|discriminate]. simpl.
    apply IH. eapply hunksInv_step; eauto.
Qed.

(** *** The counters and the doubles *)

Lemma roundToDouble_exact (n : N) : n <= 2 ^ 53 -> roundToDouble n = Finite n.
Proof.
  intros H. unfold roundToDouble.
  destruct (n <? 2 ^ 53) eqn:E; [reflexivity|].
  apply N.ltb_ge in E. assert (Hn : n = 2 ^ 53) by lia. subst n.
  vm_compute. reflexivity.
Qed.

(** The rounding at work: at [2^53 + 1] and at [2^53 + 3], halfway
    between two doubles, towards the even significand; just below and at
    the first natural that is read as [Infinity]; and [+= 1] at [2^53],
    where it adds nothing, and at [2^53 + 2], where it adds two. *)
Lemma roundToDouble_samples :
  roundToDouble (2 ^ 53 + 1) = Finite (2 ^ 53) /\
  roundToDouble (2 ^ 53 + 3) = Finite (2 ^ 53 + 4) /\
  roundToDouble (2 ^ 1024 - 2 ^ 970 - 1) = Finite (2 ^ 1024 - 2 ^ 971) /\
  roundToDouble (2 ^ 1024 - 2 ^ 970) = Infinity /\
  addOne (Finite (2 ^ 53)) = Finite (2 ^ 53) /\
  addOne (Finite (2 ^ 53 + 2)) = Finite (2 ^ 53 + 4).
Proof. vm_compute. repeat split. Qed.

Lemma addOne_exact (n : N) : n < 2 ^ 53 -> addOne (Finite n) = Finite (n + 1).
Proof. intros H. cbn [addOne]. apply roundToDouble_exact. lia. Qed.

Lemma advance_exact (a c : N) (l : DiffLine) :
  a < 2 ^ 53 -> c < 2 ^ 53 ->
  jsAdvance (Finite a, Finite c) l = advance (Finite a, Finite c) l.
Proof.
  intros Ha Hc. unfold advanceBy. cbn [fst snd oneMore].
  rewrite !addOne_exact by assumption. reflexivity.
Qed.

Lemma advance_finite (a c : N) (l : DiffLine) :
  exists a' c', advance (Finite a, Finite c) l = (Finite a', Finite c') /\
    a' <= a + 1 /\ c' <= c + 1.
Proof.
  unfold advanceBy. cbn [fst snd oneMore].
  destruct (type l); eexists _, _; (split; [reflexivity|lia]).
Qed.

Lemma numbered_exact (ls : list DiffLine) :
  forall a c,
    a + N.of_nat (length ls) <= 2 ^ 53 -> c + N.of_nat (length ls) <= 2 ^ 53 ->
    jsNumbered (Finite a, Finite c) ls ->
    numbered (Finite a, Finite c) ls /\
    jsCountersAfter (Finite a, Finite c) ls = countersAfter (Finite a, Finite c) ls.
Proof.
  induction ls as [|l ls IH]; intros a c Ha Hc; [now split|].
  cbn [length] in Ha, Hc. rewrite Nat2N.inj_succ in Ha, Hc.
  unfold countersAfterBy. cbn [numberedBy fold_left].
  rewrite advance_exact by lia.
  destruct (advance_finite a c l) as (a' & c' & -> & Ha' & Hc').
  intros [Hl Hls].
  destruct (IH a' c' ltac:(lia) ltac:(lia) Hls) as [H1 H2].
  split; [now split|exact H2].
Qed.

(** C3, as stated, fails: the numbers of the parser are doubles.  The
    start [9007199254740993] of a header, which is [2^53 + 1], is read
    as [9007199254740992], and from there [+= 1] gives the same number
    again: three context lines in a row carry the same old line number,
    so the old counter does not advance by one per line. *)
Lemma parseUnifiedDiff_counters_stall :
  exists f h,
    parseUnifiedDiff
      (str "diff --git a/x b/x" ++ [LF] ++ str "@@ -9007199254740993,3 +1,3 @@"
       ++ [LF] ++ str " a" ++ [LF] ++ str " b" ++ [LF] ++ str " c")
    = Returned [f] /\ hunks f = [h] /\
    oldStart h = Finite 9007199254740992 /\
    map oldLineNumber (lines h)
    = [Some (Finite 9007199254740992); Some (Finite 9007199254740992);
       Some (Finite 9007199254740992)] /\
    map newLineNumber (lines h)
    = [Some (Finite 1); Some (Finite 2); Some (Finite 3)] /\
    ~ numbered (oldStart h, newStart h) (lines h).
Proof.
  eexists _, _. split; [vm_compute; reflexivity|].
  split; [reflexivity|]. split; [reflexivity|]. split; [reflexivity|].
  split; [reflexivity|].
  intros (_ & ([H _] & _)). vm_compute in H. discriminate H.
Qed.

(** C3, amended.  In every hunk that [parseUnifiedDiff] produces: the
    numbers are those that [Number] reads from the captures of the hunk
    header, a length that the header omits being 1; the lines are
    numbered by two counters that start at [oldStart] and [newStart]; a
    context line carries both numbers, an added line the new number
    alone, a removed line the old number alone; and a context line
    advances both counters by [+= 1], an added line the new counter
    alone, a removed line the old counter alone.  The numbers being
    doubles, [+= 1] adds exactly one to a counter below [2^53], and
    [Number] reads a natural up to [2^53] as it is: in a hunk whose start
    numbers, with the number of its lines added, do not exceed [2^53],
    the counters advance by exactly one per line.  While the lines are
    consumed, the running counters are those reached from [oldStart] and
    [newStart] over the lines of the current hunk, hence [oldStart] and
    [newStart] when the hunk is entered. *)
Theorem parseUnifiedDiff_hunks_numbered :
  (forall (diff : jstring) (fs : list DiffFile) (f : DiffFile) (h : DiffHunk),
     parseUnifiedDiff diff = Returned fs -> f ∈ fs -> h ∈ hunks f ->
     (exists os ol ns nl hd,
        matchHunkHeader (header h) = Some (os, ol, ns, nl, hd) /\
        oldStart h = Number os /\ newStart h = Number ns /\
        oldLines h = match ol with Some d => Number d | None => Finite 1 end /\
        newLines h = match nl with Some d => Number d | None => Finite 1 end) /\
     jsNumbered (oldStart h, newStart h) (lines h) /\
     (countersExact h ->
      numbered (oldStart h, newStart h) (lines h) /\
      jsCountersAfter (oldStart h, newStart h) (lines h)
      = countersAfter (oldStart h, newStart h) (lines h))) /\
  (forall n : N,
     n < 2 ^ 53 -> addOne (Finite n) = Finite (n + 1)) /\
  (forall digits : jstring,
     decimalValue digits <= 2 ^ 53 -> Number digits = Finite (decimalValue digits)) /\
  (forall (diffLines : list jstring) (st : State) (fi hi : nat),
     run initialState diffLines = Returned st ->
     currentHunk st = Some (fi, hi) ->
     exists file h,
       files st !! fi = Some file /\ hunks file !! hi = Some h /\
       jsCountersAfter (oldStart h, newStart h) (lines h)
       = (curOldLineNumber st, curNewLineNumber st)).
Proof.
  assert (Hinit : hunksInv initialState) by (split; [constructor|discriminate]).
  split; [|split; [|split]].
  - unfold parseUnifiedDiff, parseLines. intros diff fs f h Hp Hf Hh.
    destruct (run initialState _) as [st|] eqn:Hrun; [|discriminate].
    injection Hp as <-.
    destruct (hunksInv_run _ _ _ Hinit Hrun) as [Hall _].
    rewrite Forall_forall in Hall. specialize (Hall f Hf).
    rewrite Forall_forall in Hall. destruct (Hall h Hh) as [Hhd Hnum].
    split; [exact Hhd|]. split; [exact Hnum|].
    intros (a & c & Ea & Ec & Ha & Hc). rewrite Ea, Ec in *.
    now apply numbered_exact.
  - exact addOne_exact.
  - intros digits H. now apply roundToDouble_exact.
  - intros diffLines st fi hi Hrun Hcur.
    destruct (hunksInv_run _ _ _ Hinit Hrun) as [_ Hc]. exact (Hc fi hi Hcur).
Qed.

(** *** Files, [/dev/null] and binary patches *)

(** C4, as stated, fails: a token of the header or the path of a
    [rename from ] line may be [/dev/null] without any flag being set,
    and a hunk header may come before (or after) a [Binary files ] line. *)
Lemma parseUnifiedDiff_flags_not_implied :
  (exists f,
     parseUnifiedDiff (str "diff --git /dev/null b/x") = Returned [f] /\
     oldPath f = DEV_NULL /\ isNewFile f = false) /\
  (exists f,
     parseUnifiedDiff (str "diff --git a/x /dev/null") = Returned [f] /\
     newPath f = DEV_NULL /\ isDeletedFile f = false) /\
  (exists f,
     parseUnifiedDiff
       (str "diff --git a/x b/x" ++ [LF] ++ str "rename from /dev/null")
     = Returned [f] /\
     oldPath f = DEV_NULL /\ isNewFile f = false) /\
  (exists f h,
     parseUnifiedDiff
       (str "diff --git a/x b/x" ++ [LF] ++ str "@@ -1 +1 @@" ++ [LF]
        ++ str "Binary files a/x and b/x differ") = Returned [f] /\
     isBinary f = true /\ hunks f = [h]).
Proof.
  split; [|split; [|split]].
  - eexists. vm_compute. repeat split.
  - eexists. vm_compute. repeat split.
  - eexists. vm_compute. repeat split.
  - eexists _, _. vm_compute. repeat split.
Qed.

Definition pathsOK (f : DiffFile) : Prop :=
  (oldPath f = DEV_NULL -> isNewFile f = true) /\
  (newPath f = DEV_NULL -> isDeletedFile f = true).

Definition binaryOK (f : DiffFile) : Prop :=
  isBinary f = true -> hunks f = [].

(** The current file against what its section has held so far. *)
Definition sectionOK (seenHunk seenBinary : bool) (f : DiffFile) : Prop :=
  (isBinary f = true -> seenBinary = true) /\
  (hunks f <> [] -> seenHunk = true).

Definition filesInv (fs : list DiffFile) (cur : option nat)
    (seenHunk seenBinary : bool) : Prop :=
  Forall pathsOK fs /\
  (forall j f, fs !! j = Some f ->
     (cur = Some j -> sectionOK seenHunk seenBinary f) /\
     (cur <> Some j -> binaryOK f)).

Lemma sectionOK_binaryOK (sh sb : bool) (f : DiffFile) :
  sectionOK sh sb f -> sh && sb = false -> binaryOK f.
Proof.
  intros [Hb Hh] Hm Hbin. destruct (hunks f) as [|h hs] eqn:E; [reflexivity|].
  rewrite Hb, Hh in Hm by (auto; congruence). discriminate.
Qed.

Lemma filesInv_fileOK (fs : list DiffFile) (cur : option nat) (sh sb : bool) :
  filesInv fs cur sh sb -> sh && sb = false -> Forall fileOK fs.
Proof.
  intros [Hp Hs] Hm. apply Forall_lookup_2. intros j f E.
  destruct (Forall_lookup_1 _ _ _ _ Hp E) as [H1 H2].
  destruct (Hs j f E) as [Hc Hn].
  split; [exact H1|]. split; [exact H2|].
  destruct (decide (cur = Some j)) as [Heq|Hne].
  - eapply sectionOK_binaryOK; eauto.
  - exact (Hn Hne).
Qed.

Lemma filesInv_updateCurrentFile (st st' : State) (upd : DiffFile -> DiffFile)
    (sh sb sh' sb' : bool) :
  filesInv (files st) (currentFile st) sh sb ->
  updateCurrentFile st upd = Returned st' ->
  (forall f, pathsOK f -> pathsOK (upd f)) ->
  (forall f, sectionOK sh sb f -> sectionOK sh' sb' (upd f)) ->
  filesInv (files st') (currentFile st') sh' sb'.
Proof.
  intros [Hp Hs] Hu Hpaths Hsec.
  apply updateCurrentFile_inv in Hu as (i & file & Hi & E & ->). simpl.
  split.
  - apply Forall_insert; [exact Hp|]. apply Hpaths.
    exact (Forall_lookup_1 _ _ _ _ Hp E).
  - intros j f Ej. destruct (decide (i = j)) as [<-|Hne].
    + rewrite list_lookup_insert_eq in Ej by (eapply lookup_lt_Some; eauto).
      injection Ej as <-. split; [|congruence].
      intros _. apply Hsec. now apply (Hs i file E).
    + rewrite list_lookup_insert_ne in Ej by auto.
      split; [congruence|]. apply (Hs j f Ej).
Qed.

Lemma filesInv_updateCurrentHunk (st : State) (fs : list DiffFile)
    (upd : DiffHunk -> DiffHunk) (sh sb : bool) :
  filesInv (files st) (currentFile st) sh sb ->
  updateCurrentHunk st upd = Returned fs ->
  filesInv fs (currentFile st) sh sb.
Proof.
  intros [Hp Hs] Hu.
  apply updateCurrentHunk_inv in Hu as (fi & hi & file & hunk & Hr & E & Eh & ->).
  assert (Hne : forall l : list DiffHunk,
             l <> [] <-> <[hi := upd hunk]> l <> []).
  { intros l. destruct l as [|x l]; [tauto|]. destruct hi; simpl; split; congruence. }
  assert (Hnil : <[hi := upd hunk]> (hunks file) = [] -> hunks file = []).
  { intros H. destruct (hunks file) as [|x l]; [reflexivity|].
    destruct hi; discriminate. }
  split.
  - apply Forall_insert; [exact Hp|]. exact (Forall_lookup_1 _ _ _ _ Hp E).
  - intros j f Ej. destruct (decide (fi = j)) as [<-|Hn].
    + rewrite list_lookup_insert_eq in Ej by (eapply lookup_lt_Some; eauto).
      injection Ej as <-. destruct (Hs fi file E) as [Hc Hb].
      split.
      * intros Hcur. destruct (Hc Hcur) as [H1 H2]. split; simpl; [exact H1|].
        intros H. apply H2. now apply Hne in H.
      * intros Hcur Hbin. simpl in *. rewrite (Hb Hcur Hbin) in Eh.
        discriminate.
    + rewrite list_lookup_insert_ne in Ej by auto. apply (Hs j f Ej).
Qed.

Lemma eqs_false (s t : jstring) : eqs s t = false -> s <> t.
Proof. intros H ->. now rewrite eqs_refl in H. Qed.

(** The flags of the section after one more line. *)
Definition seenAfter (line : jstring) (sh sb : bool) : bool * bool :=
  if startsWith line DIFF_GIT_PREFIX then (false, false)
  else (sh || isHunkHeader line, sb || startsWith line (str "Binary files ")).

Lemma filesInv_mono (fs : list DiffFile) (cur : option nat)
    (sh sb sh' sb' : bool) :
  filesInv fs cur sh sb -> (sh = true -> sh' = true) -> (sb = true -> sb' = true) ->
  filesInv fs cur sh' sb'.
Proof.
  intros [Hp Hs] H1 H2. split; [exact Hp|].
  intros j f Ej. destruct (Hs j f Ej) as [Hc Hn]. split; [|exact Hn].
  intros Hcur. destruct (Hc Hcur) as [Hb Hh]. split; auto.
Qed.

Ltac bool_mono := intros ->; rewrite ?orb_true_r; reflexivity.

Ltac file_fields :=
  cbn [oldPath newPath isNewFile isDeletedFile isBinary hunks
       set_oldPath set_newPath set_isNewFile set_isDeletedFile set_isBinary
       set_hunks set_rename set_modeChange set_index].

Ltac keeps_paths Hdn :=
  let f := fresh "f" in let H1 := fresh "H1" in let H2 := fresh "H2" in
  let He := fresh "He" in let Heq := fresh "Heq" in
  intros f [H1 H2]; split; file_fields;
  try match goal with
      | |- context [eqs ?a DEV_NULL] => destruct (eqs a DEV_NULL) eqn:He; file_fields
      end; auto;
  intros Heq; exfalso;
  first [ apply eqs_false in He; congruence
        | apply eqs_false in Hdn; congruence ].

Ltac keeps_section :=
  let f := fresh "f" in let H1 := fresh "H1" in let H2 := fresh "H2" in
  intros f [H1 H2]; split; file_fields;
  try match goal with
      | |- context [eqs ?a DEV_NULL] => destruct (eqs a DEV_NULL); file_fields
      end;
  intros; rewrite ?orb_true_iff; auto.

Ltac file_branch Hinv :=
  let Hdn := fresh "Hdn" in let Hu := fresh "Hu" in
  intros Hdn Hu; cbv iota in Hdn;
  eapply filesInv_updateCurrentFile;
  [exact Hinv | exact Hu | keeps_paths Hdn | keeps_section].

Lemma filesInv_step (st st' : State) (line : jstring) (sh sb : bool) :
  filesInv (files st) (currentFile st) sh sb ->
  sh && sb = false ->
  namesDevNull line = false ->
  step st line = Returned st' ->
  filesInv (files st') (currentFile st')
    (seenAfter line sh sb).1 (seenAfter line sh sb).2.
Proof.
  intros Hinv Hm. unfold step, seenAfter, namesDevNull.
  destruct (startsWith line DIFF_GIT_PREFIX); cbn [fst snd].
  { destruct Hinv as [Hp Hs].
    assert (Hold : forall j f, files st !! j = Some f -> binaryOK f).
    { intros j f Ej. destruct (Hs j f Ej) as [Hc Hn].
      destruct (decide (currentFile st = Some j)) as [Heq|Hne]; [|auto].
      eapply sectionOK_binaryOK; eauto. }
    destruct (splitDiffGitHeaderPaths _) as [[rawOld rawNew]|];
      intros Hdn [= <-]; simpl.
    - apply orb_false_iff in Hdn as [Ho Hn].
      apply eqs_false in Ho, Hn. split.
      + apply Forall_app; split; [exact Hp|]. constructor; [|constructor].
        split; simpl; congruence.
      + intros j f Ej. destruct (decide (j = length (files st))) as [->|Hne].
        * rewrite list_lookup_middle in Ej by reflexivity. injection Ej as <-.
          split; [|congruence]. intros _. split; simpl; [discriminate|congruence].
        * assert (Hlt : (j < length (files st))%nat).
          { apply lookup_lt_Some in Ej. rewrite length_app in Ej. simpl in Ej. lia. }
          rewrite lookup_app_l in Ej by exact Hlt.
          split; [congruence|]. intros _. eapply Hold; eauto.
    - split; [exact Hp|]. intros j f Ej. split; [discriminate|].
      intros _. eapply Hold; eauto. }
  destruct (currentFile st) as [fileRef|] eqn:Hc.
  2:{ intros _ [= <-]. rewrite Hc. eapply filesInv_mono; eauto; bool_mono. }
  rewrite <- Hc in Hinv.
  repeat match goal with
  | |- _ -> (if startsWith line ?p then _ else _) = Returned _ -> _ =>
      destruct (startsWith line p); [try solve [file_branch Hinv]|]
  end.
  - intros _ Hu.
    destruct (updateCurrentFile st (set_isBinary true)) as [st1|] eqn:Hu1;
      [|discriminate].
    injection Hu as <-. simpl.
    eapply filesInv_updateCurrentFile; [exact Hinv|exact Hu1| |];
      [keeps_paths Hm|keeps_section].
  - intros _. unfold isHunkHeader.
    destruct (matchHunkHeader line) as [[[[[os ol] ns] nl] hd]|] eqn:Hmatch.
    + unfold readCurrentFile. rewrite Hc.
      destruct (files st !! fileRef) as [file|] eqn:E; [|discriminate].
      simpl. cbv zeta.
      destruct (updateCurrentFile st _) as [st1|] eqn:Hu; [|discriminate].
      simpl. intros [= <-]. simpl.
      assert (Hc1 : currentFile st1 = currentFile st).
      { apply updateCurrentFile_inv in Hu as (i & f' & _ & _ & ->). reflexivity. }
      rewrite <- Hc, <- Hc1.
      eapply filesInv_updateCurrentFile; [exact Hinv|exact Hu| |];
        [keeps_paths Hm|keeps_section].
    + destruct (currentHunk st) as [r|] eqn:Hh.
      2:{ intros [= <-]. eapply filesInv_mono; eauto; bool_mono. }
      destruct (eqs line _).
      { destruct (updateCurrentHunk st _) as [fs|] eqn:Hu; [|discriminate].
        simpl. intros [= <-]. simpl.
        eapply filesInv_mono;
          [eapply filesInv_updateCurrentHunk; eauto| |]; bool_mono. }
      assert (Hpush : forall l o n, pushLine st l o n = Returned st' ->
        filesInv (files st') (currentFile st') (sh || false) (sb || false)).
      { intros l o n Hp. unfold pushLine in Hp.
        destruct (updateCurrentHunk st _) as [fs|] eqn:Hu; [|discriminate].
        injection Hp as <-. simpl.
        eapply filesInv_mono;
          [eapply filesInv_updateCurrentHunk; eauto| |]; bool_mono. }
      assert (Hsame : Returned st = Returned st' ->
        filesInv (files st') (currentFile st') (sh || false) (sb || false)).
      { intros [= <-]. eapply filesInv_mono; eauto; bool_mono. }
      destruct (head line) as [m|]; [|exact Hsame].
      destruct (m =? SPACE); [apply Hpush|].
      destruct (m =? chr "+"); [apply Hpush|].
      destruct (m =? chr "-"); [apply Hpush|exact Hsame].
Qed.

Lemma sectionsUnmixed_cons (line : jstring) (rest : list jstring) (sh sb : bool) :
  sectionsUnmixed sh sb (line :: rest) = true ->
  (seenAfter line sh sb).1 && (seenAfter line sh sb).2 = false /\
  sectionsUnmixed (seenAfter line sh sb).1 (seenAfter line sh sb).2 rest = true.
Proof.
  cbn [sectionsUnmixed]. unfold seenAfter.
  destruct (startsWith line DIFF_GIT_PREFIX); cbn [fst snd].
  - intros H. split; [reflexivity|exact H].
  - intros H. apply andb_true_iff in H as [H1 H2].
    apply negb_true_iff in H1. auto.
Qed.

Lemma filesInv_run (diffLines : list jstring) (st st' : State) (sh sb : bool) :
  filesInv (files st) (currentFile st) sh sb ->
  sh && sb = false ->
  forallb (fun line => negb (namesDevNull line)) diffLines = true ->
  sectionsUnmixed sh sb diffLines = true ->
  run st diffLines = Returned st' ->
  Forall fileOK (files st').
Proof.
  revert st sh sb; induction diffLines as [|line rest IH];
    intros st sh sb Hinv Hm Hdn Hun.
  - simpl. intros [= <-]. eapply filesInv_fileOK; eauto.
  - simpl. destruct (step st line) as [st1|] eqn:Hs; [|discriminate]. simpl.
    simpl in Hdn. apply andb_true_iff in Hdn as [Hl Hdn].
    apply negb_true_iff in Hl.
    apply sectionsUnmixed_cons in Hun as [Hm1 Hun1].
    eapply IH; eauto. eapply filesInv_step; eauto.
Qed.

(** C4, amended.  For every input in which no token of a [diff --git ]
    header and no path of a [rename from ] or [rename to ] line
    normalizes to [/dev/null], and in which no section (from one
    [diff --git ] line to the next) holds both a hunk header and a
    [Binary files ] line, every file of the output is such that an old
    path [/dev/null] implies [isNewFile], a new path [/dev/null] implies
    [isDeletedFile], and [isBinary] implies that there is no hunk. *)
Theorem parseUnifiedDiff_files_ok (diff : jstring) (fs : list DiffFile)
    (f : DiffFile) :
  forallb (fun line => negb (namesDevNull line)) (split 10 (replaceCRLF diff))
    = true ->
  sectionsUnmixed false false (split 10 (replaceCRLF diff)) = true ->
  parseUnifiedDiff diff = Returned fs -> f ∈ fs ->
  (oldPath f = DEV_NULL -> isNewFile f = true) /\
  (newPath f = DEV_NULL -> isDeletedFile f = true) /\
  (isBinary f = true -> hunks f = []).
Proof.
  intros Hdn Hun. unfold parseUnifiedDiff, parseLines.
  destruct (run initialState _) as [st|] eqn:Hrun; [|discriminate].
  intros [= <-] Hf.
  assert (Hinit : filesInv (files initialState) (currentFile initialState)
                    false false).
  { split; [constructor|]. intros j f0 E. discriminate E. }
  pose proof (filesInv_run _ _ _ _ _ Hinit eq_refl Hdn Hun Hrun) as Hall.
  rewrite Forall_forall in Hall. exact (Hall f Hf).
Qed.

(** *** The theorems on sample patches *)

Lemma parseUnifiedDiff_total_and_skips_witness :
  let before := [str "diff --git a/x b/x"; str "@@ -1 +1 @@"; str "+kept"] in
  let bad := str "diff --git invalid header" in
  let skipped := [str "--- a/y"; str "@@ -1 +1 @@"; str "+dropped"] in
  (exists fs, parseUnifiedDiff Fixtures.basicDiff = Returned fs) /\
  (exists st0,
     run initialState before = Returned st0 /\
     step st0 bad = Returned (closed st0) /\
     run initialState (before ++ bad :: skipped) = Returned (closed st0) /\
     files (closed st0) = files st0 /\
     currentFile (closed st0) = None /\ currentHunk (closed st0) = None) /\
  (forall rest,
     parseLines (before ++ bad :: skipped ++ rest)
     = st0 ← run initialState before; st ← run (closed st0) rest; mret (files st)).
Proof.
  cbv zeta. apply parseUnifiedDiff_total_and_skips.
  - reflexivity.
  - repeat constructor.
Defined.

Lemma parseUnifiedDiff_hunks_numbered_witness :
  exists f h, f ∈ Fixtures.parsedBasic /\ h ∈ hunks f /\
    oldLines h = Finite 3 /\ newLines h = Finite 4 /\
    jsNumbered (oldStart h, newStart h) (lines h) /\
    numbered (oldStart h, newStart h) (lines h).
Proof.
  unfold Fixtures.parsedBasic. eexists _, _.
  split; [apply list_elem_of_here|]. split; [apply list_elem_of_here|].
  split; [reflexivity|]. split; [reflexivity|].
  edestruct (proj1 parseUnifiedDiff_hunks_numbered Fixtures.basicDiff
               Fixtures.parsedBasic) as (_ & Hjs & Hexact).
  - vm_compute. reflexivity.
  - apply list_elem_of_here.
  - apply list_elem_of_here.
  - split; [exact Hjs|]. apply Hexact.
    eexists _, _. split; [reflexivity|]. split; [reflexivity|].
    split; vm_compute; discriminate.
Defined.

Lemma parseUnifiedDiff_files_ok_witness :
  exists f, f ∈ Fixtures.parsedNewBinary /\
    oldPath f = DEV_NULL /\ isBinary f = true /\
    isNewFile f = true /\ hunks f = [].
Proof.
  unfold Fixtures.parsedNewBinary. eexists.
  split; [apply list_elem_of_here|].
  split; [reflexivity|]. split; [reflexivity|].
  match goal with |- isNewFile ?f = _ /\ _ =>
    destruct (parseUnifiedDiff_files_ok Fixtures.newBinaryDiff
                Fixtures.parsedNewBinary f) as (H1 & _ & H3)
  end.
  - vm_compute. reflexivity.
  - vm_compute. reflexivity.
  - vm_compute. reflexivity.
  - apply list_elem_of_here.
  - split; [apply H1|apply H3]; reflexivity.
Defined.

End UnifiedDiffFacts.

(** ** Paths and the sandbox *)

Module PathFacts.
Import JS JSFacts NodePath Tools.

(** A segment as [segments] yields them: not empty, without a slash. *)
Definition clean (s : jstring) : Prop := s <> [] /\ SLASH ∉ s.

(** A segment that [normalizeSegments] keeps. *)
Definition plain (s : jstring) : Prop :=
  clean s /\ s <> str "." /\ s <> str "..".

Lemma split_cons (sep : N) (s : jstring) :
  exists l ls, split sep s = l :: ls.
Proof.
  induction s as [|c r IH]; simpl; [eauto|].
  destruct (c =? sep); [eauto|]. destruct IH as (l & ls & ->). eauto.
Qed.

Lemma split_no_sep (sep : N) (s : jstring) :
  Forall (fun f => sep ∉ f) (split sep s).
Proof.
  induction s as [|c r IH]; simpl.
  - repeat constructor. apply not_elem_of_nil.
  - destruct (c =? sep) eqn:E.
    + constructor; [apply not_elem_of_nil|exact IH].
    + destruct (split sep r) as [|l ls]; [repeat constructor|].
      * intros H. apply list_elem_of_singleton in H. subst.
        now rewrite N.eqb_refl in E.
      * inversion IH; subst. constructor; [|assumption].
        intros H. apply elem_of_cons in H as [->|H]; [|contradiction].
        now rewrite N.eqb_refl in E.
Qed.

Lemma nonEmpty_true (s : jstring) : nonEmpty s = true <-> s <> [].
Proof.
  unfold nonEmpty. destruct s.
  - split; [discriminate|congruence].
  - split; [intros _; discriminate|intros _; reflexivity].
Qed.

Lemma segments_clean (p : jstring) : Forall clean (segments p).
Proof.
  unfold segments. pose proof (split_no_sep SLASH p) as H.
  induction H as [|f fs Hf _ IH]; simpl; [constructor|].
  destruct (nonEmpty f) eqn:E; [|exact IH].
  constructor; [|exact IH]. split; [now apply nonEmpty_true|exact Hf].
Qed.

Lemma split_no_sep_id (sep : N) (s : jstring) :
  sep ∉ s -> split sep s = [s].
Proof.
  induction s as [|c r IH]; intros H; [reflexivity|]. simpl.
  destruct (c =? sep) eqn:E.
  - apply N.eqb_eq in E as ->. exfalso. apply H. constructor.
  - rewrite IH; [reflexivity|]. intros Hr. apply H. now constructor.
Qed.

Lemma split_app_sep (sep : N) (s t : jstring) :
  sep ∉ s -> split sep (s ++ sep :: t) = s :: split sep t.
Proof.
  induction s as [|c r IH]; intros H; simpl.
  - now rewrite N.eqb_refl.
  - destruct (c =? sep) eqn:E.
    + apply N.eqb_eq in E as ->. exfalso. apply H. constructor.
    + rewrite IH; [reflexivity|]. intros Hr. apply H. now constructor.
Qed.

Lemma filter_nonEmpty_clean (segs : list jstring) :
  Forall clean segs -> List.filter nonEmpty segs = segs.
Proof.
  induction 1 as [|s segs [Hs _] _ IH]; simpl; [reflexivity|].
  apply nonEmpty_true in Hs. now rewrite Hs, IH.
Qed.

Lemma split_join (segs : list jstring) :
  Forall clean segs -> segs <> [] -> split SLASH (join segs) = segs.
Proof.
  induction 1 as [|s segs [Hs Hn] Hall IH]; intros Hne; [congruence|].
  destruct segs as [|s' segs'].
  - simpl. now apply split_no_sep_id.
  - change (join (s :: s' :: segs')) with (s ++ SLASH :: join (s' :: segs')).
    rewrite split_app_sep by exact Hn. now rewrite IH.
Qed.

(** The segments of an absolute path made of clean segments are these. *)
Lemma segments_absolutePath (segs : list jstring) :
  Forall clean segs -> segments (absolutePath segs) = segs.
Proof.
  intros H. unfold segments, absolutePath.
  change (split SLASH (SLASH :: join segs)) with ([] :: split SLASH (join segs)).
  change (List.filter nonEmpty ([] :: split SLASH (join segs)))
    with (List.filter nonEmpty (split SLASH (join segs))).
  destruct segs as [|s segs']; [reflexivity|].
  rewrite split_join by (auto; congruence). now apply filter_nonEmpty_clean.
Qed.

Lemma normalizeSegments_plain (segs stack : list jstring) :
  Forall plain stack -> Forall clean segs ->
  Forall plain (normalizeSegments stack segs).
Proof.
  revert stack; induction segs as [|s rest IH]; intros stack Hst Hs; simpl.
  - now apply Forall_rev.
  - inversion Hs as [|? ? Hc Hrest]; subst.
    destruct (eqs s (str ".")) eqn:E1; [now apply IH|].
    destruct (eqs s (str "..")) eqn:E2.
    + apply IH; [|exact Hrest]. destruct stack; simpl; [constructor|].
      now inversion Hst.
    + apply IH; [|exact Hrest]. constructor; [|exact Hst].
      split; [exact Hc|]. split; intros ->; [rewrite eqs_refl in E1|
        rewrite eqs_refl in E2]; discriminate.
Qed.

Lemma normalizeSegments_id (segs stack : list jstring) :
  Forall plain segs -> normalizeSegments stack segs = rev stack ++ segs.
Proof.
  revert stack; induction segs as [|s rest IH]; intros stack H; simpl.
  - now rewrite app_nil_r.
  - inversion H as [|? ? (Hc & H1 & H2) Hrest]; subst.
    destruct (eqs s (str ".")) eqn:E1; [apply eqs_eq in E1; contradiction|].
    destruct (eqs s (str "..")) eqn:E2; [apply eqs_eq in E2; contradiction|].
    rewrite IH by exact Hrest. simpl. now rewrite <- app_assoc.
Qed.

Lemma Forall_plain_clean (segs : list jstring) :
  Forall plain segs -> Forall clean segs.
Proof. induction 1 as [|s segs [H _] _ IH]; constructor; auto. Qed.

Lemma joinedSegments_clean (cwd : jstring) (paths : list jstring) :
  Forall clean (joinedSegments cwd paths).
Proof.
  unfold joinedSegments. generalize (segments_clean cwd).
  generalize (segments cwd). induction paths as [|p ps IH]; intros acc Hacc.
  - exact Hacc.
  - simpl. apply IH. destruct (isAbsolute p); [apply segments_clean|].
    apply Forall_app; split; [exact Hacc|apply segments_clean].
Qed.

(** The segments of a resolved path. *)
Definition resolvedSegments (cwd : jstring) (paths : list jstring) : list jstring :=
  normalizeSegments [] (joinedSegments cwd paths).

Lemma resolvedSegments_plain (cwd : jstring) (paths : list jstring) :
  Forall plain (resolvedSegments cwd paths).
Proof.
  apply normalizeSegments_plain; [constructor|apply joinedSegments_clean].
Qed.

Lemma segments_resolve (cwd : jstring) (paths : list jstring) :
  segments (resolve cwd paths) = resolvedSegments cwd paths.
Proof.
  apply segments_absolutePath, Forall_plain_clean, resolvedSegments_plain.
Qed.

(** Resolving a resolved path changes nothing. *)
Lemma resolve_resolve (cwd : jstring) (paths : list jstring) :
  resolve cwd [resolve cwd paths] = resolve cwd paths.
Proof.
  unfold resolve at 1. f_equal. unfold joinedSegments. simpl.
  change (isAbsolute (resolve cwd paths)) with true. cbv iota.
  rewrite segments_resolve.
  rewrite normalizeSegments_id by apply resolvedSegments_plain. reflexivity.
Qed.

Lemma dropCommonPrefix_spec (a b up down : list jstring) :
  dropCommonPrefix a b = (up, down) ->
  exists common, a = common ++ up /\ b = common ++ down.
Proof.
  revert b; induction a as [|x a IH]; intros b.
  - simpl. intros [= <- <-]. exists []. auto.
  - destruct b as [|y b]; simpl.
    + intros [= <- <-]. exists []. auto.
    + destruct (eqs x y) eqn:E.
      * apply eqs_eq in E as ->. intros H.
        destruct (IH _ H) as (c & -> & ->). exists (y :: c). auto.
      * intros [= <- <-]. exists []. auto.
Qed.

Lemma join_up_startsWith (up down : list jstring) :
  up <> [] -> startsWith (join (map (fun _ => str "..") up ++ down)) (str "..") = true.
Proof.
  destruct up as [|u up]; [congruence|]. intros _. simpl map.
  destruct (map (fun _ => str "..") up ++ down) as [|s rest] eqn:E;
    simpl app; rewrite E; reflexivity.
Qed.

(** [p] lies inside [root]: its segments go on from those of [root]. *)
Definition inside (root p : jstring) : Prop :=
  exists rest, segments p = segments root ++ rest.

Section WithPlatform.
Context (P : Platform).

Lemma relative_inside (root : jstring) (target : list jstring) :
  startsWith (relative (processCwd P) (resolve (processCwd P) [root])
                (resolve (processCwd P) target)) (str "..") = false ->
  inside (resolve (processCwd P) [root]) (resolve (processCwd P) target).
Proof.
  unfold relative. rewrite !resolve_resolve.
  destruct (dropCommonPrefix _ _) as [up down] eqn:E. intros Hs.
  apply dropCommonPrefix_spec in E as (c & Ea & Eb).
  destruct up as [|u up].
  - exists down. rewrite Eb, Ea. now rewrite app_nil_r.
  - rewrite join_up_startsWith in Hs by congruence. discriminate.
Qed.

Lemma resolveWithinRepo_cases (repoRoot candidate : jstring) :
  let absolute := resolve (processCwd P) [repoRoot; trim candidate] in
  let rel := relative (processCwd P) (resolve (processCwd P) [repoRoot]) absolute in
  resolveWithinRepo P repoRoot candidate =
    if (length (trim candidate) =? 0)%nat then Failed PathEmpty
    else if startsWith rel (str "..") || isAbsolute rel then Failed PathEscape
    else Ok absolute.
Proof. reflexivity. Qed.

(** C1.  [resolveWithinRepo] rejects an empty or blank candidate.  It
    fails with the path-escape error whenever the path of the resolved
    candidate relative to the root starts with [..] or is absolute.
    Hence a candidate that resolves to a path outside the root is
    rejected, and every path that is returned is the resolved candidate
    and lies inside the resolved root. *)
Theorem resolveWithinRepo_safe (repoRoot candidate : jstring) :
  let cwd := processCwd P in
  let root := resolve cwd [repoRoot] in
  let absolute := resolve cwd [repoRoot; trim candidate] in
  (trim candidate = [] ->
     resolveWithinRepo P repoRoot candidate = Failed PathEmpty) /\
  (trim candidate <> [] ->
     startsWith (relative cwd root absolute) (str "..") = true \/
     isAbsolute (relative cwd root absolute) = true ->
     resolveWithinRepo P repoRoot candidate = Failed PathEscape) /\
  (trim candidate <> [] -> ~ inside root absolute ->
     resolveWithinRepo P repoRoot candidate = Failed PathEscape) /\
  (forall returned,
     resolveWithinRepo P repoRoot candidate = Ok returned ->
     returned = absolute /\ inside root returned).
Proof.
  cbv zeta. rewrite resolveWithinRepo_cases. cbv zeta.
  destruct (trim candidate) as [|c t] eqn:Et.
  { split; [reflexivity|]. split; [congruence|]. split; [congruence|].
    intros r Hr. discriminate Hr. }
  rewrite <- Et.
  replace (length (trim candidate) =? 0)%nat with false
    by (rewrite Et; reflexivity).
  assert (Hne : trim candidate <> []) by congruence.
  split; [congruence|].
  destruct (startsWith _ (str "..")) eqn:Es.
  - simpl. split; [auto|]. split; [auto|]. intros r Hr. discriminate Hr.
  - pose proof (relative_inside repoRoot _ Es) as Hin.
    destruct (isAbsolute _) eqn:Ea; simpl.
    + split; [auto|]. split; [auto|]. intros r Hr. discriminate Hr.
    + split; [intros _ [Hr|Hr]; discriminate Hr|].
      split; [intros _ Hout; contradiction|].
      intros r [= <-]. split; [reflexivity|exact Hin].
Qed.

End WithPlatform.

Lemma resolveWithinRepo_safe_witness :
  let P := SamplePlatform.platform [] (fun _ => []) in
  resolveWithinRepo P (str "/work/repo") (str "   ") = Failed PathEmpty /\
  resolveWithinRepo P (str "/work/repo") (str "../../etc/passwd") = Failed PathEscape /\
  resolveWithinRepo P (str "/work/repo") (str "src/../../x") = Failed PathEscape /\
  resolveWithinRepo P (str "/work/repo") (str "/etc/passwd") = Failed PathEscape /\
  inside (str "/work/repo") (str "/work/repo/src/app.ts").
Proof.
  cbv zeta.
  destruct (resolveWithinRepo_safe (SamplePlatform.platform [] (fun _ => []))
              (str "/work/repo") (str "   ")) as (H1 & _).
  destruct (resolveWithinRepo_safe (SamplePlatform.platform [] (fun _ => []))
              (str "/work/repo") (str "../../etc/passwd")) as (_ & H2 & _).
  destruct (resolveWithinRepo_safe (SamplePlatform.platform [] (fun _ => []))
              (str "/work/repo") (str "src/../../x")) as (_ & H3 & _).
  destruct (resolveWithinRepo_safe (SamplePlatform.platform [] (fun _ => []))
              (str "/work/repo") (str "/etc/passwd")) as (_ & H4 & _).
  destruct (resolveWithinRepo_safe (SamplePlatform.platform [] (fun _ => []))
              (str "/work/repo") (str "./src//app.ts")) as (_ & _ & _ & H5).
  split; [apply H1; reflexivity|].
  split; [apply H2; [discriminate|left; reflexivity]|].
  split; [apply H3; [discriminate|left; reflexivity]|].
  split; [apply H4; [discriminate|left; reflexivity]|].
  apply (H5 (str "/work/repo/src/app.ts")). reflexivity.
Defined.

End PathFacts.

(** ** Glob *)

Module GlobFacts.
Import JS JSFacts NodePath Tools PathFacts.

Lemma compareKeys_antisym (a b : list N) :
  compareKeys b a = CompOpp (compareKeys a b).
Proof.
  revert b; induction a as [|x a IH]; intros [|y b]; simpl; try reflexivity.
  rewrite (N.compare_antisym x y).
  destruct (x ?= y); simpl; auto.
Qed.

Section WithPlatform.
Context (P : Platform).

(** The order that the sort follows. *)
Definition localeLe (a b : jstring) : Prop := (localeCompare P a b <= 0)%Z.

Lemma localeLe_total (a b : jstring) : localeLe a b \/ localeLe b a.
Proof.
  unfold localeLe, localeCompare.
  rewrite (compareKeys_antisym (collationKey P a) (collationKey P b)).
  destruct (compareKeys _ _); simpl; lia.
Qed.

Lemma insertSorted_perm (x : jstring) (l : list jstring) :
  Permutation (insertSorted (localeCompare P) x l) (x :: l).
Proof.
  induction l as [|y l IH]; simpl; [reflexivity|].
  destruct (localeCompare P x y <=? 0)%Z; [reflexivity|].
  rewrite IH. apply perm_swap.
Qed.

Lemma sortWith_perm (l : list jstring) :
  Permutation (sortWith (localeCompare P) l) l.
Proof.
  induction l as [|x l IH]; simpl; [reflexivity|].
  rewrite insertSorted_perm. now constructor.
Qed.

Lemma insertSorted_hd (x y : jstring) (l : list jstring) :
  localeLe y x -> HdRel localeLe y l ->
  HdRel localeLe y (insertSorted (localeCompare P) x l).
Proof.
  intros Hyx Hl. destruct l as [|z l]; simpl; [now constructor|].
  destruct (localeCompare P x z <=? 0)%Z; constructor; auto.
  now inversion Hl.
Qed.

Lemma insertSorted_sorted (x : jstring) (l : list jstring) :
  Sorted localeLe l -> Sorted localeLe (insertSorted (localeCompare P) x l).
Proof.
  induction 1 as [|y l Hs IH Hhd]; simpl; [repeat constructor|].
  destruct (localeCompare P x y <=? 0)%Z eqn:E.
  - apply Z.leb_le in E. repeat constructor; auto.
  - apply Z.leb_gt in E. constructor; [exact IH|].
    apply insertSorted_hd; [|exact Hhd].
    destruct (localeLe_total x y) as [H|H]; [unfold localeLe in H; lia|exact H].
Qed.

Lemma sortWith_sorted (l : list jstring) :
  Sorted localeLe (sortWith (localeCompare P) l).
Proof.
  induction l as [|x l IH]; simpl; [constructor|].
  now apply insertSorted_sorted.
Qed.

Lemma existsb_eqs (v : jstring) (seen : list jstring) :
  existsb (eqs v) seen = true <-> v ∈ seen.
Proof.
  rewrite existsb_exists. split.
  - intros (x & Hin & He). apply eqs_eq in He as ->. now apply list_elem_of_In.
  - intros H. exists v. split; [now apply list_elem_of_In|apply eqs_refl].
Qed.

Lemma distinct_elem (values seen : list jstring) (v : jstring) :
  v ∈ distinct seen values <-> v ∈ values /\ v ∉ seen.
Proof.
  revert seen; induction values as [|x values IH]; intros seen; simpl.
  - split; [intros H; inversion H|intros [H _]; inversion H].
  - destruct (existsb (eqs x) seen) eqn:E.
    + apply existsb_eqs in E. rewrite IH, elem_of_cons. split.
      * intros [H1 H2]. auto.
      * intros [[->|H1] H2]; [contradiction|auto].
    + assert (Hx : x ∉ seen)
        by (intros H; apply existsb_eqs in H; congruence).
      rewrite !elem_of_cons, IH, elem_of_cons. split.
      * intros [->|[H1 H2]]; [auto|]. split; [auto|]. intros H; apply H2; auto.
      * intros [[->|H1] H2]; [auto|].
        destruct (decide (v = x)) as [->|Hne]; [auto|].
        right. split; [auto|]. intros [?|?]; auto.
Qed.

Lemma distinct_NoDup (values seen : list jstring) :
  NoDup (distinct seen values).
Proof.
  revert seen; induction values as [|x values IH]; intros seen; simpl.
  - constructor.
  - destruct (existsb (eqs x) seen); [apply IH|].
    constructor; [|apply IH].
    rewrite distinct_elem. intros [_ H]. apply H. constructor.
Qed.

Lemma distinct_length (values seen : list jstring) :
  (length (distinct seen values) <= length values)%nat.
Proof.
  revert seen; induction values as [|x values IH]; intros seen; simpl; [lia|].
  destruct (existsb (eqs x) seen); simpl; [specialize (IH seen)|
    specialize (IH (x :: seen))]; lia.
Qed.

Lemma sortDistinct_perm (values : list jstring) :
  Permutation (sortDistinct P values) (distinct [] values).
Proof. apply sortWith_perm. Qed.

Lemma sortDistinct_elem (values : list jstring) (v : jstring) :
  v ∈ sortDistinct P values <-> v ∈ values.
Proof.
  rewrite (sortDistinct_perm values), distinct_elem.
  split; [tauto|]. intros H. split; [exact H|]. apply not_elem_of_nil.
Qed.

Lemma sortDistinct_NoDup (values : list jstring) :
  NoDup (sortDistinct P values).
Proof.
  rewrite (sortDistinct_perm values). apply distinct_NoDup.
Qed.

Lemma sortDistinct_sorted (values : list jstring) :
  Sorted localeLe (sortDistinct P values).
Proof. apply sortWith_sorted. Qed.

(** The matches that the loop collects when nothing stops it. *)
Definition collected (repoRoot baseDir : jstring) (scanned : list jstring)
    : list jstring :=
  omap (globCandidate P repoRoot baseDir) scanned.

Lemma globLoop_take (repoRoot baseDir : jstring) (limit : nat)
    (scanned : list jstring) (matches : list jstring) :
  (length matches < limit)%nat ->
  globLoop P repoRoot baseDir limit scanned matches
  = (take limit (matches ++ collected repoRoot baseDir scanned),
     (limit <=? length (matches ++ collected repoRoot baseDir scanned))%nat).
Proof.
  revert matches; induction scanned as [|found rest IH]; intros matches Hlt.
  - simpl. rewrite app_nil_r, take_ge by lia.
    f_equal. symmetry. apply Nat.leb_gt. exact Hlt.
  - simpl. unfold collected. simpl.
    destruct (globCandidate P repoRoot baseDir found) as [relative|].
    + destruct (limit <=? length (matches ++ [relative]))%nat eqn:E.
      * apply Nat.leb_le in E. rewrite length_app in E. simpl in E.
        change (matches ++ relative :: omap (globCandidate P repoRoot baseDir) rest)
          with (matches ++ [relative] ++ omap (globCandidate P repoRoot baseDir) rest).
        rewrite app_assoc. f_equal.
        -- rewrite take_app_le by (rewrite length_app; simpl; lia).
           rewrite take_ge by (rewrite length_app; simpl; lia). reflexivity.
        -- symmetry. apply Nat.leb_le. rewrite !length_app. simpl. lia.
      * apply Nat.leb_gt in E. rewrite IH by exact E.
        now rewrite <- app_assoc.
    + now apply IH.
Qed.

(** C8, amended.  Glob collects the root-relative matches in the order
    of the scan and stops, with [truncated] set, once [maxResults]
    (250 by default) of them are collected; what it returns is these
    first matches, sorted by [localeCompare] with base sensitivity
    (so regardless of case) and without duplicates.  [truncated] is set
    exactly when the scan holds at least [maxResults] matches.  The
    truncation comes before the sort: which matches are returned
    depends on the order of the scan, and the result is the sorted set
    of all the matches when [truncated] is not set. *)
Theorem globTool_truncates_then_sorts (repoRoot pattern : jstring)
    (cwd : option jstring) (maxResults : option nat) (r : GlobResult) :
  (0 < default DEFAULT_MAX_GLOB_RESULTS maxResults)%nat ->
  globTool P repoRoot pattern cwd maxResults = Ok r ->
  exists baseDir,
    let limit := default DEFAULT_MAX_GLOB_RESULTS maxResults in
    let all := collected repoRoot baseDir (scanSync P pattern baseDir) in
    globMatches r = sortDistinct P (take limit all) /\
    globTruncated r = (limit <=? length all)%nat /\
    Sorted localeLe (globMatches r) /\
    NoDup (globMatches r) /\
    (forall m, m ∈ globMatches r <-> m ∈ take limit all) /\
    (length (globMatches r) <= limit)%nat /\
    (globTruncated r = false -> globMatches r = sortDistinct P all).
Proof.
  intros Hpos. unfold globTool.
  destruct (match cwd with
            | Some dir =>
              if nonEmpty dir then resolveWithinRepo P repoRoot dir
              else Ok repoRoot
            | None => Ok repoRoot
            end) as [baseDir|e]; [|discriminate].
  simpl. destruct (lstat P baseDir) as [baseStats|]; [|discriminate].
  destruct (isSymbolicLink baseStats || negb (isDirectory baseStats));
    [discriminate|].
  rewrite (globLoop_take repoRoot baseDir _ _ []) by exact Hpos.
  simpl app. intros [= <-]. exists baseDir. cbv zeta. simpl.
  split; [reflexivity|]. split; [reflexivity|].
  split; [apply sortDistinct_sorted|]. split; [apply sortDistinct_NoDup|].
  split; [apply sortDistinct_elem|]. split.
  - rewrite (sortDistinct_perm _).
    transitivity (length (take (default DEFAULT_MAX_GLOB_RESULTS maxResults)
      (collected repoRoot baseDir (scanSync P pattern baseDir)))).
    + apply distinct_length.
    + rewrite length_take. lia.
  - intros Hle. apply Nat.leb_gt in Hle. now rewrite take_ge by lia.
Qed.

End WithPlatform.

(** C8, as stated, fails: with a scan that yields [b] before [a] and
    [maxResults] 1, Glob returns [b] alone, which is no prefix of the
    sorted set of all the matches, [a] then [b]; with the scan in the
    other order it returns [a]. *)
Lemma globTool_not_prefix_of_sorted :
  let bThenA := SamplePlatform.platform [str "b"; str "a"] (fun _ => []) in
  let aThenB := SamplePlatform.platform [str "a"; str "b"] (fun _ => []) in
  globTool bThenA (str "/work") (str "*") None (Some 1%nat)
    = Ok {| globMatches := [str "b"]; globTruncated := true |} /\
  globTool bThenA (str "/work") (str "*") None None
    = Ok {| globMatches := [str "a"; str "b"]; globTruncated := false |} /\
  ~ (exists k, [str "b"] = take k [str "a"; str "b"]) /\
  globTool aThenB (str "/work") (str "*") None (Some 1%nat)
    = Ok {| globMatches := [str "a"]; globTruncated := true |}.
Proof.
  cbv zeta. split; [vm_compute; reflexivity|]. split; [vm_compute; reflexivity|].
  split; [|vm_compute; reflexivity].
  intros [k Hk]. destruct k as [|k]; [discriminate Hk|]. simpl in Hk.
  injection Hk as Hk _. vm_compute in Hk. discriminate Hk.
Qed.

Lemma globTool_truncates_then_sorts_witness :
  let P := SamplePlatform.platform [str "b"; str "A"; str "a"; str "b"] (fun _ => []) in
  exists baseDir,
    let limit := 3%nat in
    let all := collected P (str "/work") baseDir (scanSync P (str "*") baseDir) in
    [str "A"; str "a"; str "b"] = sortDistinct P (take limit all) /\
    true = (limit <=? length all)%nat /\
    Sorted (localeLe P) [str "A"; str "a"; str "b"] /\
    NoDup [str "A"; str "a"; str "b"] /\
    (forall m, m ∈ [str "A"; str "a"; str "b"] <-> m ∈ take limit all) /\
    (length [str "A"; str "a"; str "b"] <= limit)%nat /\
    (true = false -> [str "A"; str "a"; str "b"] = sortDistinct P all).
Proof.
  cbv zeta.
  apply (globTool_truncates_then_sorts
           (SamplePlatform.platform [str "b"; str "A"; str "a"; str "b"] (fun _ => []))
           (str "/work") (str "*") None (Some 3%nat)
           {| globMatches := [str "A"; str "a"; str "b"]; globTruncated := true |}).
  - simpl. lia.
  - vm_compute. reflexivity.
Defined.

End GlobFacts.

Module GrepFacts.
Import JS JSFacts NodePath Tools.

Section WithPlatform.
Context (P : Platform).

Lemma execLoop_step (record : nat -> jstring -> GrepMatch.t) (regex : Matcher)
    (input : jstring) (limit lastIndex : nat) (matches : list GrepMatch.t) :
  execLoop record regex input limit lastIndex matches =
  match exec regex input lastIndex with
  | (None, _) => (matches, false)
  | (Some (index, matchText), lastIndex') =>
    if (limit <=? length (matches ++ [record index matchText]))%nat
    then (matches ++ [record index matchText], true)
    else execLoop record regex input limit lastIndex'
           (matches ++ [record index matchText])
  end.
Proof.
  funelim (execLoop record regex input limit lastIndex matches);
    match goal with H : exec _ _ _ = _ |- _ => rewrite H end;
    try match goal with H : (_ <=? _)%nat = _ |- _ => rewrite H end;
    reflexivity.
Qed.

(** How many matches a scan leaves, and whether it reports the limit. *)
Definition withinLimit (limit : nat) (r : list GrepMatch.t * bool) : Prop :=
  (r.2 = true -> length r.1 = limit) /\ (r.2 = false -> (length r.1 < limit)%nat).

Lemma execLoop_withinLimit (record : nat -> jstring -> GrepMatch.t)
    (regex : Matcher) (input : jstring) (limit : nat) :
  forall (n lastIndex : nat) (matches : list GrepMatch.t),
    (limit - length matches <= n)%nat -> (length matches < limit)%nat ->
    withinLimit limit (execLoop record regex input limit lastIndex matches).
Proof.
  induction n as [|n IH]; intros lastIndex matches Hn Hlt; [lia|].
  rewrite execLoop_step.
  destruct (exec regex input lastIndex) as [[[index matchText]|] lastIndex'].
  - destruct (limit <=? length (matches ++ [record index matchText]))%nat eqn:E.
    + apply Nat.leb_le in E. rewrite length_app in E. simpl in E.
      split; simpl; [|discriminate]. intros _. rewrite length_app. simpl. lia.
    + apply Nat.leb_gt in E. apply IH; [|exact E].
      rewrite length_app in *. simpl in *. lia.
  - split; simpl; [discriminate|auto].
Qed.

Lemma streamingLoop_withinLimit (options : FindMatchOptions) (filePath : jstring)
    (regex : Matcher) (yields : list LineYield) :
  forall (lineNumber charOffset byteOffset : nat) (matches : list GrepMatch.t),
    (length matches < limit options)%nat ->
    withinLimit (limit options)
      (streamingLoop P options filePath regex yields lineNumber charOffset
         byteOffset matches).
Proof.
  induction yields as [|y rest IH]; intros lineNumber charOffset byteOffset
    matches Hlt; simpl.
  - split; simpl; [discriminate|auto].
  - replace (limit options <=? length matches)%nat with false
      by (symmetry; apply Nat.leb_gt; exact Hlt).
    pose proof (execLoop_withinLimit
      (streamingMatch P options filePath (line y) (lineNumber + 1) charOffset
         byteOffset) regex (line y) (limit options) _ 0 matches
      (Nat.le_refl _) Hlt) as [Ht Hf].
    destruct (execLoop _ regex (line y) (limit options) 0 matches)
      as [matches' hit]. simpl in Ht, Hf.
    destruct hit.
    + split; simpl; [auto|discriminate].
    + apply IH. auto.
Qed.

Lemma findMatches_withinLimit (options : FindMatchOptions) (useFullScan : bool)
    (filePath : jstring) (matches : list GrepMatch.t)
    (r : list GrepMatch.t * bool) :
  (length matches < limit options)%nat ->
  (if useFullScan then findMatchesFullScan P options filePath matches
   else findMatchesStreaming P options filePath matches) = Ok r ->
  withinLimit (limit options) r.
Proof.
  intros Hlt. unfold findMatchesFullScan, findMatchesStreaming.
  destruct useFullScan;
    destruct (newRegExp P (pattern options) (flags options)) as [regex|];
    try discriminate; intros [= <-].
  - eapply execLoop_withinLimit; eauto.
  - now apply streamingLoop_withinLimit.
Qed.

Lemma grepLoop_withinLimit (options : FindMatchOptions) (useFullScan : bool)
    (filesToSearch : list jstring) :
  forall (matches : list GrepMatch.t) (r : list GrepMatch.t * bool),
    (length matches < limit options)%nat ->
    grepLoop P options useFullScan filesToSearch matches = Ok r ->
    withinLimit (limit options) r.
Proof.
  induction filesToSearch as [|filePath rest IH]; intros matches r Hlt; simpl.
  - intros [= <-]. split; simpl; [discriminate|auto].
  - replace (limit options <=? length matches)%nat with false
      by (symmetry; apply Nat.leb_gt; exact Hlt).
    destruct (if useFullScan then _ else _) as [[matches' hit]|e] eqn:E;
      [|discriminate].
    simpl. apply findMatches_withinLimit in E as [Ht Hf]; [|exact Hlt].
    simpl in Ht, Hf. destruct hit.
    + intros [= <-]. split; simpl; [auto|discriminate].
    + apply IH. auto.
Qed.

End WithPlatform.

(** C10.  Grep returns at most [maxResults] matches, and [truncated] is
    set exactly when it returns [maxResults] of them.  It is set also
    when the files hold exactly [maxResults] matches and none is left
    out: with a file that holds the letter once and [maxResults] 1 the
    result is truncated, though a larger [maxResults] returns the same
    match and is not. *)
Theorem grepTool_truncated_at_limit (P : Platform) (root pattern : jstring)
    (flags : option jstring) (providedPath : option PathArgument)
    (maxResults : option nat) (encoding : SupportedEncoding) (r : GrepResult) :
  (0 < default DEFAULT_MAX_GREP_RESULTS maxResults)%nat ->
  grepTool P root pattern flags providedPath maxResults encoding = Ok r ->
  ((length (grepMatches r) <= default DEFAULT_MAX_GREP_RESULTS maxResults)%nat /\
   (grepTruncated r = true <->
    length (grepMatches r) = default DEFAULT_MAX_GREP_RESULTS maxResults)) /\
  (let once := SamplePlatform.platform [] (fun _ => [str "a"]) in
   exists r1 r2,
     grepTool once (str "/work") (str "a") None (Some (OnePath (str "f")))
       (Some 1%nat) utf8 = Ok r1 /\
     grepTool once (str "/work") (str "a") None (Some (OnePath (str "f")))
       (Some 2%nat) utf8 = Ok r2 /\
     grepTruncated r1 = true /\ length (grepMatches r1) = 1%nat /\
     grepTruncated r2 = false /\ grepMatches r2 = grepMatches r1).
Proof.
  intros Hpos. unfold grepTool.
  destruct (resolveAll P root _) as [resolvedPaths|e]; [|discriminate].
  simpl. destruct (grepLoop P _ _ _ []) as [[matches truncated]|e] eqn:E;
    [|discriminate].
  simpl. intros [= <-]. simpl. split.
  - apply grepLoop_withinLimit in E as [Ht Hf]; [|exact Hpos].
    simpl in Ht, Hf. destruct truncated.
    + rewrite Ht by reflexivity. split; [lia|]. split; auto.
    + specialize (Hf eq_refl). split; [lia|]. split; [discriminate|lia].
  - eexists _, _. split; [vm_compute; reflexivity|].
    split; [vm_compute; reflexivity|]. repeat split.
Qed.

Lemma grepTool_truncated_at_limit_witness :
  let P := SamplePlatform.platform [] (fun _ => [str "ab"; str "a"; [LF]; str "ba"]) in
  exists r,
    grepTool P (str "/work") (str "a") None (Some (OnePath (str "f"))) (Some 2%nat)
      utf8 = Ok r /\
    (length (grepMatches r) <= 2)%nat /\
    (grepTruncated r = true <-> length (grepMatches r) = 2%nat).
Proof.
  cbv zeta. eexists. split; [vm_compute; reflexivity|].
  eapply proj1.
  eapply (grepTool_truncated_at_limit
            (SamplePlatform.platform [] (fun _ => [str "ab"; str "a"; [LF]; str "ba"]))
            (str "/work") (str "a") None (Some (OnePath (str "f"))) (Some 2%nat) utf8).
  - simpl. lia.
  - vm_compute. reflexivity.
Defined.

(** *** The two scans *)

Import GrepSpec.

(** C7, as stated, fails: the pattern [^a] holds no line feed, no escape
    of one and has no dotall flag, so the streaming scan is chosen; on
    the two lines [a] and [a] it finds a match in each line, the full
    scan only the first, since [^] matches at the start of the input. *)
Lemma scans_differ_on_anchor :
  let P := SamplePlatform.platform [] (fun _ => [str "a"; [LF]; str "a"]) in
  let options :=
    {| repoRoot := str "/work"; pattern := str "^a"; flags := str "g";
       encoding := utf8; limit := 10 |} in
  shouldUseFullScan (str "^a") (Some []) = false /\
  exists streamed full,
    findMatchesStreaming P options (str "/work/f") [] = Ok (streamed, false) /\
    findMatchesFullScan P options (str "/work/f") [] = Ok (full, false) /\
    map project streamed = [(1, 1, str "a"); (2, 1, str "a")]%nat /\
    map project full = [(1, 1, str "a")]%nat /\
    map project streamed <> map project full.
Proof.
  cbv zeta. split; [reflexivity|]. eexists _, _.
  split; [vm_compute; reflexivity|]. split; [vm_compute; reflexivity|].
  split; [reflexivity|]. split; [reflexivity|]. discriminate.
Qed.

(** **** What the stream yields *)

Lemma clampIndex_of_nat (len n : nat) :
  clampIndex len (Z.of_nat n) = Nat.min n len.
Proof.
  unfold clampIndex. destruct (Z.of_nat n <? 0)%Z eqn:E.
  - apply Z.ltb_lt in E. lia.
  - now rewrite Nat2Z.id.
Qed.

Lemma slice_prefix (s : jstring) (n : nat) :
  slice s 0 (Z.of_nat n) = take n s.
Proof.
  unfold slice. rewrite clampIndex_of_nat.
  change (clampIndex (length s) 0) with (Nat.min 0 (length s)).
  rewrite Nat.min_0_l, Nat.sub_0_r, drop_0.
  destruct (Nat.le_ge_cases n (length s)) as [H|H].
  - now rewrite Nat.min_l.
  - rewrite Nat.min_r by exact H. now rewrite !take_ge by lia.
Qed.

Lemma sliceFrom_drop (s : jstring) (n : nat) :
  sliceFrom s (Z.of_nat n) = drop n s.
Proof.
  unfold sliceFrom. rewrite clampIndex_of_nat.
  destruct (Nat.le_ge_cases n (length s)) as [H|H].
  - now rewrite Nat.min_l.
  - rewrite Nat.min_r by exact H. now rewrite !drop_ge by lia.
Qed.

Lemma slice_but_last (s : jstring) :
  slice s 0 (-1) = take (length s - 1) s.
Proof.
  unfold slice, clampIndex. change (0 <? 0)%Z with false.
  change (-1 <? 0)%Z with true. cbv iota.
  replace (Nat.min (Z.to_nat 0) (length s)) with 0%nat by lia.
  rewrite Nat.sub_0_r, drop_0. f_equal. lia.
Qed.

Lemma indexOf_first (current rest : jstring) (c : N) :
  c ∉ current -> indexOf (current ++ c :: rest) c = Some (length current).
Proof.
  induction current as [|x current IH]; intros H; simpl.
  - now rewrite N.eqb_refl.
  - destruct (x =? c) eqn:E.
    + apply N.eqb_eq in E as ->. exfalso. apply H. constructor.
    + rewrite IH; [reflexivity|]. intros Hc. apply H. now constructor.
Qed.

Lemma indexOf_none (s : jstring) (c : N) : c ∉ s -> indexOf s c = None.
Proof.
  induction s as [|x s IH]; intros H; simpl; [reflexivity|].
  destruct (x =? c) eqn:E.
  - apply N.eqb_eq in E as ->. exfalso. apply H. constructor.
  - rewrite IH; [reflexivity|]. intros Hc. apply H. now constructor.
Qed.

(** The lines that a line feed ends, and what follows the last of them. *)
Fixpoint scanComplete (text current : jstring) : list (jstring * nat) * jstring :=
  match text with
  | [] => ([], current)
  | c :: rest =>
    if c =? LF
    then (terminated current :: (scanComplete rest []).1, (scanComplete rest []).2)
    else scanComplete rest (current ++ [c])
  end.

Definition lastLine (remainder : jstring) : list (jstring * nat) :=
  if (0 <? length remainder)%nat then [(remainder, 0%nat)] else [].

Lemma scanLines_complete (text current : jstring) :
  scanLines text current
  = (scanComplete text current).1 ++ lastLine (scanComplete text current).2.
Proof.
  revert current; induction text as [|c rest IH]; intros current; simpl.
  - reflexivity.
  - destruct (c =? LF); simpl; [now rewrite IH|apply IH].
Qed.

Lemma scanComplete_app (t1 t2 current : jstring) :
  scanComplete (t1 ++ t2) current
  = ((scanComplete t1 current).1
       ++ (scanComplete t2 (scanComplete t1 current).2).1,
     (scanComplete t2 (scanComplete t1 current).2).2).
Proof.
  revert current; induction t1 as [|c rest IH]; intros current; simpl.
  - now destruct (scanComplete t2 current).
  - destruct (c =? LF); simpl; [now rewrite IH|apply IH].
Qed.

Lemma scanComplete_remainder (text current : jstring) :
  LF ∉ current -> LF ∉ (scanComplete text current).2.
Proof.
  revert current; induction text as [|c rest IH]; intros current H; simpl.
  - exact H.
  - destruct (c =? LF) eqn:E; simpl.
    + apply IH. apply not_elem_of_nil.
    + apply IH. intros Hin. apply elem_of_app in Hin as [Hin|Hin]; [auto|].
      apply list_elem_of_singleton in Hin. subst. now rewrite N.eqb_refl in E.
Qed.

Section Scans.
Context (P : Platform).

(** What the stream yields for a line. *)
Definition yieldOf (encoding : SupportedEncoding) (l : jstring * nat) : LineYield :=
  {| line := l.1; lineEndingChars := l.2;
     lineBytes := byteLength P l.1 encoding;
     lineEndingBytes :=
       match l.2 with
       | 0%nat => 0%nat
       | 1%nat => byteLength P [LF] encoding
       | _ => (byteLength P [LF] encoding + byteLength P [CR] encoding)%nat
       end |}.

Lemma drainBuffer_spec (encoding : SupportedEncoding) (text : jstring) :
  forall (current : jstring) (fuel : nat),
    LF ∉ current -> (length (current ++ text) <= fuel)%nat ->
    drainBuffer P encoding fuel (current ++ text)
    = (map (yieldOf encoding) (scanComplete text current).1,
       (scanComplete text current).2).
Proof.
  induction text as [|c rest IH]; intros current fuel Hc Hfuel.
  - rewrite app_nil_r. simpl. destruct fuel; [reflexivity|]. simpl.
    now rewrite indexOf_none.
  - simpl. destruct (c =? LF) eqn:E.
    + apply N.eqb_eq in E as ->.
      destruct fuel as [|fuel]; [rewrite length_app in Hfuel; simpl in Hfuel; lia|].
      simpl. rewrite indexOf_first by exact Hc.
      rewrite slice_prefix, take_app_length, sliceFrom_drop.
      replace (length current + 1)%nat with (length (current ++ [LF]))
        by (rewrite length_app; reflexivity).
      change (current ++ LF :: rest) with (current ++ [LF] ++ rest).
      rewrite app_assoc, drop_app_length.
      assert (Hrec : drainBuffer P encoding fuel rest
                = (map (yieldOf encoding) (scanComplete rest []).1,
                   (scanComplete rest []).2)).
      { apply (IH [] fuel); [apply not_elem_of_nil|].
        rewrite length_app in Hfuel. simpl in *. lia. }
      rewrite Hrec. simpl. f_equal. f_equal. unfold terminated, yieldOf.
      rewrite slice_but_last. destruct (endsWith current [CR]); reflexivity.
    + change (current ++ c :: rest) with (current ++ [c] ++ rest).
      rewrite app_assoc. apply IH.
      * intros Hin. apply elem_of_app in Hin as [Hin|Hin]; [auto|].
        apply list_elem_of_singleton in Hin. subst. now rewrite N.eqb_refl in E.
      * now rewrite <- app_assoc.
Qed.

Lemma streamLoop_spec (encoding : SupportedEncoding) (chunks : list jstring) :
  forall buffer, LF ∉ buffer ->
    streamLoop P encoding chunks buffer
    = map (yieldOf encoding) (scanLines (concat chunks) buffer).
Proof.
  induction chunks as [|chunk rest IH]; intros buffer Hb; simpl.
  - unfold yieldOf. destruct (0 <? length buffer)%nat; reflexivity.
  - rewrite (drainBuffer_spec encoding chunk buffer _ Hb (Nat.le_refl _)).
    cbv beta iota.
    rewrite (IH _ (scanComplete_remainder chunk buffer Hb)).
    rewrite !scanLines_complete, scanComplete_app. simpl.
    now rewrite <- map_app, app_assoc.
Qed.

(** The stream yields the lines of the file, whatever its chunks. *)
Lemma streamFileLines_textLines (filePath : jstring) (encoding : SupportedEncoding) :
  streamFileLines P filePath encoding
  = map (yieldOf encoding) (textLines (readFile P filePath encoding)).
Proof. apply streamLoop_spec, not_elem_of_nil. Qed.

(** **** The line of an offset *)

Lemma findLineLoop_step (lineIndex : LineIndex) (matchOffset : nat) (low high : Z) :
  findLineLoop lineIndex matchOffset low high =
  if (low <=? high)%Z then
    let mid := ((low + high) / 2)%Z in
    let offset := default 0%nat (at_ (charOffsets lineIndex) mid) in
    if (offset <=? matchOffset)%nat then
      if (mid =? Z.of_nat (length (charOffsets lineIndex)) - 1)%Z
         || match at_ (charOffsets lineIndex) (mid + 1) with
            | Some next => (matchOffset <? next)%nat
            | None => false
            end
      then (Z.to_nat (mid + 1), offset,
            default 0%nat (at_ (byteOffsets lineIndex) mid))
      else findLineLoop lineIndex matchOffset (mid + 1) high
    else findLineLoop lineIndex matchOffset low (mid - 1)
  else (1%nat, 0%nat, 0%nat).
Proof.
  funelim (findLineLoop lineIndex matchOffset low high);
    match goal with H : (_ <=? _)%Z = _ |- _ => rewrite H end; reflexivity.
Qed.

Lemma at_of_nat (array : list nat) (i : nat) : at_ array (Z.of_nat i) = array !! i.
Proof.
  unfold at_. destruct (Z.of_nat i <? 0)%Z eqn:E.
  - apply Z.ltb_lt in E. lia.
  - now rewrite Nat2Z.id.
Qed.

Lemma sorted_lookup_lt (l : list nat) (i j a b : nat) :
  StronglySorted lt l -> (i < j)%nat -> l !! i = Some a -> l !! j = Some b ->
  (a < b)%nat.
Proof.
  intros Hs. revert i j. induction Hs as [|x l Hs IH Hall]; intros i j Hij Hi Hj.
  - discriminate Hi.
  - destruct j as [|j]; [lia|]. destruct i as [|i].
    + injection Hi as <-. simpl in Hj.
      rewrite Forall_forall in Hall. apply Hall.
      eapply list_elem_of_lookup_2; eauto.
    + simpl in Hi, Hj. apply (IH i j); auto. lia.
Qed.

(** The binary search finds the last line that starts at or before the
    offset. *)
Lemma findLineLoop_correct (lineIndex : LineIndex) (off k s : nat) :
  StronglySorted lt (charOffsets lineIndex) ->
  charOffsets lineIndex !! k = Some s -> (s <= off)%nat ->
  (forall v, charOffsets lineIndex !! S k = Some v -> (off < v)%nat) ->
  forall (n : nat) (low high : Z),
    (Z.to_nat (high - low + 1) <= n)%nat ->
    (0 <= low <= Z.of_nat k)%Z -> (Z.of_nat k <= high)%Z ->
    (high <= Z.of_nat (length (charOffsets lineIndex)) - 1)%Z ->
    findLineLoop lineIndex off low high
    = (S k, s, default 0%nat (byteOffsets lineIndex !! k)).
Proof.
  intros Hsorted Hk Hs Hnext. induction n as [|n IH]; intros low high Hn Hlow Hhigh Hlen.
  { lia. }
  rewrite findLineLoop_step.
  replace (low <=? high)%Z with true by (symmetry; apply Z.leb_le; lia).
  cbv zeta.
  assert (Hmid : (low <= (low + high) / 2 <= high)%Z)
    by (split; [apply Z.div_le_lower_bound|apply Z.div_le_upper_bound]; lia).
  set (mid := ((low + high) / 2)%Z) in *.
  assert (Hm : mid = Z.of_nat (Z.to_nat mid)) by lia.
  rewrite Hm, !at_of_nat.
  replace (Z.of_nat (Z.to_nat mid) + 1)%Z with (Z.of_nat (S (Z.to_nat mid))) by lia.
  rewrite at_of_nat.
  set (m := Z.to_nat mid) in *.
  assert (Hmlt : (m < length (charOffsets lineIndex))%nat) by lia.
  destruct (lookup_lt_is_Some_2 _ _ Hmlt) as [vm Evm]. rewrite Evm. simpl default.
  destruct (vm <=? off)%nat eqn:Ecmp.
  - apply Nat.leb_le in Ecmp.
    assert (Hmk : (m <= k)%nat).
    { destruct (Nat.le_gt_cases m k) as [H|H]; [exact H|].
      destruct (decide (m = S k)) as [->|Hne].
      - specialize (Hnext vm Evm). lia.
      - destruct (lookup_lt_is_Some_2 (charOffsets lineIndex) (S k)) as [v Ev];
          [lia|].
        pose proof (Hnext v Ev).
        pose proof (sorted_lookup_lt _ (S k) m v vm Hsorted ltac:(lia) Ev Evm).
        lia. }
    destruct ((Z.of_nat m =? Z.of_nat (length (charOffsets lineIndex)) - 1)%Z
              || match charOffsets lineIndex !! S m with
                 | Some next => (off <? next)%nat
                 | None => false
                 end) eqn:Estop.
    + assert (m = k).
      { destruct (decide (m = k)) as [|Hne]; [assumption|]. exfalso.
        assert (Hlt : (m < k)%nat) by lia.
        apply orb_true_iff in Estop as [E|E].
        - apply Z.eqb_eq in E. apply lookup_lt_Some in Hk. lia.
        - destruct (charOffsets lineIndex !! S m) as [next|] eqn:En;
            [|discriminate].
          apply Nat.ltb_lt in E.
          destruct (decide (S m = k)) as [Heq|Hne'].
          + rewrite Heq, Hk in En. injection En as <-. lia.
          + pose proof (sorted_lookup_lt _ (S m) k next s Hsorted ltac:(lia) En Hk).
            lia. }
      subst m. rewrite H in *. rewrite Hk in Evm. injection Evm as <-.
      now rewrite Nat2Z.id.
    + apply orb_false_iff in Estop as [E0 E]. apply Z.eqb_neq in E0.
      assert (Hlt : (m < k)%nat).
      { destruct (decide (m = k)) as [Heq|Hne]; [|lia]. exfalso.
        rewrite Heq in E.
        destruct (charOffsets lineIndex !! S k) as [next|] eqn:En.
        - apply Nat.ltb_ge in E. specialize (Hnext next eq_refl). lia.
        - apply lookup_ge_None in En. lia. }
      apply IH; lia.
  - apply Nat.leb_gt in Ecmp.
    assert (Hgt : (k < m)%nat).
    { destruct (Nat.le_gt_cases m k) as [H|H]; [|exact H]. exfalso.
      destruct (decide (m = k)) as [Heq|Hne].
      - rewrite Heq, Hk in Evm. injection Evm as <-. lia.
      - pose proof (sorted_lookup_lt _ m k vm s Hsorted ltac:(lia) Evm Hk). lia. }
    apply IH; lia.
Qed.

(** **** The lines and the index of line starts *)

Lemma lineStarts_none (encoding : SupportedEncoding) (p : jstring) :
  forall i b, LF ∉ p -> lineStarts P encoding p i b = [].
Proof.
  induction p as [|c p IH]; intros i b H; simpl; [reflexivity|].
  destruct (c =? LF) eqn:E.
  - apply N.eqb_eq in E as ->. exfalso. apply H. constructor.
  - apply IH. intros Hin. apply H. now constructor.
Qed.

Lemma lineStarts_first (encoding : SupportedEncoding) (p rest : jstring) :
  forall i b, LF ∉ p ->
    exists b',
      lineStarts P encoding (p ++ LF :: rest) i b
      = ((i + length p + 1)%nat, b')
          :: lineStarts P encoding rest (i + length p + 1) b'.
Proof.
  induction p as [|c p IH]; intros i b H; simpl.
  - rewrite Nat.add_0_r. eauto.
  - destruct (c =? LF) eqn:E.
    + apply N.eqb_eq in E as ->. exfalso. apply H. constructor.
    + destruct (IH (i + 1)%nat (b + byteLength P [c] encoding)%nat) as [b' Hb'].
      { intros Hin. apply H. now constructor. }
      exists b'. rewrite Hb'.
      replace (i + 1 + length p + 1)%nat with (i + S (length p) + 1)%nat by lia.
      reflexivity.
Qed.

Lemma lineStarts_above (encoding : SupportedEncoding) (text : jstring) :
  forall i b,
    Forall (fun v => (i < v)%nat) (map fst (lineStarts P encoding text i b)) /\
    StronglySorted lt (map fst (lineStarts P encoding text i b)).
Proof.
  induction text as [|c text IH]; intros i b; simpl.
  - split; constructor.
  - destruct (IH (i + 1)%nat (b + byteLength P [c] encoding)%nat) as [Ha Hs].
    assert (Ha' : Forall (fun v => (i < v)%nat)
              (map fst (lineStarts P encoding text (i + 1)
                          (b + byteLength P [c] encoding)))).
    { eapply Forall_impl; [exact Ha|]. simpl. intros; lia. }
    destruct (c =? LF); simpl.
    + split; [constructor; [lia|exact Ha']|]. constructor; [exact Hs|exact Ha].
    + split; assumption.
Qed.

Lemma charOffsets_sorted (content : jstring) (encoding : SupportedEncoding) :
  StronglySorted lt (charOffsets (buildLineIndex P content encoding)).
Proof.
  unfold buildLineIndex. simpl.
  destruct (lineStarts_above encoding content 0 0) as [Ha Hs].
  now constructor.
Qed.

Lemma first_line_feed (text : jstring) :
  LF ∉ text \/ exists p rest, text = p ++ LF :: rest /\ LF ∉ p.
Proof.
  induction text as [|c text IH]; [left; apply not_elem_of_nil|].
  destruct (c =? LF) eqn:E.
  - apply N.eqb_eq in E as ->. right. exists [], text.
    split; [reflexivity|apply not_elem_of_nil].
  - destruct IH as [H|(p & rest & -> & Hp)].
    + left. intros Hin. apply elem_of_cons in Hin as [Heq|Hin]; [|auto].
      rewrite <- Heq in E. discriminate E.
    + right. exists (c :: p), rest. split; [reflexivity|].
      intros Hin. apply elem_of_cons in Hin as [Heq|Hin]; [|auto].
      rewrite <- Heq in E. discriminate E.
Qed.

Lemma scanLines_no_feed (p text current : jstring) :
  LF ∉ p -> scanLines (p ++ text) current = scanLines text (current ++ p).
Proof.
  revert current; induction p as [|c p IH]; intros current H; simpl.
  - now rewrite app_nil_r.
  - destruct (c =? LF) eqn:E.
    + apply N.eqb_eq in E as ->. exfalso. apply H. constructor.
    + rewrite IH by (intros Hin; apply H; now constructor).
      now rewrite <- app_assoc.
Qed.

(** The lines [ls] lie in [content] from the offset [s] on, and [cs]
    holds the starts of the lines from there on. *)
Fixpoint linesAt (content : jstring) (s : nat) (cs : list nat)
    (ls : list (jstring * nat)) : Prop :=
  match ls with
  | [] => True
  | (l, ending) :: rest =>
    take (length l) (drop s content) = l /\
    (s + length l + ending <= length content)%nat /\
    head cs = Some s /\
    (forall v, cs !! 1%nat = Some v -> (s + length l < v)%nat) /\
    linesAt content (s + length l + ending) (tail cs) rest
  end.

Lemma terminated_length (p : jstring) :
  (length (terminated p).1 + (terminated p).2 = length p + 1)%nat /\
  exists t, p = (terminated p).1 ++ t.
Proof.
  unfold terminated. destruct (endsWith p [CR]) eqn:E; simpl.
  - apply GitPathFacts.endsWith_one in E as [r ->].
    rewrite length_app. simpl.
    replace (length r + 1 - 1)%nat with (length r) by lia.
    rewrite take_app_length. split; [lia|eauto].
  - split; [lia|]. exists []. now rewrite app_nil_r.
Qed.

Lemma linesAt_scanLines (encoding : SupportedEncoding) (n : nat) :
  forall (pre text : jstring) (b : nat),
    (length text <= n)%nat ->
    linesAt (pre ++ text) (length pre)
      (length pre :: map fst (lineStarts P encoding text (length pre) b))
      (scanLines text []).
Proof.
  induction n as [|n IH]; intros pre text b Hn.
  { destruct text; [exact I|simpl in Hn; lia]. }
  destruct (first_line_feed text) as [Hno|(p & rest & -> & Hp)].
  - rewrite <- (app_nil_r text) at 3. rewrite scanLines_no_feed by exact Hno.
    rewrite lineStarts_none by exact Hno. simpl.
    destruct (0 <? length text)%nat; [|exact I]. simpl.
    rewrite drop_app_length, take_ge by lia.
    rewrite length_app. repeat split; try lia. intros v Hv. discriminate Hv.
  - rewrite scanLines_no_feed by exact Hp. simpl scanLines at 1.
    destruct (lineStarts_first encoding p rest (length pre) b Hp) as [b' ->].
    destruct (terminated_length p) as [Hlen [t Ht]].
    destruct (terminated p) as [l ending] eqn:Et. simpl in Hlen, Ht.
    assert (Hle : (length l <= length p)%nat).
    { apply (f_equal length) in Ht. rewrite length_app in Ht. lia. }
    cbn [linesAt map fst head tail].
    rewrite drop_app_length.
    split; [|split; [|split; [|split]]].
    + rewrite Ht at 1. rewrite <- app_assoc. apply take_app_length.
    + rewrite !length_app. simpl. lia.
    + reflexivity.
    + intros v [= <-]. lia.
    + replace (length pre + length l + ending)%nat
        with (length (pre ++ p ++ [LF])) by (rewrite !length_app; simpl; lia).
      replace (length pre + length p + 1)%nat
        with (length (pre ++ p ++ [LF])) by (rewrite !length_app; simpl; lia).
      replace (pre ++ p ++ LF :: rest) with ((pre ++ p ++ [LF]) ++ rest)
        by (now rewrite <- !app_assoc).
      apply IH. rewrite length_app in Hn. simpl in Hn. lia.
Qed.

Lemma linesAt_textLines (content : jstring) (encoding : SupportedEncoding) :
  linesAt content 0 (charOffsets (buildLineIndex P content encoding))
    (textLines content).
Proof.
  exact (linesAt_scanLines encoding (length content) [] content 0 (Nat.le_refl _)).
Qed.

(** **** The full scan follows the streaming scan *)

Lemma exec_at (regex : Matcher) (input : jstring) (lastIndex : nat) :
  (lastIndex <= length input)%nat ->
  exec regex input lastIndex =
  match regex input lastIndex with
  | None => (None, 0%nat)
  | Some (index, len) =>
    (Some (index, take len (drop index input)), (index + len)%nat)
  end.
Proof.
  intros H. unfold exec.
  replace (length input <? lastIndex)%nat with false
    by (symmetry; apply Nat.ltb_ge; exact H).
  reflexivity.
Qed.

Lemma sameMatch_eq (a b : option (nat * nat)) : sameMatch a b = true -> a = b.
Proof.
  destruct a as [[i n]|], b as [[j m]|]; simpl; try discriminate; [|reflexivity].
  intros H. apply andb_true_iff in H as [H1 H2].
  apply Nat.eqb_eq in H1, H2. now subst.
Qed.

Lemma execLoop_extends (record : nat -> jstring -> GrepMatch.t) (regex : Matcher)
    (input : jstring) (lim : nat) :
  forall (fuel lastIndex : nat) (matches : list GrepMatch.t),
    (lim - length matches <= fuel)%nat ->
    exists found,
      (execLoop record regex input lim lastIndex matches).1 = matches ++ found.
Proof.
  induction fuel as [|fuel IH]; intros lastIndex matches Hfuel;
    rewrite execLoop_step;
    destruct (exec regex input lastIndex) as [[[index text]|] lastIndex'];
    try (exists []; simpl; now rewrite app_nil_r);
    destruct (lim <=? length (matches ++ [record index text]))%nat eqn:E;
    try (eexists; reflexivity).
  - apply Nat.leb_gt in E. rewrite length_app in E. simpl in E. lia.
  - destruct (IH lastIndex' (matches ++ [record index text])) as [found Hf].
    + apply Nat.leb_gt in E. rewrite length_app in *. simpl in *. lia.
    + exists (record index text :: found). rewrite Hf. now rewrite <- app_assoc.
Qed.

Lemma streamingLoop_extends (options : FindMatchOptions) (filePath : jstring)
    (regex : Matcher) (yields : list LineYield) :
  forall (lineNumber charOffset byteOffset : nat) (matches : list GrepMatch.t),
    exists found,
      (streamingLoop P options filePath regex yields lineNumber charOffset
         byteOffset matches).1 = matches ++ found.
Proof.
  induction yields as [|y rest IH]; intros lineNumber charOffset byteOffset matches;
    simpl.
  - exists []. now rewrite app_nil_r.
  - destruct (limit options <=? length matches)%nat;
      [exists []; simpl; now rewrite app_nil_r|].
    destruct (execLoop_extends
      (streamingMatch P options filePath (line y) (lineNumber + 1) charOffset
         byteOffset) regex (line y) (limit options) _ 0 matches (Nat.le_refl _))
      as [found1 H1].
    destruct (execLoop _ regex (line y) (limit options) 0 matches)
      as [matches' hit]. simpl in H1. subst matches'.
    destruct hit; [eexists; reflexivity|].
    destruct (IH (lineNumber + 1)%nat
      (charOffset + (length (line y) + lineEndingChars y))%nat
      (byteOffset + (lineBytes y + lineEndingBytes y))%nat (matches ++ found1))
      as [found2 H2].
    exists (found1 ++ found2). rewrite H2. now rewrite <- app_assoc.
Qed.

Section Simulation.
Context (options : FindMatchOptions) (filePath : jstring) (regex : Matcher).

Definition fileContent : jstring := readFile P filePath (encoding options).

Definition fileIndex : LineIndex :=
  buildLineIndex P fileContent (encoding options).

Lemma project_fullScanMatch (off n s b : nat) (text : jstring) :
  findLineStartIndex fileIndex off = (n, s, b) ->
  project (fullScanMatch P options filePath fileContent fileIndex off text)
  = (n, (off - s + 1)%nat, text).
Proof. intros H. unfold fullScanMatch. rewrite H. reflexivity. Qed.

Lemma line_text (l : jstring) (s j len : nat) :
  take (length l) (drop s fileContent) = l -> (j + len <= length l)%nat ->
  take len (drop j l) = take len (drop (s + j) fileContent).
Proof.
  intros Hl Hj. rewrite <- Hl at 1.
  rewrite skipn_firstn_comm, take_take, drop_drop.
  f_equal. lia.
Qed.

(** A line, with the number [n], that lies at the offset [s]. *)
Record lineFacts (l : jstring) (s n : nat) : Prop := {
  lf_text : take (length l) (drop s fileContent) = l;
  lf_bound : (s + length l <= length fileContent)%nat;
  lf_find : forall off, (s <= off <= s + length l)%nat ->
    exists b, findLineStartIndex fileIndex off = (n, s, b);
  lf_local : forall p, (p <= length l)%nat ->
    match regex l p with
    | Some (j, len) =>
      (p <= j)%nat /\ (j + len <= length l)%nat /\
      regex fileContent (s + p)%nat = Some ((s + j)%nat, len)
    | None => True
    end
}.

(** Within a line, the full scan pushes what the streaming scan pushes,
    up to the projection; when the line is left without the limit being
    reached, the full scan is where it is after a search that the line
    alone does not answer. *)
Lemma line_simulation (l : jstring) (s n : nat) :
  lineFacts l s n ->
  forall (fuel p : nat) (ms_s ms_f : list GrepMatch.t) (li cO bO : nat),
    (p <= length l)%nat -> (li <= length fileContent)%nat ->
    regex fileContent li = regex fileContent (s + p)%nat ->
    map project ms_s = map project ms_f ->
    (limit options - length ms_s <= fuel)%nat ->
    exists ms_f',
      map project
        (execLoop (streamingMatch P options filePath l n cO bO) regex l
           (limit options) p ms_s).1 = map project ms_f' /\
      if (execLoop (streamingMatch P options filePath l n cO bO) regex l
            (limit options) p ms_s).2
      then execLoop (fullScanMatch P options filePath fileContent fileIndex)
             regex fileContent (limit options) li ms_f = (ms_f', true)
      else exists q li',
        (q <= length l)%nat /\ (li' <= length fileContent)%nat /\
        regex l q = None /\
        regex fileContent li' = regex fileContent (s + q)%nat /\
        execLoop (fullScanMatch P options filePath fileContent fileIndex)
          regex fileContent (limit options) li ms_f
        = execLoop (fullScanMatch P options filePath fileContent fileIndex)
            regex fileContent (limit options) li' ms_f'.
Proof.
  intros [Htext Hbound Hfind Hlocal].
  induction fuel as [|fuel IH]; intros p ms_s ms_f li cO bO Hp Hli Hreg Hmap Hfuel.
  all: rewrite execLoop_step, (exec_at regex l p Hp).
  all: pose proof (Hlocal p Hp) as Hloc.
  all: destruct (regex l p) as [[j len]|] eqn:Er.
  all: try (exists ms_f; split; [exact Hmap|]; exists p, li; simpl; auto).
  all: destruct Hloc as (Hpj & Hjl & Hc).
  all: rewrite (execLoop_step (fullScanMatch P options filePath fileContent fileIndex)
                  regex fileContent), (exec_at regex fileContent li Hli), Hreg, Hc.
  all: destruct (Hfind (s + j)%nat ltac:(lia)) as [b Hb].
  all: assert (Hpr : project (streamingMatch P options filePath l n cO bO j
                               (take len (drop j l)))
             = project (fullScanMatch P options filePath fileContent fileIndex
                          (s + j) (take len (drop (s + j) fileContent))))
    by (rewrite (project_fullScanMatch _ _ _ _ _ Hb);
        unfold project, streamingMatch; simpl;
        rewrite (line_text l s j len Htext Hjl); do 2 f_equal; lia).
  all: assert (Hlen : length ms_s = length ms_f)
    by (rewrite <- (length_map project ms_s), Hmap; apply length_map).
  all: assert (Hmap' : map project (ms_s ++ [streamingMatch P options filePath l n
                                               cO bO j (take len (drop j l))])
             = map project (ms_f ++ [fullScanMatch P options filePath fileContent
                                       fileIndex (s + j)
                                       (take len (drop (s + j) fileContent))]))
    by (rewrite !map_app, Hmap; simpl; now rewrite Hpr).
  all: replace (length (ms_f ++ [fullScanMatch P options filePath fileContent
                                  fileIndex (s + j)
                                  (take len (drop (s + j) fileContent))]))
         with (length (ms_s ++ [streamingMatch P options filePath l n cO bO j
                                  (take len (drop j l))]))
    by (rewrite !length_app; simpl; lia).
  all: destruct (limit options <=? length (ms_s ++ _))%nat eqn:E;
    [eexists; split; [exact Hmap'|reflexivity]|].
  all: apply Nat.leb_gt in E; rewrite length_app in E; simpl in E.
  - lia.
  - apply IH; auto; try lia.
    + now rewrite Nat.add_assoc.
    + rewrite length_app. simpl. lia.
Qed.

Lemma head_drop (cs : list nat) (k : nat) : head (drop k cs) = cs !! k.
Proof. rewrite head_lookup, lookup_drop. f_equal. lia. Qed.

Lemma lineFacts_of (l : jstring) (ending s k : nat) (rest : list (jstring * nat)) :
  linesAt fileContent s (drop k (charOffsets fileIndex)) ((l, ending) :: rest) ->
  lineLocalFrom regex fileContent s ((l, ending) :: rest) = true ->
  lineFacts l s (S k).
Proof.
  intros (Htext & Hbound & Hhead & Hnext & _) Hlocal.
  rewrite head_drop in Hhead.
  constructor; [exact Htext|lia| |].
  - intros off Hoff. eexists. unfold findLineStartIndex.
    eapply findLineLoop_correct;
      [apply charOffsets_sorted|exact Hhead|lia| |apply Nat.le_refl| | |lia].
    + intros v Hv. assert (s + length l < v)%nat; [|lia]. apply Hnext.
      rewrite lookup_drop. rewrite <- Hv. f_equal. lia.
    + lia.
    + apply lookup_lt_Some in Hhead. lia.
  - intros p Hp. simpl in Hlocal. apply andb_true_iff in Hlocal as [Hall _].
    rewrite forallb_forall in Hall.
    specialize (Hall p ltac:(apply in_seq; lia)).
    destruct (regex l p) as [[j len]|]; [|exact I].
    apply andb_true_iff in Hall as [Hall Hsame].
    apply andb_true_iff in Hall as [H1 H2].
    apply Nat.leb_le in H1, H2. apply sameMatch_eq in Hsame. auto.
Qed.

(** What the full scan is to find next when the streaming scan is about
    to read the lines [ls], the first of which starts at [s]. *)
Definition pending (li s : nat) (ls : list (jstring * nat)) : Prop :=
  match ls with
  | [] => regex fileContent li = None
  | _ :: _ => regex fileContent li = regex fileContent s
  end.

Lemma scan_simulation (ls : list (jstring * nat)) :
  forall (k s cO bO : nat) (ms_s ms_f : list GrepMatch.t) (li : nat),
    linesAt fileContent s (drop k (charOffsets fileIndex)) ls ->
    lineLocalFrom regex fileContent s ls = true ->
    (li <= length fileContent)%nat -> pending li s ls ->
    map project ms_s = map project ms_f ->
    (length ms_s < limit options)%nat ->
    exists ms_f',
      execLoop (fullScanMatch P options filePath fileContent fileIndex) regex
        fileContent (limit options) li ms_f
      = (ms_f',
         (streamingLoop P options filePath regex
            (map (yieldOf (encoding options)) ls) k cO bO ms_s).2) /\
      map project
        (streamingLoop P options filePath regex
           (map (yieldOf (encoding options)) ls) k cO bO ms_s).1
      = map project ms_f'.
Proof.
  induction ls as [|[l ending] rest IH];
    intros k s cO bO ms_s ms_f li Hlines Hlocal Hli Hpend Hmap Hlt.
  - simpl. exists ms_f. split; [|exact Hmap].
    rewrite execLoop_step, (exec_at _ _ _ Hli). simpl in Hpend.
    now rewrite Hpend.
  - pose proof (lineFacts_of l ending s k rest Hlines Hlocal) as Hfacts.
    cbn [map streamingLoop].
    replace (limit options <=? length ms_s)%nat with false
      by (symmetry; apply Nat.leb_gt; exact Hlt).
    change (line (yieldOf (encoding options) (l, ending))) with l.
    change (lineEndingChars (yieldOf (encoding options) (l, ending))) with ending.
    replace (k + 1)%nat with (S k) by lia.
    destruct (line_simulation l s (S k) Hfacts (limit options - length ms_s) 0
                ms_s ms_f li cO bO ltac:(lia) Hli
                ltac:(simpl in Hpend; now rewrite Nat.add_0_r) Hmap
                (Nat.le_refl _)) as (ms_f1 & Hmap1 & Hrest).
    pose proof (execLoop_withinLimit
      (streamingMatch P options filePath l (S k) cO bO) regex l (limit options)
      _ 0 ms_s (Nat.le_refl _) Hlt) as [_ Hlt1].
    destruct (execLoop (streamingMatch P options filePath l (S k) cO bO) regex l
                (limit options) 0 ms_s) as [ms_s1 hit].
    simpl in Hmap1, Hrest, Hlt1. destruct hit.
    + exists ms_f1. simpl. auto.
    + destruct Hrest as (q & li' & Hq & Hli' & Hnone & Hreg & Hexec).
      specialize (Hlt1 eq_refl).
      destruct Hlines as (_ & Hbound & _ & _ & Hlines').
      simpl in Hlocal. apply andb_true_iff in Hlocal as [Hall Hlocal'].
      rewrite forallb_forall in Hall.
      specialize (Hall q ltac:(apply in_seq; lia)). rewrite Hnone in Hall.
      apply sameMatch_eq in Hall.
      assert (Hpend' : pending li' (s + length l + ending) rest).
      { unfold pending. rewrite Hreg, Hall. now destruct rest. }
      assert (Hdrop : tail (drop k (charOffsets fileIndex))
                      = drop (S k) (charOffsets fileIndex)).
      { clear. generalize (charOffsets fileIndex). induction k as [|k IHk];
          intros [|x cs]; simpl; auto. }
      rewrite Hdrop in Hlines'.
      destruct (IH (S k) (s + length l + ending)%nat
                  (cO + (length l + ending))%nat
                  (bO + (lineBytes (yieldOf (encoding options) (l, ending))
                         + lineEndingBytes (yieldOf (encoding options) (l, ending))))%nat
                  ms_s1 ms_f1 li' Hlines' Hlocal' Hli' Hpend' Hmap1 Hlt1)
        as (ms_f2 & Hexec2 & Hmap2).
      exists ms_f2. rewrite Hexec. auto.
Qed.

End Simulation.

(** C7, amended.  For every file and every pattern that is line-local on
    its content — from every position of a line, a match found in the
    line alone lies in the line and is the one found in the whole
    content, and when the line alone has none from there, the whole
    content has what it has from the start of the next line, and nothing
    after the last line — the streaming scan and the full scan push
    matches with the same line, column and matched text, and both report
    the limit or neither does. *)
Theorem scans_agree_when_line_local (options : FindMatchOptions)
    (filePath : jstring) (regex : Matcher) (matches : list GrepMatch.t) :
  newRegExp P (pattern options) (flags options) = Some regex ->
  (length matches < limit options)%nat ->
  lineLocal regex (readFile P filePath (encoding options)) = true ->
  exists found1 found2 hit,
    findMatchesStreaming P options filePath matches = Ok (matches ++ found1, hit) /\
    findMatchesFullScan P options filePath matches = Ok (matches ++ found2, hit) /\
    map project found1 = map project found2.
Proof.
  intros Hre Hlt Hlocal. unfold findMatchesStreaming, findMatchesFullScan.
  rewrite Hre, streamFileLines_textLines.
  fold (fileContent options filePath). fold (fileIndex options filePath).
  unfold lineLocal in Hlocal. fold (fileContent options filePath) in Hlocal.
  destruct (scan_simulation options filePath regex
              (textLines (fileContent options filePath)) 0 0 0 0 matches matches 0)
    as (ms_f & Hexec & Hmap).
  - apply linesAt_textLines.
  - destruct (textLines (fileContent options filePath)); [reflexivity|exact Hlocal].
  - lia.
  - unfold pending.
    destruct (textLines (fileContent options filePath));
      [now apply sameMatch_eq in Hlocal|reflexivity].
  - reflexivity.
  - exact Hlt.
  - destruct (streamingLoop_extends options filePath regex
               (map (yieldOf (encoding options))
                  (textLines (fileContent options filePath))) 0 0 0 matches)
      as [found1 H1].
    destruct (execLoop_extends
               (fullScanMatch P options filePath (fileContent options filePath)
                  (fileIndex options filePath)) regex
               (fileContent options filePath) (limit options) _ 0 matches
               (Nat.le_refl _)) as [found2 H2].
    rewrite Hexec in H2. simpl in H2. subst ms_f.
    destruct (streamingLoop P options filePath regex _ 0 0 0 matches)
      as [ms_s hit]. simpl in *. subst ms_s.
    exists found1, found2, hit. rewrite Hexec.
    split; [reflexivity|]. split; [reflexivity|].
    rewrite !map_app in Hmap. now apply app_inv_head in Hmap.
Qed.

End Scans.

Lemma scans_agree_when_line_local_witness :
  let P := SamplePlatform.platform []
             (fun _ => [str "ab"; str "a"; [CR; LF]; str "xa"; [LF]; str "ca"]) in
  let options :=
    {| repoRoot := str "/work"; pattern := str "a"; flags := str "g";
       encoding := utf8; limit := 3 |} in
  exists found1 found2 hit,
    findMatchesStreaming P options (str "/work/f") [] = Ok ([] ++ found1, hit) /\
    findMatchesFullScan P options (str "/work/f") [] = Ok ([] ++ found2, hit) /\
    map project found1 = map project found2.
Proof.
  cbv zeta.
  apply (scans_agree_when_line_local
           (SamplePlatform.platform []
              (fun _ => [str "ab"; str "a"; [CR; LF]; str "xa"; [LF]; str "ca"]))
           {| repoRoot := str "/work"; pattern := str "a"; flags := str "g";
              encoding := utf8; limit := 3 |}
           (str "/work/f") (SamplePlatform.literalMatcher (str "a")) []).
  - reflexivity.
  - simpl. lia.
  - vm_compute. reflexivity.
Defined.

End GrepFacts.

(** ** More on the path codec *)

Module GitPathLaws.
Import JS JSFacts GitPath GitPathFacts.

(** A code unit that occurs nowhere in a string, by computation. *)
Lemma absent (c : N) (s : jstring) :
  forallb (fun x => negb (x =? c)) s = true -> c ∉ s.
Proof.
  intros H Hin. rewrite forallb_forall in H. rewrite list_elem_of_In in Hin.
  specialize (H c Hin). now rewrite N.eqb_refl in H.
Qed.

(** The loop of [unescapeGitPath], one iteration unfolded. *)
Lemma unescapeGitPath_cons (char : N) (rest : jstring) :
  unescapeGitPath (char :: rest) =
  if char =? BACKSLASH then
    match rest with
    | [] => char :: unescapeGitPath rest
    | next :: rest1 =>
      match GIT_ESCAPE_SEQUENCES next with
      | Some mapped => mapped :: unescapeGitPath rest1
      | None =>
        if isOctalDigit next then
          match rest1 with
          | d2 :: rest2 =>
            if isOctalDigit d2 then
              match rest2 with
              | d3 :: rest3 =>
                if isOctalDigit d3
                then parseOctal [next; d2; d3] :: unescapeGitPath rest3
                else parseOctal [next; d2] :: unescapeGitPath rest2
              | [] => parseOctal [next; d2] :: unescapeGitPath rest2
              end
            else parseOctal [next] :: unescapeGitPath rest1
          | [] => parseOctal [next] :: unescapeGitPath rest1
          end
        else char :: unescapeGitPath rest
      end
    end
  else char :: unescapeGitPath rest.
Proof. reflexivity. Qed.

Lemma unescapeGitPath_no_backslash (value : jstring) :
  BACKSLASH ∉ value -> unescapeGitPath value = value.
Proof.
  induction value as [|char rest IH]; intros H; [reflexivity|].
  rewrite unescapeGitPath_cons. destruct (char =? BACKSLASH) eqn:E.
  - apply N.eqb_eq in E as ->. exfalso. apply H. constructor.
  - rewrite IH; [reflexivity|]. intros Hr. apply H. now constructor.
Qed.

(** What [unescapeGitPath] does to a string: nothing, or it shortens it. *)
Definition keptOrShorter (value : jstring) : Prop :=
  unescapeGitPath value = value \/
  (length (unescapeGitPath value) < length value)%nat.

Lemma keptOrShorter_le (value : jstring) :
  keptOrShorter value -> (length (unescapeGitPath value) <= length value)%nat.
Proof. intros [-> | H]; lia. Qed.

Lemma keptOrShorter_cons (c : N) (rest : jstring) :
  keptOrShorter rest ->
  c :: unescapeGitPath rest = c :: rest \/
  (length (c :: unescapeGitPath rest) < length (c :: rest))%nat.
Proof. intros [-> | H]; [left; reflexivity|right; simpl; lia]. Qed.

Lemma unescapeGitPath_keptOrShorter (n : nat) :
  forall value, (length value <= n)%nat -> keptOrShorter value.
Proof.
  induction n as [|n IH]; intros value Hn.
  { destruct value; [left; reflexivity|simpl in Hn; lia]. }
  destruct value as [|char rest]; [left; reflexivity|].
  simpl in Hn. unfold keptOrShorter. rewrite unescapeGitPath_cons.
  assert (Hrest : keptOrShorter rest) by (apply IH; lia).
  destruct (char =? BACKSLASH); [|now apply keptOrShorter_cons].
  destruct rest as [|next rest1]; [left; reflexivity|].
  simpl in Hn.
  assert (H1 : (length (unescapeGitPath rest1) <= length rest1)%nat)
    by (apply keptOrShorter_le, IH; lia).
  destruct (GIT_ESCAPE_SEQUENCES next); [right; simpl; lia|].
  destruct (isOctalDigit next); [|now apply keptOrShorter_cons].
  destruct rest1 as [|d2 rest2]; [right; simpl; lia|].
  destruct (isOctalDigit d2); [|right; simpl in *; lia].
  simpl in Hn.
  assert (H2 : (length (unescapeGitPath rest2) <= length rest2)%nat)
    by (apply keptOrShorter_le, IH; lia).
  destruct rest2 as [|d3 rest3]; [right; simpl; lia|].
  destruct (isOctalDigit d3); [|right; simpl in *; lia].
  simpl in Hn.
  assert (H3 : (length (unescapeGitPath rest3) <= length rest3)%nat)
    by (apply keptOrShorter_le, IH; lia).
  right. simpl. lia.
Qed.

(** X1.  [unescapeGitPath] returns a string without backslash as it is,
    and never lengthens a string: the result is the argument itself or
    is strictly shorter (every escape it decodes takes at least two code
    units and gives one). *)
Theorem unescapeGitPath_kept_or_shorter (value : jstring) :
  (BACKSLASH ∉ value -> unescapeGitPath value = value) /\
  (unescapeGitPath value = value \/
   (length (unescapeGitPath value) < length value)%nat).
Proof.
  split; [apply unescapeGitPath_no_backslash|].
  apply (unescapeGitPath_keptOrShorter (length value)). lia.
Qed.

(** *** Quoting and reading back

    The C-style quoting that [unescapeGitPath] reads: a tab, a line
    feed, a carriage return, a double quote and a backslash are written
    with their one-letter escape; the other code units below 32 or from
    127 on are written as a backslash and three octal digits; the rest
    are written as they are. *)

Definition octalEscape (c : N) : jstring :=
  [BACKSLASH; 48 + c / 64; 48 + (c / 8) mod 8; 48 + c mod 8].

Definition quoteUnit (c : N) : jstring :=
  if c =? 9 then [BACKSLASH; chr "t"]
  else if c =? 10 then [BACKSLASH; chr "n"]
  else if c =? 13 then [BACKSLASH; chr "r"]
  else if c =? DQUOTE then [BACKSLASH; DQUOTE]
  else if c =? BACKSLASH then [BACKSLASH; BACKSLASH]
  else if (c <? 32) || (127 <=? c) then octalEscape c
  else [c].

Definition quotePath (value : jstring) : jstring := flat_map quoteUnit value.

Lemma octal_digit (d : N) :
  d < 8 ->
  isOctalDigit (48 + d) = true /\ GIT_ESCAPE_SEQUENCES (48 + d) = None.
Proof.
  intros H.
  assert (Hd : d = 0 \/ d = 1 \/ d = 2 \/ d = 3 \/ d = 4 \/ d = 5 \/ d = 6 \/ d = 7)
    by lia.
  destruct Hd as [->|[->|[->|[->|[->|[->|[->| ->]]]]]]]; split; reflexivity.
Qed.

Lemma parseOctal_digits (c : N) :
  c < 512 -> parseOctal [48 + c / 64; 48 + (c / 8) mod 8; 48 + c mod 8] = c.
Proof.
  intros H. unfold parseOctal. cbn [fold_left].
  pose proof (N.div_mod c 8 ltac:(lia)) as H1.
  pose proof (N.div_mod (c / 8) 8 ltac:(lia)) as H2.
  assert (H5 : c / 64 = c / 8 / 8) by (now rewrite N.Div0.div_div).
  rewrite H5. clear H5.
  set (q2 := c / 8 / 8) in *. set (m2 := (c / 8) mod 8) in *.
  set (m1 := c mod 8) in *. set (q1 := c / 8) in *.
  clearbody q2 m2 m1 q1. lia.
Qed.

Lemma unescapeGitPath_octalEscape (c : N) (rest : jstring) :
  c < 512 -> unescapeGitPath (octalEscape c ++ rest) = c :: unescapeGitPath rest.
Proof.
  intros H. unfold octalEscape. cbn [app].
  rewrite unescapeGitPath_cons. change (BACKSLASH =? BACKSLASH) with true. cbv iota.
  assert (H1 : c / 64 < 8) by (apply N.Div0.div_lt_upper_bound; lia).
  assert (H2 : (c / 8) mod 8 < 8) by (apply N.mod_lt; lia).
  assert (H3 : c mod 8 < 8) by (apply N.mod_lt; lia).
  destruct (octal_digit _ H1) as [-> ->].
  destruct (octal_digit _ H2) as [-> _].
  destruct (octal_digit _ H3) as [-> _].
  now rewrite parseOctal_digits.
Qed.

Lemma unescapeGitPath_quoteUnit (c : N) (rest : jstring) :
  c < 512 -> unescapeGitPath (quoteUnit c ++ rest) = c :: unescapeGitPath rest.
Proof.
  intros H. unfold quoteUnit.
  destruct (c =? 9) eqn:E1; [apply N.eqb_eq in E1 as ->; reflexivity|].
  destruct (c =? 10) eqn:E2; [apply N.eqb_eq in E2 as ->; reflexivity|].
  destruct (c =? 13) eqn:E3; [apply N.eqb_eq in E3 as ->; reflexivity|].
  destruct (c =? DQUOTE) eqn:E4; [apply N.eqb_eq in E4 as ->; reflexivity|].
  destruct (c =? BACKSLASH) eqn:E5; [apply N.eqb_eq in E5 as ->; reflexivity|].
  destruct ((c <? 32) || (127 <=? c)); [now apply unescapeGitPath_octalEscape|].
  cbn [app]. rewrite unescapeGitPath_cons, E5. reflexivity.
Qed.

(** X2.  Reading back what is quoted: on every string of code units
    below 512 (all that three octal digits can write), [unescapeGitPath]
    gives back the string from its C-style quoting, whatever follows an
    escape.  An escape that is neither in the table nor octal is kept as
    it is, backslash included. *)
Theorem unescapeGitPath_quotePath :
  (forall value, Forall (fun c => c < 512) value ->
     unescapeGitPath (quotePath value) = value) /\
  (forall next rest,
     GIT_ESCAPE_SEQUENCES next = None -> isOctalDigit next = false ->
     unescapeGitPath (BACKSLASH :: next :: rest)
     = BACKSLASH :: unescapeGitPath (next :: rest)).
Proof.
  split.
  - induction 1 as [|c value Hc _ IH]; [reflexivity|].
    unfold quotePath in *. cbn [flat_map].
    now rewrite unescapeGitPath_quoteUnit, IH.
  - intros next rest H1 H2. rewrite unescapeGitPath_cons.
    change (BACKSLASH =? BACKSLASH) with true. cbv iota. now rewrite H1, H2.
Qed.

(** *** Header tokens *)

Lemma stripEnclosingQuotes_unquoted (c : N) (value : jstring) :
  c <> DQUOTE -> c <> SQUOTE -> stripEnclosingQuotes (c :: value) = c :: value.
Proof.
  intros H1 H2. apply stripEnclosingQuotes_other.
  intros (q & body & [-> | ->] & [= -> _]); congruence.
Qed.

Lemma sliceFrom_prefix (p s : jstring) :
  sliceFrom (p ++ s) (Z.of_nat (length p)) = s.
Proof.
  unfold sliceFrom, clampIndex.
  destruct (Z.of_nat (length p) <? 0)%Z eqn:E; [apply Z.ltb_lt in E; lia|].
  rewrite Nat2Z.id, length_app.
  replace (Nat.min (length p) (length p + length s)) with (length p) by lia.
  apply drop_app_length.
Qed.

Lemma normalizeGitPath_prefixed (a : N) (path : jstring) :
  a = chr "a" \/ a = chr "b" -> BACKSLASH ∉ path ->
  normalizeGitPath (a :: chr "/" :: path) = path /\
  normalizeGitPath (DQUOTE :: (a :: chr "/" :: path) ++ [DQUOTE]) = path.
Proof.
  intros Ha Hp.
  assert (Hb : BACKSLASH ∉ a :: chr "/" :: path).
  { intros H. apply elem_of_cons in H as [H|H]; [destruct Ha; subst; discriminate|].
    apply elem_of_cons in H as [H|H]; [discriminate|contradiction]. }
  assert (Hn : forall raw,
            stripEnclosingQuotes raw = a :: chr "/" :: path ->
            normalizeGitPath raw = path).
  { intros raw Hraw. unfold normalizeGitPath. cbv zeta.
    rewrite Hraw, (unescapeGitPath_no_backslash _ Hb).
    destruct Ha as [-> | ->].
    - change (eqs (chr "a" :: chr "/" :: path) DEV_NULL) with false. cbv iota.
      change (chr "a" :: chr "/" :: path) with (str "a/" ++ path).
      rewrite startsWith_app. apply (sliceFrom_prefix (str "a/")).
    - change (eqs (chr "b" :: chr "/" :: path) DEV_NULL) with false. cbv iota.
      change (startsWith (chr "b" :: chr "/" :: path) (str "a/")) with false.
      cbv iota.
      change (chr "b" :: chr "/" :: path) with (str "b/" ++ path).
      rewrite startsWith_app. apply (sliceFrom_prefix (str "b/")). }
  split; apply Hn.
  - apply stripEnclosingQuotes_unquoted; destruct Ha; subst; discriminate.
  - apply stripEnclosingQuotes_quoted. now left.
Qed.

(** X3.  Of a path without backslash, [normalizeGitPath] strips one
    prefix [a/] or [b/], and no more than one, be the token in double
    quotes or not: [a/] followed by [path] gives [path], even when
    [path] itself starts with [a/] or [b/]. *)
Theorem normalizeGitPath_strips_one_prefix (path : jstring) :
  BACKSLASH ∉ path ->
  normalizeGitPath (str "a/" ++ path) = path /\
  normalizeGitPath (str "b/" ++ path) = path /\
  normalizeGitPath ([DQUOTE] ++ str "a/" ++ path ++ [DQUOTE]) = path /\
  normalizeGitPath ([DQUOTE] ++ str "b/" ++ path ++ [DQUOTE]) = path.
Proof.
  intros H.
  destruct (normalizeGitPath_prefixed (chr "a") path (or_introl eq_refl) H)
    as [H1 H2].
  destruct (normalizeGitPath_prefixed (chr "b") path (or_intror eq_refl) H)
    as [H3 H4].
  auto.
Qed.

Lemma normalizeGitPath_strips_one_prefix_witness :
  normalizeGitPath (str "a/" ++ str "b/src/app.ts") = str "b/src/app.ts" /\
  normalizeGitPath (str "b/" ++ str "b/src/app.ts") = str "b/src/app.ts" /\
  normalizeGitPath ([DQUOTE] ++ str "a/" ++ str "b/src/app.ts" ++ [DQUOTE])
    = str "b/src/app.ts" /\
  normalizeGitPath ([DQUOTE] ++ str "b/" ++ str "b/src/app.ts" ++ [DQUOTE])
    = str "b/src/app.ts".
Proof.
  apply (normalizeGitPath_strips_one_prefix (str "b/src/app.ts")).
  apply absent. vm_compute. reflexivity.
Defined.

End GitPathLaws.

(** ** More on the diff parser *)

Module ParserLaws.
Import JS JSFacts GitPath GitPathFacts GitPathLaws UnifiedDiff UnifiedDiffSpec
  UnifiedDiffFacts.

(** *** Files and headers *)

(** The two tokens of a [diff --git ] line that opens a file. *)
Definition headerPaths (line : jstring) : option (jstring * jstring) :=
  if startsWith line DIFF_GIT_PREFIX
  then splitDiffGitHeaderPaths (sliceFrom line (Z.of_nat (length DIFF_GIT_PREFIX)))
  else None.

Definition rawPaths (f : DiffFile) : jstring * jstring :=
  (rawOldPath f, rawNewPath f).

Lemma rawPaths_insert (fs : list DiffFile) (i : nat) (file file' : DiffFile) :
  fs !! i = Some file -> rawPaths file' = rawPaths file ->
  map rawPaths (<[i := file']> fs) = map rawPaths fs.
Proof.
  intros E H. change (rawPaths <$> <[i := file']> fs = rawPaths <$> fs).
  rewrite list_fmap_insert, H. apply list_insert_id.
  now rewrite list_lookup_fmap, E.
Qed.

Lemma rawPaths_updateCurrentFile (st st' : State) (upd : DiffFile -> DiffFile) :
  (forall f, rawPaths (upd f) = rawPaths f) ->
  updateCurrentFile st upd = Returned st' ->
  map rawPaths (files st') = map rawPaths (files st).
Proof.
  intros Hk Hu. apply updateCurrentFile_inv in Hu as (i & file & _ & E & ->).
  simpl. eapply rawPaths_insert; eauto.
Qed.

Lemma rawPaths_updateCurrentHunk (st : State) (fs : list DiffFile)
    (upd : DiffHunk -> DiffHunk) :
  updateCurrentHunk st upd = Returned fs ->
  map rawPaths fs = map rawPaths (files st).
Proof.
  intros Hu.
  apply updateCurrentHunk_inv in Hu as (fi & hi & file & hunk & _ & E & _ & ->).
  eapply rawPaths_insert; eauto.
Qed.

Lemma rawPaths_pushLine (st st' : State) (l : DiffLine) (o n : number) :
  pushLine st l o n = Returned st' ->
  map rawPaths (files st') = map rawPaths (files st).
Proof.
  unfold pushLine. destruct (updateCurrentHunk st _) as [fs|] eqn:Hu; [|discriminate].
  intros [= <-]. simpl. eapply rawPaths_updateCurrentHunk; eauto.
Qed.

Ltac same_paths := intros f; simpl; try destruct (eqs _ _); reflexivity.

Lemma rawPaths_step (st st' : State) (line : jstring) :
  step st line = Returned st' ->
  map rawPaths (files st')
  = map rawPaths (files st) ++ option_list (headerPaths line).
Proof.
  unfold step, headerPaths.
  destruct (startsWith line DIFF_GIT_PREFIX).
  { destruct (splitDiffGitHeaderPaths _) as [[rawOld rawNew]|]; intros [= <-]; simpl.
    - now rewrite map_app.
    - now rewrite app_nil_r. }
  cbn [option_list]. rewrite app_nil_r.
  destruct (currentFile st) as [fileRef|] eqn:Hc; [|now intros [= <-]].
  repeat match goal with
  | |- context [if startsWith line ?p then _ else _] =>
      destruct (startsWith line p);
      [ try solve [apply rawPaths_updateCurrentFile; same_paths] |]
  end.
  - destruct (updateCurrentFile st (set_isBinary true)) as [st1|] eqn:Hu;
      [|discriminate].
    intros [= <-]. simpl.
    eapply rawPaths_updateCurrentFile; [|exact Hu]. same_paths.
  - destruct (matchHunkHeader line) as [[[[[os ol] ns] nl] hd]|].
    + destruct (readCurrentFile st) as [file|]; [|discriminate]. simpl.
      destruct (updateCurrentFile st _) as [st1|] eqn:Hu; [|discriminate].
      simpl. intros [= <-]. simpl.
      eapply rawPaths_updateCurrentFile; [|exact Hu]. same_paths.
    + destruct (currentHunk st) as [r|]; [|now intros [= <-]].
      destruct (eqs line _).
      * destruct (updateCurrentHunk st _) as [fs|] eqn:Hu; [|discriminate].
        simpl. intros [= <-]. simpl. eapply rawPaths_updateCurrentHunk; eauto.
      * destruct (head line) as [m|]; [|now intros [= <-]].
        destruct (m =? SPACE); [apply rawPaths_pushLine|].
        destruct (m =? chr "+"); [apply rawPaths_pushLine|].
        destruct (m =? chr "-"); [apply rawPaths_pushLine|].
        now intros [= <-].
Qed.

Lemma rawPaths_run (diffLines : list jstring) :
  forall st st', run st diffLines = Returned st' ->
    map rawPaths (files st')
    = map rawPaths (files st) ++ omap headerPaths diffLines.
Proof.
  induction diffLines as [|line rest IH]; intros st st'; simpl.
  - intros [= <-]. now rewrite app_nil_r.
  - destruct (step st line) as [st1|] eqn:Hs; [|discriminate]. simpl.
    intros Hr. rewrite (IH _ _ Hr), (rawPaths_step _ _ _ Hs), <- app_assoc.
    f_equal. destruct (headerPaths line); reflexivity.
Qed.

(** X4.  The files that [parseUnifiedDiff] returns are, in order, those
    of the [diff --git ] lines whose remainder splits into two valid
    tokens: the raw paths of the files are the tokens of these lines,
    kept as they are whatever follows, and there are as many files as
    such lines.  In particular a text without such a line gives no file. *)
Theorem parseUnifiedDiff_files_of_headers (diff : jstring) :
  let diffLines := split LF (replaceCRLF diff) in
  exists fs,
    parseUnifiedDiff diff = Returned fs /\
    map rawPaths fs = omap headerPaths diffLines /\
    length fs = length (List.filter recognizableHeader diffLines) /\
    (Forall (fun line => startsWith line DIFF_GIT_PREFIX = false) diffLines ->
     fs = []).
Proof.
  cbv zeta. unfold parseUnifiedDiff, parseLines.
  change (split 10 (replaceCRLF diff)) with (split LF (replaceCRLF diff)).
  destruct (run_total (split LF (replaceCRLF diff)) initialState validRefs_initial)
    as (st & Hrun & _).
  rewrite Hrun. exists (files st). split; [reflexivity|].
  pose proof (rawPaths_run _ _ _ Hrun) as Hraw. simpl in Hraw.
  split; [exact Hraw|]. split.
  - rewrite <- (length_map rawPaths), Hraw. clear.
    induction (split LF (replaceCRLF diff)) as [|line rest IH]; [reflexivity|].
    cbn [omap list_omap List.filter]. unfold recognizableHeader, headerPaths at 1.
    destruct (startsWith line DIFF_GIT_PREFIX); [|exact IH].
    destruct (splitDiffGitHeaderPaths _); cbn [andb length]; now rewrite IH.
  - intros Hall. apply (f_equal length) in Hraw. rewrite length_map in Hraw.
    apply length_zero_iff_nil. rewrite Hraw. clear Hraw Hrun.
    induction Hall as [|line rest Hl _ IH]; [reflexivity|].
    simpl. unfold headerPaths at 1. now rewrite Hl.
Qed.

(** *** Sections are parsed one by one *)

Definition mapOutcome {A B : Type} (f : A -> B) (o : outcome A) : outcome B :=
  match o with
  | Returned a => Returned (f a)
  | Thrown e => Thrown e
  end.

(** The state [st] when the files [pre] were collected before its own:
    the references are moved by the number of these files. *)
Definition after (pre : list DiffFile) (st : State) : State :=
  {| files := pre ++ files st;
     currentFile := (fun i => length pre + i)%nat <$> currentFile st;
     currentHunk := (fun r => (length pre + r.1, r.2)%nat) <$> currentHunk st;
     curOldLineNumber := curOldLineNumber st;
     curNewLineNumber := curNewLineNumber st |}.

Definition withCounters (o n : number) (st : State) : State :=
  {| files := files st; currentFile := currentFile st;
     currentHunk := currentHunk st;
     curOldLineNumber := o; curNewLineNumber := n |}.

Lemma lookup_after (pre fs : list DiffFile) (i : nat) :
  (pre ++ fs) !! (length pre + i)%nat = fs !! i.
Proof.
  rewrite lookup_app_r by lia. f_equal. lia.
Qed.

Lemma updateCurrentFile_after (pre : list DiffFile) (st : State)
    (upd : DiffFile -> DiffFile) :
  updateCurrentFile (after pre st) upd
  = mapOutcome (after pre) (updateCurrentFile st upd).
Proof.
  unfold updateCurrentFile. cbn [after currentFile files].
  destruct (currentFile st) as [i|]; [|reflexivity]. cbn [fmap option_fmap option_map].
  rewrite lookup_after. destruct (files st !! i) as [file|]; [|reflexivity].
  cbn [mapOutcome]. unfold after, withFiles. cbn.
  now rewrite insert_app_r.
Qed.

Lemma readCurrentFile_after (pre : list DiffFile) (st : State) :
  readCurrentFile (after pre st) = readCurrentFile st.
Proof.
  unfold readCurrentFile. cbn [after currentFile files].
  destruct (currentFile st) as [i|]; [|reflexivity]. cbn [fmap option_fmap option_map].
  now rewrite lookup_after.
Qed.

Lemma updateCurrentHunk_after (pre : list DiffFile) (st : State)
    (upd : DiffHunk -> DiffHunk) :
  updateCurrentHunk (after pre st) upd
  = mapOutcome (app pre) (updateCurrentHunk st upd).
Proof.
  unfold updateCurrentHunk. cbn [after currentHunk files].
  destruct (currentHunk st) as [[fi hi]|]; [|reflexivity].
  cbn [fmap option_fmap option_map fst snd].
  rewrite lookup_after. destruct (files st !! fi) as [file|]; [|reflexivity].
  destruct (hunks file !! hi) as [hunk|]; [|reflexivity].
  cbn [mapOutcome]. now rewrite insert_app_r.
Qed.

Lemma pushLine_after (pre : list DiffFile) (st : State) (l : DiffLine) (o n : number) :
  pushLine (after pre st) l o n = mapOutcome (after pre) (pushLine st l o n).
Proof.
  unfold pushLine. rewrite updateCurrentHunk_after.
  destruct (updateCurrentHunk st _) as [fs|]; reflexivity.
Qed.

Lemma step_after (pre : list DiffFile) (st : State) (line : jstring) :
  step (after pre st) line = mapOutcome (after pre) (step st line).
Proof.
  unfold step.
  destruct (startsWith line DIFF_GIT_PREFIX).
  { destruct (splitDiffGitHeaderPaths _) as [[rawOld rawNew]|]; [|reflexivity].
    cbn [mret outcome_ret mapOutcome]. unfold after. cbn.
    now rewrite app_assoc, length_app. }
  cbn [after currentFile]. fold (after pre st).
  destruct (currentFile st) as [fileRef|] eqn:Hc; [|reflexivity].
  cbn [fmap option_fmap option_map].
  repeat match goal with
  | |- context [if startsWith line ?p then _ else _] =>
      destruct (startsWith line p); [ try solve [apply updateCurrentFile_after] |]
  end.
  - rewrite updateCurrentFile_after.
    destruct (updateCurrentFile st (set_isBinary true)) as [st1|]; reflexivity.
  - destruct (matchHunkHeader line) as [[[[[os ol] ns] nl] hd]|].
    + rewrite readCurrentFile_after.
      destruct (readCurrentFile st) as [file|]; [|reflexivity].
      cbn [mbind outcome_bind]. rewrite updateCurrentFile_after.
      destruct (updateCurrentFile st _) as [st1|]; [|reflexivity].
      cbn [mapOutcome mbind outcome_bind mret outcome_ret].
      reflexivity.
    + cbn [after currentHunk curOldLineNumber curNewLineNumber].
      fold (after pre st).
      destruct (currentHunk st) as [r|]; [|reflexivity].
      cbn [fmap option_fmap option_map].
      destruct (eqs line _).
      * rewrite updateCurrentHunk_after.
        destruct (updateCurrentHunk st _) as [fs|]; reflexivity.
      * destruct (head line) as [m|]; [|reflexivity].
        destruct (m =? SPACE); [apply pushLine_after|].
        destruct (m =? chr "+"); [apply pushLine_after|].
        destruct (m =? chr "-"); [apply pushLine_after|reflexivity].
Qed.

Lemma run_after (pre : list DiffFile) (diffLines : list jstring) :
  forall st, run (after pre st) diffLines = mapOutcome (after pre) (run st diffLines).
Proof.
  induction diffLines as [|line rest IH]; intros st; [reflexivity|].
  cbn [run]. rewrite step_after.
  destruct (step st line) as [st1|]; [|reflexivity]. apply IH.
Qed.

Lemma updateCurrentFile_withCounters (o n : number) (st : State)
    (upd : DiffFile -> DiffFile) :
  updateCurrentFile (withCounters o n st) upd
  = mapOutcome (withCounters o n) (updateCurrentFile st upd).
Proof.
  unfold updateCurrentFile. cbn [withCounters currentFile files].
  destruct (currentFile st) as [i|]; [|reflexivity].
  destruct (files st !! i); reflexivity.
Qed.

Lemma updateCurrentFile_currentHunk (st st' : State) (upd : DiffFile -> DiffFile) :
  updateCurrentFile st upd = Returned st' -> currentHunk st' = currentHunk st.
Proof.
  intros H. apply updateCurrentFile_inv in H as (i & file & _ & _ & ->). reflexivity.
Qed.

(** The counters are read only while a hunk is open: without one, a step
    from other counters gives the same state, up to the counters as long
    as no hunk is open. *)
Definition agrees (o n : number) (st' : State) (other : outcome State) : Prop :=
  (currentHunk st' = None /\ other = Returned (withCounters o n st')) \/
  other = Returned st'.

Lemma updateCurrentFile_agrees (o n : number) (st st' : State)
    (upd : DiffFile -> DiffFile) :
  currentHunk st = None -> updateCurrentFile st upd = Returned st' ->
  agrees o n st' (updateCurrentFile (withCounters o n st) upd).
Proof.
  intros Hh Hu. left. split.
  - rewrite (updateCurrentFile_currentHunk _ _ _ Hu). exact Hh.
  - now rewrite updateCurrentFile_withCounters, Hu.
Qed.

Lemma step_withCounters (o n : number) (st st' : State) (line : jstring) :
  currentHunk st = None -> step st line = Returned st' ->
  agrees o n st' (step (withCounters o n st) line).
Proof.
  intros Hh. unfold step.
  destruct (startsWith line DIFF_GIT_PREFIX).
  { destruct (splitDiffGitHeaderPaths _) as [[rawOld rawNew]|];
      intros [= <-]; left; split; reflexivity. }
  cbn [withCounters currentFile]. fold (withCounters o n st).
  destruct (currentFile st) as [fileRef|] eqn:Hc;
    [|intros [= <-]; left; split; [exact Hh|reflexivity]].
  repeat match goal with
  | |- context [if startsWith line ?p then _ else _] =>
      destruct (startsWith line p);
      [ try solve [now apply updateCurrentFile_agrees] |]
  end.
  - rewrite updateCurrentFile_withCounters.
    destruct (updateCurrentFile st (set_isBinary true)) as [st1|]; [|discriminate].
    intros [= <-]. left. split; reflexivity.
  - destruct (matchHunkHeader line) as [[[[[os ol] ns] nl] hd]|].
    + change (readCurrentFile (withCounters o n st)) with (readCurrentFile st).
      destruct (readCurrentFile st) as [file|]; [|discriminate].
      cbn [mbind outcome_bind]. rewrite updateCurrentFile_withCounters.
      destruct (updateCurrentFile st _) as [st1|]; [|discriminate].
      intros [= <-]. right. reflexivity.
    + cbn [withCounters currentHunk]. rewrite Hh.
      intros [= <-]. left. split; [exact Hh|reflexivity].
Qed.

Lemma run_withCounters (o n : number) (diffLines : list jstring) :
  forall st st', currentHunk st = None -> run st diffLines = Returned st' ->
    exists st'', run (withCounters o n st) diffLines = Returned st'' /\
      files st'' = files st'.
Proof.
  induction diffLines as [|line rest IH]; intros st st' Hh; cbn [run].
  - intros [= <-]. eexists; split; reflexivity.
  - destruct (step st line) as [st1|] eqn:Hs; [|discriminate].
    cbn [mbind outcome_bind]. intros Hr.
    destruct (step_withCounters o n _ _ _ Hh Hs) as [[Hh1 ->] | ->];
      cbn [mbind outcome_bind]; [now apply IH|eauto].
Qed.

Lemma run_section (st1 st2 : State) (headerLine : jstring) (rest : list jstring) :
  startsWith headerLine DIFF_GIT_PREFIX = true ->
  run initialState (headerLine :: rest) = Returned st2 ->
  exists st', run st1 (headerLine :: rest) = Returned st' /\
    files st' = files st1 ++ files st2.
Proof.
  intros Hp. cbn [run].
  destruct (step initialState headerLine) as [opened|] eqn:Hs; [|discriminate].
  cbn [mbind outcome_bind]. intros Hr.
  assert (Hstep : step st1 headerLine
                  = Returned (withCounters (curOldLineNumber st1)
                                (curNewLineNumber st1) (after (files st1) opened))
                  /\ currentHunk opened = None).
  { revert Hs. unfold step. rewrite Hp.
    destruct (splitDiffGitHeaderPaths _) as [[rawOld rawNew]|]; intros [= <-].
    - split; [|reflexivity]. unfold withCounters, after. cbn.
      now rewrite Nat.add_0_r.
    - split; [|reflexivity]. unfold withCounters, after. cbn.
      now rewrite app_nil_r. }
  destruct Hstep as [-> Hh]. cbn [mbind outcome_bind].
  pose proof (run_after (files st1) rest opened) as Ha. rewrite Hr in Ha.
  cbn [mapOutcome] in Ha.
  destruct (run_withCounters (curOldLineNumber st1) (curNewLineNumber st1) rest
              (after (files st1) opened) _ ltac:(cbn; now rewrite Hh) Ha)
    as (st' & Hrun & Hfiles).
  exists st'. split; [exact Hrun|]. rewrite Hfiles. reflexivity.
Qed.

(** An empty line changes nothing. *)
Lemma step_empty (st : State) : step st [] = Returned st.
Proof.
  unfold step. cbn.
  destruct (currentFile st); [|reflexivity].
  destruct (currentHunk st); reflexivity.
Qed.

(** *** Line endings *)

Lemma replaceCRLF_cons (c : N) (r : jstring) :
  replaceCRLF (c :: r) =
  match r with
  | d :: r' =>
    if (c =? CR) && (d =? LF) then LF :: replaceCRLF r' else c :: replaceCRLF r
  | [] => [c]
  end.
Proof. destruct r; reflexivity. Qed.

Lemma replaceCRLF_keep (c : N) (r : jstring) :
  c <> CR -> replaceCRLF (c :: r) = c :: replaceCRLF r.
Proof.
  intros H. rewrite replaceCRLF_cons. destruct r as [|d r']; [reflexivity|].
  apply N.eqb_neq in H. now rewrite H.
Qed.

Lemma replaceCRLF_prefix (p r : jstring) :
  CR ∉ p -> replaceCRLF (p ++ r) = p ++ replaceCRLF r.
Proof.
  induction p as [|c p IH]; intros H; [reflexivity|].
  cbn [app]. rewrite replaceCRLF_keep.
  - rewrite IH; [reflexivity|]. intros Hp. apply H. now constructor.
  - intros ->. apply H. constructor.
Qed.

Lemma replaceCRLF_plain (s : jstring) : CR ∉ s -> replaceCRLF s = s.
Proof.
  intros H. rewrite <- (app_nil_r s) at 1. rewrite replaceCRLF_prefix by exact H.
  now rewrite app_nil_r.
Qed.

(** Up to a line feed, and from it on. *)
Lemma replaceCRLF_line_feed (n : nat) :
  forall a, (length a <= n)%nat ->
    exists x, forall b, replaceCRLF (a ++ LF :: b) = x ++ LF :: replaceCRLF b.
Proof.
  induction n as [|n IH]; intros a Hn.
  { destruct a; [|simpl in Hn; lia]. exists []. intros b.
    cbn [app]. now rewrite replaceCRLF_keep. }
  destruct a as [|c [|d a']].
  - exists []. intros b. cbn [app]. now rewrite replaceCRLF_keep.
  - destruct (N.eq_dec c CR) as [->|Hc].
    + exists []. intros b. reflexivity.
    + exists [c]. intros b. cbn [app]. rewrite replaceCRLF_keep by exact Hc.
      now rewrite replaceCRLF_keep.
  - simpl in Hn. destruct ((c =? CR) && (d =? LF)) eqn:E.
    + destruct (IH a' ltac:(lia)) as [x Hx]. exists (LF :: x). intros b.
      cbn [app]. rewrite replaceCRLF_cons, E, Hx. reflexivity.
    + destruct (IH (d :: a') ltac:(simpl; lia)) as [x Hx]. exists (c :: x).
      intros b. cbn [app]. rewrite replaceCRLF_cons, E.
      change (d :: a' ++ LF :: b) with ((d :: a') ++ LF :: b). now rewrite Hx.
Qed.

Lemma split_line_feed (sep : N) (x y : jstring) :
  split sep (x ++ sep :: y) = split sep x ++ split sep y.
Proof.
  induction x as [|c x IH]; cbn [app split].
  - now rewrite N.eqb_refl.
  - destruct (c =? sep); [now rewrite IH|].
    rewrite IH. destruct (PathFacts.split_cons sep x) as (l & ls & ->).
    reflexivity.
Qed.

Lemma split_prefix (sep : N) (p s : jstring) :
  sep ∉ p -> exists l ls, split sep s = l :: ls /\ split sep (p ++ s) = (p ++ l) :: ls.
Proof.
  intros H. destruct (PathFacts.split_cons sep s) as (l & ls & E).
  exists l, ls. split; [exact E|].
  induction p as [|c p IH]; [exact E|]. cbn [app split].
  destruct (c =? sep) eqn:Ec.
  - apply N.eqb_eq in Ec as ->. exfalso. apply H. constructor.
  - rewrite IH; [reflexivity|]. intros Hp. apply H. now constructor.
Qed.

(** X5.  Sections are parsed one by one: when a text that ends with a
    line feed is followed by a text that starts with [diff --git ], the
    files of the whole are the files of the first text followed by the
    files of the second.  Nothing of what precedes a [diff --git ] line
    (an open file, an open hunk, the line counters) reaches what follows
    it. *)
Theorem parseUnifiedDiff_app (first second : jstring) :
  startsWith second DIFF_GIT_PREFIX = true ->
  exists fs1 fs2,
    parseUnifiedDiff (first ++ [LF]) = Returned fs1 /\
    parseUnifiedDiff second = Returned fs2 /\
    parseUnifiedDiff (first ++ [LF] ++ second) = Returned (fs1 ++ fs2).
Proof.
  intros Hp. unfold parseUnifiedDiff, parseLines.
  change (split 10) with (split LF).
  destruct (replaceCRLF_line_feed (length first) first (Nat.le_refl _)) as [x Hx].
  cbn [app]. rewrite (Hx []), (Hx second).
  change (replaceCRLF []) with (@nil N).
  change (x ++ [LF]) with (x ++ LF :: []).
  rewrite !split_line_feed. change (split LF []) with [@nil N].
  apply startsWith_spec in Hp as [r ->].
  rewrite replaceCRLF_prefix by (apply absent; reflexivity).
  destruct (split_prefix LF DIFF_GIT_PREFIX (replaceCRLF r)) as (l & ls & _ & ->);
    [apply absent; reflexivity|].
  destruct (run_total (split LF x) initialState validRefs_initial) as (st1 & E1 & _).
  destruct (run_total ((DIFF_GIT_PREFIX ++ l) :: ls) initialState validRefs_initial)
    as (st2 & E2 & _).
  destruct (run_section st1 st2 (DIFF_GIT_PREFIX ++ l) ls (startsWith_app _ _) E2)
    as (st' & E & Hfiles).
  exists (files st1), (files st2).
  rewrite !run_app, E1, E2. cbn [mbind outcome_bind run].
  rewrite step_empty. cbn [mbind outcome_bind mret outcome_ret].
  split; [reflexivity|]. split; [reflexivity|].
  cbn [run] in E. rewrite E. cbn [mbind outcome_bind]. now rewrite Hfiles.
Qed.

Lemma parseUnifiedDiff_app_witness :
  exists fs1 fs2,
    parseUnifiedDiff (Fixtures.basicDiff ++ [LF]) = Returned fs1 /\
    parseUnifiedDiff Fixtures.newBinaryDiff = Returned fs2 /\
    parseUnifiedDiff (Fixtures.basicDiff ++ [LF] ++ Fixtures.newBinaryDiff)
    = Returned (fs1 ++ fs2).
Proof.
  apply (parseUnifiedDiff_app Fixtures.basicDiff Fixtures.newBinaryDiff).
  reflexivity.
Defined.

(** The text [diff] with a carriage return before each line feed. *)
Definition withCarriageReturns (diff : jstring) : jstring :=
  flat_map (fun c => if c =? LF then [CR; LF] else [c]) diff.

Lemma replaceCRLF_withCarriageReturns (diff : jstring) :
  CR ∉ diff -> replaceCRLF (withCarriageReturns diff) = diff.
Proof.
  induction diff as [|c r IH]; intros H; [reflexivity|].
  assert (Hc : c <> CR) by (intros ->; apply H; constructor).
  assert (Hr : CR ∉ r) by (intros Hr; apply H; now constructor).
  unfold withCarriageReturns in *. cbn [flat_map].
  destruct (c =? LF) eqn:E.
  - apply N.eqb_eq in E as ->. cbn [app]. rewrite replaceCRLF_cons.
    change ((CR =? CR) && (LF =? LF)) with true. cbv iota. now rewrite IH.
  - cbn [app]. rewrite replaceCRLF_keep by exact Hc. now rewrite IH.
Qed.

(** X6.  Line endings: a text without carriage return parses to the
    same files when every line feed of it is preceded by a carriage
    return, the lines being the same once [\r\n] is replaced. *)
Theorem parseUnifiedDiff_crlf (diff : jstring) :
  CR ∉ diff ->
  split LF (replaceCRLF (withCarriageReturns diff)) = split LF diff /\
  parseUnifiedDiff (withCarriageReturns diff) = parseUnifiedDiff diff.
Proof.
  intros H. unfold parseUnifiedDiff.
  rewrite replaceCRLF_withCarriageReturns, replaceCRLF_plain by exact H.
  split; reflexivity.
Qed.

Lemma parseUnifiedDiff_crlf_witness :
  split LF (replaceCRLF (withCarriageReturns Fixtures.basicDiff))
    = split LF Fixtures.basicDiff /\
  parseUnifiedDiff (withCarriageReturns Fixtures.basicDiff)
    = parseUnifiedDiff Fixtures.basicDiff.
Proof.
  apply (parseUnifiedDiff_crlf Fixtures.basicDiff).
  apply absent. vm_compute. reflexivity.
Defined.

(** *** A header of plain paths *)

(** A code unit that the tokenizer and the split into lines take as it
    is. *)
Definition plainUnit (c : N) : Prop :=
  c <> SPACE /\ c <> BACKSLASH /\ c <> DQUOTE /\ c <> LF.

Lemma tokenizeLoop_plain (s rest : jstring) (tokens : list jstring) :
  Forall plainUnit s ->
  forall current,
    tokenizeLoop (s ++ rest) tokens current false false
    = tokenizeLoop rest tokens (current ++ s) false false.
Proof.
  induction 1 as [|c s (H1 & H2 & H3 & _) _ IH]; intros current.
  - now rewrite app_nil_r.
  - cbn [app tokenizeLoop].
    apply N.eqb_neq in H1, H2, H3. rewrite H1, H2, H3. cbn [andb].
    rewrite IH, <- app_assoc. reflexivity.
Qed.

Lemma plainUnit_prefix (a : N) (path : jstring) :
  a = chr "a" \/ a = chr "b" -> Forall plainUnit path ->
  Forall plainUnit (a :: chr "/" :: path).
Proof.
  intros Ha Hp. constructor; [|constructor; [|exact Hp]].
  - destruct Ha; subst; repeat split; discriminate.
  - repeat split; discriminate.
Qed.

Lemma tokenizeDiffGitPaths_two (old new : jstring) :
  Forall plainUnit old -> Forall plainUnit new -> old <> [] -> new <> [] ->
  tokenizeDiffGitPaths (old ++ SPACE :: new) = [old; new].
Proof.
  intros Ho Hn Hoe Hne. unfold tokenizeDiffGitPaths.
  rewrite tokenizeLoop_plain by exact Ho. cbn [app].
  rewrite tokenizeLoop_space.
  pose proof (tokenizeLoop_plain new [] (pushCurrent [] old) Hn []) as Hlast.
  rewrite app_nil_r in Hlast. rewrite Hlast.
  cbn [app tokenizeLoop]. unfold pushCurrent.
  destruct old; [congruence|]. destruct new; [congruence|]. reflexivity.
Qed.

Lemma no_backslash (path : jstring) : Forall plainUnit path -> BACKSLASH ∉ path.
Proof.
  intros H Hin. rewrite Forall_forall in H. destruct (H _ Hin) as (_ & Hb & _).
  congruence.
Qed.

Lemma no_line_feed (path : jstring) : Forall plainUnit path -> LF ∉ path.
Proof.
  intros H Hin. rewrite Forall_forall in H. destruct (H _ Hin) as (_ & _ & _ & Hb).
  congruence.
Qed.

Lemma replaceCRLF_no_line_feed (s : jstring) : LF ∉ s -> replaceCRLF s = s.
Proof.
  induction s as [|c r IH]; intros H; [reflexivity|].
  assert (Hr : LF ∉ r) by (intros Hr; apply H; now constructor).
  rewrite replaceCRLF_cons. destruct r as [|d r']; [reflexivity|].
  assert (Hd : d <> LF) by (intros ->; apply Hr; constructor).
  apply N.eqb_neq in Hd. rewrite Hd, andb_false_r. now rewrite IH.
Qed.

Lemma plain_header_no_line_feed (old new : jstring) :
  Forall plainUnit old -> Forall plainUnit new ->
  LF ∉ DIFF_GIT_PREFIX ++ (str "a/" ++ old) ++ SPACE :: (str "b/" ++ new).
Proof.
  intros Ho Hn.
  pose proof (plainUnit_prefix (chr "a") old (or_introl eq_refl) Ho) as Ha.
  pose proof (plainUnit_prefix (chr "b") new (or_intror eq_refl) Hn) as Hb.
  intros H. apply elem_of_app in H as [H|H].
  - revert H. apply absent. reflexivity.
  - apply elem_of_app in H as [H|H]; [exact (no_line_feed _ Ha H)|].
    apply elem_of_cons in H as [H|H]; [discriminate H|].
    exact (no_line_feed _ Hb H).
Qed.

(** The step on a header of plain paths, in any state. *)
Lemma step_plain_header (st : State) (old new : jstring) :
  Forall plainUnit old -> Forall plainUnit new ->
  step st (DIFF_GIT_PREFIX ++ (str "a/" ++ old) ++ SPACE :: (str "b/" ++ new))
  = Returned
      {| files := files st ++
           [ {| oldPath := old; newPath := new;
                rawOldPath := str "a/" ++ old; rawNewPath := str "b/" ++ new;
                hunks := []; isBinary := false; isNewFile := false;
                isDeletedFile := false;
                rename := None; modeChange := None; index := None |} ];
         currentFile := Some (length (files st));
         currentHunk := None;
         curOldLineNumber := curOldLineNumber st;
         curNewLineNumber := curNewLineNumber st |}.
Proof.
  intros Ho Hn.
  pose proof (plainUnit_prefix (chr "a") old (or_introl eq_refl) Ho) as Ha.
  pose proof (plainUnit_prefix (chr "b") new (or_intror eq_refl) Hn) as Hb.
  destruct (normalizeGitPath_prefixed (chr "a") old (or_introl eq_refl)
              (no_backslash _ Ho)) as [Eo _].
  destruct (normalizeGitPath_prefixed (chr "b") new (or_intror eq_refl)
              (no_backslash _ Hn)) as [En _].
  set (rawOld := str "a/" ++ old). set (rawNew := str "b/" ++ new).
  unfold step. rewrite startsWith_app, sliceFrom_prefix.
  assert (Hsplit : splitDiffGitHeaderPaths (rawOld ++ SPACE :: rawNew)
                   = Some (rawOld, rawNew)).
  { unfold splitDiffGitHeaderPaths.
    rewrite tokenizeDiffGitPaths_two by (auto; discriminate).
    assert (Hvo : isValidOld rawOld = true).
    { unfold isValidOld. cbv zeta.
      change rawOld with (chr "a" :: chr "/" :: old).
      rewrite stripEnclosingQuotes_unquoted by discriminate. reflexivity. }
    assert (Hvn : isValidNew rawNew = true).
    { unfold isValidNew. cbv zeta.
      change rawNew with (chr "b" :: chr "/" :: new).
      rewrite stripEnclosingQuotes_unquoted by discriminate. reflexivity. }
    rewrite Hvo, Hvn. reflexivity. }
  rewrite Hsplit. cbn [mret outcome_ret].
  unfold rawOld at 1, rawNew at 1.
  change (normalizeGitPath (str "a/" ++ old))
    with (normalizeGitPath (chr "a" :: chr "/" :: old)).
  change (normalizeGitPath (str "b/" ++ new))
    with (normalizeGitPath (chr "b" :: chr "/" :: new)).
  rewrite Eo, En. reflexivity.
Qed.

(** X7.  A header of plain paths: when [old] and [new] hold no space,
    backslash, double quote or line feed, the line made of
    [diff --git a/], [old], a space, [b/] and [new] parses to one file,
    whose paths are [old] and [new], whose raw paths are the two tokens,
    and which has no hunk and no flag set. *)
Theorem parseUnifiedDiff_plain_header (old new : jstring) :
  Forall plainUnit old -> Forall plainUnit new ->
  parseUnifiedDiff (DIFF_GIT_PREFIX ++ str "a/" ++ old ++ [SPACE] ++ str "b/" ++ new)
  = Returned [ {| oldPath := old; newPath := new;
                  rawOldPath := str "a/" ++ old; rawNewPath := str "b/" ++ new;
                  hunks := []; isBinary := false; isNewFile := false;
                  isDeletedFile := false;
                  rename := None; modeChange := None; index := None |} ].
Proof.
  intros Ho Hn.
  change (DIFF_GIT_PREFIX ++ str "a/" ++ old ++ [SPACE] ++ str "b/" ++ new)
    with (DIFF_GIT_PREFIX ++ (str "a/" ++ old) ++ SPACE :: (str "b/" ++ new)).
  pose proof (plain_header_no_line_feed old new Ho Hn) as Hline.
  unfold parseUnifiedDiff, parseLines.
  rewrite (replaceCRLF_no_line_feed _ Hline).
  change (split 10) with (split LF).
  rewrite (PathFacts.split_no_sep_id LF _ Hline). cbn [run].
  rewrite (step_plain_header initialState old new Ho Hn). reflexivity.
Qed.

Lemma parseUnifiedDiff_plain_header_witness :
  parseUnifiedDiff
    (DIFF_GIT_PREFIX ++ str "a/" ++ str "src/app.ts" ++ [SPACE]
       ++ str "b/" ++ str "src/main.ts")
  = Returned [ {| oldPath := str "src/app.ts"; newPath := str "src/main.ts";
                  rawOldPath := str "a/" ++ str "src/app.ts";
                  rawNewPath := str "b/" ++ str "src/main.ts";
                  hunks := []; isBinary := false; isNewFile := false;
                  isDeletedFile := false;
                  rename := None; modeChange := None; index := None |} ].
Proof.
  apply (parseUnifiedDiff_plain_header (str "src/app.ts") (str "src/main.ts"));
    vm_compute; repeat constructor; discriminate.
Defined.

(** *** Where the hunks come from *)

(** The first character of the lines of each type. *)
Definition marker (t : DiffLineType) : N :=
  match t with
  | context => SPACE
  | add => chr "+"
  | remove => chr "-"
  end.

(** The hunk [h] is made of lines of [input]: its header is one of them,
    and so is each of its lines, once its marker is put back. *)
Definition hunkFrom (input : list jstring) (h : DiffHunk) : Prop :=
  header h ∈ input /\
  Forall (fun l => marker (type l) :: content l ∈ input) (lines h).

Definition filesFrom (input : list jstring) (fs : list DiffFile) : Prop :=
  Forall (fun f => Forall (hunkFrom input) (hunks f)) fs.

Lemma filesFrom_updateCurrentFile (input : list jstring) (st st' : State)
    (upd : DiffFile -> DiffFile) :
  filesFrom input (files st) ->
  (forall f, Forall (hunkFrom input) (hunks f) ->
             Forall (hunkFrom input) (hunks (upd f))) ->
  updateCurrentFile st upd = Returned st' -> filesFrom input (files st').
Proof.
  intros Hall Hk Hu.
  apply updateCurrentFile_inv in Hu as (i & file & _ & E & ->).
  apply Forall_insert; [exact Hall|].
  apply Hk. exact (Forall_lookup_1 _ _ _ _ Hall E).
Qed.

Lemma filesFrom_updateCurrentHunk (input : list jstring) (st : State)
    (fs : list DiffFile) (upd : DiffHunk -> DiffHunk) :
  filesFrom input (files st) ->
  (forall h, hunkFrom input h -> hunkFrom input (upd h)) ->
  updateCurrentHunk st upd = Returned fs -> filesFrom input fs.
Proof.
  intros Hall Hk Hu.
  apply updateCurrentHunk_inv in Hu as (fi & hi & file & hunk & _ & E & Eh & ->).
  pose proof (Forall_lookup_1 _ _ _ _ Hall E) as Hfile.
  apply Forall_insert; [exact Hall|]. cbn.
  apply Forall_insert; [exact Hfile|].
  apply Hk. exact (Forall_lookup_1 _ _ _ _ Hfile Eh).
Qed.

Lemma filesFrom_pushLine (input : list jstring) (st st' : State) (l : DiffLine)
    (o n : number) :
  filesFrom input (files st) -> marker (type l) :: content l ∈ input ->
  pushLine st l o n = Returned st' -> filesFrom input (files st').
Proof.
  intros Hall Hl. unfold pushLine.
  destruct (updateCurrentHunk st _) as [fs|] eqn:Hu; [|discriminate].
  intros [= <-]. cbn. eapply filesFrom_updateCurrentHunk; [exact Hall| |exact Hu].
  intros h [Hh Hls]. split; [exact Hh|]. cbn.
  apply Forall_app; split; [exact Hls|]. now repeat constructor.
Qed.

Lemma markLastLine_from (input : list jstring) (ls : list DiffLine) :
  Forall (fun l => marker (type l) :: content l ∈ input) ls ->
  Forall (fun l => marker (type l) :: content l ∈ input) (markLastLine ls).
Proof.
  destruct (markLastLine_cases ls) as [-> | (ls' & l & -> & ->)]; [auto|].
  rewrite !Forall_app. intros [H1 H2]. split; [exact H1|].
  inversion H2; subst. now repeat constructor.
Qed.

Lemma sliceFrom_tail (m : N) (r : jstring) : sliceFrom (m :: r) 1 = r.
Proof.
  unfold sliceFrom, clampIndex. change (1 <? 0)%Z with false. cbv iota.
  change (Z.to_nat 1) with 1%nat. cbn [length].
  replace (Nat.min 1 (S (length r))) with 1%nat by lia. reflexivity.
Qed.

Ltac keeps_hunks := intros f Hf; cbn; try destruct (eqs _ _); exact Hf.

Lemma filesFrom_step (input : list jstring) (st st' : State) (line : jstring) :
  line ∈ input -> filesFrom input (files st) ->
  step st line = Returned st' -> filesFrom input (files st').
Proof.
  intros Hin Hall. unfold step.
  destruct (startsWith line DIFF_GIT_PREFIX).
  { destruct (splitDiffGitHeaderPaths _) as [[rawOld rawNew]|];
      intros [= <-]; cbn; [|exact Hall].
    apply Forall_app; split; [exact Hall|]. repeat constructor. }
  destruct (currentFile st) as [fileRef|] eqn:Hc; [|now intros [= <-]].
  repeat match goal with
  | |- context [if startsWith line ?p then _ else _] =>
      destruct (startsWith line p);
      [ try solve [apply filesFrom_updateCurrentFile; [exact Hall|keeps_hunks]] |]
  end.
  - destruct (updateCurrentFile st (set_isBinary true)) as [st1|] eqn:Hu;
      [|discriminate].
    intros [= <-]. cbn.
    eapply filesFrom_updateCurrentFile; [exact Hall| |exact Hu]. keeps_hunks.
  - destruct (matchHunkHeader line) as [[[[[os ol] ns] nl] hd]|].
    + destruct (readCurrentFile st) as [file|]; [|discriminate].
      cbn [mbind outcome_bind].
      destruct (updateCurrentFile st _) as [st1|] eqn:Hu; [|discriminate].
      cbn [mbind outcome_bind mret outcome_ret]. intros [= <-]. cbn [files].
      eapply filesFrom_updateCurrentFile; [exact Hall| |exact Hu].
      intros f Hf. cbn. apply Forall_app; split; [exact Hf|].
      repeat constructor. exact Hin.
    + destruct (currentHunk st) as [r|]; [|now intros [= <-]].
      destruct (eqs line _).
      * destruct (updateCurrentHunk st _) as [fs|] eqn:Hu; [|discriminate].
        cbn [mbind outcome_bind mret outcome_ret]. intros [= <-]. cbn [files withFiles].
        eapply filesFrom_updateCurrentHunk; [exact Hall| |exact Hu].
        intros h [Hh Hls]. split; [exact Hh|]. cbn. now apply markLastLine_from.
      * destruct line as [|m rest]; [now intros [= <-]|]. cbn [head].
        rewrite sliceFrom_tail.
        destruct (m =? SPACE) eqn:E1.
        { apply N.eqb_eq in E1 as ->. now apply filesFrom_pushLine. }
        destruct (m =? chr "+") eqn:E2.
        { apply N.eqb_eq in E2 as ->. now apply filesFrom_pushLine. }
        destruct (m =? chr "-") eqn:E3.
        { apply N.eqb_eq in E3 as ->. now apply filesFrom_pushLine. }
        now intros [= <-].
Qed.

Lemma filesFrom_run (input diffLines : list jstring) :
  Forall (fun line => line ∈ input) diffLines ->
  forall st st', filesFrom input (files st) ->
    run st diffLines = Returned st' -> filesFrom input (files st').
Proof.
  induction 1 as [|line rest Hin _ IH]; intros st st' Hall; cbn [run].
  - now intros [= <-].
  - destruct (step st line) as [st1|] eqn:Hs; [|discriminate].
    cbn [mbind outcome_bind]. apply IH. eapply filesFrom_step; eauto.
Qed.

(** X8.  Nothing in a hunk is made up: in the files that
    [parseUnifiedDiff] returns, the header of every hunk is a line of
    the input, and every line of a hunk is a line of the input without
    its first character, which is a space for a context line, [+] for an
    added line and [-] for a removed line; the content is kept as it is
    (neither trimmed nor unescaped). *)
Theorem parseUnifiedDiff_hunks_from_input (diff : jstring) (fs : list DiffFile)
    (f : DiffFile) (h : DiffHunk) :
  parseUnifiedDiff diff = Returned fs -> f ∈ fs -> h ∈ hunks f ->
  let input := split LF (replaceCRLF diff) in
  header h ∈ input /\
  forall l, l ∈ lines h -> marker (type l) :: content l ∈ input.
Proof.
  unfold parseUnifiedDiff, parseLines. change (split 10) with (split LF).
  intros Hp Hf Hh. cbv zeta.
  destruct (run initialState _) as [st|] eqn:Hrun; [|discriminate].
  injection Hp as <-.
  assert (Hall : filesFrom (split LF (replaceCRLF diff)) (files st)).
  { assert (Hin : Forall (fun line => line ∈ split LF (replaceCRLF diff))
                    (split LF (replaceCRLF diff)))
      by (rewrite Forall_forall; auto).
    apply (filesFrom_run _ _ Hin initialState st); [constructor|exact Hrun]. }
  unfold filesFrom in Hall. rewrite Forall_forall in Hall. specialize (Hall f Hf).
  rewrite Forall_forall in Hall. destruct (Hall h Hh) as [H1 H2].
  split; [exact H1|]. now rewrite Forall_forall in H2.
Qed.

Lemma parseUnifiedDiff_hunks_from_input_witness :
  exists f h,
    f ∈ Fixtures.parsedBasic /\ h ∈ hunks f /\
    header h ∈ split LF (replaceCRLF Fixtures.basicDiff) /\
    forall l, l ∈ lines h ->
      marker (type l) :: content l ∈ split LF (replaceCRLF Fixtures.basicDiff).
Proof.
  eexists _, _. split; [apply list_elem_of_here|]. split; [apply list_elem_of_here|].
  eapply (parseUnifiedDiff_hunks_from_input Fixtures.basicDiff Fixtures.parsedBasic).
  - vm_compute. reflexivity.
  - apply list_elem_of_here.
  - apply list_elem_of_here.
Defined.

(** *** Reading a hunk header back *)

Fixpoint decimalLoop (fuel : nat) (n : N) (acc : jstring) : jstring :=
  match fuel with
  | O => acc
  | S fuel' =>
    let acc' := (48 + n mod 10) :: acc in
    if n / 10 =? 0 then acc' else decimalLoop fuel' (n / 10) acc'
  end.

(** The decimal digits of [n], the way an integer is written. *)
Definition decimal (n : N) : jstring :=
  decimalLoop (S (N.to_nat (N.log2 n))) n [].

(** The optional length of a range: a comma and the digits. *)
Definition lengthText (n : option N) : jstring :=
  match n with
  | Some k => chr "," :: decimal k
  | None => []
  end.

(** The hunk header of the ranges [-a,b] and [+c,d], with or without
    lengths, and with or without a section heading after a space. *)
Definition hunkHeaderText (a : N) (b : option N) (c : N) (d : option N)
    (heading : option jstring) : jstring :=
  str "@@ -" ++ decimal a ++ lengthText b ++ str " +" ++ decimal c
    ++ lengthText d ++ str " @@"
    ++ match heading with Some h => SPACE :: h | None => [] end.

(** The numbers that JavaScript holds exactly. *)
Definition exactNumber (n : N) : Prop := n < 2 ^ 53.


Lemma decimalLoop_spec (fuel : nat) :
  forall (n : N) (acc : jstring),
    n < 2 ^ N.of_nat fuel -> (0 < fuel)%nat ->
    exists ds, decimalLoop fuel n acc = ds ++ acc /\ ds <> [] /\
      Forall (fun c => isDigit c = true) ds /\ decimalValue ds = n.
Proof.
  induction fuel as [|fuel IH]; intros n acc Hn Hf; [lia|].
  cbn [decimalLoop].
  assert (Hd : isDigit (48 + n mod 10) = true).
  { pose proof (N.mod_lt n 10 ltac:(discriminate)) as Hm.
    set (m := n mod 10) in *. clearbody m.
    unfold isDigit. apply andb_true_iff. split; apply N.leb_le; lia. }
  pose proof (N.div_mod' n 10) as Hdm.
  destruct (n / 10 =? 0) eqn:E.
  - apply N.eqb_eq in E. exists [48 + n mod 10].
    split; [reflexivity|]. split; [discriminate|]. split; [now repeat constructor|].
    unfold decimalValue. cbn [fold_left]. rewrite E in Hdm.
    set (m := n mod 10) in *. clearbody m. lia.
  - apply N.eqb_neq in E.
    assert (Hq : n / 10 < 2 ^ N.of_nat fuel).
    { apply N.Div0.div_lt_upper_bound.
      rewrite Nat2N.inj_succ, N.pow_succ_r' in Hn.
      set (k := 2 ^ N.of_nat fuel) in *. clearbody k. lia. }
    assert (Hpos : (0 < fuel)%nat).
    { destruct fuel; [|lia]. exfalso. apply E. cbn in Hq.
      set (q := n / 10) in *. clearbody q. lia. }
    destruct (IH (n / 10) ((48 + n mod 10) :: acc) Hq Hpos)
      as (ds & -> & Hne & Hds & Hnum).
    exists (ds ++ [48 + n mod 10]). rewrite <- app_assoc.
    split; [reflexivity|]. split; [now destruct ds|].
    split; [apply Forall_app; split; [exact Hds|now repeat constructor]|].
    unfold decimalValue in *. rewrite fold_left_app, Hnum. cbn [fold_left].
    set (q := n / 10) in *. set (m := n mod 10) in *. clearbody q m. lia.
Qed.

Lemma decimal_spec (n : N) :
  decimal n <> [] /\ Forall (fun c => isDigit c = true) (decimal n) /\
  decimalValue (decimal n) = n.
Proof.
  unfold decimal.
  destruct (decimalLoop_spec (S (N.to_nat (N.log2 n))) n []) as (ds & -> & H).
  - rewrite Nat2N.inj_succ, N2Nat.id.
    destruct n as [|p]; [reflexivity|]. now apply N.log2_spec.
  - lia.
  - now rewrite app_nil_r.
Qed.

Lemma Number_decimal (n : N) : exactNumber n -> Number (decimal n) = Finite n.
Proof.
  intros H. unfold Number. destruct (decimal_spec n) as (_ & _ & ->).
  unfold roundToDouble. apply N.ltb_lt in H. now rewrite H.
Qed.

(** What follows a number in a header is not a digit. *)
Definition notDigitNext (r : jstring) : Prop :=
  match r with
  | c :: _ => isDigit c = false
  | [] => True
  end.

Lemma spanDigits_app (ds r : jstring) :
  Forall (fun c => isDigit c = true) ds -> notDigitNext r ->
  spanDigits (ds ++ r) = (ds, r).
Proof.
  intros Hds Hr. induction Hds as [|c ds Hc _ IH]; cbn [app spanDigits].
  - destruct r as [|c r]; [reflexivity|]. cbn [notDigitNext] in Hr.
    cbn [spanDigits]. now rewrite Hr.
  - now rewrite Hc, IH.
Qed.

Lemma digits1_decimal (n : N) (r : jstring) :
  notDigitNext r -> digits1 (decimal n ++ r) = Some (decimal n, r).
Proof.
  intros Hr. destruct (decimal_spec n) as (Hne & Hds & _).
  unfold digits1. rewrite spanDigits_app by assumption.
  now destruct (decimal n).
Qed.

Lemma lengthText_next (n : option N) (r : jstring) :
  notDigitNext (lengthText n ++ SPACE :: r).
Proof. destruct n; reflexivity. Qed.

Lemma optLength_text (n : option N) (r : jstring) :
  optLength (lengthText n ++ SPACE :: r) = (decimal <$> n, SPACE :: r).
Proof.
  destruct n as [k|]; [|reflexivity].
  cbn [lengthText app optLength]. change (chr "," =? chr ",") with true. cbv iota.
  now rewrite digits1_decimal.
Qed.

Lemma hunkHeaderText_parts (a : N) (b : option N) (c : N) (d : option N)
    (heading : option jstring) :
  hunkHeaderText a b c d heading
  = str "@@ -" ++ decimal a ++ lengthText b ++ SPACE :: chr "+" :: decimal c
      ++ lengthText d ++ SPACE :: chr "@" :: chr "@"
      :: match heading with Some h => SPACE :: h | None => [] end.
Proof. reflexivity. Qed.

Lemma matchHunkHeader_text (a : N) (b : option N) (c : N) (d : option N)
    (heading : option jstring) :
  forallb (fun u => negb (isLineTerminator u)) (default [] heading) = true ->
  matchHunkHeader (hunkHeaderText a b c d heading)
  = Some (decimal a, decimal <$> b, decimal c, decimal <$> d, default [] heading).
Proof.
  intros Hh. rewrite hunkHeaderText_parts. unfold matchHunkHeader.
  unfold literal at 1. rewrite startsWith_app, drop_app_length.
  rewrite digits1_decimal by apply lengthText_next.
  rewrite optLength_text.
  change (literal (str " +") (SPACE :: chr "+" :: ?x)) with (Some x).
  cbv iota beta.
  rewrite digits1_decimal by apply lengthText_next.
  rewrite optLength_text.
  destruct heading as [h|]; [change (default [] (Some h)) with h in *|].
  - change (literal (str " @@") (SPACE :: chr "@" :: chr "@" :: SPACE :: h))
      with (Some (SPACE :: h)).
    cbv iota beta. change (SPACE =? SPACE) with true. cbv iota.
    now rewrite Hh.
  - reflexivity.
Qed.

Lemma hunkHeaderText_startsWith (a : N) (b : option N) (c : N) (d : option N)
    (heading : option jstring) (p : jstring) :
  match p with x :: _ => negb (x =? chr "@") | [] => false end = true ->
  startsWith (hunkHeaderText a b c d heading) p = false.
Proof.
  destruct p as [|x p]; [discriminate|]. intros H.
  rewrite hunkHeaderText_parts.
  change (str "@@ -" ++ ?r) with (chr "@" :: chr "@" :: SPACE :: chr "-" :: r).
  cbn [startsWith]. now destruct (x =? chr "@").
Qed.

Lemma digit_no_terminator (ds : jstring) :
  Forall (fun c => isDigit c = true) ds ->
  Forall (fun c => isLineTerminator c = false) ds.
Proof.
  intros Hds. eapply Forall_impl; [exact Hds|]. intros c Hc. unfold isDigit in Hc.
  apply andb_true_iff in Hc as [H1 H2]. apply N.leb_le in H1, H2.
  unfold isLineTerminator.
  repeat match goal with
  | |- context [c =? ?k] => replace (c =? k) with false by (symmetry; apply N.eqb_neq; lia)
  end.
  reflexivity.
Qed.

Lemma hunkHeaderText_one_line (a : N) (b : option N) (c : N) (d : option N)
    (heading : option jstring) :
  forallb (fun u => negb (isLineTerminator u)) (default [] heading) = true ->
  Forall (fun u => isLineTerminator u = false) (hunkHeaderText a b c d heading).
Proof.
  intros Hh. unfold hunkHeaderText.
  assert (Hdec : forall n, Forall (fun u => isLineTerminator u = false) (decimal n)).
  { intros n. apply digit_no_terminator. apply (decimal_spec n). }
  assert (Hlen : forall n, Forall (fun u => isLineTerminator u = false) (lengthText n)).
  { intros [k|]; cbn [lengthText]; [|constructor].
    constructor; [reflexivity|apply Hdec]. }
  repeat (apply Forall_app; split); auto; try (now repeat constructor).
  destruct heading as [h|]; [|constructor].
  change (default [] (Some h)) with h in Hh.
  constructor; [reflexivity|].
  apply Forall_forall. intros u Hu.
  rewrite forallb_forall in Hh. apply list_elem_of_In in Hu.
  apply Hh in Hu. now destruct (isLineTerminator u).
Qed.

(** The hunk that the header of the ranges [-a,b] and [+c,d] opens. *)
Definition openedHunk (a : N) (b : option N) (c : N) (d : option N)
    (heading : option jstring) : DiffHunk :=
  {| header := hunkHeaderText a b c d heading;
     oldStart := Finite a; oldLines := Finite (default 1 b);
     newStart := Finite c; newLines := Finite (default 1 d);
     sectionHeading :=
       (if (0 <? length (trim (default [] heading)))%nat
        then Some (trim (default [] heading)) else None);
     lines := [] |}.

Lemma lengthOrOne_decimal (n : option N) :
  Forall exactNumber (option_list n) ->
  lengthOrOne (decimal <$> n) = Finite (default 1 n).
Proof.
  destruct n as [k|]; [|reflexivity]. intros Hk. apply Forall_inv in Hk.
  cbn [fmap option_fmap option_map lengthOrOne truthy default].
  destruct (decimal_spec k) as (Hne & _ & _).
  pose proof (Number_decimal k Hk) as Hnum.
  destruct (decimal k) eqn:E; [contradiction|]. exact Hnum.
Qed.

(** The step on a hunk header, in a state that has a current file. *)
Lemma step_hunkHeaderText (st : State) (fileRef : nat) (file : DiffFile)
    (a : N) (b : option N) (c : N) (d : option N) (heading : option jstring) :
  currentFile st = Some fileRef -> files st !! fileRef = Some file ->
  Forall exactNumber (a :: c :: option_list b ++ option_list d) ->
  forallb (fun u => negb (isLineTerminator u)) (default [] heading) = true ->
  step st (hunkHeaderText a b c d heading)
  = Returned
      {| files := <[fileRef :=
                     set_hunks (hunks file ++ [openedHunk a b c d heading]) file]>
                    (files st);
         currentFile := Some fileRef;
         currentHunk := Some (fileRef, length (hunks file));
         curOldLineNumber := Finite a; curNewLineNumber := Finite c |}.
Proof.
  intros Hc Hf Hex Hh.
  apply Forall_cons in Hex as [Ha Hex]. apply Forall_cons in Hex as [Hcc Hex].
  apply Forall_app in Hex as [Hb Hd]. unfold step.
  rewrite !hunkHeaderText_startsWith by reflexivity. rewrite Hc.
  rewrite (matchHunkHeader_text a b c d heading Hh).
  unfold readCurrentFile, updateCurrentFile. rewrite Hc, Hf.
  cbn [mbind outcome_bind mret outcome_ret withFiles files currentFile].
  rewrite !lengthOrOne_decimal by assumption.
  rewrite !Number_decimal by assumption.
  reflexivity.
Qed.

(** X9.  A hunk header is read back: after the header of a file with
    plain paths without carriage return, the line made of [@@ -], the
    old range, [ +], the new range and [ @@], where a range is a number
    in decimal digits and, optionally, a comma and a length (numbers
    below [2^53], which JavaScript holds exactly), and where a heading
    without line terminator may follow after a space, opens one hunk.
    Its numbers are those written, a length that is not written being 1;
    its header is the line; its section heading is the trimmed heading,
    or none when that is empty; and it has no line. *)
Theorem parseUnifiedDiff_hunk_header (old new : jstring)
    (a : N) (b : option N) (c : N) (d : option N) (heading : option jstring) :
  Forall plainUnit old -> Forall plainUnit new -> CR ∉ old ++ new ->
  Forall exactNumber (a :: c :: option_list b ++ option_list d) ->
  forallb (fun u => negb (isLineTerminator u)) (default [] heading) = true ->
  parseUnifiedDiff
    (DIFF_GIT_PREFIX ++ str "a/" ++ old ++ [SPACE] ++ str "b/" ++ new ++ [LF]
       ++ hunkHeaderText a b c d heading)
  = Returned
      [ {| oldPath := old; newPath := new;
           rawOldPath := str "a/" ++ old; rawNewPath := str "b/" ++ new;
           hunks := [ openedHunk a b c d heading ];
           isBinary := false; isNewFile := false; isDeletedFile := false;
           rename := None; modeChange := None; index := None |} ].
Proof.
  intros Ho Hn Hcr Hex Hh.
  set (hunkLine := hunkHeaderText a b c d heading).
  set (fileLine := DIFF_GIT_PREFIX ++ (str "a/" ++ old) ++ SPACE :: (str "b/" ++ new)).
  replace (DIFF_GIT_PREFIX ++ str "a/" ++ old ++ [SPACE] ++ str "b/" ++ new ++ [LF]
             ++ hunkLine)
    with (fileLine ++ LF :: hunkLine).
  2:{ unfold fileLine. rewrite <- !app_assoc. cbn [app]. rewrite <- !app_assoc.
      reflexivity. }
  pose proof (hunkHeaderText_one_line a b c d heading Hh) as Hone.
  fold hunkLine in Hone.
  assert (Hnot : forall u, isLineTerminator u = true -> u ∉ hunkLine).
  { intros u Hu Hin. rewrite Forall_forall in Hone. apply Hone in Hin. congruence. }
  pose proof (plain_header_no_line_feed old new Ho Hn) as Hline. fold fileLine in Hline.
  assert (Hplain : CR ∉ fileLine ++ LF :: hunkLine).
  { intros H. apply elem_of_app in H as [H|H].
    - unfold fileLine in H. apply elem_of_app in H as [H|H].
      { revert H. apply absent. reflexivity. }
      apply Hcr. apply elem_of_app.
      apply elem_of_app in H as [H|H].
      + left. apply elem_of_app in H as [H|H]; [|exact H].
        exfalso. revert H. apply absent. reflexivity.
      + right. apply elem_of_cons in H as [H|H]; [discriminate H|].
        apply elem_of_app in H as [H|H]; [|exact H].
        exfalso. revert H. apply absent. reflexivity.
    - apply elem_of_cons in H as [H|H]; [discriminate H|].
      revert H. now apply Hnot. }
  unfold parseUnifiedDiff, parseLines.
  rewrite (replaceCRLF_plain _ Hplain). change (split 10) with (split LF).
  rewrite (PathFacts.split_app_sep LF _ _ Hline).
  rewrite (PathFacts.split_no_sep_id LF hunkLine) by (now apply Hnot).
  cbn [run]. unfold fileLine.
  rewrite (step_plain_header initialState old new Ho Hn).
  cbn [mbind outcome_bind]. unfold hunkLine.
  erewrite step_hunkHeaderText; [|reflexivity|reflexivity|exact Hex|exact Hh].
  reflexivity.
Qed.

Lemma parseUnifiedDiff_hunk_header_witness :
  parseUnifiedDiff
    (DIFF_GIT_PREFIX ++ str "a/" ++ str "src/app.ts" ++ [SPACE]
       ++ str "b/" ++ str "src/app.ts" ++ [LF]
       ++ hunkHeaderText 120 (Some 7) 123 None (Some (str "function main() {")))
  = Returned
      [ {| oldPath := str "src/app.ts"; newPath := str "src/app.ts";
           rawOldPath := str "a/" ++ str "src/app.ts";
           rawNewPath := str "b/" ++ str "src/app.ts";
           hunks := [ openedHunk 120 (Some 7) 123 None
                        (Some (str "function main() {")) ];
           isBinary := false; isNewFile := false; isDeletedFile := false;
           rename := None; modeChange := None; index := None |} ]
  /\ hunkHeaderText 120 (Some 7) 123 None (Some (str "function main() {"))
     = str "@@ -120,7 +123 @@ function main() {".
Proof.
  split; [|reflexivity].
  apply (parseUnifiedDiff_hunk_header (str "src/app.ts") (str "src/app.ts")
           120 (Some 7) 123 None (Some (str "function main() {"))).
  - vm_compute; repeat constructor; discriminate.
  - vm_compute; repeat constructor; discriminate.
  - apply absent. reflexivity.
  - repeat constructor.
  - reflexivity.
Defined.

(** *** Quoted paths in a header *)

(** A path as a header holds it when it needs quoting: its C-style
    quoting between double quotes. *)
Definition quoted (path : jstring) : jstring :=
  DQUOTE :: quotePath path ++ [DQUOTE].

Lemma unescapeGitPath_quoted (value : jstring) :
  Forall (fun c => c < 512) value -> unescapeGitPath (quotePath value) = value.
Proof.
  induction 1 as [|c value Hc _ IH]; [reflexivity|].
  unfold quotePath in *. cbn [flat_map].
  now rewrite unescapeGitPath_quoteUnit, IH.
Qed.

Lemma tokenizeLoop_in_quotes (char : N) (rest : jstring) (tokens : list jstring)
    (current : jstring) (escaped : bool) :
  tokenizeLoop (char :: rest) tokens current true escaped =
  if escaped then tokenizeLoop rest tokens (current ++ [char]) true false
  else if char =? BACKSLASH then tokenizeLoop rest tokens (current ++ [char]) true true
  else if char =? DQUOTE then tokenizeLoop rest tokens (current ++ [char]) false false
  else tokenizeLoop rest tokens (current ++ [char]) true false.
Proof.
  cbn [tokenizeLoop negb].
  destruct escaped, (char =? BACKSLASH), (char =? DQUOTE); try reflexivity.
  now rewrite andb_false_r.
Qed.

Lemma tokenizeLoop_escape (next : N) (rest : jstring) (tokens : list jstring)
    (current : jstring) :
  tokenizeLoop (BACKSLASH :: next :: rest) tokens current true false
  = tokenizeLoop rest tokens (current ++ [BACKSLASH; next]) true false.
Proof.
  rewrite !tokenizeLoop_in_quotes. change (BACKSLASH =? BACKSLASH) with true.
  cbv iota. now rewrite <- app_assoc.
Qed.

Lemma tokenizeLoop_octal_digit (d : N) (rest : jstring) (tokens : list jstring)
    (current : jstring) :
  d < 8 ->
  tokenizeLoop ((48 + d) :: rest) tokens current true false
  = tokenizeLoop rest tokens (current ++ [48 + d]) true false.
Proof.
  intros H. rewrite tokenizeLoop_in_quotes.
  replace (48 + d =? BACKSLASH) with false
    by (symmetry; apply N.eqb_neq; unfold BACKSLASH; cbn; lia).
  replace (48 + d =? DQUOTE) with false
    by (symmetry; apply N.eqb_neq; unfold DQUOTE; cbn; lia).
  reflexivity.
Qed.

Lemma tokenizeLoop_quoteUnit (c : N) (rest : jstring) (tokens : list jstring)
    (current : jstring) :
  tokenizeLoop (quoteUnit c ++ rest) tokens current true false
  = tokenizeLoop rest tokens (current ++ quoteUnit c) true false.
Proof.
  unfold quoteUnit.
  destruct (c =? 9); [apply tokenizeLoop_escape|].
  destruct (c =? 10); [apply tokenizeLoop_escape|].
  destruct (c =? 13); [apply tokenizeLoop_escape|].
  destruct (c =? DQUOTE) eqn:E4; [apply tokenizeLoop_escape|].
  destruct (c =? BACKSLASH) eqn:E5; [apply tokenizeLoop_escape|].
  destruct ((c <? 32) || (127 <=? c)).
  - unfold octalEscape. cbn [app]. rewrite tokenizeLoop_escape.
    rewrite !tokenizeLoop_octal_digit by (apply N.mod_lt; discriminate).
    now rewrite <- !app_assoc.
  - cbn [app]. rewrite tokenizeLoop_in_quotes, E5, E4. reflexivity.
Qed.

Lemma tokenizeLoop_quotePath (path rest : jstring) (tokens : list jstring) :
  forall current,
    tokenizeLoop (quotePath path ++ rest) tokens current true false
    = tokenizeLoop rest tokens (current ++ quotePath path) true false.
Proof.
  unfold quotePath. induction path as [|c path IH]; intros current; cbn [flat_map app].
  - now rewrite app_nil_r.
  - now rewrite <- app_assoc, tokenizeLoop_quoteUnit, IH, <- app_assoc.
Qed.

Lemma tokenizeLoop_quoted (path rest : jstring) (tokens : list jstring) :
  tokenizeLoop (quoted path ++ rest) tokens [] false false
  = tokenizeLoop rest tokens (quoted path) false false.
Proof.
  unfold quoted.
  replace ((DQUOTE :: quotePath path ++ [DQUOTE]) ++ rest)
    with (DQUOTE :: quotePath path ++ DQUOTE :: rest)
    by (cbn [app]; now rewrite <- app_assoc).
  change (tokenizeLoop (DQUOTE :: ?r) tokens [] false false)
    with (tokenizeLoop r tokens [DQUOTE] true false).
  rewrite tokenizeLoop_quotePath, tokenizeLoop_in_quotes.
  change (DQUOTE =? BACKSLASH) with false. change (DQUOTE =? DQUOTE) with true.
  reflexivity.
Qed.

Lemma tokenizeLoop_separator (path : jstring) (tokens : list jstring)
    (current : jstring) :
  tokenizeLoop (SPACE :: quoted path) tokens current false false
  = tokenizeLoop (quoted path) (pushCurrent tokens current) [] false false.
Proof. reflexivity. Qed.

Lemma tokenizeDiffGitPaths_quoted (old new : jstring) :
  tokenizeDiffGitPaths (quoted old ++ SPACE :: quoted new) = [quoted old; quoted new].
Proof.
  unfold tokenizeDiffGitPaths.
  rewrite tokenizeLoop_quoted, tokenizeLoop_separator.
  pose proof (tokenizeLoop_quoted new [] (pushCurrent [] (quoted old))) as Hnew.
  rewrite app_nil_r in Hnew. rewrite Hnew. reflexivity.
Qed.

Lemma splitDiffGitHeaderPaths_two (headerRemainder rawOld rawNew : jstring) :
  headerRemainder <> [] ->
  tokenizeDiffGitPaths headerRemainder = [rawOld; rawNew] ->
  isValidOld rawOld = true -> isValidNew rawNew = true ->
  splitDiffGitHeaderPaths headerRemainder = Some (rawOld, rawNew).
Proof.
  intros Hne Ht Ho Hn. unfold splitDiffGitHeaderPaths.
  destruct headerRemainder; [congruence|]. now rewrite Ht, Ho, Hn.
Qed.

Lemma quoteUnit_no_line_feed (c : N) : LF ∉ quoteUnit c.
Proof.
  unfold quoteUnit.
  destruct (c =? 9); [apply absent; reflexivity|].
  destruct (c =? 10) eqn:E2; [apply absent; reflexivity|].
  destruct (c =? 13); [apply absent; reflexivity|].
  destruct (c =? DQUOTE); [apply absent; reflexivity|].
  destruct (c =? BACKSLASH); [apply absent; reflexivity|].
  destruct ((c <? 32) || (127 <=? c)).
  - unfold octalEscape. set (d1 := c / 64). set (d2 := (c / 8) mod 8).
    set (d3 := c mod 8). clearbody d1 d2 d3. unfold LF.
    intros H.
    repeat (apply elem_of_cons in H as [H|H]; [first [discriminate H|lia]|]).
    now apply not_elem_of_nil in H.
  - apply N.eqb_neq in E2. intros H. apply list_elem_of_singleton in H.
    unfold LF in H. congruence.
Qed.

Lemma quoted_no_line_feed (path : jstring) : LF ∉ quoted path.
Proof.
  assert (Hq : LF ∉ quotePath path).
  { unfold quotePath. induction path as [|c path IH]; cbn [flat_map].
    - apply not_elem_of_nil.
    - intros H. apply elem_of_app in H as [H|H]; [|contradiction].
      now apply (quoteUnit_no_line_feed c). }
  unfold quoted. intros H.
  apply elem_of_cons in H as [H|H]; [discriminate H|].
  apply elem_of_app in H as [H|H]; [contradiction|].
  apply list_elem_of_singleton in H. discriminate H.
Qed.

Lemma quotePath_prefixed (a : N) (path : jstring) :
  a = chr "a" \/ a = chr "b" ->
  quotePath (a :: chr "/" :: path) = a :: chr "/" :: quotePath path.
Proof. intros [-> | ->]; reflexivity. Qed.

(** X10.  A header of quoted paths: for all paths [old] and [new] of code
    units below 512, spaces, double quotes, backslashes and line feeds
    included, the line made of [diff --git ], the quoted [a/old], a space
    and the quoted [b/new] parses to one file, whose paths are [old] and
    [new] and whose raw paths are the two quoted tokens. *)
Theorem parseUnifiedDiff_quoted_header (old new : jstring) :
  Forall (fun c => c < 512) old -> Forall (fun c => c < 512) new ->
  parseUnifiedDiff
    (DIFF_GIT_PREFIX ++ quoted (str "a/" ++ old) ++ [SPACE]
       ++ quoted (str "b/" ++ new))
  = Returned [ {| oldPath := old; newPath := new;
                  rawOldPath := quoted (str "a/" ++ old);
                  rawNewPath := quoted (str "b/" ++ new);
                  hunks := []; isBinary := false; isNewFile := false;
                  isDeletedFile := false;
                  rename := None; modeChange := None; index := None |} ].
Proof.
  intros Ho Hn.
  set (rawOld := quoted (str "a/" ++ old)). set (rawNew := quoted (str "b/" ++ new)).
  change (DIFF_GIT_PREFIX ++ rawOld ++ [SPACE] ++ rawNew)
    with (DIFF_GIT_PREFIX ++ rawOld ++ SPACE :: rawNew).
  assert (Hline : LF ∉ DIFF_GIT_PREFIX ++ rawOld ++ SPACE :: rawNew).
  { intros H. apply elem_of_app in H as [H|H].
    - revert H. apply absent. reflexivity.
    - apply elem_of_app in H as [H|H]; [exact (quoted_no_line_feed _ H)|].
      apply elem_of_cons in H as [H|H]; [discriminate H|].
      exact (quoted_no_line_feed _ H). }
  assert (Hso : stripEnclosingQuotes rawOld = str "a/" ++ quotePath old).
  { unfold rawOld, quoted. rewrite stripEnclosingQuotes_quoted by now left.
    apply (quotePath_prefixed (chr "a")). now left. }
  assert (Hsn : stripEnclosingQuotes rawNew = str "b/" ++ quotePath new).
  { unfold rawNew, quoted. rewrite stripEnclosingQuotes_quoted by now left.
    apply (quotePath_prefixed (chr "b")). now right. }
  assert (Huo : unescapeGitPath (str "a/" ++ quotePath old) = str "a/" ++ old).
  { change (str "a/" ++ quotePath old) with (chr "a" :: chr "/" :: quotePath old).
    rewrite !unescapeGitPath_cons.
    change (chr "a" =? BACKSLASH) with false. change (chr "/" =? BACKSLASH) with false.
    cbv iota. now rewrite unescapeGitPath_quoted. }
  assert (Hun : unescapeGitPath (str "b/" ++ quotePath new) = str "b/" ++ new).
  { change (str "b/" ++ quotePath new) with (chr "b" :: chr "/" :: quotePath new).
    rewrite !unescapeGitPath_cons.
    change (chr "b" =? BACKSLASH) with false. change (chr "/" =? BACKSLASH) with false.
    cbv iota. now rewrite unescapeGitPath_quoted. }
  assert (Eo : normalizeGitPath rawOld = old).
  { unfold normalizeGitPath. cbv zeta. rewrite Hso, Huo.
    change (eqs (str "a/" ++ old) DEV_NULL) with false. cbv iota.
    rewrite startsWith_app. apply (sliceFrom_prefix (str "a/")). }
  assert (En : normalizeGitPath rawNew = new).
  { unfold normalizeGitPath. cbv zeta. rewrite Hsn, Hun.
    change (eqs (str "b/" ++ new) DEV_NULL) with false. cbv iota.
    change (startsWith (str "b/" ++ new) (str "a/")) with false. cbv iota.
    rewrite startsWith_app. apply (sliceFrom_prefix (str "b/")). }
  unfold parseUnifiedDiff, parseLines.
  rewrite (replaceCRLF_no_line_feed _ Hline).
  change (split 10) with (split LF).
  rewrite (PathFacts.split_no_sep_id LF _ Hline). cbn [run].
  unfold step. rewrite startsWith_app, sliceFrom_prefix.
  assert (Hsplit : splitDiffGitHeaderPaths (rawOld ++ SPACE :: rawNew)
                   = Some (rawOld, rawNew)).
  { apply splitDiffGitHeaderPaths_two.
    - discriminate.
    - apply tokenizeDiffGitPaths_quoted.
    - unfold isValidOld. cbv zeta. rewrite Hso, startsWith_app. apply orb_true_r.
    - unfold isValidNew. cbv zeta. rewrite Hsn, startsWith_app. apply orb_true_r. }
  rewrite Hsplit. cbn [mret outcome_ret mbind outcome_bind files initialState app].
  rewrite Eo, En. reflexivity.
Qed.

Lemma parseUnifiedDiff_quoted_header_witness :
  parseUnifiedDiff
    (DIFF_GIT_PREFIX ++ quoted (str "a/" ++ str "my file.ts") ++ [SPACE]
       ++ quoted (str "b/" ++ [chr "t"; 233; 9; DQUOTE; BACKSLASH]))
  = Returned [ {| oldPath := str "my file.ts";
                  newPath := [chr "t"; 233; 9; DQUOTE; BACKSLASH];
                  rawOldPath := quoted (str "a/" ++ str "my file.ts");
                  rawNewPath :=
                    quoted (str "b/" ++ [chr "t"; 233; 9; DQUOTE; BACKSLASH]);
                  hunks := []; isBinary := false; isNewFile := false;
                  isDeletedFile := false;
                  rename := None; modeChange := None; index := None |} ]
  /\ quoted (str "a/" ++ str "my file.ts") = [DQUOTE] ++ str "a/my file.ts" ++ [DQUOTE].
Proof.
  split; [|reflexivity].
  apply (parseUnifiedDiff_quoted_header (str "my file.ts")
           [chr "t"; 233; 9; DQUOTE; BACKSLASH]);
    repeat constructor.
Defined.

(** *** Empty lines *)

(** X11.  An empty line counts for nothing, wherever it stands, inside a
    hunk too: it is no context line, it is not added to the hunk and the
    line counters do not advance.  A text with two line feeds in a row
    parses as the text with one of them. *)
Theorem parseUnifiedDiff_empty_line (first rest : jstring) :
  parseUnifiedDiff (first ++ [LF; LF] ++ rest)
  = parseUnifiedDiff (first ++ [LF] ++ rest).
Proof.
  unfold parseUnifiedDiff, parseLines. change (split 10) with (split LF).
  destruct (replaceCRLF_line_feed (length first) first (Nat.le_refl _)) as [x Hx].
  cbn [app]. rewrite (Hx (LF :: rest)), (Hx rest).
  rewrite (replaceCRLF_keep LF) by discriminate.
  rewrite (split_line_feed LF x (LF :: replaceCRLF rest)).
  rewrite (split_line_feed LF x (replaceCRLF rest)).
  change (split LF (LF :: replaceCRLF rest)) with ([] :: split LF (replaceCRLF rest)).
  rewrite !run_app.
  destruct (run initialState (split LF x)) as [st|]; [|reflexivity].
  cbn [mbind outcome_bind run]. now rewrite step_empty.
Qed.

End ParserLaws.

(** ** More on the sandbox *)

Module SandboxLaws.
Import JS JSFacts NodePath Tools PathFacts GlobFacts.

Lemma dropCommonPrefix_app (a rest : list jstring) :
  dropCommonPrefix a (a ++ rest) = ([], rest).
Proof.
  induction a as [|x a IH]; [now destruct rest|].
  cbn [app dropCommonPrefix]. now rewrite eqs_refl.
Qed.

(** The first segment decides how a relative path starts. *)
Lemma join_startsWith (s : jstring) (r : list jstring) :
  clean s ->
  startsWith (join (s :: r)) (str "..") = startsWith s (str "..") /\
  isAbsolute (join (s :: r)) = false.
Proof.
  intros [Hne Hs].
  assert (Hj : exists t, join (s :: r) = s ++ t /\ (t = [] \/ exists t', t = SLASH :: t')).
  { destruct r as [|s' r']; [exists []; split; [now rewrite app_nil_r|now left]|].
    exists (SLASH :: join (s' :: r')). split; [reflexivity|right; eauto]. }
  destruct Hj as (t & -> & Ht).
  destruct s as [|c1 s1]; [congruence|].
  assert (Hc : (SLASH =? c1) = false).
  { apply N.eqb_neq. intros <-. apply Hs. constructor. }
  split; [|unfold isAbsolute; cbn [app startsWith]; now rewrite Hc].
  change (str "..") with [46; 46]. destruct s1 as [|c2 s2]; [|reflexivity].
  cbn [app startsWith]. destruct Ht as [->|[t' ->]]; [reflexivity|].
  change (46 =? SLASH) with false. now rewrite !andb_false_r.
Qed.

Lemma normalizeSegments_app (a b stack : list jstring) :
  normalizeSegments stack (a ++ b)
  = normalizeSegments (rev (normalizeSegments stack a)) b.
Proof.
  revert stack; induction a as [|s a IH]; intros stack; cbn [app normalizeSegments].
  - now rewrite rev_involutive.
  - destruct (eqs s (str ".")); [apply IH|].
    destruct (eqs s (str "..")); apply IH.
Qed.

Section WithPlatform.
Context (P : Platform).

Let cwd : jstring := processCwd P.

(** The segments of the resolved candidate go on from those of the
    resolved root with [rest]. *)
Definition below (repoRoot absolute : jstring) (rest : list jstring) : Prop :=
  segments absolute = segments (resolve cwd [repoRoot]) ++ rest.

Lemma relative_below (repoRoot : jstring) (target rest : list jstring) :
  below repoRoot (resolve cwd target) rest ->
  relative cwd (resolve cwd [repoRoot]) (resolve cwd target) = join rest.
Proof.
  unfold below, relative. intros H. rewrite !resolve_resolve, H.
  now rewrite dropCommonPrefix_app.
Qed.

Lemma below_plain (repoRoot : jstring) (target rest : list jstring) :
  below repoRoot (resolve cwd target) rest -> Forall plain rest.
Proof.
  unfold below. rewrite segments_resolve. intros H.
  pose proof (resolvedSegments_plain cwd target) as Hp. rewrite H in Hp.
  now apply Forall_app in Hp as [_ Hp].
Qed.

(** Whether the relative path escapes is read on the first of [rest]. *)
Lemma escapes_below (repoRoot : jstring) (target rest : list jstring) :
  below repoRoot (resolve cwd target) rest ->
  startsWith (relative cwd (resolve cwd [repoRoot]) (resolve cwd target)) (str "..")
  || isAbsolute (relative cwd (resolve cwd [repoRoot]) (resolve cwd target))
  = match rest with
    | s :: _ => startsWith s (str "..")
    | [] => false
    end.
Proof.
  intros Hb. rewrite (relative_below _ _ _ Hb).
  destruct rest as [|s r]; [reflexivity|].
  pose proof (below_plain _ _ _ Hb) as Hp. inversion Hp as [|? ? [Hc _] _]; subst.
  destruct (join_startsWith s r Hc) as [-> ->]. apply orb_false_r.
Qed.

(** What is known of a path that [resolveWithinRepo] returns. *)
Lemma resolveWithinRepo_ok (repoRoot candidate absolute : jstring) :
  resolveWithinRepo P repoRoot candidate = Ok absolute ->
  trim candidate <> [] /\
  absolute = resolve cwd [repoRoot; trim candidate] /\
  exists rest, below repoRoot absolute rest /\
    match rest with
    | s :: _ => startsWith s (str "..") = false
    | [] => True
    end.
Proof.
  rewrite resolveWithinRepo_cases. cbv zeta. fold cwd.
  destruct (trim candidate) as [|c t] eqn:Et; [discriminate|]. rewrite <- Et.
  replace (length (trim candidate) =? 0)%nat with false
    by (rewrite Et; reflexivity).
  destruct (startsWith _ (str "..") || isAbsolute _) eqn:E; [discriminate|].
  intros [= <-]. split; [congruence|]. split; [reflexivity|].
  assert (Hs : startsWith (relative cwd (resolve cwd [repoRoot])
                 (resolve cwd [repoRoot; trim candidate])) (str "..") = false)
    by (now apply orb_false_iff in E as [E' _]).
  destruct (relative_inside P repoRoot _ Hs) as [rest Hb].
  exists rest. split; [exact Hb|].
  rewrite (escapes_below _ _ _ Hb) in E. destruct rest; [exact I|exact E].
Qed.

(** X12.  What [resolveWithinRepo] accepts: a candidate that is not
    blank is accepted exactly when its resolved path goes on from the
    resolved root with segments of which the first does not start with
    two dots.  So a path inside the root whose first segment below the
    root starts with two dots (a file named [..x]) is rejected as if it
    escaped. *)
Theorem resolveWithinRepo_accepts (repoRoot candidate : jstring) :
  trim candidate <> [] ->
  let absolute := resolve cwd [repoRoot; trim candidate] in
  (resolveWithinRepo P repoRoot candidate = Ok absolute <->
   exists rest, below repoRoot absolute rest /\
     match rest with
     | s :: _ => startsWith s (str "..") = false
     | [] => True
     end) /\
  (forall s rest,
     below repoRoot absolute (s :: rest) -> startsWith s (str "..") = true ->
     resolveWithinRepo P repoRoot candidate = Failed PathEscape).
Proof.
  intros Hne. cbv zeta.
  assert (Hlen : (length (trim candidate) =? 0)%nat = false)
    by (destruct (trim candidate); [congruence|reflexivity]).
  split; [split|].
  - intros Hok. now destruct (resolveWithinRepo_ok _ _ _ Hok) as (_ & _ & H).
  - intros (rest & Hb & Hs). rewrite resolveWithinRepo_cases. cbv zeta.
    fold cwd. rewrite Hlen, (escapes_below _ _ _ Hb).
    destruct rest; [reflexivity|]. now rewrite Hs.
  - intros s rest Hb Hs. rewrite resolveWithinRepo_cases. cbv zeta.
    fold cwd. now rewrite Hlen, (escapes_below _ _ _ Hb), Hs.
Qed.

End WithPlatform.

Lemma resolveWithinRepo_accepts_witness :
  let P := SamplePlatform.platform [] (fun _ => []) in
  (resolveWithinRepo P (str "/work/repo") (str " src/./app.ts ")
   = Ok (str "/work/repo/src/app.ts") <->
   exists rest, below P (str "/work/repo") (str "/work/repo/src/app.ts") rest /\
     match rest with
     | s :: _ => startsWith s (str "..") = false
     | [] => True
     end) /\
  (forall s rest,
     below P (str "/work/repo") (str "/work/repo/src/app.ts") (s :: rest) ->
     startsWith s (str "..") = true ->
     resolveWithinRepo P (str "/work/repo") (str " src/./app.ts ")
     = Failed PathEscape).
Proof.
  cbv zeta.
  apply (resolveWithinRepo_accepts (SamplePlatform.platform [] (fun _ => []))
           (str "/work/repo") (str " src/./app.ts ")).
  vm_compute. discriminate.
Defined.

(** *** From the root-relative path back to the path *)

Section RoundTrip.
Context (P : Platform).

Local Abbreviation cwd := (processCwd P).

(** The segments that [path.resolve(repoRoot)] normalizes. *)
Definition rootJoined (repoRoot : jstring) : list jstring :=
  if isAbsolute repoRoot then segments repoRoot
  else segments cwd ++ segments repoRoot.

Lemma segments_root (repoRoot : jstring) :
  segments (resolve cwd [repoRoot]) = normalizeSegments [] (rootJoined repoRoot).
Proof. rewrite segments_resolve. reflexivity. Qed.

Lemma resolve_under (repoRoot rel : jstring) :
  isAbsolute rel = false ->
  resolve cwd [repoRoot; rel]
  = absolutePath
      (normalizeSegments (rev (segments (resolve cwd [repoRoot]))) (segments rel)).
Proof.
  intros Hr. rewrite segments_root. unfold resolve at 1. f_equal.
  unfold joinedSegments. cbn [fold_left]. rewrite Hr.
  fold (rootJoined repoRoot). apply normalizeSegments_app.
Qed.

Lemma segments_join (rest : list jstring) :
  Forall clean rest -> segments (join rest) = rest.
Proof.
  intros H. unfold segments. destruct rest as [|s r]; [reflexivity|].
  rewrite split_join by (auto; congruence). now apply filter_nonEmpty_clean.
Qed.

Lemma absolutePath_segments (paths : list jstring) :
  absolutePath (segments (resolve cwd paths)) = resolve cwd paths.
Proof. now rewrite segments_resolve. Qed.

Lemma toRepoRelative_below (repoRoot : jstring) (target rest : list jstring) :
  below P repoRoot (resolve cwd target) rest ->
  toRepoRelative P repoRoot (resolve cwd target)
  = match rest with [] => str "." | _ => join rest end.
Proof.
  intros Hb. unfold toRepoRelative. cbv zeta.
  rewrite (relative_below P _ _ _ Hb).
  destruct rest as [|s r]; [reflexivity|].
  pose proof (below_plain P _ _ _ Hb) as Hp. inversion Hp as [|? ? [[Hne _] _] _]; subst.
  destruct (eqs (join (s :: r)) []) eqn:E; [|reflexivity].
  apply eqs_eq in E. exfalso. destruct s; [congruence|].
  destruct r; discriminate E.
Qed.

(** Resolving the root-relative path against the root. *)
Lemma resolve_toRepoRelative (repoRoot candidate absolute : jstring) :
  resolveWithinRepo P repoRoot candidate = Ok absolute ->
  resolve cwd [repoRoot; toRepoRelative P repoRoot absolute] = absolute.
Proof.
  intros Hok.
  destruct (resolveWithinRepo_ok P _ _ _ Hok) as (_ & -> & rest & Hb & _).
  pose proof (below_plain P _ _ _ Hb) as Hp.
  rewrite (toRepoRelative_below _ _ _ Hb).
  assert (Hback : forall rel,
            isAbsolute rel = false ->
            normalizeSegments (rev (segments (resolve cwd [repoRoot]))) (segments rel)
            = segments (resolve cwd [repoRoot]) ++ rest ->
            resolve cwd [repoRoot; rel] = resolve cwd [repoRoot; trim candidate]).
  { intros rel Hr Hn. rewrite (resolve_under _ _ Hr), Hn.
    unfold below in Hb. rewrite <- Hb. apply absolutePath_segments. }
  destruct rest as [|s r].
  - apply Hback; [reflexivity|].
    change (segments (str ".")) with [str "."]. cbn [normalizeSegments].
    change (eqs (str ".") (str ".")) with true. cbv iota.
    now rewrite rev_involutive, app_nil_r.
  - inversion Hp as [|? ? [Hc _] _]; subst.
    destruct (join_startsWith s r Hc) as [_ Habs].
    apply Hback; [exact Habs|].
    rewrite segments_join by (now apply Forall_plain_clean).
    rewrite normalizeSegments_id by exact Hp. now rewrite rev_involutive.
Qed.

(** The root-relative path of a path that [resolveWithinRepo] returns
    is never empty. *)
Lemma toRepoRelative_nonempty (repoRoot absolute : jstring) :
  toRepoRelative P repoRoot absolute <> [].
Proof.
  unfold toRepoRelative. cbv zeta.
  destruct (eqs _ []) eqn:E; [discriminate|].
  intros H. rewrite H in E. discriminate E.
Qed.

(** [resolveWithinRepo] accepts the root-relative path of what it
    returned, when trimming leaves that path as it is. *)
Lemma resolveWithinRepo_again (repoRoot candidate absolute : jstring) :
  resolveWithinRepo P repoRoot candidate = Ok absolute ->
  trim (toRepoRelative P repoRoot absolute) = toRepoRelative P repoRoot absolute ->
  resolveWithinRepo P repoRoot (toRepoRelative P repoRoot absolute) = Ok absolute.
Proof.
  intros Hok Ht.
  pose proof (resolve_toRepoRelative _ _ _ Hok) as Hback.
  destruct (resolveWithinRepo_ok P _ _ _ Hok) as (_ & Ha & rest & Hb & Hfirst).
  rewrite resolveWithinRepo_cases. cbv zeta. rewrite Ht, Hback.
  pose proof (toRepoRelative_nonempty repoRoot absolute) as Hne.
  destruct (toRepoRelative P repoRoot absolute); [congruence|]. cbn [length Nat.eqb].
  rewrite Ha in *. rewrite (escapes_below P _ _ _ Hb).
  destruct rest; [reflexivity|]. now rewrite Hfirst.
Qed.

(** X13.  The root-relative path leads back: for a path [absolute] that
    [resolveWithinRepo] returns, [toRepoRelative] gives a path that is
    not absolute and does not start with two dots, that is [.] exactly
    when [absolute] is the resolved root, and that resolves against the
    root to [absolute] again; [resolveWithinRepo] accepts it in turn,
    with the same result, when trimming leaves it as it is. *)
Theorem toRepoRelative_resolves_back (repoRoot candidate absolute : jstring) :
  resolveWithinRepo P repoRoot candidate = Ok absolute ->
  let rel := toRepoRelative P repoRoot absolute in
  isAbsolute rel = false /\
  startsWith rel (str "..") = false /\
  (rel = str "." <-> absolute = resolve cwd [repoRoot]) /\
  resolve cwd [repoRoot; rel] = absolute /\
  (trim rel = rel -> resolveWithinRepo P repoRoot rel = Ok absolute).
Proof.
  intros Hok. cbv zeta.
  pose proof (resolve_toRepoRelative _ _ _ Hok) as Hback.
  pose proof (resolveWithinRepo_again _ _ _ Hok) as Hagain.
  destruct (resolveWithinRepo_ok P _ _ _ Hok) as (_ & Ha & rest & Hb & Hfirst).
  rewrite Ha in Hb, Hback, Hagain |- *.
  pose proof (below_plain P _ _ _ Hb) as Hp.
  rewrite (toRepoRelative_below _ _ _ Hb) in Hback, Hagain |- *.
  destruct rest as [|s r].
  - split; [reflexivity|]. split; [reflexivity|].
    split; [|split; [exact Hback|exact Hagain]].
    split; [intros _|reflexivity].
    rewrite <- (absolutePath_segments [repoRoot; trim candidate]).
    unfold below in Hb. rewrite Hb, app_nil_r. apply absolutePath_segments.
  - pose proof (Forall_inv Hp) as (Hc & Hd & _).
    destruct (join_startsWith s r Hc) as [Hs Habs]. rewrite Hfirst in Hs.
    split; [exact Habs|]. split; [exact Hs|].
    split; [|split; [exact Hback|exact Hagain]].
    split.
    + intros E. exfalso.
      destruct r as [|s' r']; [cbn [join] in E; contradiction|].
      cbn [join] in E. apply (f_equal length) in E. rewrite length_app in E.
      destruct Hc as [Hne' _]. destruct s; [congruence|]. cbn in E. lia.
    + intros E. exfalso. unfold below in Hb. rewrite E in Hb.
      rewrite <- (app_nil_r (segments (resolve cwd [repoRoot]))) in Hb at 1.
      apply app_inv_head in Hb. discriminate Hb.
Qed.

End RoundTrip.

Lemma toRepoRelative_resolves_back_witness :
  let P := SamplePlatform.platform [] (fun _ => []) in
  let rel := toRepoRelative P (str "/work/repo") (str "/work/repo/src/app.ts") in
  isAbsolute rel = false /\
  startsWith rel (str "..") = false /\
  (rel = str "." <->
   str "/work/repo/src/app.ts" = resolve (processCwd P) [str "/work/repo"]) /\
  resolve (processCwd P) [str "/work/repo"; rel] = str "/work/repo/src/app.ts" /\
  (trim rel = rel ->
   resolveWithinRepo P (str "/work/repo") rel = Ok (str "/work/repo/src/app.ts")).
Proof.
  cbv zeta.
  apply (toRepoRelative_resolves_back (SamplePlatform.platform [] (fun _ => []))
           (str "/work/repo") (str "src//app.ts")).
  vm_compute. reflexivity.
Defined.

(** *** Glob stays inside *)

Section GlobSafety.
Context (P : Platform).

Local Abbreviation cwd := (processCwd P).

Lemma globLoop_members (repoRoot baseDir : jstring) (limit : nat)
    (scanned : list jstring) :
  forall (matches : list jstring) (m : jstring),
    m ∈ (globLoop P repoRoot baseDir limit scanned matches).1 ->
    m ∈ matches \/
    exists found, found ∈ scanned /\ globCandidate P repoRoot baseDir found = Some m.
Proof.
  induction scanned as [|found rest IH]; intros matches m; cbn [globLoop].
  - now left.
  - destruct (globCandidate P repoRoot baseDir found) as [relative|] eqn:E.
    + destruct (limit <=? length (matches ++ [relative]))%nat; cbn [fst].
      * intros H. apply elem_of_app in H as [H|H]; [now left|].
        apply list_elem_of_singleton in H as ->. right. exists found.
        split; [constructor|exact E].
      * intros H. destruct (IH _ _ H) as [H'|(f & Hf & Hc)].
        -- apply elem_of_app in H' as [H'|H']; [now left|].
           apply list_elem_of_singleton in H' as ->. right. exists found.
           split; [constructor|exact E].
        -- right. exists f. split; [now constructor|exact Hc].
    + intros H. destruct (IH _ _ H) as [H'|(f & Hf & Hc)]; [now left|].
      right. exists f. split; [now constructor|exact Hc].
Qed.

(** X14.  Glob stays inside the root: every match that the Glob tool
    returns is free of ignored directories and, resolved against the
    root, gives a path inside the resolved root, whatever the scan
    yields (a pattern with [..], an absolute path). *)
Theorem globTool_matches_inside (repoRoot pattern : jstring)
    (cwdArgument : option jstring) (maxResults : option nat) (r : GlobResult)
    (m : jstring) :
  globTool P repoRoot pattern cwdArgument maxResults = Ok r ->
  m ∈ globMatches r ->
  includesIgnoredDirectory m = false /\
  inside (resolve cwd [repoRoot]) (resolve cwd [repoRoot; m]).
Proof.
  unfold globTool.
  destruct (match cwdArgument with
            | Some dir =>
              if nonEmpty dir then resolveWithinRepo P repoRoot dir
              else Ok repoRoot
            | None => Ok repoRoot
            end) as [baseDir|e]; [|discriminate].
  cbn [mbind result_bind].
  destruct (lstat P baseDir) as [baseStats|]; [|discriminate].
  destruct (isSymbolicLink baseStats || negb (isDirectory baseStats));
    [discriminate|].
  destruct (globLoop P repoRoot baseDir _ _ []) as [matches truncated] eqn:El.
  intros [= <-]. cbn [globMatches]. rewrite sortDistinct_elem. intros Hm.
  assert (Hin : m ∈ (globLoop P repoRoot baseDir
                       (default DEFAULT_MAX_GLOB_RESULTS maxResults)
                       (scanSync P pattern baseDir) []).1)
    by (now rewrite El).
  apply globLoop_members in Hin as [Hin|(found & _ & Hc)];
    [now apply not_elem_of_nil in Hin|].
  unfold globCandidate in Hc. cbv zeta in Hc.
  destruct (resolveWithinRepo P repoRoot (resolve cwd [baseDir; found]))
    as [absolute|] eqn:Hok; [|discriminate].
  destruct (includesIgnoredDirectory (toRepoRelative P repoRoot absolute)) eqn:Hi;
    [discriminate|].
  injection Hc as <-. split; [exact Hi|].
  rewrite (resolve_toRepoRelative P _ _ _ Hok).
  destruct (resolveWithinRepo_ok P _ _ _ Hok) as (_ & _ & rest & Hb & _).
  exists rest. exact Hb.
Qed.

End GlobSafety.

Lemma globTool_matches_inside_witness :
  let P := SamplePlatform.platform
             [str "src/app.ts"; str "../outside.ts"; str "node_modules/x.js"]
             (fun _ => []) in
  includesIgnoredDirectory (str "src/app.ts") = false /\
  inside (resolve (processCwd P) [str "/work"])
         (resolve (processCwd P) [str "/work"; str "src/app.ts"]).
Proof.
  cbv zeta.
  apply (globTool_matches_inside
           (SamplePlatform.platform
              [str "src/app.ts"; str "../outside.ts"; str "node_modules/x.js"]
              (fun _ => []))
           (str "/work") (str "**/*") None None
           {| globMatches := [str "src/app.ts"]; globTruncated := false |}).
  - vm_compute. reflexivity.
  - apply list_elem_of_here.
Defined.

(** *** Ignored directories *)

Lemma splitOn_cons (sep : N -> bool) (s : jstring) :
  exists l ls, splitOn sep s = l :: ls.
Proof.
  induction s as [|c r IH]; cbn [splitOn]; [eauto|].
  destruct (sep c); [eauto|]. destruct IH as (l & ls & ->). eauto.
Qed.

Lemma splitOn_none (sep : N -> bool) (s : jstring) :
  Forall (fun c => sep c = false) s -> splitOn sep s = [s].
Proof.
  induction 1 as [|c r Hc _ IH]; [reflexivity|].
  cbn [splitOn]. now rewrite Hc, IH.
Qed.

Lemma splitOn_app (sep : N -> bool) (s t : jstring) (c : N) :
  Forall (fun c => sep c = false) s -> sep c = true ->
  splitOn sep (s ++ c :: t) = s :: splitOn sep t.
Proof.
  intros Hs Hc. induction Hs as [|x r Hx _ IH]; cbn [app splitOn].
  - now rewrite Hc.
  - now rewrite Hx, IH.
Qed.

Lemma splitOn_join (sep : N -> bool) (segs : list jstring) :
  sep SLASH = true ->
  Forall (fun s => Forall (fun c => sep c = false) s) segs -> segs <> [] ->
  splitOn sep (join segs) = segs.
Proof.
  intros Hsep. induction 1 as [|s segs Hs Hall IH]; intros Hne; [congruence|].
  destruct segs as [|s' segs'].
  - cbn [join]. now apply splitOn_none.
  - change (join (s :: s' :: segs')) with (s ++ SLASH :: join (s' :: segs')).
    rewrite splitOn_app by assumption. now rewrite IH.
Qed.

(** A segment of a path as the tools see them: not empty, without a
    slash or a backslash, and without white space at its ends. *)
Definition segment (s : jstring) : Prop :=
  s <> [] /\ Forall (fun c => (c =? 47) || (c =? 92) = false) s /\ trim s = s.

Lemma splitPathSegments_join (segs : list jstring) :
  Forall segment segs -> segs <> [] -> splitPathSegments (join segs) = segs.
Proof.
  intros Hall Hne. unfold splitPathSegments.
  rewrite splitOn_join; [|reflexivity| |exact Hne].
  - clear Hne. induction Hall as [|s segs (Hs & _ & Ht) _ IH]; [reflexivity|].
    cbn [map List.filter]. rewrite Ht.
    replace (nonEmpty s) with true by (destruct s; [congruence|reflexivity]).
    now rewrite IH.
  - eapply Forall_impl; [exact Hall|]. now intros s (_ & H & _).
Qed.

(** X15.  Ignored directories are found at any depth: for a path made
    of segments joined by slashes, [includesIgnoredDirectory] holds
    exactly when one of the segments is one of the ignored names
    ([.git], [node_modules], [dist], [.beads], [.claude], [.turbo]),
    compared as they are. *)
Theorem includesIgnoredDirectory_segments (segs : list jstring) :
  Forall segment segs ->
  includesIgnoredDirectory (join segs) = existsb isIgnoredName segs.
Proof.
  intros Hall. destruct segs as [|s r]; [reflexivity|].
  rewrite <- (splitPathSegments_join (s :: r) Hall ltac:(discriminate)) at 2.
  unfold includesIgnoredDirectory.
  destruct (length (join (s :: r)) =? 0)%nat eqn:El.
  - apply Nat.eqb_eq in El. apply length_zero_iff_nil in El. now rewrite El.
  - cbn [orb]. destruct (eqs (join (s :: r)) (str ".")) eqn:Ed; [|reflexivity].
    apply eqs_eq in Ed. now rewrite Ed.
Qed.

Lemma includesIgnoredDirectory_segments_witness :
  includesIgnoredDirectory (join [str "packages"; str "web"; str "node_modules"; str "x.js"])
  = existsb isIgnoredName [str "packages"; str "web"; str "node_modules"; str "x.js"].
Proof.
  apply (includesIgnoredDirectory_segments
           [str "packages"; str "web"; str "node_modules"; str "x.js"]).
  repeat constructor; try discriminate.
Defined.

End SandboxLaws.

(** ** More on sorting *)

Module SortLaws.
Import JS JSFacts NodePath Tools PathFacts GlobFacts.

Lemma compareKeys_le_trans (a : list N) :
  forall b c,
    compareKeys a b <> Gt -> compareKeys b c <> Gt -> compareKeys a c <> Gt.
Proof.
  induction a as [|x a IH]; intros [|y b] [|z c]; cbn [compareKeys];
    try congruence.
  destruct (x ?= y) eqn:Exy; [| |congruence];
    destruct (y ?= z) eqn:Eyz; try congruence.
  - apply N.compare_eq in Exy, Eyz. subst. rewrite N.compare_refl. apply IH.
  - apply N.compare_eq in Exy. subst. now rewrite Eyz.
  - apply N.compare_eq in Eyz. subst. now rewrite Exy.
  - rewrite N.compare_lt_iff in Exy, Eyz. assert (H : x < z) by lia.
    rewrite <- N.compare_lt_iff in H. now rewrite H.
Qed.

Lemma compareKeys_eq (a : list N) : forall b, compareKeys a b = Eq -> a = b.
Proof.
  induction a as [|x a IH]; intros [|y b]; cbn [compareKeys]; try congruence.
  destruct (N.compare_spec x y) as [->|_|_]; try congruence.
  intros H. now rewrite (IH _ H).
Qed.

Section WithPlatform.
Context (P : Platform).

Lemma localeLe_keys (a b : jstring) :
  localeLe P a b <-> compareKeys (collationKey P a) (collationKey P b) <> Gt.
Proof.
  unfold localeLe, localeCompare.
  destruct (compareKeys _ _); split; intros H; try lia; congruence.
Qed.

Lemma localeLe_trans (a b c : jstring) :
  localeLe P a b -> localeLe P b c -> localeLe P a c.
Proof. rewrite !localeLe_keys. apply compareKeys_le_trans. Qed.

(** Two strings that the order does not tell apart have the same key. *)
Lemma localeLe_antisym (a b : jstring) :
  localeLe P a b -> localeLe P b a -> collationKey P a = collationKey P b.
Proof.
  rewrite !localeLe_keys.
  rewrite (compareKeys_antisym (collationKey P a) (collationKey P b)).
  destruct (compareKeys (collationKey P a) (collationKey P b)) eqn:E;
    cbn; try congruence.
  intros _ _. now apply compareKeys_eq.
Qed.

Lemma sortWith_sorted_id (l : list jstring) :
  Sorted (localeLe P) l -> sortWith (localeCompare P) l = l.
Proof.
  induction 1 as [|x l _ IH Hhd]; [reflexivity|].
  unfold sortWith in *. cbn [foldr]. rewrite IH.
  destruct Hhd as [|y l' Hxy]; [reflexivity|]. cbn [insertSorted].
  unfold localeLe in Hxy. apply Z.leb_le in Hxy. now rewrite Hxy.
Qed.

Lemma distinct_id (l : list jstring) :
  forall seen, NoDup l -> (forall x, x ∈ l -> x ∉ seen) -> distinct seen l = l.
Proof.
  induction l as [|x l IH]; intros seen Hnd Hs; [reflexivity|].
  apply NoDup_cons in Hnd as [Hx Hnd]. cbn [distinct].
  destruct (existsb (eqs x) seen) eqn:E.
  - apply existsb_eqs in E. exfalso. apply (Hs x); [constructor|exact E].
  - f_equal. apply IH; [exact Hnd|].
    intros y Hy Hin. apply elem_of_cons in Hin as [->|Hin]; [contradiction|].
    apply (Hs y); [now constructor|exact Hin].
Qed.

Lemma sorted_unique (l1 : list jstring) :
  forall l2,
    StronglySorted (localeLe P) l1 -> StronglySorted (localeLe P) l2 ->
    NoDup l1 -> NoDup l2 -> (forall x, x ∈ l1 <-> x ∈ l2) ->
    (forall x y, x ∈ l1 -> y ∈ l1 ->
       collationKey P x = collationKey P y -> x = y) ->
    l1 = l2.
Proof.
  induction l1 as [|x l1 IH]; intros l2 Hs1 Hs2 Hn1 Hn2 Hsame Hinj.
  - destruct l2 as [|y l2]; [reflexivity|].
    exfalso. apply (not_elem_of_nil y). apply Hsame. constructor.
  - destruct l2 as [|y l2].
    { exfalso. apply (not_elem_of_nil x). apply Hsame. constructor. }
    apply StronglySorted_inv in Hs1 as [Hs1 Hx].
    apply StronglySorted_inv in Hs2 as [Hs2 Hy].
    apply NoDup_cons in Hn1 as [Hx1 Hn1]. apply NoDup_cons in Hn2 as [Hy2 Hn2].
    rewrite List.Forall_forall in Hx, Hy.
    assert (Hxy : x = y).
    { assert (H1 : y ∈ x :: l1) by (apply Hsame; constructor).
      assert (H2 : x ∈ y :: l2) by (apply Hsame; constructor).
      apply elem_of_cons in H1 as [H1|H1]; [now symmetry|].
      apply elem_of_cons in H2 as [H2|H2]; [exact H2|].
      apply Hinj; [constructor|now constructor|].
      apply localeLe_antisym.
      - apply Hx. now apply list_elem_of_In.
      - apply Hy. now apply list_elem_of_In. }
    subst y. f_equal. apply IH; auto.
    + intros z. split; intros Hz.
      * assert (H : z ∈ x :: l2) by (apply Hsame; now constructor).
        apply elem_of_cons in H as [->|H]; [contradiction|exact H].
      * assert (H : z ∈ x :: l1) by (apply Hsame; now constructor).
        apply elem_of_cons in H as [->|H]; [contradiction|exact H].
    + intros a b Ha Hb. apply Hinj; now constructor.
Qed.

Lemma sortDistinct_strongly (values : list jstring) :
  StronglySorted (localeLe P) (sortDistinct P values).
Proof.
  apply Sorted_StronglySorted; [|apply sortDistinct_sorted].
  intros a b c. apply localeLe_trans.
Qed.

(** X16.  Sorting twice changes nothing: [sortDistinct] leaves a list
    as it is when the list is sorted and without duplicates, so it
    leaves its own result as it is. *)
Theorem sortDistinct_idempotent (values : list jstring) :
  (Sorted (localeLe P) values -> NoDup values -> sortDistinct P values = values) /\
  sortDistinct P (sortDistinct P values) = sortDistinct P values.
Proof.
  assert (H : forall l, Sorted (localeLe P) l -> NoDup l -> sortDistinct P l = l).
  { intros l Hs Hn. unfold sortDistinct.
    rewrite distinct_id; [now apply sortWith_sorted_id|exact Hn|].
    intros x _. apply not_elem_of_nil. }
  split; [apply H|].
  apply H; [apply sortDistinct_sorted|apply sortDistinct_NoDup].
Qed.

End WithPlatform.

(** X17.  When the order of the values matters: two lists with the
    same values are sorted by [sortDistinct] into the same list if no
    two of the values have the same collation key.  Values with the same
    key (two names that differ by case) stay in the order in which they
    come, so the result then depends on the order of the input. *)
Theorem sortDistinct_order :
  (forall (P : Platform) (l1 l2 : list jstring),
     (forall x, x ∈ l1 <-> x ∈ l2) ->
     (forall x y, x ∈ l1 -> y ∈ l1 ->
        collationKey P x = collationKey P y -> x = y) ->
     sortDistinct P l1 = sortDistinct P l2) /\
  (let P := SamplePlatform.platform [] (fun _ => []) in
   sortDistinct P [str "readme"; str "README"] = [str "readme"; str "README"] /\
   sortDistinct P [str "README"; str "readme"] = [str "README"; str "readme"]).
Proof.
  split; [|split; vm_compute; reflexivity].
  intros P l1 l2 Hsame Hinj.
  apply (sorted_unique P); try apply sortDistinct_strongly;
    try apply sortDistinct_NoDup.
  - intros x. rewrite !sortDistinct_elem. apply Hsame.
  - intros x y Hx Hy. apply Hinj; now apply (sortDistinct_elem P).
Qed.

Lemma sortDistinct_order_witness :
  let P := SamplePlatform.platform [] (fun _ => []) in
  sortDistinct P [str "b"; str "a"; str "c"; str "a"]
  = sortDistinct P [str "c"; str "b"; str "a"].
Proof.
  cbv zeta.
  apply (proj1 sortDistinct_order (SamplePlatform.platform [] (fun _ => []))).
  - intros x. rewrite !elem_of_cons, !elem_of_nil. tauto.
  - intros x y Hx Hy.
    repeat (apply elem_of_cons in Hx as [->|Hx]);
      repeat (apply elem_of_cons in Hy as [->|Hy]);
      try (now apply elem_of_nil in Hx); try (now apply elem_of_nil in Hy);
      vm_compute; congruence.
Defined.

End SortLaws.

(** ** More on the scans of Grep *)

Module ScanLaws.
Import JS JSFacts NodePath Tools Files GrepSpec GrepFacts.

(** *** The lines of the stream *)

(** The line ending that [lineEndingChars] counts. *)
Definition lineEnding (chars : nat) : jstring :=
  match chars with
  | 0%nat => []
  | 1%nat => [LF]
  | _ => [CR; LF]
  end.

(** A line of the stream with its line ending. *)
Definition restored (y : LineYield) : jstring :=
  line y ++ lineEnding (lineEndingChars y).

Lemma terminated_restored (piece : jstring) :
  (terminated piece).1 ++ lineEnding (terminated piece).2 = piece ++ [LF].
Proof.
  unfold terminated. destruct (endsWith piece [CR]) eqn:E; [|reflexivity].
  apply GitPathFacts.endsWith_one in E as [r ->]. cbn [fst snd lineEnding].
  rewrite length_app. cbn [length].
  replace (length r + 1 - 1)%nat with (length r) by lia.
  rewrite take_app_length, <- app_assoc. reflexivity.
Qed.

Lemma terminated_no_feed (piece : jstring) :
  LF ∉ piece -> LF ∉ (terminated piece).1.
Proof.
  unfold terminated. destruct (endsWith piece [CR]); [|auto].
  cbn [fst]. intros H Hin. apply H.
  rewrite <- (take_drop (length piece - 1) piece). apply elem_of_app. now left.
Qed.

Lemma scanLines_restored (text : jstring) :
  forall current,
    flat_map (fun l => l.1 ++ lineEnding l.2) (scanLines text current)
    = current ++ text.
Proof.
  induction text as [|c rest IH]; intros current; cbn [scanLines].
  - destruct (0 <? length current)%nat eqn:E; cbn.
    + now rewrite !app_nil_r.
    + apply Nat.ltb_ge in E. destruct current; [reflexivity|cbn in E; lia].
  - destruct (c =? LF) eqn:E.
    + apply N.eqb_eq in E as ->. cbn [flat_map].
      rewrite terminated_restored, IH, <- app_assoc. reflexivity.
    + rewrite IH, <- app_assoc. reflexivity.
Qed.

Lemma scanLines_no_feed_in_lines (text : jstring) :
  forall current, LF ∉ current ->
    Forall (fun l => LF ∉ l.1) (scanLines text current).
Proof.
  induction text as [|c rest IH]; intros current Hc; cbn [scanLines].
  - destruct (0 <? length current)%nat; repeat constructor. exact Hc.
  - destruct (c =? LF) eqn:E.
    + constructor; [now apply terminated_no_feed|].
      apply IH, not_elem_of_nil.
    + apply IH. intros H. apply elem_of_app in H as [H|H]; [contradiction|].
      apply list_elem_of_singleton in H. subst. now rewrite N.eqb_refl in E.
Qed.

Section WithPlatform.
Context (P : Platform).

(** X18.  The stream of lines loses nothing: the lines that
    [streamFileLines] yields, each followed by its line ending (nothing,
    a line feed, or a carriage return and a line feed, as
    [lineEndingChars] counts 0, 1 or 2), make up the content of the file
    again; no line holds a line feed; and the lines do not depend on how
    the content comes in chunks. *)
Theorem streamFileLines_restores (filePath : jstring) (encoding : SupportedEncoding) :
  flat_map restored (streamFileLines P filePath encoding)
    = readFile P filePath encoding /\
  Forall (fun y => LF ∉ line y) (streamFileLines P filePath encoding) /\
  (forall chunks,
     streamLoop P encoding chunks [] = streamLoop P encoding [concat chunks] []).
Proof.
  rewrite streamFileLines_textLines. unfold textLines. split; [|split].
  - rewrite flat_map_concat_map, map_map, <- flat_map_concat_map.
    apply (scanLines_restored _ []).
  - apply Forall_map. apply scanLines_no_feed_in_lines, not_elem_of_nil.
  - intros chunks. rewrite !streamLoop_spec by apply not_elem_of_nil.
    cbn [concat]. now rewrite app_nil_r.
Qed.

End WithPlatform.

(** *** The flags of the regular expression *)

Lemma distinctFlags_elem (flags : jstring) :
  forall seen c, c ∈ distinctFlags seen flags <-> c ∈ flags /\ c ∉ seen.
Proof.
  induction flags as [|f rest IH]; intros seen c; cbn [distinctFlags].
  - split; [intros H; inversion H|intros [H _]; inversion H].
  - assert (Hex : existsb (N.eqb f) seen = true <-> f ∈ seen).
    { rewrite existsb_exists. split.
      - intros (x & Hx & E). apply N.eqb_eq in E as ->. now apply list_elem_of_In.
      - intros H. exists f. split; [now apply list_elem_of_In|apply N.eqb_refl]. }
    destruct (existsb (N.eqb f) seen) eqn:E.
    + assert (Hf : f ∈ seen) by (now apply Hex).
      rewrite IH, elem_of_cons. split; [tauto|].
      intros [[->|H1] H2]; [contradiction|auto].
    + assert (Hf : f ∉ seen) by (intros H; apply Hex in H; congruence).
      rewrite !elem_of_cons, IH, elem_of_cons. split.
      * intros [->|[H1 H2]]; [auto|]. split; [auto|]. intros H; apply H2; auto.
      * intros [[->|H1] H2]; [auto|].
        destruct (decide (c = f)) as [->|Hne]; [auto|].
        right. split; [auto|]. intros [?|?]; auto.
Qed.

Lemma distinctFlags_NoDup (flags : jstring) :
  forall seen, NoDup (distinctFlags seen flags).
Proof.
  induction flags as [|f rest IH]; intros seen; cbn [distinctFlags].
  - constructor.
  - destruct (existsb (N.eqb f) seen); [apply IH|].
    constructor; [|apply IH]. rewrite distinctFlags_elem.
    intros [_ H]. apply H. constructor.
Qed.

Lemma finalFlagsOf_elem (baseFlags : jstring) (c : N) :
  c ∈ finalFlagsOf baseFlags <-> c ∈ baseFlags \/ c = chr "g".
Proof.
  unfold finalFlagsOf. cbv zeta.
  assert (Hd : forall x, x ∈ distinctFlags [] baseFlags <-> x ∈ baseFlags).
  { intros x. rewrite distinctFlags_elem. split; [tauto|].
    intros H. split; [exact H|apply not_elem_of_nil]. }
  destruct (existsb (N.eqb (chr "g")) (distinctFlags [] baseFlags)) eqn:E.
  - rewrite Hd. split; [auto|]. intros [H| ->]; [exact H|].
    apply Hd. apply existsb_exists in E as (x & Hx & Ex).
    apply N.eqb_eq in Ex as <-. now apply list_elem_of_In.
  - rewrite elem_of_app, Hd, list_elem_of_singleton. tauto.
Qed.

(** In [l], [x] occurs before the first occurrence of [y]. *)
Definition firstBefore (x y : N) (l : jstring) : Prop :=
  exists pre post, l = pre ++ y :: post /\ x ∈ pre /\ y ∉ pre.

Lemma firstBefore_cons (f x y : N) (l : jstring) :
  y <> f -> firstBefore x y l -> firstBefore x y (f :: l).
Proof.
  intros Hy (pre & post & -> & Hx & Hn). exists (f :: pre), post.
  split; [reflexivity|]. split; [now constructor|].
  intros H. apply elem_of_cons in H as [H|H]; auto.
Qed.

Lemma distinctFlags_order (flags : jstring) :
  forall seen i j x y,
    distinctFlags seen flags !! i = Some x ->
    distinctFlags seen flags !! j = Some y ->
    (i < j)%nat -> firstBefore x y flags.
Proof.
  induction flags as [|f rest IH]; intros seen i j x y; cbn [distinctFlags];
    [now rewrite lookup_nil|].
  assert (Hex : existsb (N.eqb f) seen = true -> f ∈ seen).
  { intros H. apply existsb_exists in H as (z & Hz & E).
    apply N.eqb_eq in E as ->. now apply list_elem_of_In. }
  destruct (existsb (N.eqb f) seen) eqn:E.
  - intros Hi Hj Hlt. apply firstBefore_cons; [|now apply (IH seen i j)].
    intros ->. apply list_elem_of_lookup_2, distinctFlags_elem in Hj as [_ Hj].
    apply Hj. now apply Hex.
  - intros Hi Hj Hlt. destruct j as [|j]; [lia|]. cbn [lookup list_lookup] in Hj.
    assert (Hy : y ∈ rest /\ y <> f).
    { apply list_elem_of_lookup_2, distinctFlags_elem in Hj as [H1 H2].
      split; [exact H1|]. intros ->. apply H2. constructor. }
    destruct Hy as [Hy Hne]. destruct i as [|i].
    + injection Hi as <-.
      apply list_elem_of_split_l in Hy as (pre & post & -> & Hn).
      exists (f :: pre), post. split; [reflexivity|]. split; [constructor|].
      intros H. apply elem_of_cons in H as [H|H]; auto.
    + cbn [lookup list_lookup] in Hi. apply firstBefore_cons; [exact Hne|].
      apply (IH (f :: seen) i j); auto. lia.
Qed.

(** X19.  The flags that Grep compiles with: [finalFlags] holds every
    flag of the caller once, in the order of their first occurrence,
    and [g] once, last when the caller does not give it; so flags that
    pass the check of the input (each of them one of [gimsuyd]) give
    flags that pass it, without the duplicates that would make
    [new RegExp] throw. *)
Theorem finalFlagsOf_spec (baseFlags : jstring) :
  NoDup (finalFlagsOf baseFlags) /\
  (forall c, c ∈ finalFlagsOf baseFlags <-> c ∈ baseFlags \/ c = chr "g") /\
  (forall i j x y,
     finalFlagsOf baseFlags !! i = Some x ->
     finalFlagsOf baseFlags !! j = Some y ->
     (i < j)%nat -> firstBefore x y (baseFlags ++ [chr "g"])) /\
  (flagsAreValid (Some baseFlags) = true ->
   flagsAreValid (Some (finalFlagsOf baseFlags)) = true) /\
  (NoDup baseFlags -> chr "g" ∈ baseFlags -> finalFlagsOf baseFlags = baseFlags).
Proof.
  split; [|split; [apply finalFlagsOf_elem|split; [|split]]].
  2:{ intros i j x y. unfold finalFlagsOf. cbv zeta.
      assert (Hin : forall k z, distinctFlags [] baseFlags !! k = Some z ->
                                z ∈ baseFlags).
      { intros k z Hk. apply list_elem_of_lookup_2, distinctFlags_elem in Hk.
        tauto. }
      assert (Hbase : forall i j x y,
                distinctFlags [] baseFlags !! i = Some x ->
                distinctFlags [] baseFlags !! j = Some y -> (i < j)%nat ->
                firstBefore x y (baseFlags ++ [chr "g"])).
      { intros i' j' x' y' Hi Hj Hlt.
        destruct (distinctFlags_order baseFlags [] i' j' x' y' Hi Hj Hlt)
          as (pre & post & -> & Hx & Hn).
        exists pre, (post ++ [chr "g"]). rewrite <- app_assoc. auto. }
      destruct (existsb (N.eqb (chr "g")) (distinctFlags [] baseFlags)) eqn:E;
        [apply Hbase|].
      intros Hi Hj Hlt.
      destruct (decide (j < length (distinctFlags [] baseFlags))%nat) as [Hjl|Hjl].
      - rewrite lookup_app_l in Hi, Hj by lia. eapply Hbase; eauto.
      - assert (Hjs : j = length (distinctFlags [] baseFlags)).
        { apply lookup_lt_Some in Hj. rewrite length_app in Hj. cbn in Hj. lia. }
        subst j. rewrite lookup_app_l in Hi by lia.
        rewrite lookup_app_r, Nat.sub_diag in Hj by lia. injection Hj as <-.
        exists baseFlags, []. split; [reflexivity|]. split; [eauto|].
        intros Hg.
        assert (Hd : chr "g" ∈ distinctFlags [] baseFlags).
        { apply distinctFlags_elem. split; [exact Hg|apply not_elem_of_nil]. }
        assert (existsb (N.eqb (chr "g")) (distinctFlags [] baseFlags) = true).
        { apply existsb_exists. exists (chr "g").
          split; [now apply list_elem_of_In|apply N.eqb_refl]. }
        congruence. }
  - unfold finalFlagsOf. cbv zeta.
    destruct (existsb (N.eqb (chr "g")) (distinctFlags [] baseFlags)) eqn:E;
      [apply distinctFlags_NoDup|].
    apply NoDup_app. split; [apply distinctFlags_NoDup|].
    split; [|apply NoDup_singleton].
    intros x Hx Hg. apply list_elem_of_singleton in Hg as ->.
    assert (H : existsb (N.eqb (chr "g")) (distinctFlags [] baseFlags) = true).
    { apply existsb_exists. exists (chr "g").
      split; [now apply list_elem_of_In|apply N.eqb_refl]. }
    congruence.
  - unfold flagsAreValid. rewrite !forallb_forall. intros H c Hc.
    apply list_elem_of_In, finalFlagsOf_elem in Hc as [Hc| ->];
      [apply H; now apply list_elem_of_In|reflexivity].
  - intros Hnd Hg. unfold finalFlagsOf. cbv zeta.
    assert (Hid : forall fl seen,
              NoDup fl -> (forall x, x ∈ fl -> x ∉ seen) ->
              distinctFlags seen fl = fl).
    { induction fl as [|f rest IH]; intros seen Hn Hs; [reflexivity|].
      apply NoDup_cons in Hn as [Hf Hn]. cbn [distinctFlags].
      destruct (existsb (N.eqb f) seen) eqn:E.
      - exfalso. apply existsb_exists in E as (x & Hx & Ex).
        apply N.eqb_eq in Ex as <-. apply (Hs f); [constructor|].
        now apply list_elem_of_In.
      - f_equal. apply IH; [exact Hn|].
        intros y Hy Hin. apply elem_of_cons in Hin as [->|Hin]; [contradiction|].
        apply (Hs y); [now constructor|exact Hin]. }
    rewrite Hid by (auto; intros x _; apply not_elem_of_nil).
    replace (existsb (N.eqb (chr "g")) baseFlags) with true; [reflexivity|].
    symmetry. apply existsb_exists. exists (chr "g").
    split; [now apply list_elem_of_In|apply N.eqb_refl].
Qed.

(** *** The index of the lines *)

(** The number of line feeds of a string. *)
Definition lineFeeds (s : jstring) : nat :=
  length (List.filter (fun c => c =? LF) s).

Lemma lineFeeds_cons (c : N) (s : jstring) :
  lineFeeds (c :: s) = if c =? LF then S (lineFeeds s) else lineFeeds s.
Proof. unfold lineFeeds. cbn [List.filter]. now destruct (c =? LF). Qed.

Lemma lineFeeds_take_le (s : jstring) :
  forall n, (lineFeeds (take n s) <= lineFeeds s)%nat.
Proof.
  induction s as [|c s IH]; intros [|n]; cbn [take]; try (unfold lineFeeds; cbn; lia).
  rewrite !lineFeeds_cons. specialize (IH n). destruct (c =? LF); lia.
Qed.

Section LineIndex.
Context (P : Platform) (encoding : SupportedEncoding).

(** The bytes of a string when each code unit is measured alone, as
    [buildLineIndex] adds them up. *)
Definition unitBytes (s : jstring) : nat :=
  foldr (fun c total => byteLength P [c] encoding + total)%nat 0%nat s.

Lemma lineStarts_length (text : jstring) :
  forall i b, length (lineStarts P encoding text i b) = lineFeeds text.
Proof.
  induction text as [|c r IH]; intros i b; [reflexivity|].
  cbn [lineStarts]. rewrite lineFeeds_cons.
  destruct (c =? LF); cbn [length]; now rewrite IH.
Qed.

Lemma offsets_ge (text : jstring) (i b j v : nat) :
  (i :: map fst (lineStarts P encoding text i b)) !! j = Some v -> (i <= v)%nat.
Proof.
  destruct j as [|j]; cbn; [intros [= <-]; lia|]. intros H.
  destruct (lineStarts_above P encoding text i b) as [Ha _].
  rewrite List.Forall_forall in Ha.
  assert (Hin : In v (map fst (lineStarts P encoding text i b)))
    by (apply list_elem_of_In; eapply list_elem_of_lookup_2; exact H).
  specialize (Ha v Hin). lia.
Qed.

(** An offset of the index is at most [off] exactly when at most as
    many line feeds come before it as before [off]. *)
Lemma offsets_le (text : jstring) :
  forall i b off j v,
    (i :: map fst (lineStarts P encoding text i b)) !! j = Some v ->
    ((v <= i + off)%nat <-> (j <= lineFeeds (take off text))%nat).
Proof.
  induction text as [|c r IH]; intros i b off j v H.
  - destruct j as [|j]; [|destruct j; discriminate H].
    injection H as <-. rewrite take_nil. unfold lineFeeds. cbn. lia.
  - destruct j as [|j]; [injection H as <-; lia|].
    change ((i :: map fst (lineStarts P encoding (c :: r) i b)) !! S j)
      with (map fst (lineStarts P encoding (c :: r) i b) !! j) in H.
    cbn [lineStarts] in H.
    destruct off as [|off].
    + rewrite take_0. unfold lineFeeds at 1. cbn [List.filter length].
      assert (Hv : (i + 1 <= v)%nat).
      { destruct (c =? LF).
        - exact (offsets_ge r (i + 1) _ j v H).
        - exact (offsets_ge r (i + 1) _ (S j) v H). }
      lia.
    + cbn [take]. rewrite lineFeeds_cons. destruct (c =? LF).
      * specialize (IH (i + 1)%nat _ off j v H). lia.
      * specialize (IH (i + 1)%nat _ off (S j) v H). lia.
Qed.

(** What an offset of the index is: the place after a line feed (or
    the start), with as many line feeds before it as its rank; and the
    byte offset beside it is the sum of the bytes of the code units
    before it. *)
Lemma offsets_meaning (text : jstring) :
  forall i b j v,
    (i :: map fst (lineStarts P encoding text i b)) !! j = Some v ->
    (i <= v)%nat /\ lineFeeds (take (v - i) text) = j /\
    (v = i \/ text !! (v - i - 1)%nat = Some LF) /\
    (b :: map snd (lineStarts P encoding text i b)) !! j
    = Some (b + unitBytes (take (v - i) text))%nat.
Proof.
  induction text as [|c r IH]; intros i b j v H.
  - destruct j as [|j]; [|destruct j; discriminate H].
    injection H as <-. rewrite take_nil. cbn. rewrite Nat.add_0_r. auto.
  - destruct j as [|j].
    { injection H as <-. rewrite Nat.sub_diag, take_0. cbn.
      rewrite Nat.add_0_r. auto. }
    change ((i :: map fst (lineStarts P encoding (c :: r) i b)) !! S j)
      with (map fst (lineStarts P encoding (c :: r) i b) !! j) in H.
    change ((b :: map snd (lineStarts P encoding (c :: r) i b)) !! S j)
      with (map snd (lineStarts P encoding (c :: r) i b) !! j).
    cbn [lineStarts] in H |- *.
    set (b' := (b + byteLength P [c] encoding)%nat) in *.
    destruct (c =? LF) eqn:E.
    + destruct (IH (i + 1)%nat b' j v H) as (Hge & Hcount & Hat & Hbytes).
      assert (Hv : (v - i = S (v - (i + 1)))%nat) by lia.
      rewrite Hv. cbn [take]. rewrite lineFeeds_cons, E, Hcount.
      replace (S (v - (i + 1)) - 1)%nat with (v - (i + 1))%nat by lia.
      split; [lia|]. split; [reflexivity|]. split.
      * right. destruct (decide (v - (i + 1) = 0)%nat) as [H0|Hpos].
        -- rewrite H0. apply N.eqb_eq in E. now subst.
        -- destruct Hat as [->|Hat]; [lia|].
           replace (v - (i + 1))%nat with (S (v - (i + 1) - 1)) at 1 by lia.
           exact Hat.
      * change (map snd (((i + 1)%nat, b') :: lineStarts P encoding r (i + 1) b'))
          with (b' :: map snd (lineStarts P encoding r (i + 1) b')).
        rewrite Hbytes. f_equal. unfold b', unitBytes. cbn [foldr]. lia.
    + destruct (IH (i + 1)%nat b' (S j) v H) as (Hge & Hcount & Hat & Hbytes).
      assert (Hpos : (v - (i + 1) <> 0)%nat).
      { intros H0. rewrite H0, take_0 in Hcount. discriminate Hcount. }
      assert (Hv : (v - i = S (v - (i + 1)))%nat) by lia.
      rewrite Hv. cbn [take]. rewrite lineFeeds_cons, E, Hcount.
      replace (S (v - (i + 1)) - 1)%nat with (v - (i + 1))%nat by lia.
      split; [lia|]. split; [reflexivity|]. split.
      * right. destruct Hat as [->|Hat]; [lia|].
        replace (v - (i + 1))%nat with (S (v - (i + 1) - 1)) at 1 by lia.
        exact Hat.
      * change ((b' :: map snd (lineStarts P encoding r (i + 1) b')) !! S j)
          with (map snd (lineStarts P encoding r (i + 1) b') !! j) in Hbytes.
        rewrite Hbytes. f_equal. unfold b', unitBytes. cbn [foldr]. lia.
Qed.

(** X20.  The search in the index of the lines: for every content and
    every offset, [findLineStartIndex] on the index that
    [buildLineIndex] makes returns the number of the line of the offset,
    counted from 1 (one more than the line feeds before the offset), the
    offset at which this line starts (0 or the place after a line feed,
    with no line feed from there up to the offset), and as its byte
    offset the sum of the byte lengths of the code units before that
    start, each measured alone. *)
Theorem findLineStartIndex_counts (content : jstring) (off : nat) :
  exists start,
    findLineStartIndex (buildLineIndex P content encoding) off
    = (S (lineFeeds (take off content)), start,
       unitBytes (take start content)) /\
    (start <= off)%nat /\
    lineFeeds (take start content) = lineFeeds (take off content) /\
    (start = 0%nat \/ content !! (start - 1)%nat = Some LF).
Proof.
  set (k := lineFeeds (take off content)).
  set (lineIndex := buildLineIndex P content encoding).
  assert (Hlen : length (charOffsets lineIndex) = S (lineFeeds content)).
  { unfold lineIndex, buildLineIndex. cbn. now rewrite length_map, lineStarts_length. }
  assert (Hk : (k < length (charOffsets lineIndex))%nat).
  { rewrite Hlen. pose proof (lineFeeds_take_le content off). unfold k. lia. }
  destruct (lookup_lt_is_Some_2 _ _ Hk) as [start Hs].
  assert (Hs' : (0%nat :: map fst (lineStarts P encoding content 0 0)) !! k
                = Some start) by exact Hs.
  destruct (offsets_meaning content 0 0 k start Hs') as (_ & Hcount & Hat & Hbytes).
  replace (start - 0)%nat with start in * by lia. cbn [Nat.add] in Hbytes.
  pose proof (offsets_le content 0 0 off k start Hs') as Hle. cbn [Nat.add] in Hle.
  assert (Hstart : (start <= off)%nat) by (apply Hle; unfold k; lia).
  exists start. split; [|split; [exact Hstart|split; [exact Hcount|]]].
  - unfold findLineStartIndex.
    rewrite (findLineLoop_correct lineIndex off k start
               (charOffsets_sorted P content encoding) Hs Hstart) with
      (n := Z.to_nat (Z.of_nat (length (charOffsets lineIndex)) - 1 - 0 + 1));
      try lia.
    + f_equal. change (byteOffsets lineIndex)
        with (0%nat :: map snd (lineStarts P encoding content 0 0)).
      now rewrite Hbytes.
    + intros v Hv.
      pose proof (offsets_le content 0 0 off (S k) v Hv) as Hle'.
      cbn [Nat.add] in Hle'. fold k in Hle'. lia.
  - exact Hat.
Qed.

End LineIndex.

(** *** The context of a match *)

Lemma slice_nat (s : jstring) (b e : Z) :
  (0 <= b)%Z -> (0 <= e)%Z ->
  slice s b e
  = take (Nat.min (Z.to_nat e) (length s) - Nat.min (Z.to_nat b) (length s))
      (drop (Nat.min (Z.to_nat b) (length s)) s).
Proof.
  intros Hb He. unfold slice, clampIndex.
  destruct (b <? 0)%Z eqn:Eb; [apply Z.ltb_lt in Eb; lia|].
  destruct (e <? 0)%Z eqn:Ee; [apply Z.ltb_lt in Ee; lia|]. reflexivity.
Qed.

(** A part of a string, cut in two. *)
Lemma part_split (s : jstring) (from mid to : nat) :
  (from <= mid)%nat -> (mid <= to)%nat ->
  take (to - from) (drop from s)
  = take (mid - from) (drop from s) ++ take (to - mid) (drop mid s).
Proof.
  intros H1 H2.
  replace (to - from)%nat with ((mid - from) + (to - mid))%nat by lia.
  rewrite <- take_take_drop, drop_drop.
  now replace (from + (mid - from))%nat with mid by lia.
Qed.

(** X21.  The context of a match: [buildContextSnippet] returns a line
    of at most 200 characters as it is; its result never has more than
    202 characters (200 of the line and two ellipses); and when the
    match has at most 200 characters and lies in the line, the result
    holds the text of the match. *)
Theorem buildContextSnippet_bounds (line : jstring) (start len : nat) :
  ((length line <= DEFAULT_CONTEXT_CHARS)%nat ->
   buildContextSnippet line start len = line) /\
  (length (buildContextSnippet line start len) <= DEFAULT_CONTEXT_CHARS + 2)%nat /\
  ((len <= DEFAULT_CONTEXT_CHARS)%nat -> (start + len <= length line)%nat ->
   exists before after,
     buildContextSnippet line start len
     = before ++ take len (drop start line) ++ after).
Proof.
  unfold buildContextSnippet, DEFAULT_CONTEXT_CHARS.
  destruct (length line <=? 200)%nat eqn:E.
  { apply Nat.leb_le in E. split; [reflexivity|]. split; [lia|].
    intros _ Hin. exists (take start line), (drop (start + len) line).
    rewrite <- (take_drop start line) at 1. f_equal.
    rewrite <- (take_drop len (drop start line)) at 1. f_equal.
    rewrite drop_drop. reflexivity. }
  apply Nat.leb_gt in E. cbv zeta.
  set (safeLength := Z.max (Z.of_nat len) 1).
  set (half := ((Z.of_nat 200 - safeLength) / 2)%Z).
  set (prefixStart := Z.max (Z.of_nat start - half) 0).
  set (suffixEnd := Z.min (Z.of_nat start + safeLength + half)
                      (Z.of_nat (length line))).
  assert (Hhalf : (2 * half <= 200 - safeLength /\ 200 - safeLength <= 2 * half + 1)%Z).
  { unfold half. pose proof (Z.div_mod (Z.of_nat 200 - safeLength) 2 ltac:(lia)).
    pose proof (Z.mod_pos_bound (Z.of_nat 200 - safeLength) 2 ltac:(lia)). lia. }
  assert (Hs : (1 <= safeLength)%Z) by (unfold safeLength; lia).
  assert (Hp : (0 <= prefixStart)%Z) by (unfold prefixStart; lia).
  assert (He : (0 <= suffixEnd)%Z) by (unfold suffixEnd; lia).
  rewrite (slice_nat line _ _ Hp He).
  set (from := Nat.min (Z.to_nat prefixStart) (length line)).
  set (to := Nat.min (Z.to_nat suffixEnd) (length line)).
  split; [intros; lia|]. split.
  - rewrite !length_app, length_take, length_drop.
    assert (Hpart : (to - from <= 200)%nat)
      by (unfold to, from, suffixEnd, prefixStart; lia).
    destruct (0 <? prefixStart)%Z, (suffixEnd <? Z.of_nat (length line))%Z;
      unfold ELLIPSIS; cbn [length]; lia.
  - intros Hlen Hin.
    assert (Hfrom : (from <= start)%nat) by (unfold from, prefixStart; lia).
    assert (Hto : (start + len <= to)%nat)
      by (unfold to, suffixEnd, safeLength in *; lia).
    rewrite (part_split line from start to) by lia.
    rewrite (part_split line start (start + len) to) by lia.
    replace (start + len - start)%nat with len by lia.
    match goal with
    | |- exists before after, ?pe ++ (?A ++ ?M ++ ?R) ++ ?se = _ =>
        exists (pe ++ A), (R ++ se)
    end.
    rewrite <- !app_assoc. reflexivity.
Qed.

Lemma buildContextSnippet_bounds_witness :
  (length (buildContextSnippet (concat (replicate 30 (str "0123456789"))) 150 10)
   <= DEFAULT_CONTEXT_CHARS + 2)%nat /\
  exists before after,
    buildContextSnippet (concat (replicate 30 (str "0123456789"))) 150 10
    = before ++ take 10 (drop 150 (concat (replicate 30 (str "0123456789"))))
        ++ after.
Proof.
  destruct (buildContextSnippet_bounds
              (concat (replicate 30 (str "0123456789"))) 150 10) as (_ & H2 & H3).
  split; [exact H2|]. apply H3; vm_compute; lia.
Defined.

(** *** Where the matches are *)

Section Positions.
Context (P : Platform).

(** A match placed in one of the files [searched]: its line and its
    column count from 1, the column is within the offset, and its path
    is the root-relative path of the file. *)
Definition placed (root : jstring) (searched : list jstring) (m : GrepMatch.t)
    : Prop :=
  (1 <= GrepMatch.line m)%nat /\ (1 <= GrepMatch.column m)%nat /\
  (GrepMatch.column m <= GrepMatch.offset m + 1)%nat /\
  exists filePath, filePath ∈ searched /\
    GrepMatch.path m = toRepoRelative P root filePath.

Lemma execLoop_Forall (Q : GrepMatch.t -> Prop)
    (record : nat -> jstring -> GrepMatch.t) (regex : Matcher)
    (input : jstring) (lim : nat) :
  (forall index text, Q (record index text)) ->
  forall (fuel lastIndex : nat) (matches : list GrepMatch.t),
    (lim - length matches <= fuel)%nat -> Forall Q matches ->
    Forall Q (execLoop record regex input lim lastIndex matches).1.
Proof.
  intros Hq. induction fuel as [|fuel IH]; intros lastIndex matches Hfuel Hall;
    rewrite execLoop_step;
    destruct (exec regex input lastIndex) as [[[index text]|] lastIndex'];
    try exact Hall;
    destruct (lim <=? length (matches ++ [record index text]))%nat eqn:E;
    try (apply Forall_app; split; [exact Hall|repeat constructor; apply Hq]).
  - apply Nat.leb_gt in E. rewrite length_app in E. cbn in E. lia.
  - apply IH.
    + apply Nat.leb_gt in E. rewrite length_app in *. cbn in *. lia.
    + apply Forall_app; split; [exact Hall|repeat constructor; apply Hq].
Qed.

Lemma findLineLoop_positive (lineIndex : LineIndex) (off : nat) :
  forall (n : nat) (low high : Z),
    (Z.to_nat (high - low + 1) <= n)%nat -> (0 <= low)%Z ->
    (1 <= (findLineLoop lineIndex off low high).1.1)%nat.
Proof.
  induction n as [|n IH]; intros low high Hn Hlow; rewrite findLineLoop_step;
    (destruct (low <=? high)%Z eqn:E; [apply Z.leb_le in E|cbn; lia]);
    [lia|].
  cbv zeta.
  assert (Hmid : (low <= (low + high) / 2 <= high)%Z)
    by (split; [apply Z.div_le_lower_bound|apply Z.div_le_upper_bound]; lia).
  destruct (_ <=? off)%nat.
  - destruct (_ || _); [cbn; lia|]. apply IH; lia.
  - apply IH; lia.
Qed.

Lemma streamingLoop_Forall (Q : GrepMatch.t -> Prop) (options : FindMatchOptions)
    (filePath : jstring) (regex : Matcher) :
  (forall l n cO bO index text,
     Q (streamingMatch P options filePath l (S n) cO bO index text)) ->
  forall (yields : list LineYield) (lineNumber charOffset byteOffset : nat)
    (matches : list GrepMatch.t),
    Forall Q matches ->
    Forall Q (streamingLoop P options filePath regex yields lineNumber charOffset
                byteOffset matches).1.
Proof.
  intros Hq. induction yields as [|y rest IH];
    intros lineNumber charOffset byteOffset matches Hall; cbn [streamingLoop];
    [exact Hall|].
  destruct (limit options <=? length matches)%nat; [exact Hall|].
  pose proof (execLoop_Forall Q
    (streamingMatch P options filePath (line y) (lineNumber + 1) charOffset
       byteOffset) regex (line y) (limit options)
    ltac:(intros; rewrite Nat.add_1_r; apply Hq) _ 0 matches (Nat.le_refl _) Hall)
    as Hline.
  destruct (execLoop _ regex (line y) (limit options) 0 matches)
    as [matches' hit]. cbn [fst] in Hline.
  destruct hit; [exact Hline|]. now apply IH.
Qed.

Lemma findMatches_placed (options : FindMatchOptions) (useFullScan : bool)
    (searched : list jstring) (filePath : jstring) (matches : list GrepMatch.t)
    (r : list GrepMatch.t * bool) :
  filePath ∈ searched ->
  Forall (placed (repoRoot options) searched) matches ->
  (if useFullScan then findMatchesFullScan P options filePath matches
   else findMatchesStreaming P options filePath matches) = Ok r ->
  Forall (placed (repoRoot options) searched) r.1.
Proof.
  intros Hin Hall. unfold findMatchesFullScan, findMatchesStreaming.
  destruct useFullScan;
    destruct (newRegExp P (pattern options) (flags options)) as [regex|];
    try discriminate; intros [= <-].
  - apply (execLoop_Forall _ _ _ _ _) with (fuel := (limit options - length matches)%nat);
      [|lia|exact Hall].
    intros index text. unfold fullScanMatch, findLineStartIndex.
    pose proof (findLineLoop_positive
      (buildLineIndex P (readFile P filePath (encoding options)) (encoding options))
      index _ 0 (Z.of_nat (length (charOffsets
        (buildLineIndex P (readFile P filePath (encoding options))
           (encoding options)))) - 1) (Nat.le_refl _) ltac:(lia)) as Hpos.
    destruct (findLineLoop _ index 0 _) as [[l s] b]. cbn [fst] in Hpos.
    repeat split; cbn; try lia. exists filePath. auto.
  - apply streamingLoop_Forall; [|exact Hall].
    intros l n cO bO index text. repeat split; cbn; try lia.
    exists filePath. auto.
Qed.

Lemma grepLoop_placed (options : FindMatchOptions) (useFullScan : bool)
    (searched : list jstring) (filesToSearch : list jstring) :
  (forall f, f ∈ filesToSearch -> f ∈ searched) ->
  forall (matches : list GrepMatch.t) (r : list GrepMatch.t * bool),
    Forall (placed (repoRoot options) searched) matches ->
    grepLoop P options useFullScan filesToSearch matches = Ok r ->
    Forall (placed (repoRoot options) searched) r.1.
Proof.
  induction filesToSearch as [|filePath rest IH]; intros Hsub matches r Hall;
    cbn [grepLoop].
  - now intros [= <-].
  - destruct (limit options <=? length matches)%nat; [now intros [= <-]|].
    destruct (if useFullScan then _ else _) as [[matches' hit]|e] eqn:E;
      [|discriminate].
    cbn [mbind result_bind].
    apply findMatches_placed with (searched := searched) in E;
      [|apply Hsub; constructor|exact Hall].
    cbn [fst] in E. destruct hit; [now intros [= <-]|].
    apply IH; [|exact E]. intros f Hf. apply Hsub. now constructor.
Qed.

End Positions.

(** *** The bookkeeping of the streaming scan *)

Lemma lineFeeds_app (a b : jstring) :
  lineFeeds (a ++ b) = (lineFeeds a + lineFeeds b)%nat.
Proof. unfold lineFeeds. now rewrite List.filter_app, length_app. Qed.

Lemma lineFeeds_none (s : jstring) : LF ∉ s -> lineFeeds s = 0%nat.
Proof.
  induction s as [|c s IH]; intros H; [reflexivity|].
  rewrite lineFeeds_cons.
  destruct (c =? LF) eqn:E.
  - apply N.eqb_eq in E as ->. exfalso. apply H. constructor.
  - apply IH. intros Hs. apply H. now constructor.
Qed.

(** The lines as the stream cuts them: no line holds a line feed, and
    each is ended by a line feed, alone or after a carriage return,
    but for the last one, which may be ended by nothing. *)
Fixpoint ended (ls : list (jstring * nat)) : Prop :=
  match ls with
  | [] => True
  | (l, e) :: rest =>
    (LF ∉ l) /\ (e = 1%nat \/ e = 2%nat \/ (e = 0%nat /\ rest = [])) /\ ended rest
  end.

Lemma scanLines_ended (text : jstring) :
  forall current, LF ∉ current -> ended (scanLines text current).
Proof.
  induction text as [|c rest IH]; intros current Hc; cbn [scanLines].
  - destruct (0 <? length current)%nat; [|exact I].
    cbn [ended]. split; [exact Hc|]. split; [|exact I]. right; right. now split.
  - destruct (c =? LF) eqn:E.
    + assert (Ht : LF ∉ (terminated current).1) by (now apply terminated_no_feed).
      destruct (terminated current) as [l e] eqn:Et. cbn [ended]. split; [exact Ht|].
      split; [|apply IH, not_elem_of_nil].
      unfold terminated in Et. destruct (endsWith current [CR]);
        injection Et as <- <-; auto.
    + apply IH. intros H. apply elem_of_app in H as [H|H]; [contradiction|].
      apply list_elem_of_singleton in H. subst. now rewrite N.eqb_refl in E.
Qed.

Section Bookkeeping.
Context (P : Platform) (options : FindMatchOptions) (filePath : jstring)
  (regex : Matcher).

Hypothesis regex_within :
  forall input lastIndex index len,
    regex input lastIndex = Some (index, len) -> (index <= length input)%nat.

(** The match [m] points into [content]: its text stands at its offset,
    its line is one more than the line feeds before the offset, and its
    column counts from the start of that line (the place after the last
    line feed before the offset, or the start of the content). *)
Definition pointed (content : jstring) (m : GrepMatch.t) : Prop :=
  take (length (GrepMatch.matchText m)) (drop (GrepMatch.offset m) content)
    = GrepMatch.matchText m /\
  GrepMatch.line m = S (lineFeeds (take (GrepMatch.offset m) content)) /\
  (1 <= GrepMatch.column m <= GrepMatch.offset m + 1)%nat /\
  ((GrepMatch.offset m + 1 - GrepMatch.column m)%nat = 0%nat \/
   content !! (GrepMatch.offset m + 1 - GrepMatch.column m - 1)%nat = Some LF) /\
  lineFeeds (take (GrepMatch.offset m + 1 - GrepMatch.column m)%nat content)
    = lineFeeds (take (GrepMatch.offset m) content).

Lemma execLoop_found (Q : GrepMatch.t -> Prop)
    (record : nat -> jstring -> GrepMatch.t) (input : jstring) (lim : nat) :
  (forall lastIndex index len,
     regex input lastIndex = Some (index, len) ->
     Q (record index (take len (drop index input)))) ->
  forall (fuel lastIndex : nat) (matches : list GrepMatch.t),
    (lim - length matches <= fuel)%nat -> Forall Q matches ->
    Forall Q (execLoop record regex input lim lastIndex matches).1.
Proof.
  intros Hq.
  assert (Hexec : forall lastIndex index text lastIndex',
            exec regex input lastIndex = (Some (index, text), lastIndex') ->
            Q (record index text)).
  { intros lastIndex index text lastIndex'. unfold exec.
    destruct (length input <? lastIndex)%nat; [discriminate|].
    destruct (regex input lastIndex) as [[i n]|] eqn:E; [|discriminate].
    intros [= <- <- _]. eapply Hq; eauto. }
  induction fuel as [|fuel IH]; intros lastIndex matches Hfuel Hall;
    rewrite execLoop_step;
    destruct (exec regex input lastIndex) as [[[index text]|] lastIndex'] eqn:Ex;
    try exact Hall;
    destruct (lim <=? length (matches ++ [record index text]))%nat eqn:E;
    try (apply Forall_app; split; [exact Hall|repeat constructor; eapply Hexec; eauto]).
  - apply Nat.leb_gt in E. rewrite length_app in E. cbn in E. lia.
  - apply IH.
    + apply Nat.leb_gt in E. rewrite length_app in *. cbn in *. lia.
    + apply Forall_app; split; [exact Hall|repeat constructor; eapply Hexec; eauto].
Qed.

Lemma take_length_take (d : jstring) (len : nat) :
  take (length (take len d)) d = take len d.
Proof.
  rewrite length_take.
  destruct (Nat.le_gt_cases len (length d)).
  - now rewrite Nat.min_l.
  - rewrite Nat.min_r by lia. now rewrite !take_ge by lia.
Qed.

Lemma streamingMatch_pointed (pre l after : jstring) (bO index len : nat) :
  LF ∉ l -> (pre = [] \/ exists p, pre = p ++ [LF]) ->
  (index <= length l)%nat ->
  pointed (pre ++ l ++ after)
    (streamingMatch P options filePath l (lineFeeds pre + 1) (length pre) bO
       index (take len (drop index l))).
Proof.
  intros Hl Hpre Hi. unfold pointed, streamingMatch.
  cbn [GrepMatch.matchText GrepMatch.offset GrepMatch.line GrepMatch.column].
  replace (length pre + index + 1 - (index + 1))%nat with (length pre) by lia.
  assert (Htake : take (length pre + index) (pre ++ l ++ after)
                  = pre ++ take index l).
  { rewrite take_app_add'; [|reflexivity]. f_equal.
    rewrite take_app_le by exact Hi. reflexivity. }
  assert (Hpre' : take (length pre) (pre ++ l ++ after) = pre)
    by (apply take_app_length).
  assert (Hnone : lineFeeds (take index l) = 0%nat).
  { apply lineFeeds_none. intros H. apply Hl.
    rewrite <- (take_drop index l). apply elem_of_app. now left. }
  split; [|split; [|split; [lia|split]]].
  - rewrite drop_app_add'; [|reflexivity].
    rewrite drop_app_le by exact Hi.
    rewrite take_app_le by (rewrite length_take; lia).
    apply take_length_take.
  - rewrite Htake, lineFeeds_app, Hnone. lia.
  - destruct Hpre as [->|[p ->]]; [now left|right].
    rewrite length_app. cbn [length].
    replace (length p + 1 - 1)%nat with (length p) by lia.
    rewrite <- app_assoc. cbn [app]. apply list_lookup_middle. reflexivity.
  - rewrite Hpre', Htake, lineFeeds_app, Hnone. lia.
Qed.

Lemma streamingLoop_pointed (content : jstring) (ls : list (jstring * nat)) :
  forall (pre : jstring) (bO : nat) (matches : list GrepMatch.t),
    content = pre ++ flat_map (fun l => l.1 ++ lineEnding l.2) ls ->
    ended ls -> (pre = [] \/ exists p, pre = p ++ [LF]) ->
    Forall (pointed content) matches ->
    Forall (pointed content)
      (streamingLoop P options filePath regex
         (map (yieldOf P (encoding options)) ls)
         (lineFeeds pre) (length pre) bO matches).1.
Proof.
  induction ls as [|[l e] rest IH]; intros pre bO matches Hc Hend Hpre Hall;
    cbn [map streamingLoop]; [exact Hall|].
  destruct (limit options <=? length matches)%nat; [exact Hall|].
  destruct Hend as (Hl & He & Hrest). cbn [yieldOf line fst snd lineEndingChars].
  cbn [flat_map fst snd] in Hc. rewrite <- app_assoc in Hc.
  pose proof (execLoop_found (pointed content)
    (streamingMatch P options filePath l (lineFeeds pre + 1) (length pre) bO)
    l (limit options)) as Hline.
  specialize (Hline ltac:(intros lastIndex index len Hm; rewrite Hc;
                          apply streamingMatch_pointed; eauto)).
  specialize (Hline _ 0%nat matches (Nat.le_refl _) Hall).
  destruct (execLoop _ regex l (limit options) 0 matches) as [matches' hit].
  cbn [fst] in Hline. destruct hit; [exact Hline|].
  destruct He as [->|[->|[-> ->]]]; [| |exact Hline].
  - replace (lineFeeds pre + 1)%nat with (lineFeeds (pre ++ l ++ [LF])).
    2:{ rewrite !lineFeeds_app, (lineFeeds_none l Hl). reflexivity. }
    replace (length pre + (length l + 1))%nat with (length (pre ++ l ++ [LF])).
    2:{ rewrite !length_app. reflexivity. }
    apply IH; auto.
    + rewrite Hc. cbn [lineEnding]. now rewrite <- !app_assoc.
    + right. exists (pre ++ l). now rewrite <- app_assoc.
  - replace (lineFeeds pre + 1)%nat with (lineFeeds (pre ++ l ++ [CR; LF])).
    2:{ rewrite !lineFeeds_app, (lineFeeds_none l Hl). reflexivity. }
    replace (length pre + (length l + 2))%nat with (length (pre ++ l ++ [CR; LF])).
    2:{ rewrite !length_app. reflexivity. }
    apply IH; auto.
    + rewrite Hc. cbn [lineEnding]. now rewrite <- !app_assoc.
    + right. exists (pre ++ l ++ [CR]). now rewrite <- !app_assoc.
Qed.

(** X23.  The bookkeeping of the streaming scan is exact: with a
    regular expression whose matches start within the input, every
    match that [findMatchesStreaming] adds points into the content of
    the file.  Its offset is the place of its text in the content, its
    line is one more than the line feeds before it, and its column
    counts from the start of that line, whether the lines end with a
    line feed or with a carriage return and a line feed. *)
Theorem findMatchesStreaming_points (matches found : list GrepMatch.t) (hit : bool) :
  newRegExp P (pattern options) (flags options) = Some regex ->
  Forall (pointed (readFile P filePath (encoding options))) matches ->
  findMatchesStreaming P options filePath matches = Ok (found, hit) ->
  Forall (pointed (readFile P filePath (encoding options))) found.
Proof.
  intros Hre Hall. unfold findMatchesStreaming. rewrite Hre.
  rewrite streamFileLines_textLines. intros [= Hrun].
  pose proof (streamingLoop_pointed (readFile P filePath (encoding options))
                (textLines (readFile P filePath (encoding options)))
                [] 0 matches) as Hp.
  change (lineFeeds []) with 0%nat in Hp. cbn [length] in Hp.
  rewrite Hrun in Hp. apply Hp; auto.
  - unfold textLines. now rewrite scanLines_restored.
  - apply scanLines_ended, not_elem_of_nil.
Qed.

End Bookkeeping.

Lemma findLiteral_within (literal : jstring) (s : jstring) :
  forall from i j,
    SamplePlatform.findLiteral literal s from i = Some j ->
    (j <= i + length s)%nat.
Proof.
  induction s as [|c s IH]; intros from i j; cbn [SamplePlatform.findLiteral].
  - destruct ((from <=? i)%nat && startsWith [] literal); [|discriminate].
    intros [= <-]. lia.
  - destruct ((from <=? i)%nat && startsWith (c :: s) literal).
    + intros [= <-]. lia.
    + intros H. apply IH in H. cbn [length]. lia.
Qed.

Lemma findMatchesStreaming_points_witness :
  let P := SamplePlatform.platform []
             (fun _ => [str "ab"; str "a"; [CR; LF]; str "xa"; [LF]; str "ca"]) in
  let options :=
    {| repoRoot := str "/work"; pattern := str "a"; flags := str "g";
       encoding := utf8; limit := 10 |} in
  exists found,
    findMatchesStreaming P options (str "/work/f") [] = Ok (found, false) /\
    length found = 4%nat /\
    Forall (pointed (readFile P (str "/work/f") utf8)) found.
Proof.
  cbv zeta. eexists. split; [vm_compute; reflexivity|]. split; [reflexivity|].
  eapply (findMatchesStreaming_points
            (SamplePlatform.platform []
               (fun _ => [str "ab"; str "a"; [CR; LF]; str "xa"; [LF]; str "ca"]))
            {| repoRoot := str "/work"; pattern := str "a"; flags := str "g";
               encoding := utf8; limit := 10 |}
            (str "/work/f") (SamplePlatform.literalMatcher (str "a"))).
  - intros input lastIndex index len. unfold SamplePlatform.literalMatcher.
    destruct (SamplePlatform.findLiteral _ input lastIndex 0) as [j|] eqn:E;
      [|discriminate].
    cbn. intros [= <- _]. apply findLiteral_within in E. lia.
  - reflexivity.
  - constructor.
  - vm_compute. reflexivity.
Defined.

End ScanLaws.

(** ** The Read tool and the walk *)

Module FilesLaws.
Import JS JSFacts NodePath Tools Files PathFacts GlobFacts SandboxLaws ScanLaws.

Section WithPlatform.
Context (P : Platform) (storage : Storage).

Local Abbreviation cwd := (processCwd P).

(** X24.  What the Read tool reads: when it returns, the path it was
    given has passed [resolveWithinRepo], so that the file lies inside
    the resolved root; the file is a regular file and not a symbolic
    link; its size is at most [maxBytes] (200000 by default); the
    content is that of this file, and the path returned is its
    root-relative path, which leads back to the file and, when trimming
    leaves it as it is, reads the same again. *)
Theorem readTool_reads (repoRoot relativePath : jstring)
    (encoding : SupportedEncoding) (maxBytes : option nat) (r : ReadResult) :
  readTool P storage repoRoot relativePath encoding maxBytes = Done r ->
  exists absolute stats size,
    resolveWithinRepo P repoRoot relativePath = Ok absolute /\
    inside (resolve cwd [repoRoot]) absolute /\
    lstat P absolute = Some stats /\
    isSymbolicLink stats = false /\ isFile stats = true /\
    statSize storage absolute = Some size /\
    (size <= default DEFAULT_MAX_READ_BYTES maxBytes)%nat /\
    readContent r = readFile P absolute encoding /\
    readPath r = toRepoRelative P repoRoot absolute /\
    resolve cwd [repoRoot; readPath r] = absolute /\
    (trim (readPath r) = readPath r ->
     readTool P storage repoRoot (readPath r) encoding maxBytes = Done r).
Proof.
  unfold readTool.
  destruct (resolveWithinRepo P repoRoot relativePath) as [absolute|e] eqn:Hok;
    [|discriminate].
  unfold assertIsReadableFile, readFileWithLimit.
  destruct (lstat P absolute) as [stats|] eqn:El; [|discriminate].
  destruct (isSymbolicLink stats) eqn:Es; [discriminate|].
  destruct (isFile stats) eqn:Ef; [|discriminate].
  cbn [negb mbind attempt_bind].
  destruct (statSize storage absolute) as [size|] eqn:Ez; [|discriminate].
  destruct (default DEFAULT_MAX_READ_BYTES maxBytes <? size)%nat eqn:Elim;
    [discriminate|].
  cbn [mbind attempt_bind mret attempt_ret]. intros [= <-]. cbn [readPath readContent].
  apply Nat.ltb_ge in Elim.
  destruct (resolveWithinRepo_ok P _ _ _ Hok) as (_ & _ & rest & Hb & _).
  exists absolute, stats, size.
  repeat (split; [first [reflexivity|assumption|now exists rest]|]).
  split; [exact (resolve_toRepoRelative P _ _ _ Hok)|].
  intros Ht. rewrite (resolveWithinRepo_again P _ _ _ Hok Ht), El, Es, Ef.
  cbn [negb mbind attempt_bind]. rewrite Ez.
  replace (default DEFAULT_MAX_READ_BYTES maxBytes <? size)%nat with false
    by (symmetry; now apply Nat.ltb_ge).
  reflexivity.
Qed.

(** *** The walk *)

(** A path that the walk keeps: resolved, a regular file and no
    symbolic link, outside of the ignored directories. *)
Definition kept (repoRoot f : jstring) : Prop :=
  resolve cwd [f] = f /\
  exists stats, lstat P f = Some stats /\
    isSymbolicLink stats = false /\ isDirectory stats = false /\
    isFile stats = true /\
    includesIgnoredDirectory (toRepoRelative P repoRoot f) = false.

Lemma pushed_queue (resolved : jstring) (contents queue : list jstring) (c : jstring) :
  c ∈ queue ->
  c ∈ fold_left (fun q name => pathJoin resolved name :: q) contents queue.
Proof.
  revert queue; induction contents as [|name rest IH]; intros queue H; [exact H|].
  cbn [fold_left]. apply IH. now constructor.
Qed.

(** What holds when the loop ends: the files collected so far are in
    the result, so is every path of the queue that the walk keeps, and
    the result holds nothing else than files that the walk keeps. *)
Lemma collectLoop_spec (repoRoot : jstring) (fuel : nat) :
  forall (queue files visited out : list jstring),
    collectLoop P storage fuel repoRoot queue files visited = Some (Done out) ->
    (forall v, v ∈ visited -> kept repoRoot v -> v ∈ files) ->
    (forall f, f ∈ files -> f ∈ out) /\
    (forall c, c ∈ queue -> c <> [] -> kept repoRoot (resolve cwd [c]) ->
               resolve cwd [c] ∈ out) /\
    (forall f, f ∈ out -> f ∈ files \/ kept repoRoot f).
Proof.
  induction fuel as [|fuel IH]; intros queue files visited out.
  { destruct queue; [|discriminate]. cbn. intros [= <-] _.
    split; [auto|]. split; [|auto]. intros c Hc. now apply elem_of_nil in Hc. }
  destruct queue as [|candidate queue'].
  { cbn. intros [= <-] _.
    split; [auto|]. split; [|auto]. intros c Hc. now apply elem_of_nil in Hc. }
  cbn [collectLoop]. cbv zeta.
  assert (Hnext : forall queue2 files2 visited2,
            collectLoop P storage fuel repoRoot queue2 files2 visited2
            = Some (Done out) ->
            (forall v, v ∈ visited2 -> kept repoRoot v -> v ∈ files2) ->
            (forall f, f ∈ files -> f ∈ files2) ->
            (forall c, c ∈ queue' -> c ∈ queue2) ->
            (forall f, f ∈ files2 -> f ∈ files \/ kept repoRoot f) ->
            (candidate <> [] -> kept repoRoot (resolve cwd [candidate]) ->
             resolve cwd [candidate] ∈ files2) ->
            (forall f, f ∈ files -> f ∈ out) /\
            (forall c, c ∈ candidate :: queue' -> c <> [] ->
                       kept repoRoot (resolve cwd [c]) -> resolve cwd [c] ∈ out) /\
            (forall f, f ∈ out -> f ∈ files \/ kept repoRoot f)).
  { intros queue2 files2 visited2 Hrun Hinv Hfiles Hqueue Hsound Hcand.
    destruct (IH _ _ _ _ Hrun Hinv) as (H1 & H2 & H3).
    split; [auto|]. split.
    - intros c Hc Hne Hk. apply elem_of_cons in Hc as [->|Hc]; [auto|].
      apply H2; auto.
    - intros f Hf. destruct (H3 f Hf) as [Hf'|Hf']; auto. }
  destruct (nonEmpty candidate) eqn:Ene; cbn [negb].
  2:{ intros Hrun Hinv. apply (Hnext _ _ _ Hrun); auto.
      intros Hne. destruct candidate; [congruence|discriminate Ene]. }
  destruct (existsb (eqs (resolve cwd [candidate])) visited) eqn:Ev.
  { intros Hrun Hinv. apply (Hnext _ _ _ Hrun); auto.
    intros _ Hk. apply Hinv; [|exact Hk]. now apply existsb_eqs. }
  destruct (lstat P (resolve cwd [candidate])) as [stats|] eqn:El; [|discriminate].
  destruct (isSymbolicLink stats) eqn:Es.
  { intros Hrun Hinv. apply (Hnext _ _ _ Hrun); auto.
    - intros v Hv Hk. apply elem_of_cons in Hv as [->|Hv]; [|auto].
      destruct Hk as (_ & st & Hst & Hsl & _). congruence.
    - intros _ (_ & st & Hst & Hsl & _). congruence. }
  destruct (isDirectory stats) eqn:Ed.
  { destruct (includesIgnoredDirectory _) eqn:Ei.
    - intros Hrun Hinv. apply (Hnext _ _ _ Hrun); auto.
      + intros v Hv Hk. apply elem_of_cons in Hv as [->|Hv]; [|auto].
        destruct Hk as (_ & st & Hst & _ & Hd & _). congruence.
      + intros _ (_ & st & Hst & _ & Hd & _). congruence.
    - destruct (readdir storage (resolve cwd [candidate])) as [contents|];
        [|discriminate].
      intros Hrun Hinv. apply (Hnext _ _ _ Hrun); auto.
      + intros v Hv Hk. apply elem_of_cons in Hv as [->|Hv]; [|auto].
        destruct Hk as (_ & st & Hst & _ & Hd & _). congruence.
      + intros c Hc. now apply pushed_queue.
      + intros _ (_ & st & Hst & _ & Hd & _). congruence. }
  destruct (isFile stats) eqn:Ef.
  { destruct (includesIgnoredDirectory _) eqn:Ei.
    - intros Hrun Hinv. apply (Hnext _ _ _ Hrun); auto.
      + intros v Hv Hk. apply elem_of_cons in Hv as [->|Hv]; [|auto].
        destruct Hk as (_ & st & Hst & _ & _ & _ & Hi). congruence.
      + intros _ (_ & st & Hst & _ & _ & _ & Hi). congruence.
    - intros Hrun Hinv. apply (Hnext _ _ _ Hrun).
      + intros v Hv Hk. apply elem_of_app.
        apply elem_of_cons in Hv as [->|Hv]; [right; constructor|left; auto].
      + intros f Hf. apply elem_of_app. now left.
      + auto.
      + intros f Hf. apply elem_of_app in Hf as [Hf|Hf]; [now left|].
        apply list_elem_of_singleton in Hf as ->. right.
        split; [apply resolve_resolve|]. exists stats. auto.
      + intros _ _. apply elem_of_app. right. constructor. }
  intros Hrun Hinv. apply (Hnext _ _ _ Hrun); auto.
  - intros v Hv Hk. apply elem_of_cons in Hv as [->|Hv]; [|auto].
    destruct Hk as (_ & st & Hst & _ & _ & Hf & _). congruence.
  - intros _ (_ & st & Hst & _ & _ & Hf & _). congruence.
Qed.

(** X25.  What the walk collects: when [collectFiles] returns, its
    result is sorted, without duplicates, and made of resolved paths of
    regular files that are no symbolic links and lie outside of the
    ignored directories; and every path given to it that resolves to
    such a file is in the result. *)
Theorem collectFiles_kept (fuel : nat) (repoRoot : jstring)
    (inputPaths files : list jstring) :
  collectFiles P storage fuel repoRoot inputPaths = Some (Done files) ->
  Sorted (localeLe P) files /\ NoDup files /\
  Forall (kept repoRoot) files /\
  (forall p, p ∈ inputPaths -> p <> [] -> kept repoRoot (resolve cwd [p]) ->
             resolve cwd [p] ∈ files).
Proof.
  unfold collectFiles.
  destruct (collectLoop P storage fuel repoRoot (rev inputPaths) [] [])
    as [[out|e]|] eqn:E; try discriminate.
  intros [= <-].
  destruct (collectLoop_spec repoRoot fuel _ _ _ _ E) as (_ & H2 & H3).
  { intros v Hv. now apply elem_of_nil in Hv. }
  split; [apply sortDistinct_sorted|]. split; [apply sortDistinct_NoDup|]. split.
  - apply Forall_forall. intros f Hf. apply sortDistinct_elem in Hf.
    destruct (H3 f Hf) as [Hn|Hk]; [now apply elem_of_nil in Hn|exact Hk].
  - intros p Hp Hne Hk. apply sortDistinct_elem. apply H2; auto.
    apply list_elem_of_In. rewrite <- in_rev. now apply list_elem_of_In.
Qed.

(** *** The files that Grep searches *)

Lemma resolveAll_each (root : jstring) (candidates : list jstring) :
  forall resolvedPaths,
    resolveAll P root candidates = Ok resolvedPaths ->
    Forall2 (fun candidate absolute =>
               resolveWithinRepo P root candidate = Ok absolute)
      candidates resolvedPaths.
Proof.
  induction candidates as [|candidate rest IH]; intros resolvedPaths;
    cbn [resolveAll].
  - intros [= <-]. constructor.
  - destruct (resolveWithinRepo P root candidate) as [absolute|] eqn:Ec;
      [|discriminate].
    cbn [mbind result_bind].
    destruct (resolveAll P root rest) as [others|]; [|discriminate].
    cbn [mbind result_bind]. intros [= <-]. constructor; [exact Ec|].
    now apply IH.
Qed.

Lemma collectFiles_sound (fuel : nat) (repoRoot : jstring)
    (inputPaths files : list jstring) :
  collectFiles P storage fuel repoRoot inputPaths = Some (Done files) ->
  Forall (kept repoRoot) files.
Proof.
  unfold collectFiles.
  destruct (collectLoop P storage fuel repoRoot (rev inputPaths) [] [])
    as [[out|e]|] eqn:E; try discriminate.
  intros [= <-].
  destruct (collectLoop_spec repoRoot fuel _ _ _ _ E) as (_ & _ & H3).
  { intros v Hv. now apply elem_of_nil in Hv. }
  apply Forall_forall. intros f Hf. apply sortDistinct_elem in Hf.
  destruct (H3 f Hf) as [Hn|Hk]; [now apply elem_of_nil in Hn|exact Hk].
Qed.

(** With a platform whose [walk] gives the files that [collectFiles]
    returns, [grepTool] is [grepToolWalking]. *)
Lemma grepToolWalking_grepTool (fuel : nat) (root pattern : jstring)
    (flags : option jstring) (providedPath : option PathArgument)
    (maxResults : option nat) (encoding : SupportedEncoding)
    (resolvedPaths files : list jstring) (r : GrepResult) :
  resolveAll P root (requestedPathsOf providedPath) = Ok resolvedPaths ->
  collectFiles P storage fuel root resolvedPaths = Some (Done files) ->
  walk P resolvedPaths = files ->
  grepToolWalking P storage fuel root pattern flags providedPath maxResults encoding
  = Some (Done r) <->
  grepTool P root pattern flags providedPath maxResults encoding = Ok r.
Proof.
  intros Er Ec Ew. unfold grepToolWalking, grepTool. cbv zeta.
  fold (requestedPathsOf providedPath). rewrite Er, Ec. cbn [mbind result_bind].
  rewrite Ew.
  destruct (grepLoop P _ _ files []) as [[matches truncated]|e];
    cbn [mbind result_bind]; split; intros H; try discriminate;
    injection H as <-; reflexivity.
Qed.

(** X22.  Where the matches of Grep are: when the Grep tool returns,
    each of the requested paths (the [path] argument, or [.]) has passed
    [resolveWithinRepo], [collectFiles] has returned the files to search
    from the resolved paths, all of them regular files that are no
    symbolic links and lie outside of the ignored directories, and in
    every match the line and the column count from 1, the column is
    within the offset in the file, and the path is the root-relative
    path of one of these files. *)
Theorem grepTool_matches_placed (fuel : nat) (root pattern : jstring)
    (flags : option jstring) (providedPath : option PathArgument)
    (maxResults : option nat) (encoding : SupportedEncoding) (r : GrepResult) :
  grepToolWalking P storage fuel root pattern flags providedPath maxResults encoding
  = Some (Done r) ->
  exists resolvedPaths files,
    Forall2 (fun candidate absolute =>
               resolveWithinRepo P root candidate = Ok absolute)
      (requestedPathsOf providedPath) resolvedPaths /\
    collectFiles P storage fuel root resolvedPaths = Some (Done files) /\
    Forall (kept root) files /\
    Forall (placed P root files) (grepMatches r).
Proof.
  unfold grepToolWalking. cbv zeta.
  destruct (resolveAll P root _) as [resolvedPaths|e] eqn:Er; [|discriminate].
  destruct (collectFiles P storage fuel root resolvedPaths) as [[files|e]|] eqn:Ec;
    try discriminate.
  destruct (grepLoop P _ _ files []) as [[matches truncated]|e] eqn:E;
    [|discriminate].
  intros [= <-]. cbn [grepMatches fst].
  exists resolvedPaths, files.
  split; [now apply resolveAll_each|]. split; [exact Ec|].
  split; [exact (collectFiles_sound _ _ _ _ Ec)|].
  apply (grepLoop_placed P _ _ files) in E; [exact E|auto|constructor].
Qed.

End WithPlatform.

Lemma readTool_reads_witness :
  exists absolute stats size,
    resolveWithinRepo SampleTree.platform (str "/work") (str "src/a.ts") = Ok absolute /\
    inside (resolve (processCwd SampleTree.platform) [str "/work"]) absolute /\
    lstat SampleTree.platform absolute = Some stats /\
    isSymbolicLink stats = false /\ isFile stats = true /\
    statSize SampleTree.storage absolute = Some size /\
    (size <= default DEFAULT_MAX_READ_BYTES None)%nat /\
    str "hello" = readFile SampleTree.platform absolute utf8 /\
    str "src/a.ts" = toRepoRelative SampleTree.platform (str "/work") absolute /\
    resolve (processCwd SampleTree.platform) [str "/work"; str "src/a.ts"] = absolute /\
    (trim (str "src/a.ts") = str "src/a.ts" ->
     readTool SampleTree.platform SampleTree.storage (str "/work") (str "src/a.ts")
       utf8 None
     = Done {| readPath := str "src/a.ts"; readContent := str "hello" |}).
Proof.
  apply (readTool_reads SampleTree.platform SampleTree.storage (str "/work")
           (str "src/a.ts") utf8 None
           {| readPath := str "src/a.ts"; readContent := str "hello" |}).
  vm_compute. reflexivity.
Defined.

Lemma collectFiles_kept_witness :
  let files := [str "/work/README.md"; str "/work/src/a.ts"; str "/work/src/b.ts"] in
  collectFiles SampleTree.platform SampleTree.storage 20 (str "/work") [str "."]
    = Some (Done files) /\
  Sorted (localeLe SampleTree.platform) files /\ NoDup files /\
  Forall (kept SampleTree.platform (str "/work")) files.
Proof.
  cbv zeta. split; [vm_compute; reflexivity|].
  destruct (collectFiles_kept SampleTree.platform SampleTree.storage 20
              (str "/work") [str "."]
              [str "/work/README.md"; str "/work/src/a.ts"; str "/work/src/b.ts"])
    as (H1 & H2 & H3 & _); [vm_compute; reflexivity|].
  auto.
Defined.

Lemma grepTool_matches_placed_witness :
  exists r resolvedPaths files,
    grepToolWalking SampleTree.platform SampleTree.storage 20 (str "/work")
      (str "l") None (Some (OnePath (str "src"))) None utf8
    = Some (Done r) /\
    length (grepMatches r) = 4%nat /\
    resolvedPaths = [str "/work/src"] /\
    files = [str "/work/src/a.ts"; str "/work/src/b.ts"] /\
    Forall2 (fun candidate absolute =>
               resolveWithinRepo SampleTree.platform (str "/work") candidate
               = Ok absolute)
      (requestedPathsOf (Some (OnePath (str "src")))) resolvedPaths /\
    collectFiles SampleTree.platform SampleTree.storage 20 (str "/work") resolvedPaths
    = Some (Done files) /\
    Forall (kept SampleTree.platform (str "/work")) files /\
    Forall (placed SampleTree.platform (str "/work") files) (grepMatches r).
Proof.
  destruct (grepToolWalking SampleTree.platform SampleTree.storage 20 (str "/work")
              (str "l") None (Some (OnePath (str "src"))) None utf8)
    as [[r|e]|] eqn:E; [|vm_compute in E; discriminate E..].
  destruct (grepTool_matches_placed _ _ _ _ _ _ _ _ _ _ E)
    as (resolvedPaths & files & H1 & H2 & H3 & H4).
  exists r, resolvedPaths, files.
  assert (Hr : resolvedPaths = [str "/work/src"]).
  { inversion H1 as [|c a cs rs Ha Hrest]; subst.
    inversion Hrest; subst. vm_compute in Ha. injection Ha as <-. reflexivity. }
  assert (Hf : files = [str "/work/src/a.ts"; str "/work/src/b.ts"]).
  { subst resolvedPaths. vm_compute in H2. injection H2 as <-. reflexivity. }
  split; [reflexivity|].
  split; [vm_compute in E; injection E as <-; reflexivity|].
  split; [exact Hr|]. split; [exact Hf|]. split; [exact H1|].
  split; [exact H2|]. split; [exact H3|exact H4].
Defined.

End FilesLaws.
